(** * Packed bubble series: sizing, placement and rescaling

    A shallow embedding of [js/parts-more/PackedBubbleSeries.js]: the
    methods [accumulateAllPoints], [checkOverlap], [positionBubble],
    [placeBubbles], [resizeRadius] and [getRadius] of the [packedbubble]
    series type.

    Numbers.  A JavaScript number is modelled as an extended real: a real
    number, one of the two infinities, or NaN; the two zeros are
    identified, and a finite non-zero number divided by zero gives the
    infinity that carries the sign of the dividend.  The operations come
    in two versions.  [Num] computes exactly; it is used where rounding
    does not change what is stated: the control flow of the methods, the
    store, and sizes and positions that are compared with a margin.
    [Double], further down, rounds every result to the nearest binary64
    number, as the program does; it is used for what [checkOverlap] and
    [positionBubble] compute, where rounding decides.

    Arrays.  The five-slot arrays [[x, y, radius, seriesIndex, pointIndex]]
    live in a store and are referred to by address, and so do the arrays of
    such arrays ([allDataPoints], [rawPositions]): the program sorts and
    overwrites them in place and passes them around by reference. *)

From Stdlib Require Import Reals Lra Lia ZArith Psatz.
From stdpp Require Import base list sorting.

Open Scope R_scope.

(** ** Decided comparisons on the reals *)

Definition Rltb (x y : R) : bool := if Rlt_dec x y then true else false.
Definition Reqb (x y : R) : bool := if Req_dec_T x y then true else false.

(** ** JavaScript numbers *)

Inductive num : Type :=
  | NaN
  | NegInf
  | PosInf
  | Fin (r : R).

Declare Scope num_scope.
Delimit Scope num_scope with num.
Bind Scope num_scope with num.

Module Num.

Definition neg (a : num) : num :=
  match a with
  | NaN => NaN
  | NegInf => PosInf
  | PosInf => NegInf
  | Fin x => Fin (- x)
  end.

Definition add (a b : num) : num :=
  match a, b with
  | NaN, _ | _, NaN => NaN
  | PosInf, NegInf | NegInf, PosInf => NaN
  | PosInf, _ | _, PosInf => PosInf
  | NegInf, _ | _, NegInf => NegInf
  | Fin x, Fin y => Fin (x + y)
  end.

Definition sub (a b : num) : num :=
  match a, b with
  | NaN, _ | _, NaN => NaN
  | PosInf, PosInf | NegInf, NegInf => NaN
  | PosInf, _ | _, NegInf => PosInf
  | NegInf, _ | _, PosInf => NegInf
  | Fin x, Fin y => Fin (x - y)
  end.

(** The infinity with the sign of [x], NaN for zero: [x * Infinity]. *)
Definition signed_inf (x : R) : num :=
  if Reqb x 0 then NaN else if Rltb 0 x then PosInf else NegInf.

Definition mul (a b : num) : num :=
  match a, b with
  | NaN, _ | _, NaN => NaN
  | Fin x, Fin y => Fin (x * y)
  | Fin x, PosInf | PosInf, Fin x => signed_inf x
  | Fin x, NegInf | NegInf, Fin x => neg (signed_inf x)
  | PosInf, PosInf | NegInf, NegInf => PosInf
  | PosInf, NegInf | NegInf, PosInf => NegInf
  end.

Definition div (a b : num) : num :=
  match a, b with
  | NaN, _ | _, NaN => NaN
  | Fin x, Fin y => if Reqb y 0 then signed_inf x else Fin (x / y)
  | Fin _, (PosInf | NegInf) => Fin 0
  | PosInf, Fin y => if Rltb y 0 then NegInf else PosInf
  | NegInf, Fin y => if Rltb y 0 then PosInf else NegInf
  | (PosInf | NegInf), (PosInf | NegInf) => NaN
  end.

(** [Math.pow(a, 2)]. *)
Definition pow2 (a : num) : num := mul a a.

(** [Math.abs]. *)
Definition abs (a : num) : num :=
  match a with
  | NaN => NaN
  | NegInf | PosInf => PosInf
  | Fin x => Fin (Rabs x)
  end.

(** [Math.sqrt]. *)
Definition sqrt (a : num) : num :=
  match a with
  | NaN | NegInf => NaN
  | PosInf => PosInf
  | Fin x => if Rltb x 0 then NaN else Fin (R_sqrt.sqrt x)
  end.

(** [Math.ceil]. *)
Definition ceil (a : num) : num :=
  match a with
  | Fin x => Fin (IZR (Zceil x))
  | _ => a
  end.

(** [a < b]; every comparison with NaN is false. *)
Definition ltb (a b : num) : bool :=
  match a, b with
  | NaN, _ | _, NaN => false
  | Fin x, Fin y => Rltb x y
  | NegInf, (PosInf | Fin _) => true
  | Fin _, PosInf => true
  | _, _ => false
  end.

(** [a === b] on numbers. *)
Definition eqb (a b : num) : bool :=
  match a, b with
  | Fin x, Fin y => Reqb x y
  | PosInf, PosInf | NegInf, NegInf => true
  | _, _ => false
  end.

(** [a > b] and [a >= b]. *)
Definition gtb (a b : num) : bool := ltb b a.
Definition geb (a b : num) : bool := ltb b a || eqb a b.

(** [Math.min] and [Math.max] of two numbers. *)
Definition min (a b : num) : num :=
  match a, b with
  | NaN, _ | _, NaN => NaN
  | _, _ => if ltb b a then b else a
  end.

Definition max (a b : num) : num :=
  match a, b with
  | NaN, _ | _, NaN => NaN
  | _, _ => if ltb a b then b else a
  end.

(** [Math.sin], [Math.cos], [Math.asin], [Math.acos]. *)
Definition sin (a : num) : num :=
  match a with Fin x => Fin (Rtrigo_def.sin x) | _ => NaN end.

Definition cos (a : num) : num :=
  match a with Fin x => Fin (Rtrigo_def.cos x) | _ => NaN end.

Definition in_unit (x : R) : bool := negb (Rltb x (-1)) && negb (Rltb 1 x).

Definition asin (a : num) : num :=
  match a with
  | Fin x => if in_unit x then Fin (Ratan.asin x) else NaN
  | _ => NaN
  end.

Definition acos (a : num) : num :=
  match a with
  | Fin x => if in_unit x then Fin (Ratan.acos x) else NaN
  | _ => NaN
  end.

(** ToBoolean of a number: zero and NaN are falsy. *)
Definition truthy (a : num) : bool :=
  match a with
  | NaN => false
  | Fin x => negb (Reqb x 0)
  | _ => true
  end.

End Num.

Infix "+" := Num.add : num_scope.
Infix "-" := Num.sub : num_scope.
Infix "*" := Num.mul : num_scope.
Infix "/" := Num.div : num_scope.

(** ** Slot values

    A slot of a five-slot array holds [null] or a number. *)

Inductive val : Type :=
  | VNull
  | VNum (n : num).

(** ToNumber, applied by every arithmetic operator: [null] counts as 0. *)
Definition toNumber (v : val) : num :=
  match v with
  | VNull => Fin 0
  | VNum n => n
  end.

(** [v || 1]. *)
Definition orOne (v : val) : val :=
  match v with
  | VNull => VNum (Fin 1)
  | VNum n => if Num.truthy n then v else VNum (Fin 1)
  end.

(** [v === null || v === 0]. *)
Definition nullOrZero (v : val) : bool :=
  match v with
  | VNull => true
  | VNum n => Num.eqb n (Fin 0)
  end.

(** The array [[x, y, radius, seriesIndex, pointIndex]]. *)
Record bubble : Type := Bubble {
  slot0 : val;
  slot1 : val;
  slot2 : val;
  slot3 : val;
  slot4 : val
}.

Definition setSlot2 (b : bubble) (v : val) : bubble :=
  Bubble (slot0 b) (slot1 b) v (slot3 b) (slot4 b).

(** ** checkOverlap *)

Definition checkOverlap (bubble1 bubble2 : bubble) : bool :=
  let diffX := (toNumber (slot0 bubble1) - toNumber (slot0 bubble2))%num in
  let diffY := (toNumber (slot1 bubble1) - toNumber (slot1 bubble2))%num in
  let sumRad := (toNumber (slot2 bubble1) + toNumber (slot2 bubble2))%num in
  Num.ltb (Num.sqrt (diffX * diffX + diffY * diffY) - Num.abs sumRad)%num
          (Fin (- 0.001)).

(** ** positionBubble *)

Definition positionBubble (lastBubble newOrigin nextBubble : bubble) : bubble :=
  let l0 := toNumber (slot0 lastBubble) in
  let l1 := toNumber (slot1 lastBubble) in
  let l2 := toNumber (slot2 lastBubble) in
  let o0 := toNumber (slot0 newOrigin) in
  let o1 := toNumber (slot1 newOrigin) in
  let o2 := toNumber (slot2 newOrigin) in
  let n2 := toNumber (slot2 nextBubble) in
  let distance :=
    Num.sqrt (Num.pow2 (l0 - o0) + Num.pow2 (l1 - o1))%num in
  let alfa :=
    Num.acos ((Num.pow2 distance + Num.pow2 (n2 + o2) - Num.pow2 (n2 + l2))
              / (Fin 2 * (n2 + o2) * distance))%num in
  let beta := Num.asin (Num.abs (l0 - o0) / distance)%num in
  let gamma := if Num.ltb (l1 - o1)%num (Fin 0) then Fin 0 else Fin PI in
  let delta :=
    if Num.ltb ((l0 - o0) * (l1 - o1))%num (Fin 0) then Fin 1 else Fin (- 1) in
  let finalAngle := (gamma + alfa + beta * delta)%num in
  let cosA := Num.cos finalAngle in
  let sinA := Num.sin finalAngle in
  let posX := (o0 + (o2 + n2) * sinA)%num in
  let posY := (o1 - (o2 + n2) * cosA)%num in
  Bubble (VNum posX) (VNum posY)
         (slot2 nextBubble) (slot3 nextBubble) (slot4 nextBubble).

(** ** getRadius, one point

    [isPercent] is the test [/%$/.test(length)]: it is applied to the
    number that [parseInt] returned, whose decimal rendering never ends in
    a percent sign, so it is false for every [length]. *)

Definition isPercent (length : num) : bool := false.

Definition extreme (smallestSize length : num) : num :=
  if isPercent length then (smallestSize * length / Fin 100)%num else length.

Definition radiusOf (sizeByArea : bool) (minSize maxSize : num) (value : val)
  : val :=
  let radiusRange := (maxSize - minSize)%num in
  if nullOrZero value then VNull
  else if Num.ltb (toNumber value) minSize then VNum (minSize - Fin 1)%num
  else
    let pos :=
      if Num.gtb radiusRange (Fin 0)
      then ((toNumber value - minSize) / radiusRange)%num
      else Fin 0.5 in
    let pos := if sizeByArea && Num.geb pos (Fin 0) then Num.sqrt pos else pos in
    VNum (Num.ceil (minSize + pos * (maxSize - minSize)) / Fin 2)%num.

(** ** The store and the chart

    [heap] holds the five-slot arrays and [arrays] the arrays of references
    to them; an address is an index, and allocation appends.  The remaining
    fields are the properties of [chart], [series.options] and [series]
    that the methods read or assign; an unassigned property is [None]. *)

Abbreviation loc := nat (only parsing).
Abbreviation aref := nat (only parsing).

(** One entry of [chart.series], as [accumulateAllPoints] reads it. *)
Record seriesData : Type := SeriesData {
  visible : bool;
  processedYData : list val;
  index : num
}.

Record state : Type := State {
  heap : list bubble;
  arrays : list (list loc);
  (* chart *)
  chart_series : list seriesData;
  plotLeft : num;
  plotTop : num;
  plotWidth : num;
  plotHeight : num;
  minRadius : option num;
  maxRadius : option num;
  stages : option (list (list loc));
  rawPositions : option aref;
  diffX : option num;
  diffY : option num;
  (* series.options: what parseInt makes of minPointSize and maxPointSize,
     and whether sizeBy is 'width' *)
  minPointSize : num;
  maxPointSize : num;
  sizeByWidth : bool;
  (* series *)
  allDataPoints : option aref;
  radii : option (list val)
}.

Definition set_heap (h : list bubble) (s : state) : state :=
  State h (arrays s) (chart_series s) (plotLeft s) (plotTop s) (plotWidth s)
        (plotHeight s) (minRadius s) (maxRadius s) (stages s) (rawPositions s)
        (diffX s) (diffY s) (minPointSize s) (maxPointSize s) (sizeByWidth s)
        (allDataPoints s) (radii s).

Definition set_arrays (a : list (list loc)) (s : state) : state :=
  State (heap s) a (chart_series s) (plotLeft s) (plotTop s) (plotWidth s)
        (plotHeight s) (minRadius s) (maxRadius s) (stages s) (rawPositions s)
        (diffX s) (diffY s) (minPointSize s) (maxPointSize s) (sizeByWidth s)
        (allDataPoints s) (radii s).

Definition set_extremes (lo hi : num) (s : state) : state :=
  State (heap s) (arrays s) (chart_series s) (plotLeft s) (plotTop s)
        (plotWidth s) (plotHeight s) (Some lo) (Some hi) (stages s)
        (rawPositions s) (diffX s) (diffY s) (minPointSize s) (maxPointSize s)
        (sizeByWidth s) (allDataPoints s) (radii s).

Definition set_stages (r : list (list loc)) (s : state) : state :=
  State (heap s) (arrays s) (chart_series s) (plotLeft s) (plotTop s)
        (plotWidth s) (plotHeight s) (minRadius s) (maxRadius s) (Some r)
        (rawPositions s) (diffX s) (diffY s) (minPointSize s) (maxPointSize s)
        (sizeByWidth s) (allDataPoints s) (radii s).

Definition set_rawPositions (a : aref) (s : state) : state :=
  State (heap s) (arrays s) (chart_series s) (plotLeft s) (plotTop s)
        (plotWidth s) (plotHeight s) (minRadius s) (maxRadius s) (stages s)
        (Some a) (diffX s) (diffY s) (minPointSize s) (maxPointSize s)
        (sizeByWidth s) (allDataPoints s) (radii s).

Definition set_diff (dx dy : num) (s : state) : state :=
  State (heap s) (arrays s) (chart_series s) (plotLeft s) (plotTop s)
        (plotWidth s) (plotHeight s) (minRadius s) (maxRadius s) (stages s)
        (rawPositions s) (Some dx) (Some dy) (minPointSize s) (maxPointSize s)
        (sizeByWidth s) (allDataPoints s) (radii s).

Definition set_allDataPoints (a : aref) (s : state) : state :=
  State (heap s) (arrays s) (chart_series s) (plotLeft s) (plotTop s)
        (plotWidth s) (plotHeight s) (minRadius s) (maxRadius s) (stages s)
        (rawPositions s) (diffX s) (diffY s) (minPointSize s) (maxPointSize s)
        (sizeByWidth s) (Some a) (radii s).

Definition set_radii (r : list val) (s : state) : state :=
  State (heap s) (arrays s) (chart_series s) (plotLeft s) (plotTop s)
        (plotWidth s) (plotHeight s) (minRadius s) (maxRadius s) (stages s)
        (rawPositions s) (diffX s) (diffY s) (minPointSize s) (maxPointSize s)
        (sizeByWidth s) (allDataPoints s) (Some r).

(** ** Computations on the store

    A method either returns a value and a new state, throws a TypeError
    (a property of [undefined] is read), or runs out of the fuel that
    bounds the recursion between [placeBubbles] and [resizeRadius]. *)

Inductive outcome (A : Type) : Type :=
  | Ret (a : A) (s : state)
  | TypeError
  | OutOfFuel.

Arguments Ret {A} a s.
Arguments TypeError {A}.
Arguments OutOfFuel {A}.

Definition M (A : Type) : Type := state -> outcome A.

Definition ret {A : Type} (a : A) : M A := fun s => Ret a s.

Definition bind {A B : Type} (m : M A) (f : A -> M B) : M B :=
  fun s =>
    match m s with
    | Ret a s' => f a s'
    | TypeError => TypeError
    | OutOfFuel => OutOfFuel
    end.

Notation "x <- m ;; f" := (bind m (fun x => f))
  (at level 100, m at next level, f at level 200, right associativity).
Notation "m ;;; f" := (bind m (fun _ => f))
  (at level 100, f at level 200, right associativity).

Definition throw {A : Type} : M A := fun _ => TypeError.

Definition modify (f : state -> state) : M unit := fun s => Ret tt (f s).

Definition gets {A : Type} (f : state -> A) : M A := fun s => Ret (f s) s.

(** A property that must hold an object. *)
Definition defined {A : Type} (f : state -> option A) : M A :=
  fun s => match f s with Some a => Ret a s | None => TypeError end.

(** [l[i]] for each address in turn. *)
Fixpoint mapEach {A B : Type} (f : A -> M B) (l : list A) : M (list B) :=
  match l with
  | [] => ret []
  | x :: l' => y <- f x ;; ys <- mapEach f l' ;; ret (y :: ys)
  end.

Fixpoint foldEach {A B : Type} (f : A -> B -> M B) (l : list A) (b : B) : M B :=
  match l with
  | [] => ret b
  | x :: l' => b' <- f x b ;; foldEach f l' b'
  end.

Definition getB (l : loc) : M bubble := defined (fun s => heap s !! l).

Definition putB (l : loc) (b : bubble) : M unit :=
  modify (fun s => set_heap (<[l := b]> (heap s)) s).

Definition newB (b : bubble) : M loc :=
  fun s => Ret (length (heap s)) (set_heap (heap s ++ [b]) s).

Definition getArr (a : aref) : M (list loc) := defined (fun s => arrays s !! a).

Definition putArr (a : aref) (l : list loc) : M unit :=
  modify (fun s => set_arrays (<[a := l]> (arrays s)) s).

Definition newArr (l : list loc) : M aref :=
  fun s => Ret (length (arrays s)) (set_arrays (arrays s ++ [l]) s).

(** ** accumulateAllPoints *)

Definition pointsOf (series : seriesData) : list bubble :=
  imap (fun j y => Bubble VNull VNull y (VNum (index series))
                          (VNum (Fin (INR j))))
       (processedYData series).

Definition accumulateAllPoints : M aref :=
  all <- gets chart_series ;;
  refs <- mapEach newB
            (concat (map (fun series =>
                            if visible series then pointsOf series else [])
                         all)) ;;
  newArr refs.

(** ** getRadius *)

Definition getRadius : M unit :=
  plotWidth <- gets plotWidth ;;
  plotHeight <- gets plotHeight ;;
  let smallestSize := Num.min plotWidth plotHeight in
  sizeByWidth <- gets sizeByWidth ;;
  let sizeByArea := negb sizeByWidth in
  allDataPoints <- defined allDataPoints ;;
  minLength <- gets minPointSize ;;
  maxLength <- gets maxPointSize ;;
  let minSize := extreme smallestSize minLength in
  let maxSize := extreme smallestSize maxLength in
  modify (set_extremes minSize maxSize) ;;;
  points <- getArr allDataPoints ;;
  radii <- mapEach (fun l =>
                   point <- getB l ;;
                   let radius := radiusOf sizeByArea minSize maxSize
                                          (slot2 point) in
                   putB l (setSlot2 point radius) ;;;
                   ret radius)
                points ;;
  modify (set_radii radii).

(** ** placeBubbles

    [Array.prototype.sort] with the comparison [b[2] - a[2]], as a stable
    insertion sort: an element stays in front of the ones it compares equal
    or smaller to. *)

Definition compareFn (a b : bubble) : num :=
  (toNumber (slot2 b) - toNumber (slot2 a))%num.

Fixpoint insertBy (x : loc * bubble) (l : list (loc * bubble))
  : list (loc * bubble) :=
  match l with
  | [] => [x]
  | y :: l' =>
      if Num.gtb (compareFn (snd x) (snd y)) (Fin 0)
      then y :: insertBy x l'
      else x :: y :: l'
  end.

Definition sortBy (l : list (loc * bubble)) : list (loc * bubble) :=
  foldr insertBy [] l.

(** The loop variables: the rings built so far and the indices [stage],
    [j] (last bubble of the current ring) and [k] (pivot in the ring
    before). *)
Record cursor : Type := Cursor {
  bubblePos : list (list loc);
  stage : nat;
  j : nat;
  k : nat
}.

(** [bubblePos[s][i]], read through to the array it refers to. *)
Definition ringAt (bp : list (list loc)) (s i : nat) : M bubble :=
  match bp !! s with
  | None => throw
  | Some ring =>
      match ring !! i with
      | None => throw
      | Some l => getB l
      end
  end.

(** [bubblePos[s].push(b)] for a new array [b]. *)
Definition pushAt (bp : list (list loc)) (s : nat) (b : bubble)
  : M (list (list loc)) :=
  match bp !! s with
  | None => throw
  | Some ring => l <- newB b ;; ret (<[s := ring ++ [l]]> bp)
  end.

(** Which of the three branches of the loop body is taken. *)
Inductive branch : Type := NewRing | NextPivot | Append.

(** The condition of the loop body's [if ... else if ... else], for the
    candidate [calculatedBubble]. *)
Definition chooseBranch (c : cursor) (calculatedBubble : bubble) : M branch :=
  first <- ringAt (bubblePos c) (stage c) 0 ;;
  if checkOverlap calculatedBubble first then ret NewRing
  else if negb (1 <? stage c)%nat then ret Append
  else
    match bubblePos c !! (stage c - 1)%nat with
    | None => throw
    | Some ring =>
        match ring !! (k c + 1)%nat with
        | None => ret Append
        | Some l =>
            pivot <- getB l ;;
            if checkOverlap calculatedBubble pivot then ret NextPivot
            else ret Append
        end
    end.

(** One iteration of the loop, for the entry [sortedArr[i]] at address [e].
    Only the bubble that is pushed is put in the store: a candidate that is
    computed and dropped is referred to by nothing. *)
Definition placeStep (e : loc) (c : cursor) : M cursor :=
  entry <- getB e ;;
  putB e (setSlot2 entry (orOne (slot2 entry))) ;;;
  match stage c with
  | O => throw
  | S before =>
      last <- ringAt (bubblePos c) (stage c) (j c) ;;
      origin <- ringAt (bubblePos c) before (k c) ;;
      next <- getB e ;;
      let calculatedBubble := positionBubble last origin next in
      br <- chooseBranch c calculatedBubble ;;
      match br with
      | NewRing =>
          let bp := bubblePos c ++ [[]] in
          last <- ringAt bp (stage c) (j c) ;;
          first <- ringAt bp (stage c) 0 ;;
          next <- getB e ;;
          bp' <- pushAt bp (stage c + 1) (positionBubble last first next) ;;
          ret (Cursor bp' (stage c + 1) 0 0)
      | NextPivot =>
          last <- ringAt (bubblePos c) (stage c) (j c) ;;
          pivot <- ringAt (bubblePos c) before (k c + 1) ;;
          next <- getB e ;;
          bp' <- pushAt (bubblePos c) (stage c)
                        (positionBubble last pivot next) ;;
          ret (Cursor bp' (stage c) (j c + 1) (k c + 1))
      | Append =>
          bp' <- pushAt (bubblePos c) (stage c) calculatedBubble ;;
          ret (Cursor bp' (stage c) (j c + 1) (k c))
      end
  end.

(** What [placeBubbles] returns: an array of scalars built on the spot, or
    the array [chart.rawPositions]. *)
Inductive returned : Type :=
  | Scalars (l : list val)
  | Positions (a : aref).

Definition zero : val := VNum (Fin 0).

(** [allDataPoints.sort(function (a, b) { return b[2] - a[2]; })]: the array
    is rewritten in place and is what the call returns. *)
Definition sortInPlace (allDataPoints : aref) : M (list loc) :=
  refs <- getArr allDataPoints ;;
  contents <- mapEach getB refs ;;
  let sortedArr := map fst (sortBy (zip refs contents)) in
  putArr allDataPoints sortedArr ;;;
  ret sortedArr.

(** The rest of [placeBubbles], on the sorted entries. *)
Definition placeSorted (resizeRadius : M unit) (sortedArr : list loc)
  : M returned :=
  match sortedArr with
  | [] => ret (Scalars [])
  | [e0] =>
      b0 <- getB e0 ;;
      ret (Scalars [zero; zero; slot0 b0; slot1 b0; slot2 b0])
  | e0 :: e1 :: rest =>
      b0 <- getB e0 ;;
      l0 <- newB (Bubble zero zero (slot2 b0) (slot3 b0) (slot4 b0)) ;;
      b1 <- getB e1 ;;
      l1 <- newB (Bubble zero
                         (VNum (Fin 0 - toNumber (slot2 b1)
                                - toNumber (slot2 b0))%num)
                         (slot2 b1) (slot3 b1) (slot4 b1)) ;;
      c <- foldEach placeStep rest (Cursor [[l0]; [l1]] 1 0 0) ;;
      modify (set_stages (bubblePos c)) ;;;
      raw <- newArr (concat (bubblePos c)) ;;
      modify (set_rawPositions raw) ;;;
      resizeRadius ;;;
      raw' <- defined rawPositions ;;
      ret (Positions raw')
  end.

Definition placeBubblesBody (resizeRadius : M unit) (allDataPoints : aref)
  : M returned :=
  sortedArr <- sortInPlace allDataPoints ;;
  placeSorted resizeRadius sortedArr.

(** ** resizeRadius *)

Record box : Type := Box { minX : num; maxX : num; minY : num; maxY : num }.

Definition growBox (b : box) (p : bubble) : box :=
  let radius := toNumber (slot2 p) in
  Box (Num.min (minX b) (toNumber (slot0 p) - radius)%num)
      (Num.max (maxX b) (toNumber (slot0 p) + radius)%num)
      (Num.min (minY b) (toNumber (slot1 p) - radius)%num)
      (Num.max (maxY b) (toNumber (slot1 p) + radius)%num).

Definition boundingBox (ps : list bubble) : box :=
  fold_left growBox ps (Box PosInf NegInf PosInf NegInf).

Definition spaceRatio (s : state) (b : box) : num * num :=
  (((plotWidth s - plotLeft s) / (maxX b - minX b))%num,
   ((plotHeight s - plotTop s) / (maxY b - minY b))%num).

Definition smallerDimension (s : state) (b : box) : num :=
  Num.min (fst (spaceRatio s b)) (snd (spaceRatio s b)).

Definition needsResize (ratio : num) : bool :=
  Num.gtb (Num.abs (ratio - Fin 1)%num) (Fin 1e-10).

Definition scaleRadius (ratio : num) (l : loc) : M unit :=
  p <- getB l ;;
  putB l (setSlot2 p (VNum (toNumber (slot2 p) * ratio)%num)).

Definition resizeRadiusBody (placeBubbles : aref -> M returned) : M unit :=
  raw <- defined rawPositions ;;
  positions <- getArr raw ;;
  contents <- mapEach getB positions ;;
  let b := boundingBox contents in
  s <- gets (fun s => s) ;;
  let ratio := smallerDimension s b in
  if needsResize ratio then
    mapEach (scaleRadius ratio) positions ;;;
    placeBubbles raw ;;;
    ret tt
  else
    modify (set_diff
              (plotWidth s / Fin 2 + plotLeft s - minX b
               - (maxX b - minX b) / Fin 2)%num
              (plotHeight s / Fin 2 + plotTop s - minY b
               - (maxY b - minY b) / Fin 2)%num).

Fixpoint placeBubbles (fuel : nat) (allDataPoints : aref) : M returned :=
  match fuel with
  | O => fun _ => OutOfFuel
  | S fuel' =>
      placeBubblesBody (resizeRadiusBody (placeBubbles fuel')) allDataPoints
  end.

Definition resizeRadius (fuel : nat) : M unit :=
  resizeRadiusBody (placeBubbles fuel).

(** ** translate, up to the call of the parent method *)

Definition layout (fuel : nat) : M returned :=
  all <- accumulateAllPoints ;;
  modify (set_allDataPoints all) ;;;
  getRadius ;;;
  all' <- defined allDataPoints ;;
  placeBubbles fuel all'.

(** ** positionBubble over the reals

    The quantities [positionBubble] computes when the three arrays hold
    finite numbers: the last bubble is at [(lx, ly)] with radius [rl], the
    new origin at [(ox, oy)] with radius [ro], the next bubble has radius
    [rn]. *)

Section Placement.

Variables lx ly rl ox oy ro rn : R.

Definition distanceR : R :=
  sqrt ((lx - ox) * (lx - ox) + (ly - oy) * (ly - oy)).

(** The argument of [acos]. *)
Definition cosAlfa : R :=
  (distanceR * distanceR + (rn + ro) * (rn + ro) - (rn + rl) * (rn + rl))
  / (2 * (rn + ro) * distanceR).

Definition finalAngleR : R :=
  (if Rltb (ly - oy) 0 then 0 else PI) + acos cosAlfa
  + asin (Rabs (lx - ox) / distanceR)
    * (if Rltb ((lx - ox) * (ly - oy)) 0 then 1 else - 1).

End Placement.

(** ** getRadius over the reals

    The normalised position [pos] that [getRadius] computes for a finite
    value that is not below a finite [minSize], after the square root that
    sizing by area applies. *)

Definition posR (area : bool) (lo hi v : R) : R :=
  let pos := if Rltb 0 (hi - lo) then (v - lo) / (hi - lo) else 0.5 in
  if area then sqrt pos else pos.

(** ** Properties stated about the program *)

(** Both radii are finite numbers and the first is at most the second. *)
Definition radiusLe (r1 r2 : val) : Prop :=
  exists x y : R, r1 = VNum (Fin x) /\ r2 = VNum (Fin y) /\ x <= y.

(** The radius is a finite number between [lo] and [hi]. *)
Definition radiusWithin (lo hi : R) (r : val) : Prop :=
  exists x : R, r = VNum (Fin x) /\ lo <= x <= hi.

(** Every array of [refs] read and overwritten in turn, as the loops of
    [getRadius] and [resizeRadius] do. *)
Definition alterAll (g : bubble -> bubble) (refs : list loc) (h : list bubble)
  : list bubble :=
  foldl (fun h l => alter g l h) h refs.

(** The centre and radius of an array whose first three slots hold finite
    numbers ([null] counting as 0). *)
Definition circleOf (p : bubble) : option (R * R * R) :=
  match toNumber (slot0 p), toNumber (slot1 p), toNumber (slot2 p) with
  | Fin x, Fin y, Fin r => Some (x, y, r)
  | _, _, _ => None
  end.

(** [b] is the smallest axis-parallel box around the circles [cs]. *)
Definition tightBox (cs : list (R * R * R)) (b : box) : Prop :=
  exists x0 x1 y0 y1 : R,
    b = Box (Fin x0) (Fin x1) (Fin y0) (Fin y1) /\
    Forall (fun '(x, y, r) =>
              x0 <= x - r /\ x + r <= x1 /\ y0 <= y - r /\ y + r <= y1) cs /\
    Exists (fun '(x, y, r) => x0 = x - r) cs /\
    Exists (fun '(x, y, r) => x1 = x + r) cs /\
    Exists (fun '(x, y, r) => y0 = y - r) cs /\
    Exists (fun '(x, y, r) => y1 = y + r) cs.

(** The radius [getRadius] assigns in state [s] to a point of value [v]. *)
Definition radiusIn (s : state) (v : val) : val :=
  let smallestSize := Num.min (plotWidth s) (plotHeight s) in
  radiusOf (negb (sizeByWidth s))
           (extreme smallestSize (minPointSize s))
           (extreme smallestSize (maxPointSize s)) v.

(** The radius a comparison of [Array.prototype.sort] reads. *)
Definition sortKey (x : loc * bubble) : num := toNumber (slot2 (snd x)).

(** [x] does not have a smaller radius than [y]. *)
Definition notBelow (x y : loc * bubble) : Prop :=
  Num.ltb (sortKey x) (sortKey y) = false.

(** A computation that leaves every array of array references as it is. *)
Definition keepsArrays {A : Type} (m : M A) : Prop :=
  forall s x s', m s = Ret x s' -> arrays s' = arrays s.

(** From [s] to [s'] arrays were only added, and of the existing ones only
    the one at [a0] may have changed. *)
Definition frame (a0 : aref) (s s' : state) : Prop :=
  (length (arrays s) <= length (arrays s'))%nat /\
  forall a : aref,
    a <> a0 -> (a < length (arrays s))%nat -> arrays s' !! a = arrays s !! a.

(** ** Two charts for the examples

    A chart with no arrays yet: one series of index 0, the plot area at
    the origin. *)
Definition chartOf (values : list val) (width height minSize maxSize : R)
  : state :=
  State [] [] [SeriesData true values (Fin 0)]
        (Fin 0) (Fin 0) (Fin width) (Fin height)
        None None None None None None
        (Fin minSize) (Fin maxSize) false None None.

(** No point at all. *)
Definition emptyChart : state := chartOf [] 400 400 5 50.

(** One point of value 10, point sizes 5 and 50. *)
Definition oneChart : state := chartOf [VNum (Fin 10)] 400 400 5 50.

(** Seven points of value 30 and two of value 4, point sizes 4 and 30, a
    plot area 100 wide and 90 high. *)
Definition nineChart : state :=
  chartOf [VNum (Fin 30); VNum (Fin 30); VNum (Fin 30); VNum (Fin 30);
           VNum (Fin 30); VNum (Fin 30); VNum (Fin 30);
           VNum (Fin 4); VNum (Fin 4)]
          100 90 4 30.

(** The data point [i] of series 0 with [v] in slot 2. *)
Definition point (i : nat) (v : R) : bubble :=
  Bubble VNull VNull (VNum (Fin v)) (VNum (Fin 0)) (VNum (Fin (INR i))).

(** The bubble of data point [i] at [(x, y)] with radius [r]. *)
Definition placed (i : nat) (x y r : R) : bubble :=
  Bubble (VNum (Fin x)) (VNum (Fin y)) (VNum (Fin r))
         (VNum (Fin 0)) (VNum (Fin (INR i))).

(** Where the nine bubbles of [nineChart] end up: the centre of bubble 8
    is [(x8, y8)]. *)
Definition d8 : R := sqrt (739 - 240 * sqrt 3).
Definition q8 : R := (d8 * d8 + 273) / (34 * d8).
Definition s8 : R := sqrt (1 - q8 * q8).
Definition x8 : R :=
  17 * ((4 - 15 / 2 * sqrt 3) / d8 * q8 - (45 / 2 - 4 * sqrt 3) / d8 * s8).
Definition y8 : R :=
  -30
  + 17 * ((45 / 2 - 4 * sqrt 3) / d8 * q8 + (4 - 15 / 2 * sqrt 3) / d8 * s8).

(** The candidate position of bubble 8, around bubble 0. *)
Definition sc : R := sqrt (1 - 281 / 289 * (281 / 289)).
Definition xc : R :=
  (4 - 15 / 2 * sqrt 3) * (281 / 289) - (- (15 / 2) - 4 * sqrt 3) * sc.
Definition yc : R :=
  (- (15 / 2) - 4 * sqrt 3) * (281 / 289) + (4 - 15 / 2 * sqrt 3) * sc.

(** The nine data points as [accumulateAllPoints] makes them, and with
    their radii. *)
Definition nineValues : list bubble :=
  [point 0 30; point 1 30; point 2 30; point 3 30; point 4 30; point 5 30;
   point 6 30; point 7 4; point 8 4].

Definition ninePoints : list bubble :=
  [point 0 15; point 1 15; point 2 15; point 3 15; point 4 15; point 5 15;
   point 6 15; point 7 2; point 8 2].

Definition nineBubbles : list bubble :=
  [placed 0 0 0 15;
   placed 1 0 (-30) 15;
   placed 2 (15 * sqrt 3) (-15) 15;
   placed 3 (15 * sqrt 3) 15 15;
   placed 4 0 30 15;
   placed 5 (- (15 * sqrt 3)) 15 15;
   placed 6 (- (15 * sqrt 3)) (-15) 15;
   placed 7 (4 - 15 / 2 * sqrt 3) (- (15 / 2) - 4 * sqrt 3) 2;
   placed 8 x8 y8 2].

(** [nineChart] after [accumulateAllPoints] and [getRadius]. *)
Definition nineSized : state :=
  set_radii [VNum (Fin 15); VNum (Fin 15); VNum (Fin 15); VNum (Fin 15);
             VNum (Fin 15); VNum (Fin 15); VNum (Fin 15);
             VNum (Fin 2); VNum (Fin 2)]
    (set_heap ninePoints
       (set_extremes (Fin 4) (Fin 30)
          (set_allDataPoints 0%nat
             (set_arrays [[0; 1; 2; 3; 4; 5; 6; 7; 8]%nat] nineChart)))).

(** The store and the loop variables of [placeBubbles] on [nineSized]
    after [n] iterations of the loop, while the first ring is filled. *)
Definition packed (n : nat) : state :=
  set_heap (ninePoints ++ take (2 + n) nineBubbles) nineSized.

Definition ringCursor (n : nat) : cursor :=
  Cursor [[9%nat]; seq 10 (S n)] 1 n 0.

(** [nineSized] after the loop of [placeBubbles], as [resizeRadius] finds
    it: three rings, flattened into the array at address 1. *)
Definition nineRings : list (list loc) :=
  [[9%nat]; seq 10 7; [17%nat]].

Definition nineBefore : state :=
  set_rawPositions 1%nat
    (set_arrays [seq 0 9; seq 9 9]
       (set_stages nineRings (packed 7))).

(** Two points, of values 4 and 30, point sizes 4 and 30, a plot area 100
    wide and 34 high; after [accumulateAllPoints] and [getRadius], and as
    [resizeRadius] finds it. *)
Definition twoChart : state := chartOf [VNum (Fin 4); VNum (Fin 30)] 100 34 4 30.

Definition twoSized : state :=
  set_radii [VNum (Fin 2); VNum (Fin 15)]
    (set_heap [point 0 2; point 1 15]
       (set_extremes (Fin 4) (Fin 30)
          (set_allDataPoints 0%nat
             (set_arrays [[0; 1]%nat] twoChart)))).

Definition twoBubbles : list bubble :=
  [placed 1 0 0 15; placed 0 0 (-17) 2].

Definition twoBefore : state :=
  set_rawPositions 1%nat
    (set_arrays [[1; 0]%nat; [2; 3]%nat]
       (set_stages [[2%nat]; [3%nat]]
          (set_heap ([point 0 2; point 1 15] ++ twoBubbles) twoSized))).

(** ** Further properties stated about the program *)

(** One of the three numbers of the circle is NaN. *)
Definition holdsNaN (b : bubble) : Prop :=
  toNumber (slot0 b) = NaN \/ toNumber (slot1 b) = NaN \/
  toNumber (slot2 b) = NaN.

(** The arrays [accumulateAllPoints] pushes: the points of the visible
    series, series after series. *)
Definition visiblePoints (all : list seriesData) : list bubble :=
  concat (map (fun series => if visible series then pointsOf series else [])
              all).

(** An entry after [sortedArr[i][2] = sortedArr[i][2] || 1]. *)
Definition orOneRadius (b : bubble) : bubble := setSlot2 b (orOne (slot2 b)).

(** The loop variables of [placeBubbles] index what they are used for, in
    a store of [n] five-slot arrays: [stage] is the last ring and not the
    first, [j] the last bubble of that ring, [k] a bubble of the ring
    before. *)
Definition cursorOk (c : cursor) (n : nat) : Prop :=
  (1 <= stage c)%nat /\
  length (bubblePos c) = S (stage c) /\
  Forall (Forall (fun l : nat => (l < n)%nat)) (bubblePos c) /\
  (exists ring, bubblePos c !! stage c = Some ring /\ length ring = S (j c)) /\
  (exists ring, bubblePos c !! (stage c - 1)%nat = Some ring /\
                (k c < length ring)%nat).

(** [p] is a bubble for the entry [entry]: it has its series index and
    point index, and its radius after [|| 1]. *)
Definition bubbleFor (entry p : bubble) : Prop :=
  slot2 p = orOne (slot2 entry) /\ slot3 p = slot3 entry /\
  slot4 p = slot4 entry.

(** The two bubbles [placeBubbles] starts from, for the first two entries
    of the sorted array. *)
Definition seed0 (b0 : bubble) : bubble :=
  Bubble zero zero (slot2 b0) (slot3 b0) (slot4 b0).

Definition seed1 (b0 b1 : bubble) : bubble :=
  Bubble zero
         (VNum (Fin 0 - toNumber (slot2 b1) - toNumber (slot2 b0))%num)
         (slot2 b1) (slot3 b1) (slot4 b1).

(** The point a five-slot array stands for: series index and point
    index. *)
Definition identity (b : bubble) : val * val := (slot3 b, slot4 b).

(** [resizeRadius] has accepted the bubbles [finals] in [s]: their scale
    factor is not further than 1e-10 from 1, and [diffX] and [diffY] hold
    the centring offsets of their bounding box. *)
Definition accepted (s : state) (finals : list bubble) : Prop :=
  let b := boundingBox finals in
  needsResize (smallerDimension s b) = false /\
  diffX s = Some (plotWidth s / Fin 2 + plotLeft s - minX b
                  - (maxX b - minX b) / Fin 2)%num /\
  diffY s = Some (plotHeight s / Fin 2 + plotTop s - minY b
                  - (maxY b - minY b) / Fin 2)%num.

(** The first bubble is at (0, 0) and the second straight above it, at
    [0 - radius1 - radius0]. *)
Definition seeded (finals : list bubble) : Prop :=
  exists f0 f1 others,
    finals = f0 :: f1 :: others /\
    slot0 f0 = zero /\ slot1 f0 = zero /\ slot0 f1 = zero /\
    slot1 f1 = VNum (Fin 0 - toNumber (slot2 f1) - toNumber (slot2 f0))%num.

(** [chart.rawPositions] is the array [raw], which holds the bubbles
    [finals], each an array of its own. *)
Definition holdsPositions (s : state) (raw : aref) (finals : list bubble)
  : Prop :=
  rawPositions s = Some raw /\
  exists positions : list loc,
    arrays s !! raw = Some positions /\ NoDup positions /\
    Forall2 (fun l p => heap s !! l = Some p) positions finals.

(** What a run of [placeBubbles] on the entries [contents] has produced
    when it returns [r] in state [s']. *)
Definition finalLayout (contents : list bubble) (r : returned) (s' : state)
  : Prop :=
  exists (raw : aref) (finals : list bubble),
    r = Positions raw /\ holdsPositions s' raw finals /\
    map identity finals ≡ₚ map identity contents /\
    accepted s' finals /\ seeded finals.

(** The plot area is the same in both states. *)
Definition samePlot (s s' : state) : Prop :=
  plotLeft s' = plotLeft s /\ plotTop s' = plotTop s /\
  plotWidth s' = plotWidth s /\ plotHeight s' = plotHeight s.

(** From [s] to [s'] the five-slot arrays of [s] have stayed as they were,
    but that an entry of [refs] may have got the radius that [|| 1] gives
    it. *)
Definition entriesKept (refs : list loc) (s s' : state) : Prop :=
  forall (l : loc) (b : bubble),
    heap s !! l = Some b ->
    (l ∉ refs -> heap s' !! l = Some b) /\
    (l ∈ refs ->
     heap s' !! l = Some b \/ heap s' !! l = Some (orOneRadius b)).

(** The scale factor of two bubbles of radii [rb >= rs], one straight above
    the other, in a plot area whose usable size is [w] by [h]. *)
Definition pairRatio (w h rb rs : R) : R :=
  Rmin (w / (2 * rb)) (h / (2 * (rb + rs))).

(** ** translate: the points of the series

    [series.data] as the loop of [translate] uses it: an array of point
    objects, of which the properties that the loop assigns are kept; a
    property that is not set is [None].  The three properties that
    [H.extend] copies onto [point.marker] are those of [markerProps]; what
    else a marker holds is left out. *)

Record markerProps : Type := MarkerProps {
  marker_radius : val;
  marker_width : num;
  marker_height : num
}.

Record boxProps : Type := BoxProps {
  box_x : num;
  box_y : num;
  box_width : num;
  box_height : num
}.

Record dataPoint : Type := DataPoint {
  plotX : option num;
  plotY : option num;
  marker : option markerProps;
  dlBox : option boxProps
}.

(** [a === index] for a slot value and a number. *)
Definition strictEq (v : val) (index : num) : bool :=
  match v with
  | VNull => false
  | VNum n => Num.eqb n index
  end.

(** The array index that a slot value is as a property key, if it is
    one. *)
Definition arrayIndex (key : val) : option nat :=
  match key with
  | VNum (Fin x) =>
      if Reqb (IZR (Zfloor x)) x && (0 <=? Zfloor x)%Z
      then Some (Z.to_nat (Zfloor x)) else None
  | _ => None
  end.

(** ToNumber of a property that may be undefined. *)
Definition numberOf (property : option num) : num :=
  match property with
  | Some n => n
  | None => NaN
  end.

(** The point after the assignments of the loop body, for the bubble
    [position] of it. *)
Definition movePoint (s : state) (position : bubble) : dataPoint :=
  let radius := slot2 position in
  let plotX :=
    (toNumber (slot0 position) - plotLeft s + numberOf (diffX s))%num in
  let plotY :=
    (toNumber (slot1 position) - plotTop s + numberOf (diffY s))%num in
  DataPoint (Some plotX) (Some plotY)
            (Some (MarkerProps radius (Fin 2 * toNumber radius)%num
                               (Fin 2 * toNumber radius)%num))
            (Some (BoxProps (plotX - toNumber radius)%num
                            (plotY - toNumber radius)%num
                            (Fin 2 * toNumber radius)%num
                            (Fin 2 * toNumber radius)%num)).

(** One iteration of the loop, for [positions[i]] an array. *)
Definition translateStep (index : num) (position : bubble)
    (data : list dataPoint) : M (list dataPoint) :=
  if strictEq (slot3 position) index then
    match arrayIndex (slot4 position) with
    | None => throw
    | Some i =>
        match data !! i with
        | None => throw
        | Some _ =>
            s <- gets (fun s => s) ;;
            ret (<[i := movePoint s position]> data)
        end
    end
  else ret data.

(** The loop over what [placeBubbles] returned.  When that is the array of
    scalars, [positions[i][3]] is a property of a number, which is
    undefined and not [index], or of [null], which throws. *)
Definition translateLoop (index : num) (positions : returned)
    (data : list dataPoint) : M (list dataPoint) :=
  match positions with
  | Scalars l =>
      foldEach (fun v data =>
                  match v with
                  | VNull => throw
                  | VNum _ => ret data
                  end) l data
  | Positions raw =>
      refs <- getArr raw ;;
      foldEach (fun l data =>
                  position <- getB l ;; translateStep index position data)
               refs data
  end.

(** [translate], for a series of index [index] and points [data].  The
    parent method [H.seriesTypes.scatter.prototype.translate] is defined
    elsewhere in the library: it is a parameter, which works on the points. *)
Definition translate (scatterTranslate : list dataPoint -> M (list dataPoint))
    (fuel : nat) (index : num) (data : list dataPoint)
  : M (list dataPoint) :=
  positions <- layout fuel ;;
  data' <- scatterTranslate data ;;
  translateLoop index positions data'.

(** The bubbles among [finals] that belong to the series of index
    [index]. *)
Definition ownBubbles (index : num) (finals : list bubble) : list bubble :=
  List.filter (fun b => strictEq (slot3 b) index) finals.

(** [twoBefore] after [resizeRadius] has accepted it, and two points that
    have no property yet. *)
Definition twoAfter : state := set_diff (Fin 50) (Fin 19) twoBefore.

Definition twoData : list dataPoint :=
  [DataPoint None None None None; DataPoint None None None None].

(** The pair of series index and point index of point [j] of a series of
    index [index]. *)
Definition identityOf (index : num) (j : nat) : val * val :=
  (VNum index, VNum (Fin (INR j))).

(** The array index a slot value is as a key, 0 when it is none. *)
Definition indexOr0 (key : val) : nat :=
  match arrayIndex key with
  | Some i => i
  | None => 0%nat
  end.

(** An array of two entries of radius null and 0, in a plot area of 400 by
    400. *)
Definition zeroSized : state :=
  set_heap [Bubble VNull VNull VNull zero zero;
            Bubble VNull VNull zero zero (VNum (Fin 1))]
    (set_arrays [[0; 1]%nat] emptyChart).

(** ** More charts and stores for the examples

    [twoChart] after [accumulateAllPoints]. *)
Definition twoValues : state :=
  set_allDataPoints 0%nat
    (set_arrays [[0; 1]%nat] (set_heap [point 0 4; point 1 30] twoChart)).

(** Two points, of values 5 and 10, and one point of value 10, with point
    sizes 10 and 100 in a plot area of 400 by 400. *)
Definition sizesChart : state :=
  chartOf [VNum (Fin 5); VNum (Fin 10)] 400 400 10 100.

Definition floorChart : state := chartOf [VNum (Fin 10)] 400 400 10 100.

(** [translate] up to and including [getRadius]. *)
Definition sized : M unit :=
  all <- accumulateAllPoints ;;
  modify (set_allDataPoints all) ;;;
  getRadius.

(** A store and loop variables in the third ring: the ring before holds
    the bubbles at addresses 2 and 3, the current ring those at 4 and 5,
    and the entry at address 0 is placed next. *)
Definition pivotStore : state :=
  set_heap [point 5 1; placed 0 0 (-9) 1; placed 1 0 0 3; placed 2 2 (-2) 1;
            placed 3 3 (-3) 1; placed 4 0 (-5) 2] emptyChart.

Definition pivotCursor : cursor := Cursor [[1]; [2; 3]; [4; 5]]%nat 2 1 0.

(** ** Double precision

    The definitions above compute with exact real numbers.  The program
    computes with IEEE 754 binary64 numbers: every operation yields the
    exact result rounded to the nearest number that has a significand of
    53 bits, ties to the even significand, with gradual underflow down to
    [2 ^ -1074] and overflow to an infinity from [2 ^ 1024] on.  [Double]
    holds the same operations and the two functions that compute
    distances, [checkOverlap] and [positionBubble], with that rounding
    after every operation. *)

Module Double.

(** The exponent [e] with [2 ^ (e - 1) <= |x| < 2 ^ e], for [x] other than
    0. *)
Definition mag (x : R) : Z := (Zfloor (ln (Rabs x) / ln 2) + 1)%Z.

(** The exponent of the last bit of the significand of [x]. *)
Definition exponent (x : R) : Z := Z.max (mag x - 53) (-1074).

(** The integer nearest to [t], the even one of two that are equally
    near. *)
Definition nearestEven (t : R) : Z :=
  let f := Zfloor t in
  if Rltb (t - IZR f) (1 / 2) then f
  else if Rltb (1 / 2) (t - IZR f) then (f + 1)%Z
  else if Z.even f then f else (f + 1)%Z.

(** [x] rounded to 53 bits, whatever its size. *)
Definition rnd (x : R) : R :=
  IZR (nearestEven (x * powerRZ 2 (- exponent x))) * powerRZ 2 (exponent x).

(** The binary64 number that the real number [x] is rounded to. *)
Definition round (x : R) : num :=
  let y := rnd x in
  if Rltb (Rabs y) (powerRZ 2 1024) then Fin y
  else if Rltb 0 y then PosInf else NegInf.

Definition lift (a : num) : num :=
  match a with
  | Fin x => round x
  | _ => a
  end.

Definition add (a b : num) : num := lift (Num.add a b).
Definition sub (a b : num) : num := lift (Num.sub a b).
Definition mul (a b : num) : num := lift (Num.mul a b).
Definition div (a b : num) : num := lift (Num.div a b).

(** [Math.sqrt], and [Math.pow(a, 2)] as the product [a * a]. *)
Definition sqrt (a : num) : num := lift (Num.sqrt a).
Definition pow2 (a : num) : num := mul a a.

(** [Math.PI] and the literal [0.001]. *)
Definition PI : num := round Rtrigo1.PI.
Definition thousandth : num := round 0.001.

(** [Math.acos], [Math.asin], [Math.cos] and [Math.sin] are left to the
    implementation by the language: they are parameters. *)
Record mathLibrary : Type := MathLibrary {
  Math_acos : num -> num;
  Math_asin : num -> num;
  Math_cos : num -> num;
  Math_sin : num -> num
}.

(** What is assumed of them: [Math.acos] and [Math.asin] return NaN outside
    [[-1, 1]] (NaN and the infinities included) and, inside, a number of at
    most 5 and of at most 3 in size; [Math.cos] and [Math.sin] return NaN
    for NaN and, for an angle of at most 16 in size, a number within
    [2 ^ -52] of the cosine and of the sine. *)
Record conforming (m : mathLibrary) : Prop := Conforming {
  acos_outside : forall a : num,
    (forall x : R, a = Fin x -> x < -1 \/ 1 < x) -> Math_acos m a = NaN;
  acos_inside : forall x : R,
    -1 <= x <= 1 -> exists y : R, Math_acos m (Fin x) = Fin y /\ Rabs y <= 5;
  asin_outside : forall a : num,
    (forall x : R, a = Fin x -> x < -1 \/ 1 < x) -> Math_asin m a = NaN;
  asin_inside : forall x : R,
    -1 <= x <= 1 -> exists y : R, Math_asin m (Fin x) = Fin y /\ Rabs y <= 3;
  cos_NaN : Math_cos m NaN = NaN;
  sin_NaN : Math_sin m NaN = NaN;
  cos_near : forall x : R,
    Rabs x <= 16 ->
    exists y : R, Math_cos m (Fin x) = Fin y
                  /\ Rabs (y - Rtrigo_def.cos x) <= powerRZ 2 (-52);
  sin_near : forall x : R,
    Rabs x <= 16 ->
    exists y : R, Math_sin m (Fin x) = Fin y
                  /\ Rabs (y - Rtrigo_def.sin x) <= powerRZ 2 (-52)
}.

(** The four functions rounded correctly. *)
Definition correctlyRounded : mathLibrary :=
  MathLibrary (fun a => lift (Num.acos a)) (fun a => lift (Num.asin a))
              (fun a => lift (Num.cos a)) (fun a => lift (Num.sin a)).

(** *** checkOverlap *)

Definition checkOverlap (bubble1 bubble2 : bubble) : bool :=
  let diffX := sub (toNumber (slot0 bubble1)) (toNumber (slot0 bubble2)) in
  let diffY := sub (toNumber (slot1 bubble1)) (toNumber (slot1 bubble2)) in
  let sumRad := add (toNumber (slot2 bubble1)) (toNumber (slot2 bubble2)) in
  Num.ltb (sub (sqrt (add (mul diffX diffX) (mul diffY diffY)))
               (Num.abs sumRad))
          (Num.neg thousandth).

(** *** positionBubble *)

Section Position.

Variable m : mathLibrary.
Variables lastBubble newOrigin nextBubble : bubble.

Let l0 := toNumber (slot0 lastBubble).
Let l1 := toNumber (slot1 lastBubble).
Let l2 := toNumber (slot2 lastBubble).
Let o0 := toNumber (slot0 newOrigin).
Let o1 := toNumber (slot1 newOrigin).
Let o2 := toNumber (slot2 newOrigin).
Let n2 := toNumber (slot2 nextBubble).

Definition distance : num :=
  sqrt (add (pow2 (sub l0 o0)) (pow2 (sub l1 o1))).

(** The quotient handed to [Math.acos]. *)
Definition cosAlfa : num :=
  div (sub (add (pow2 distance) (pow2 (add n2 o2))) (pow2 (add n2 l2)))
      (mul (mul (Fin 2) (add n2 o2)) distance).

(** The quotient handed to [Math.asin]. *)
Definition sinBeta : num := div (Num.abs (sub l0 o0)) distance.

Definition finalAngle : num :=
  let alfa := Math_acos m cosAlfa in
  let beta := Math_asin m sinBeta in
  let gamma := if Num.ltb (sub l1 o1) (Fin 0) then Fin 0 else PI in
  let delta :=
    if Num.ltb (mul (sub l0 o0) (sub l1 o1)) (Fin 0) then Fin 1
    else Fin (- 1) in
  add (add gamma alfa) (mul beta delta).

Definition positionBubble : bubble :=
  let cosA := Math_cos m finalAngle in
  let sinA := Math_sin m finalAngle in
  let posX := add o0 (mul (add o2 n2) sinA) in
  let posY := sub o1 (mul (add o2 n2) cosA) in
  Bubble (VNum posX) (VNum posY)
         (slot2 nextBubble) (slot3 nextBubble) (slot4 nextBubble).

End Position.

End Double.

(** The bounds on the error of one rounding: [u] on the relative error,
    [eta] on the absolute error of a result below the normal range;
    [sigma] is above the square root of [4 * eta]. *)
Definition u : R := powerRZ 2 (-53).
Definition eta : R := powerRZ 2 (-1075).
Definition sigma : R := powerRZ 2 (-536).

(** The Euclidean norm. *)
Definition norm (x y : R) : R := sqrt (x * x + y * y).

(** The centre of [result] has finite coordinates and lies within [tol] of
    the distance [origin.radius + next.radius] from the centre of
    [origin]. *)
Definition tangentWithin (tol : R) (origin next result : bubble) : Prop :=
  exists x y ox oy ro rn : R,
    slot0 result = VNum (Fin x) /\ slot1 result = VNum (Fin y) /\
    toNumber (slot0 origin) = Fin ox /\ toNumber (slot1 origin) = Fin oy /\
    toNumber (slot2 origin) = Fin ro /\ toNumber (slot2 next) = Fin rn /\
    Rabs (sqrt ((x - ox) ^ 2 + (y - oy) ^ 2) - (ro + rn)) <= tol.

(** Both coordinates of [result] are NaN. *)
Definition nowhere (result : bubble) : Prop :=
  slot0 result = VNum NaN /\ slot1 result = VNum NaN.

(** The double nearest to 0.001. *)
Definition double_0_001 : R := IZR 4611686018427388 * powerRZ 2 (-62).

(** The doubles nearest to 43.6 and to 19.7. *)
Definition double_43_6 : R := IZR 6136154492292301 * powerRZ 2 (-47).
Definition double_19_7 : R := IZR 5545057041199923 * powerRZ 2 (-48).

(** * Proofs *)

(** ** Arithmetic *)

Lemma Rltb_true (x y : R) : x < y -> Rltb x y = true.
Proof. intros H. unfold Rltb. destruct (Rlt_dec x y); [reflexivity | lra]. Qed.

Lemma Rltb_false (x y : R) : y <= x -> Rltb x y = false.
Proof. intros H. unfold Rltb. destruct (Rlt_dec x y); [lra | reflexivity]. Qed.

Lemma Rltb_iff (x y : R) : Rltb x y = true <-> x < y.
Proof.
  unfold Rltb. destruct (Rlt_dec x y); split; intros; try easy.
Qed.

Lemma Reqb_true (x y : R) : x = y -> Reqb x y = true.
Proof. intros H. unfold Reqb. destruct (Req_dec_T x y); [reflexivity | lra]. Qed.

Lemma Reqb_false (x y : R) : x <> y -> Reqb x y = false.
Proof. intros H. unfold Reqb. destruct (Req_dec_T x y); [lra | reflexivity]. Qed.

Lemma sqrt_Fin (x : R) : 0 <= x -> Num.sqrt (Fin x) = Fin (sqrt x).
Proof. intros H. unfold Num.sqrt. now rewrite Rltb_false. Qed.

Lemma div_Fin (x y : R) : y <> 0 -> (Fin x / Fin y)%num = Fin (x / y).
Proof. intros H. unfold Num.div. now rewrite Reqb_false. Qed.

Lemma in_unit_true (x : R) : -1 <= x <= 1 -> Num.in_unit x = true.
Proof.
  intros [H1 H2]. unfold Num.in_unit.
  now rewrite !Rltb_false.
Qed.

Lemma in_unit_above (x : R) : 1 < x -> Num.in_unit x = false.
Proof.
  intros H. unfold Num.in_unit.
  rewrite (Rltb_true 1 x) by assumption. apply andb_false_r.
Qed.

Lemma sum_sqr_nonneg (a b : R) : 0 <= a * a + b * b.
Proof. nra. Qed.

Ltac num_cbn :=
  cbn [Num.sub Num.add Num.mul Num.neg Num.abs Num.pow2 Num.ltb Num.gtb
       Num.sin Num.cos Num.ceil toNumber slot0 slot1 slot2 slot3 slot4].

(** ** positionBubble *)

Lemma sqr_pos (a : R) : a <> 0 -> 0 < a * a.
Proof. intros H. apply (Rsqr_pos_lt a H). Qed.

Lemma distanceR_pos lx ly ox oy : (lx <> ox \/ ly <> oy) -> 0 < distanceR lx ly ox oy.
Proof.
  intros H. unfold distanceR. apply sqrt_lt_R0.
  destruct H as [H|H].
  - assert (0 < (lx - ox) * (lx - ox)) by (apply sqr_pos; lra).
    pose proof (Rle_0_sqr (ly - oy)) as H1. unfold Rsqr in H1. lra.
  - assert (0 < (ly - oy) * (ly - oy)) by (apply sqr_pos; lra).
    pose proof (Rle_0_sqr (lx - ox)) as H1. unfold Rsqr in H1. lra.
Qed.

Lemma distanceR_sqr lx ly ox oy :
  distanceR lx ly ox oy * distanceR lx ly ox oy = (lx - ox) * (lx - ox) + (ly - oy) * (ly - oy).
Proof. unfold distanceR. apply sqrt_sqrt. apply sum_sqr_nonneg. Qed.

Lemma abs_le_distanceR lx ly ox oy : Rabs (lx - ox) <= distanceR lx ly ox oy.
Proof.
  unfold distanceR.
  rewrite <- (sqrt_Rsqr_abs (lx - ox)). apply sqrt_le_1.
  - apply Rle_0_sqr.
  - apply sum_sqr_nonneg.
  - unfold Rsqr. pose proof (Rle_0_sqr (ly - oy)) as H1. unfold Rsqr in H1. lra.
Qed.

Lemma if_Fin (b : bool) (x y : R) : (if b then Fin x else Fin y) = Fin (if b then x else y).
Proof. now destruct b. Qed.

Lemma acos_Fin (x : R) : -1 <= x <= 1 -> Num.acos (Fin x) = Fin (acos x).
Proof. intros H. unfold Num.acos. now rewrite in_unit_true. Qed.

Lemma asin_Fin (x : R) : -1 <= x <= 1 -> Num.asin (Fin x) = Fin (asin x).
Proof. intros H. unfold Num.asin. now rewrite in_unit_true. Qed.

Lemma positionBubble_finite (lx ly rl ox oy ro rn : R) (l3 l4 o3 o4 n0 n1 n3 n4 : val) :
  (lx <> ox \/ ly <> oy) -> rn + ro <> 0 ->
  -1 <= cosAlfa lx ly rl ox oy ro rn <= 1 ->
  positionBubble (Bubble (VNum (Fin lx)) (VNum (Fin ly)) (VNum (Fin rl)) l3 l4)
                 (Bubble (VNum (Fin ox)) (VNum (Fin oy)) (VNum (Fin ro)) o3 o4)
                 (Bubble n0 n1 (VNum (Fin rn)) n3 n4)
  = Bubble (VNum (Fin (ox + (ro + rn) * sin (finalAngleR lx ly rl ox oy ro rn))))
           (VNum (Fin (oy - (ro + rn) * cos (finalAngleR lx ly rl ox oy ro rn))))
           (VNum (Fin rn)) n3 n4.
Proof.
  intros Hd Hr Hq.
  pose proof (distanceR_pos lx ly ox oy Hd) as Hpos.
  pose proof (abs_le_distanceR lx ly ox oy) as Habs.
  unfold positionBubble. num_cbn.
  rewrite sqrt_Fin by apply sum_sqr_nonneg.
  fold (distanceR lx ly ox oy). num_cbn.
  rewrite !div_Fin by nra.
  fold (cosAlfa lx ly rl ox oy ro rn).
  rewrite acos_Fin by assumption.
  rewrite asin_Fin.
  2:{ split.
      - apply Rle_trans with 0; [lra|].
        apply Rmult_le_pos; [apply Rabs_pos|].
        left. now apply Rinv_0_lt_compat.
      - apply (Rmult_le_reg_r (distanceR lx ly ox oy)); [assumption|].
        unfold Rdiv. rewrite Rmult_assoc, Rinv_l by lra. lra. }
  rewrite !if_Fin. num_cbn.
  fold (finalAngleR lx ly rl ox oy ro rn).
  reflexivity.
Qed.

Lemma sqrt_of_square (a b : R) : 0 <= b -> a = b * b -> sqrt a = b.
Proof. intros Hb ->. now apply sqrt_square. Qed.

(** ** getRadius: the radius of one point *)

Lemma nullOrZero_Fin (v : R) : v <> 0 -> nullOrZero (VNum (Fin v)) = false.
Proof. intros H. cbn. now apply Reqb_false. Qed.

Lemma geb_Fin_0 (p : R) : 0 <= p -> Num.geb (Fin p) (Fin 0) = true.
Proof.
  intros H. unfold Num.geb. cbn.
  destruct (Req_dec_T p 0) as [->|Hne].
  - rewrite Reqb_true by reflexivity. apply orb_true_r.
  - rewrite Rltb_true by lra. reflexivity.
Qed.

Lemma radiusOf_below (area : bool) (lo hi v : R) :
  v <> 0 -> v < lo ->
  radiusOf area (Fin lo) (Fin hi) (VNum (Fin v)) = VNum (Fin (lo - 1)).
Proof.
  intros Hv Hlt. unfold radiusOf.
  rewrite nullOrZero_Fin by assumption. num_cbn.
  now rewrite Rltb_true.
Qed.

Lemma quotient_nonneg (lo hi v : R) : lo <= v -> 0 < hi - lo -> 0 <= (v - lo) / (hi - lo).
Proof.
  intros H1 H2. apply Rmult_le_pos; [lra|]. left. now apply Rinv_0_lt_compat.
Qed.

Lemma radiusOf_above (area : bool) (lo hi v : R) :
  v <> 0 -> lo <= v ->
  radiusOf area (Fin lo) (Fin hi) (VNum (Fin v))
  = VNum (Fin (IZR (Zceil (lo + posR area lo hi v * (hi - lo))) / 2)).
Proof.
  intros Hv Hge. unfold radiusOf, posR.
  rewrite nullOrZero_Fin by assumption. num_cbn.
  rewrite Rltb_false by assumption.
  destruct (Rlt_dec 0 (hi - lo)) as [Hr|Hr].
  - rewrite Rltb_true by assumption.
    rewrite div_Fin by lra.
    pose proof (quotient_nonneg lo hi v Hge Hr) as Hq.
    rewrite geb_Fin_0 by assumption.
    destruct area; cbn [andb].
    + rewrite sqrt_Fin by assumption. num_cbn. now rewrite div_Fin by lra.
    + num_cbn. now rewrite div_Fin by lra.
  - rewrite Rltb_false by lra.
    rewrite geb_Fin_0 by lra.
    destruct area; cbn [andb].
    + rewrite sqrt_Fin by lra. num_cbn. now rewrite div_Fin by lra.
    + num_cbn. now rewrite div_Fin by lra.
Qed.

Lemma posR_bounds (area : bool) (lo hi v : R) :
  lo < hi -> lo <= v <= hi -> 0 <= posR area lo hi v <= 1.
Proof.
  intros Hr [H1 H2]. unfold posR. rewrite Rltb_true by lra.
  assert (Hq : 0 <= (v - lo) / (hi - lo) <= 1).
  { split; [apply quotient_nonneg; lra|].
    apply (Rmult_le_reg_r (hi - lo)); [lra|].
    unfold Rdiv. rewrite Rmult_assoc, Rinv_l by lra. lra. }
  destruct area; [|assumption].
  split; [apply sqrt_pos|].
  rewrite <- sqrt_1. apply sqrt_le_1; lra.
Qed.

Lemma posR_mono (area : bool) (lo hi v1 v2 : R) :
  lo < hi -> lo <= v1 -> v1 <= v2 -> posR area lo hi v1 <= posR area lo hi v2.
Proof.
  intros Hr H1 H2. unfold posR. rewrite Rltb_true by lra.
  assert (Hq : (v1 - lo) / (hi - lo) <= (v2 - lo) / (hi - lo)).
  { apply Rmult_le_compat_r; [|lra]. left. apply Rinv_0_lt_compat. lra. }
  destruct area; [|assumption].
  apply sqrt_le_1; [apply quotient_nonneg; lra | apply quotient_nonneg; lra | assumption].
Qed.

Lemma posR_flat (area : bool) (lo hi v : R) :
  hi <= lo -> posR area lo hi v = if area then sqrt 0.5 else 0.5.
Proof. intros H. unfold posR. now rewrite Rltb_false by lra. Qed.

(** X28. For finite [minSize <= maxSize] and two finite non-zero values
    [v1 < v2] that lie on the same side of [minSize] (both below it, or
    neither), the radius of the first, computed without rounding, is at
    most the radius of the second. *)
Theorem radiusOf_monotone (area : bool) (lo hi v1 v2 : R) :
  lo <= hi -> v1 <> 0 -> v2 <> 0 -> v1 < v2 ->
  v2 < lo \/ lo <= v1 ->
  radiusLe (radiusOf area (Fin lo) (Fin hi) (VNum (Fin v1)))
           (radiusOf area (Fin lo) (Fin hi) (VNum (Fin v2))).
Proof.
  intros Hr Hv1 Hv2 Hlt [Hb|Ha].
  - rewrite !radiusOf_below by lra.
    exists (lo - 1), (lo - 1). repeat split. lra.
  - rewrite !radiusOf_above by lra.
    eexists _, _. repeat split.
    apply Rmult_le_compat_r; [lra|].
    apply IZR_le, Zceil_le.
    destruct (Req_dec_T lo hi) as [->|Hne].
    + lra.
    + pose proof (posR_mono area lo hi v1 v2). nra.
Qed.

Lemma radiusOf_monotone_witness :
  radiusLe (radiusOf true (Fin 10) (Fin 100) (VNum (Fin 20)))
           (radiusOf true (Fin 10) (Fin 100) (VNum (Fin 30))).
Proof. apply radiusOf_monotone; lra. Defined.

Lemma Zceil_IZR (z : Z) : Zceil (IZR z) = z.
Proof. apply Zceil_eq. lra. Qed.

Lemma radiusOf_at_floor :
  radiusOf true (Fin 10) (Fin 100) (VNum (Fin 10)) = VNum (Fin 5).
Proof.
  rewrite radiusOf_above by lra. unfold posR.
  rewrite Rltb_true by lra.
  replace ((10 - 10) / (100 - 10)) with 0 by lra.
  rewrite sqrt_0.
  replace (10 + 0 * (100 - 10)) with (IZR 10) by lra.
  rewrite Zceil_IZR. do 2 f_equal. lra.
Qed.

(** X29. For finite [minSize <= maxSize] and a finite non-zero value between
    them, the radius, computed without rounding, lies between
    [ceil(minSize) / 2] and [ceil(maxSize) / 2]. *)
Theorem radiusOf_within (area : bool) (lo hi v : R) :
  lo <= hi -> v <> 0 -> lo <= v <= hi ->
  radiusWithin (IZR (Zceil lo) / 2) (IZR (Zceil hi) / 2)
               (radiusOf area (Fin lo) (Fin hi) (VNum (Fin v))).
Proof.
  intros Hr Hv [H1 H2].
  rewrite radiusOf_above by lra.
  eexists. split; [reflexivity|].
  assert (Hb : lo <= lo + posR area lo hi v * (hi - lo) <= hi).
  { destruct (Req_dec_T lo hi) as [->|Hne]; [lra|].
    pose proof (posR_bounds area lo hi v). nra. }
  split; (apply Rmult_le_compat_r; [lra|]; apply IZR_le, Zceil_le; lra).
Qed.

Lemma radiusOf_within_witness :
  radiusWithin (IZR (Zceil 10) / 2) (IZR (Zceil 100) / 2)
               (radiusOf true (Fin 10) (Fin 100) (VNum (Fin 20))).
Proof. apply radiusOf_within; lra. Defined.

(** C9. For finite extremes and a finite non-zero value the radius is a
    finite number, whatever the order of the extremes: no division by zero
    has taken place, which would have left an infinity or NaN.  When
    [maxSize <= minSize] and the value is not below [minSize], the radius is
    the one computed from the constant position 0.5 (its square root when
    sizing by area). *)
Theorem radiusOf_no_division_by_zero (area : bool) (lo hi v : R) :
  v <> 0 ->
  (exists r : R, radiusOf area (Fin lo) (Fin hi) (VNum (Fin v)) = VNum (Fin r)) /\
  (hi <= lo -> lo <= v ->
   radiusOf area (Fin lo) (Fin hi) (VNum (Fin v))
   = VNum (Fin (IZR (Zceil (lo + (if area then sqrt 0.5 else 0.5) * (hi - lo)))
                / 2))).
Proof.
  intros Hv. split.
  - destruct (Rlt_dec v lo).
    + rewrite radiusOf_below by assumption. eauto.
    + rewrite radiusOf_above by lra. eauto.
  - intros Hr Hge. rewrite radiusOf_above by assumption.
    now rewrite posR_flat.
Qed.

(** ** Running computations *)

Lemma bind_Ret {A B : Type} (m : M A) (f : A -> M B) (s s' : state) (a : A) :
  m s = Ret a s' -> bind m f s = f a s'.
Proof. intros H. unfold bind. now rewrite H. Qed.

Lemma bind_inv {A B : Type} (m : M A) (f : A -> M B) (s s' : state) (b : B) :
  bind m f s = Ret b s' ->
  exists a s1, m s = Ret a s1 /\ f a s1 = Ret b s'.
Proof.
  unfold bind. destruct (m s) as [a s1| |]; try discriminate.
  intros H. now exists a, s1.
Qed.

Lemma getB_Ret (l : loc) (s : state) (b : bubble) :
  heap s !! l = Some b -> getB l s = Ret b s.
Proof. intros H. unfold getB, defined. now rewrite H. Qed.

Lemma getB_inv (l : loc) (s s' : state) (b : bubble) :
  getB l s = Ret b s' -> s' = s /\ heap s !! l = Some b.
Proof.
  unfold getB, defined. destruct (heap s !! l); [|discriminate].
  intros [= -> ->]. auto.
Qed.

Lemma getArr_Ret (a : aref) (s : state) (l : list loc) :
  arrays s !! a = Some l -> getArr a s = Ret l s.
Proof. intros H. unfold getArr, defined. now rewrite H. Qed.

Lemma mapEach_getB_Ret (refs : list loc) (bs : list bubble) (s : state) :
  Forall2 (fun l b => heap s !! l = Some b) refs bs ->
  mapEach getB refs s = Ret bs s.
Proof.
  induction 1 as [|l b refs bs Hl _ IH]; [reflexivity|].
  cbn [mapEach]. rewrite (bind_Ret _ _ _ _ _ (getB_Ret _ _ _ Hl)).
  now rewrite (bind_Ret _ _ _ _ _ IH).
Qed.

Lemma mapEach_getB_inv (refs : list loc) (bs : list bubble) (s s' : state) :
  mapEach getB refs s = Ret bs s' ->
  s' = s /\ Forall2 (fun l b => heap s !! l = Some b) refs bs.
Proof.
  revert bs s'. induction refs as [|l refs IH]; intros bs s'.
  - intros [= <- <-]. auto.
  - cbn [mapEach]. intros H.
    apply bind_inv in H as (b & s1 & H1 & H).
    apply getB_inv in H1 as [-> Hl].
    apply bind_inv in H as (bs' & s2 & H2 & H).
    apply IH in H2 as [-> IH2].
    injection H as <- <-. split; [reflexivity|]. now constructor.
Qed.

Lemma alterAll_cons g l refs h :
  alterAll g (l :: refs) h = alterAll g refs (alter g l h).
Proof. reflexivity. Qed.

Lemma alterAll_length g refs h : length (alterAll g refs h) = length h.
Proof.
  revert h. induction refs as [|l refs IH]; intros h; [reflexivity|].
  rewrite alterAll_cons, IH. apply length_alter.
Qed.

Lemma alterAll_lookup_notin g refs h (l : loc) :
  l ∉ refs -> alterAll g refs h !! l = h !! l.
Proof.
  revert h. induction refs as [|l' refs IH]; intros h Hn; [reflexivity|].
  rewrite alterAll_cons, IH by (intros ?; apply Hn; now right).
  apply list_lookup_alter_ne. intros ->. apply Hn. now left.
Qed.

Lemma alterAll_lookup_in g refs h (l : loc) :
  NoDup refs -> l ∈ refs -> alterAll g refs h !! l = g <$> h !! l.
Proof.
  revert h. induction refs as [|l' refs IH]; intros h Hnd Hin.
  - now apply elem_of_nil in Hin.
  - apply NoDup_cons in Hnd as [Hn Hnd]. rewrite alterAll_cons.
    apply elem_of_cons in Hin as [->|Hin].
    + rewrite alterAll_lookup_notin by assumption. apply list_lookup_alter_eq.
    + rewrite IH by assumption.
      rewrite list_lookup_alter_ne; [reflexivity|]. intros ->. contradiction.
Qed.

Lemma set_heap_id (s : state) : set_heap (heap s) s = s.
Proof. now destruct s. Qed.

Lemma insert_as_alter (g : bubble -> bubble) (l : loc) (h : list bubble)
    (p : bubble) :
  h !! l = Some p -> <[l := g p]> h = alter g l h.
Proof.
  intros H. apply list_eq. intros i.
  destruct (decide (i = l)) as [->|Hne].
  - rewrite list_lookup_insert_eq by (eapply lookup_lt_Some; eassumption).
    rewrite list_lookup_alter_eq, H. reflexivity.
  - rewrite list_lookup_insert_ne, list_lookup_alter_ne by congruence.
    reflexivity.
Qed.

Lemma Forall2_heap_insert (refs : list loc) (ps : list bubble)
    (h : list bubble) (l0 : loc) (b : bubble) :
  l0 ∉ refs ->
  Forall2 (fun l p => h !! l = Some p) refs ps ->
  Forall2 (fun l p => <[l0 := b]> h !! l = Some p) refs ps.
Proof.
  intros Hn H. induction H as [|l p refs ps Hl _ IH]; constructor.
  - rewrite list_lookup_insert_ne; [assumption|].
    intros ->. apply Hn. now left.
  - apply IH. intros ?. apply Hn. now right.
Qed.

Lemma mapEach_overwrite {A : Type} (g : bubble -> bubble) (r : bubble -> A)
    (refs : list loc) (ps : list bubble) (s : state) :
  NoDup refs ->
  Forall2 (fun l p => heap s !! l = Some p) refs ps ->
  mapEach (fun l => p <- getB l ;; putB l (g p) ;;; ret (r p)) refs s
  = Ret (map r ps) (set_heap (alterAll g refs (heap s)) s).
Proof.
  revert ps s. induction refs as [|l refs IH]; intros ps s Hnd H.
  - apply Forall2_nil_inv_l in H as ->. cbn. unfold ret. now rewrite set_heap_id.
  - apply Forall2_cons_inv_l in H as (p & ps' & Hl & H & ->).
    apply NoDup_cons in Hnd as [Hn Hnd].
    cbn [mapEach]. unfold bind at 1. unfold bind at 1.
    rewrite (getB_Ret _ _ _ Hl). unfold bind at 1. cbn [putB modify ret].
    unfold bind at 1.
    rewrite (IH ps').
    + rewrite alterAll_cons, <- (insert_as_alter g l (heap s) p Hl).
      reflexivity.
    + assumption.
    + cbn [heap set_heap]. now apply Forall2_heap_insert.
Qed.

(** ** The loop body of placeBubbles *)

Lemma ringAt_Ret (bp : list (list loc)) (i n : nat) (ring : list loc)
    (l : loc) (b : bubble) (s : state) :
  bp !! i = Some ring -> ring !! n = Some l -> heap s !! l = Some b ->
  ringAt bp i n s = Ret b s.
Proof.
  intros H1 H2 H3. unfold ringAt. rewrite H1, H2. now apply getB_Ret.
Qed.

Lemma ringAt_inv (bp : list (list loc)) (i n : nat) (b : bubble)
    (s s' : state) :
  ringAt bp i n s = Ret b s' ->
  s' = s /\ exists ring l,
    bp !! i = Some ring /\ ring !! n = Some l /\ heap s !! l = Some b.
Proof.
  unfold ringAt. destruct (bp !! i) as [ring|] eqn:E1; [|discriminate].
  destruct (ring !! n) as [l|] eqn:E2; [|discriminate].
  unfold getB, defined. destruct (heap s !! l) as [b'|] eqn:E; [|discriminate].
  intros H. injection H as H1 H2. subst b' s'.
  split; [reflexivity|]. exists ring, l. auto.
Qed.

(** The candidate of the loop body and the entry after [|| 1], as they
    stand in the store [s] before the iteration. *)

Lemma chooseBranch_NewRing (c : cursor) (cand first : bubble) (s : state) :
  ringAt (bubblePos c) (stage c) 0 s = Ret first s ->
  checkOverlap cand first = true ->
  chooseBranch c cand s = Ret NewRing s.
Proof.
  intros H1 H2. unfold chooseBranch.
  rewrite (bind_Ret _ _ _ _ _ H1). now rewrite H2.
Qed.

Lemma chooseBranch_NextPivot_iff (c : cursor) (cand first : bubble)
    (s : state) :
  ringAt (bubblePos c) (stage c) 0 s = Ret first s ->
  chooseBranch c cand s = Ret NextPivot s <->
  checkOverlap cand first = false /\ (1 < stage c)%nat /\
  exists ring l pivot,
    bubblePos c !! (stage c - 1)%nat = Some ring /\
    ring !! (k c + 1)%nat = Some l /\ heap s !! l = Some pivot /\
    checkOverlap cand pivot = true.
Proof.
  intros H1. unfold chooseBranch. rewrite (bind_Ret _ _ _ _ _ H1).
  destruct (checkOverlap cand first).
  { split; [discriminate|]. intros [? _]. discriminate. }
  destruct (Nat.ltb_spec 1 (stage c)) as [Hs|Hs]; cbn [negb].
  2:{ split; [discriminate|]. intros (_ & ? & _). lia. }
  destruct (bubblePos c !! (stage c - 1)%nat) as [ring|] eqn:E1.
  2:{ split; [discriminate|]. intros (_ & _ & ? & ? & ? & ? & _). discriminate. }
  destruct (ring !! (k c + 1)%nat) as [l|] eqn:E2.
  2:{ split; [discriminate|].
      intros (_ & _ & ? & ? & ? & Hr & Hl & _). congruence. }
  unfold bind, getB, defined.
  destruct (heap s !! l) as [pivot|] eqn:E3.
  2:{ split; [discriminate|].
      intros (_ & _ & ? & ? & ? & Hr & Hl & Hp & _). congruence. }
  destruct (checkOverlap cand pivot) eqn:E.
  - split; [|reflexivity]. intros _. repeat split; try assumption.
    now exists ring, l, pivot.
  - split; [discriminate|].
    intros (_ & _ & ? & ? & ? & Hr & Hl & Hp & Hc). congruence.
Qed.

Lemma getB_after_put (e : loc) (entry next : bubble) (s : state) :
  heap s !! e = Some entry ->
  getB e (set_heap (<[e := next]> (heap s)) s)
  = Ret next (set_heap (<[e := next]> (heap s)) s).
Proof.
  intros H. apply getB_Ret. cbn [heap set_heap].
  apply list_lookup_insert_eq. eapply lookup_lt_Some; eassumption.
Qed.

Section Step.

Variables (e : loc) (c : cursor) (s : state).
Variables (entry last origin : bubble) (before : nat).

Let next := setSlot2 entry (orOne (slot2 entry)).
Let s1 := set_heap (<[e := next]> (heap s)) s.
Let cand := positionBubble last origin next.

Hypothesis Hentry : heap s !! e = Some entry.
Hypothesis Hstage : stage c = S before.
Hypothesis Hlast : ringAt (bubblePos c) (stage c) (j c) s1 = Ret last s1.
Hypothesis Horigin : ringAt (bubblePos c) before (k c) s1 = Ret origin s1.

Lemma placeStep_unfold :
  placeStep e c s
  = (br <- chooseBranch c cand ;;
     match br with
     | NewRing =>
         let bp := bubblePos c ++ [[]] in
         last <- ringAt bp (stage c) (j c) ;;
         first <- ringAt bp (stage c) 0 ;;
         next <- getB e ;;
         bp' <- pushAt bp (stage c + 1) (positionBubble last first next) ;;
         ret (Cursor bp' (stage c + 1) 0 0)
     | NextPivot =>
         last <- ringAt (bubblePos c) (stage c) (j c) ;;
         pivot <- ringAt (bubblePos c) before (k c + 1) ;;
         next <- getB e ;;
         bp' <- pushAt (bubblePos c) (stage c)
                       (positionBubble last pivot next) ;;
         ret (Cursor bp' (stage c) (j c + 1) (k c + 1))
     | Append =>
         bp' <- pushAt (bubblePos c) (stage c) cand ;;
         ret (Cursor bp' (stage c) (j c + 1) (k c))
     end) s1.
Proof.
  unfold placeStep.
  rewrite (bind_Ret _ _ _ _ _ (getB_Ret _ _ _ Hentry)).
  unfold bind at 1. cbn [putB modify]. fold next. fold s1.
  rewrite Hstage. rewrite Hstage in Hlast.
  rewrite (bind_Ret _ _ _ _ _ Hlast).
  rewrite (bind_Ret _ _ _ _ _ Horigin).
  rewrite (bind_Ret _ _ _ _ _ (getB_after_put e entry next s Hentry)).
  reflexivity.
Qed.

Lemma placeStep_NewRing (first : bubble) :
  ringAt (bubblePos c) (stage c) 0 s1 = Ret first s1 ->
  length (bubblePos c) = S (stage c) ->
  checkOverlap cand first = true ->
  placeStep e c s
  = Ret (Cursor (bubblePos c ++ [[length (heap s1)]]) (stage c + 1) 0 0)
        (set_heap (heap s1 ++ [positionBubble last first next]) s1).
Proof.
  intros Hfirst Hlen Hov. rewrite placeStep_unfold.
  rewrite (bind_Ret _ _ _ _ _ (chooseBranch_NewRing c cand first s1 Hfirst Hov)).
  cbv zeta.
  apply ringAt_inv in Hlast as (_ & ring & ll & Hr & Hl & Hh).
  apply ringAt_inv in Hfirst as (_ & ring' & lf & Hr' & Hf & Hhf).
  assert (ring' = ring) as -> by congruence.
  assert (Hr2 : (bubblePos c ++ [[]]) !! stage c = Some ring).
  { rewrite lookup_app_l; [assumption|]. lia. }
  rewrite (bind_Ret _ _ _ _ _ (ringAt_Ret _ _ _ _ _ _ _ Hr2 Hl Hh)).
  rewrite (bind_Ret _ _ _ _ _ (ringAt_Ret _ _ _ _ _ _ _ Hr2 Hf Hhf)).
  rewrite (bind_Ret _ _ _ _ _ (getB_after_put e entry next s Hentry)).
  unfold pushAt.
  assert (Hnew : (bubblePos c ++ [[]]) !! (stage c + 1)%nat = Some []).
  { rewrite lookup_app_r by lia.
    replace (stage c + 1 - length (bubblePos c))%nat with 0%nat by lia.
    reflexivity. }
  rewrite Hnew. unfold bind, newB, ret. do 2 f_equal.
  replace (stage c + 1)%nat with (length (bubblePos c) + 0)%nat by lia.
  rewrite insert_app_r. reflexivity.
Qed.

Lemma placeStep_Append (ring : list loc) :
  bubblePos c !! stage c = Some ring ->
  chooseBranch c cand s1 = Ret Append s1 ->
  placeStep e c s
  = Ret (Cursor (<[stage c := ring ++ [length (heap s1)]]> (bubblePos c))
                (stage c) (j c + 1) (k c))
        (set_heap (heap s1 ++ [cand]) s1).
Proof.
  intros Hring Hbr. rewrite placeStep_unfold.
  rewrite (bind_Ret _ _ _ _ _ Hbr).
  unfold pushAt. rewrite Hring. reflexivity.
Qed.

Lemma placeStep_NextPivot (ring : list loc) (pivot : bubble) :
  bubblePos c !! stage c = Some ring ->
  ringAt (bubblePos c) before (k c + 1) s1 = Ret pivot s1 ->
  chooseBranch c cand s1 = Ret NextPivot s1 ->
  placeStep e c s
  = Ret (Cursor (<[stage c := ring ++ [length (heap s1)]]> (bubblePos c))
                (stage c) (j c + 1) (k c + 1))
        (set_heap (heap s1 ++ [positionBubble last pivot next]) s1).
Proof.
  intros Hring Hpivot Hbr. rewrite placeStep_unfold.
  rewrite (bind_Ret _ _ _ _ _ Hbr).
  rewrite (bind_Ret _ _ _ _ _ Hlast).
  rewrite (bind_Ret _ _ _ _ _ Hpivot).
  rewrite (bind_Ret _ _ _ _ _ (getB_after_put e entry next s Hentry)).
  unfold pushAt. rewrite Hring. reflexivity.
Qed.

End Step.

(** ** The bounding box *)

Lemma min_Fin (a b : R) : Num.min (Fin a) (Fin b) = Fin (Rmin a b).
Proof.
  unfold Num.min, Num.ltb, Rltb, Rmin.
  destruct (Rlt_dec b a), (Rle_dec a b); try reflexivity; lra.
Qed.

Lemma max_Fin (a b : R) : Num.max (Fin a) (Fin b) = Fin (Rmax a b).
Proof.
  unfold Num.max, Num.ltb, Rltb, Rmax.
  destruct (Rlt_dec a b), (Rle_dec a b); try reflexivity; try lra.
  f_equal. lra.
Qed.

Lemma Rmin_cases (a b : R) : Rmin a b = a \/ Rmin a b = b.
Proof. apply Rmin_case; auto. Qed.

Lemma Rmax_cases (a b : R) : Rmax a b = a \/ Rmax a b = b.
Proof. apply Rmax_case; auto. Qed.

Lemma circleOf_Some (p : bubble) (x y r : R) :
  circleOf p = Some (x, y, r) ->
  toNumber (slot0 p) = Fin x /\ toNumber (slot1 p) = Fin y /\
  toNumber (slot2 p) = Fin r.
Proof.
  unfold circleOf.
  destruct (toNumber (slot0 p)), (toNumber (slot1 p)), (toNumber (slot2 p));
    try discriminate.
  intros [= -> -> ->]. auto.
Qed.

Lemma growBox_Fin (x0 x1 y0 y1 x y r : R) (p : bubble) :
  circleOf p = Some (x, y, r) ->
  growBox (Box (Fin x0) (Fin x1) (Fin y0) (Fin y1)) p
  = Box (Fin (Rmin x0 (x - r))) (Fin (Rmax x1 (x + r)))
        (Fin (Rmin y0 (y - r))) (Fin (Rmax y1 (y + r))).
Proof.
  intros H. apply circleOf_Some in H as (Hx & Hy & Hr).
  unfold growBox. cbn [minX maxX minY maxY]. rewrite Hx, Hy, Hr.
  cbn [Num.sub Num.add]. now rewrite !min_Fin, !max_Fin.
Qed.

Lemma growBox_first (x y r : R) (p : bubble) :
  circleOf p = Some (x, y, r) ->
  growBox (Box PosInf NegInf PosInf NegInf) p
  = Box (Fin (x - r)) (Fin (x + r)) (Fin (y - r)) (Fin (y + r)).
Proof.
  intros H. apply circleOf_Some in H as (Hx & Hy & Hr).
  unfold growBox. cbn [minX maxX minY maxY]. rewrite Hx, Hy, Hr.
  reflexivity.
Qed.

Lemma tightBox_grow (cs : list (R * R * R)) (b : box) (p : bubble)
    (x y r : R) :
  tightBox cs b -> circleOf p = Some (x, y, r) ->
  tightBox (cs ++ [(x, y, r)]) (growBox b p).
Proof.
  intros (x0 & x1 & y0 & y1 & -> & Hall & E0 & E1 & E2 & E3) Hp.
  rewrite (growBox_Fin _ _ _ _ x y r) by assumption.
  exists (Rmin x0 (x - r)), (Rmax x1 (x + r)), (Rmin y0 (y - r)),
         (Rmax y1 (y + r)).
  split; [reflexivity|].
  pose proof (Rmin_l x0 (x - r)). pose proof (Rmin_r x0 (x - r)).
  pose proof (Rmin_l y0 (y - r)). pose proof (Rmin_r y0 (y - r)).
  pose proof (Rmax_l x1 (x + r)). pose proof (Rmax_r x1 (x + r)).
  pose proof (Rmax_l y1 (y + r)). pose proof (Rmax_r y1 (y + r)).
  split.
  { apply Forall_app. split.
    - eapply Forall_impl; [exact Hall|]. intros [[a b] c]. cbn. lra.
    - constructor; [|constructor]. cbn. lra. }
  rewrite !Exists_app.
  repeat split.
  - destruct (Rmin_cases x0 (x - r)) as [->| ->].
    + left. assumption.
    + right. now constructor.
  - destruct (Rmax_cases x1 (x + r)) as [->| ->].
    + left. assumption.
    + right. now constructor.
  - destruct (Rmin_cases y0 (y - r)) as [->| ->].
    + left. assumption.
    + right. now constructor.
  - destruct (Rmax_cases y1 (y + r)) as [->| ->].
    + left. assumption.
    + right. now constructor.
Qed.

Lemma fold_growBox_tight (ps : list bubble) (cs cs0 : list (R * R * R))
    (b : box) :
  tightBox cs0 b ->
  Forall2 (fun p c => circleOf p = Some c) ps cs ->
  tightBox (cs0 ++ cs) (fold_left growBox ps b).
Proof.
  intros Hb H. revert cs0 b Hb.
  induction H as [|p [[x y] r] ps cs Hp _ IH]; intros cs0 b Hb.
  - now rewrite app_nil_r.
  - cbn [fold_left].
    replace (cs0 ++ (x, y, r) :: cs) with ((cs0 ++ [(x, y, r)]) ++ cs)
      by now rewrite <- app_assoc.
    apply IH. now apply tightBox_grow.
Qed.

Lemma boundingBox_tight (ps : list bubble) (cs : list (R * R * R)) :
  ps <> [] ->
  Forall2 (fun p c => circleOf p = Some c) ps cs ->
  tightBox cs (boundingBox ps).
Proof.
  intros Hne H. destruct H as [|p [[x y] r] ps cs Hp H]; [contradiction|].
  unfold boundingBox. cbn [fold_left].
  rewrite (growBox_first x y r) by assumption.
  apply (fold_growBox_tight ps cs [(x, y, r)]); [|assumption].
  exists (x - r), (x + r), (y - r), (y + r).
  split; [reflexivity|].
  split; [constructor; [cbn; lra | constructor]|].
  repeat split; now constructor.
Qed.

(** ** resizeRadius *)

Lemma mapEach_ext {A B : Type} (f g : A -> M B) (l : list A) (s : state) :
  (forall x s, f x s = g x s) -> mapEach f l s = mapEach g l s.
Proof.
  intros H. revert s. induction l as [|x l IH]; intros s; [reflexivity|].
  cbn [mapEach]. unfold bind. rewrite H.
  destruct (g x s) as [y s1| |]; try reflexivity.
  rewrite IH. reflexivity.
Qed.

Lemma mapEach_scaleRadius (ratio : num) (positions : list loc)
    (contents : list bubble) (s : state) :
  NoDup positions ->
  Forall2 (fun l p => heap s !! l = Some p) positions contents ->
  mapEach (scaleRadius ratio) positions s
  = Ret (map (fun _ => tt) contents)
        (set_heap (alterAll (fun p => setSlot2 p (VNum (toNumber (slot2 p) * ratio)%num))
                            positions (heap s)) s).
Proof.
  intros Hnd H.
  rewrite <- (mapEach_overwrite _ (fun _ => tt) positions contents s Hnd H).
  apply mapEach_ext. intros l s0. unfold scaleRadius, bind.
  destruct (getB l s0) as [p s1| |]; reflexivity.
Qed.

Lemma resizeRadiusBody_run (repack : aref -> M returned) (s : state)
    (raw : aref) (positions : list loc) (contents : list bubble) :
  rawPositions s = Some raw ->
  arrays s !! raw = Some positions ->
  Forall2 (fun l p => heap s !! l = Some p) positions contents ->
  let b := boundingBox contents in
  let ratio := smallerDimension s b in
  resizeRadiusBody repack s
  = (if needsResize ratio
     then (mapEach (scaleRadius ratio) positions ;;;
           repack raw ;;; ret tt)
     else modify (set_diff
                    (plotWidth s / Fin 2 + plotLeft s - minX b
                     - (maxX b - minX b) / Fin 2)%num
                    (plotHeight s / Fin 2 + plotTop s - minY b
                     - (maxY b - minY b) / Fin 2)%num)) s.
Proof.
  intros Hraw Hpos Hcont b ratio. unfold resizeRadiusBody.
  unfold bind at 1. unfold defined at 1. rewrite Hraw.
  rewrite (bind_Ret _ _ _ _ _ (getArr_Ret _ _ _ Hpos)).
  rewrite (bind_Ret _ _ _ _ _ (mapEach_getB_Ret _ _ _ Hcont)).
  reflexivity.
Qed.


(** ** getRadius on the store *)

Lemma getRadius_run (s : state) (a : aref) (refs : list loc)
    (ps : list bubble) :
  allDataPoints s = Some a ->
  arrays s !! a = Some refs ->
  NoDup refs ->
  Forall2 (fun l p => heap s !! l = Some p) refs ps ->
  getRadius s
  = Ret tt
      (set_radii (map (fun p => radiusIn s (slot2 p)) ps)
         (set_heap (alterAll (fun p => setSlot2 p (radiusIn s (slot2 p)))
                             refs (heap s))
            (set_extremes
               (extreme (Num.min (plotWidth s) (plotHeight s)) (minPointSize s))
               (extreme (Num.min (plotWidth s) (plotHeight s)) (maxPointSize s))
               s))).
Proof.
  intros Ha Hrefs Hnd Hps.
  unfold getRadius.
  unfold bind at 1. unfold gets at 1.
  unfold bind at 1. unfold gets at 1.
  unfold bind at 1. unfold gets at 1.
  unfold bind at 1. unfold defined at 1. rewrite Ha.
  unfold bind at 1. unfold gets at 1.
  unfold bind at 1. unfold gets at 1.
  unfold bind at 1. unfold modify at 1.
  set (s1 := set_extremes _ _ s).
  assert (Hrefs1 : arrays s1 !! a = Some refs) by exact Hrefs.
  rewrite (bind_Ret _ _ _ _ _ (getArr_Ret _ _ _ Hrefs1)).
  assert (Hps1 : Forall2 (fun l p => heap s1 !! l = Some p) refs ps) by exact Hps.
  pose proof (mapEach_overwrite
                (fun p => setSlot2 p (radiusIn s (slot2 p)))
                (fun p => radiusIn s (slot2 p)) refs ps s1 Hnd Hps1) as Hloop.
  unfold bind at 1.
  match goal with |- match ?m with _ => _ end = _ =>
    replace m with (Ret (map (fun p => radiusIn s (slot2 p)) ps)
       (set_heap (alterAll (fun p => setSlot2 p (radiusIn s (slot2 p))) refs (heap s1)) s1))
  end.
  reflexivity.
Qed.

Lemma sized_run (values : list val) (w h lo hi : R) (refs : list loc)
    (ps : list bubble) (s0 : state) :
  accumulateAllPoints (chartOf values w h lo hi) = Ret 0%nat s0 ->
  arrays s0 !! 0%nat = Some refs -> NoDup refs ->
  Forall2 (fun l p => heap s0 !! l = Some p) refs ps ->
  exists s1 : state,
    sized (chartOf values w h lo hi) = Ret tt s1 /\
    heap s1 = alterAll (fun p => setSlot2 p (radiusIn s0 (slot2 p))) refs
                       (heap s0) /\
    minRadius s1 = Some (minPointSize s0) /\
    maxRadius s1 = Some (maxPointSize s0).
Proof.
  intros A Hrefs Hnd Hc. unfold sized.
  rewrite (bind_Ret _ _ _ _ _ A).
  unfold bind at 1. cbn [modify].
  set (s := set_allDataPoints _ _).
  assert (Hc' : Forall2 (fun l p => heap s !! l = Some p) refs ps) by exact Hc.
  rewrite (getRadius_run s 0%nat refs ps eq_refl Hrefs Hnd Hc').
  eexists. split; [reflexivity|]. repeat split.
Qed.

(** C5. On a chart with point sizes 10 and 100 and two points of values 5
    and 10, [getRadius] leaves the radius 9 for the value 5 and the radius
    5 for the value 10: the smaller value gets the larger radius.  The
    value 5 takes the branch [value < minSize], whose radius [minSize - 1]
    is meant to be below that of every other point; the value 10 is sized
    by the formula, which halves. *)
Theorem radius_order_reversed :
  exists s1 : state,
    sized sizesChart = Ret tt s1 /\
    heap s1 = [point 0 9; point 1 5] /\
    radiusOf true (Fin 10) (Fin 100) (VNum (Fin 5)) = VNum (Fin 9) /\
    radiusOf true (Fin 10) (Fin 100) (VNum (Fin 10)) = VNum (Fin 5) /\
    5 < 10 /\ ~ 9 <= 5.
Proof.
  assert (R5 : radiusOf true (Fin 10) (Fin 100) (VNum (Fin 5)) = VNum (Fin 9)).
  { rewrite radiusOf_below by lra. do 2 f_equal. lra. }
  destruct (sized_run [VNum (Fin 5); VNum (Fin 10)] 400 400 10 100
              [0; 1]%nat [point 0 5; point 1 10]
              (set_arrays [[0; 1]%nat]
                 (set_heap [point 0 5; point 1 10] sizesChart))
              eq_refl eq_refl (NoDup_seq 0 2))
    as (s1 & Hrun & Hheap & _).
  { repeat constructor. }
  exists s1. split; [exact Hrun|]. split.
  - rewrite Hheap. unfold alterAll, radiusIn.
    cbn [foldl heap set_arrays set_heap sizesChart chartOf alter list_alter
         plotWidth plotHeight sizeByWidth negb minPointSize maxPointSize
         extreme isPercent].
    cbn [slot2 point setSlot2 slot0 slot1 slot3 slot4].
    now rewrite radiusOf_at_floor, R5.
  - split; [exact R5|]. split; [exact radiusOf_at_floor|]. lra.
Qed.

(** C6. On a chart with point sizes 10 and 100 and one point of value 10,
    [getRadius] records [chart.minRadius = 10] and [chart.maxRadius = 100]
    and leaves the radius 5 in the point: a radius below the minimum
    radius. *)
Theorem radius_below_minimum :
  exists s1 : state,
    sized floorChart = Ret tt s1 /\
    heap s1 = [point 0 5] /\
    minRadius s1 = Some (Fin 10) /\ maxRadius s1 = Some (Fin 100) /\
    ~ 10 <= 5 <= 100.
Proof.
  destruct (sized_run [VNum (Fin 10)] 400 400 10 100
              [0%nat] [point 0 10]
              (set_arrays [[0%nat]] (set_heap [point 0 10] floorChart))
              eq_refl eq_refl (NoDup_seq 0 1))
    as (s1 & Hrun & Hheap & Hmin & Hmax).
  { repeat constructor. }
  exists s1. split; [exact Hrun|]. split; [|split; [exact Hmin|split; [exact Hmax|lra]]].
  rewrite Hheap. unfold alterAll, radiusIn.
  cbn [foldl heap set_arrays set_heap floorChart chartOf alter list_alter
       plotWidth plotHeight sizeByWidth negb minPointSize maxPointSize
       extreme isPercent].
  cbn [slot2 point setSlot2 slot0 slot1 slot3 slot4].
  now rewrite radiusOf_at_floor.
Qed.

(** ** Which arrays a computation leaves alone *)

Lemma keeps_ret {A : Type} (a : A) : keepsArrays (ret a).
Proof. intros s x s' [= _ <-]. reflexivity. Qed.

Lemma keeps_throw {A : Type} : keepsArrays (@throw A).
Proof. intros s x s' [=]. Qed.

Lemma keeps_gets {A : Type} (f : state -> A) : keepsArrays (gets f).
Proof. intros s x s' [= _ <-]. reflexivity. Qed.

Lemma keeps_defined {A : Type} (f : state -> option A) :
  keepsArrays (defined f).
Proof.
  intros s x s'. unfold defined. destruct (f s); [|discriminate].
  intros [= _ <-]. reflexivity.
Qed.

Lemma keeps_modify (f : state -> state) :
  (forall s, arrays (f s) = arrays s) -> keepsArrays (modify f).
Proof. intros H s x s' [= _ <-]. apply H. Qed.

Lemma keeps_bind {A B : Type} (m : M A) (f : A -> M B) :
  keepsArrays m -> (forall a, keepsArrays (f a)) -> keepsArrays (bind m f).
Proof.
  intros Hm Hf s x s' H. apply bind_inv in H as (a & s1 & H1 & H2).
  rewrite (Hf _ _ _ _ H2). now apply (Hm _ _ _ H1).
Qed.

Lemma keeps_getB (l : loc) : keepsArrays (getB l).
Proof. apply keeps_defined. Qed.

Lemma keeps_getArr (a : aref) : keepsArrays (getArr a).
Proof. apply keeps_defined. Qed.

Lemma keeps_putB (l : loc) (b : bubble) : keepsArrays (putB l b).
Proof. now apply keeps_modify. Qed.

Lemma keeps_newB (b : bubble) : keepsArrays (newB b).
Proof. intros s x s' [= _ <-]. reflexivity. Qed.

Lemma keeps_mapEach {A B : Type} (f : A -> M B) (l : list A) :
  (forall x, keepsArrays (f x)) -> keepsArrays (mapEach f l).
Proof.
  intros H. induction l as [|x l IH]; cbn [mapEach].
  - apply keeps_ret.
  - apply keeps_bind; [apply H|]. intros y.
    apply keeps_bind; [apply IH|]. intros ys. apply keeps_ret.
Qed.

Lemma keeps_foldEach {A B : Type} (f : A -> B -> M B) (l : list A) (b : B) :
  (forall x b, keepsArrays (f x b)) -> keepsArrays (foldEach f l b).
Proof.
  intros H. revert b. induction l as [|x l IH]; intros b; cbn [foldEach].
  - apply keeps_ret.
  - apply keeps_bind; [apply H|]. intros b'. apply IH.
Qed.

Lemma keeps_ringAt (bp : list (list loc)) (i n : nat) :
  keepsArrays (ringAt bp i n).
Proof.
  unfold ringAt. destruct (bp !! i) as [ring|]; [|apply keeps_throw].
  destruct (ring !! n); [apply keeps_getB | apply keeps_throw].
Qed.

Lemma keeps_pushAt (bp : list (list loc)) (i : nat) (b : bubble) :
  keepsArrays (pushAt bp i b).
Proof.
  unfold pushAt. destruct (bp !! i) as [ring|]; [|apply keeps_throw].
  apply keeps_bind; [apply keeps_newB|]. intros l. apply keeps_ret.
Qed.

Lemma keeps_chooseBranch (c : cursor) (cand : bubble) :
  keepsArrays (chooseBranch c cand).
Proof.
  unfold chooseBranch. apply keeps_bind; [apply keeps_ringAt|]. intros first.
  destruct (checkOverlap cand first); [apply keeps_ret|].
  destruct (negb (1 <? stage c)%nat); [apply keeps_ret|].
  destruct (bubblePos c !! (stage c - 1)%nat) as [ring|]; [|apply keeps_throw].
  destruct (ring !! (k c + 1)%nat); [|apply keeps_ret].
  apply keeps_bind; [apply keeps_getB|]. intros pivot.
  destruct (checkOverlap cand pivot); apply keeps_ret.
Qed.

Ltac keeps :=
  repeat first
    [ apply keeps_ret | apply keeps_throw | apply keeps_getB
    | apply keeps_putB | apply keeps_newB | apply keeps_ringAt
    | apply keeps_pushAt | apply keeps_chooseBranch
    | apply keeps_bind; [|intros ?] ].

Lemma keeps_placeStep (e : loc) (c : cursor) : keepsArrays (placeStep e c).
Proof.
  unfold placeStep. keeps.
  destruct (stage c); keeps.
  match goal with br : branch |- _ => destruct br end; cbv zeta; keeps.
Qed.

Lemma keeps_scaleRadius (ratio : num) (l : loc) :
  keepsArrays (scaleRadius ratio l).
Proof. unfold scaleRadius. keeps. Qed.

Lemma frame_refl (a0 : aref) (s s' : state) :
  arrays s' = arrays s -> frame a0 s s'.
Proof. intros H. unfold frame. rewrite H. auto. Qed.

Lemma frame_trans_keep (a0 : aref) (s s1 s' : state) :
  arrays s1 = arrays s -> frame a0 s1 s' -> frame a0 s s'.
Proof. unfold frame. intros ->. auto. Qed.

Lemma resizeRadiusBody_frame (repack : aref -> M returned) :
  (forall a0 s r s', repack a0 s = Ret r s' -> frame a0 s s') ->
  forall s x s' raw,
    rawPositions s = Some raw ->
    resizeRadiusBody repack s = Ret x s' -> frame raw s s'.
Proof.
  intros Hrepack s x s' raw Hraw H. unfold resizeRadiusBody in H.
  apply bind_inv in H as (raw' & s1 & H1 & H).
  unfold defined in H1. rewrite Hraw in H1. injection H1 as <- <-.
  apply bind_inv in H as (positions & s2 & H2 & H).
  pose proof (keeps_getArr _ _ _ _ H2) as K2.
  apply bind_inv in H as (contents & s3 & H3 & H).
  pose proof (keeps_mapEach getB positions keeps_getB _ _ _ H3) as K3.
  apply bind_inv in H as (s0 & s4 & H4 & H).
  injection H4 as <- <-.
  destruct (needsResize _).
  - apply bind_inv in H as (us & s5 & H5 & H).
    pose proof (keeps_mapEach _ positions (keeps_scaleRadius _) _ _ _ H5) as K5.
    apply bind_inv in H as (r & s6 & H6 & H).
    injection H as _ <-.
    apply Hrepack in H6.
    eapply frame_trans_keep; [|exact H6]. congruence.
  - injection H as _ <-. apply frame_refl. cbn. congruence.
Qed.

(** ** placeBubbles and the array it is given *)

Lemma getArr_inv (a : aref) (s s' : state) (l : list loc) :
  getArr a s = Ret l s' -> s' = s /\ arrays s !! a = Some l.
Proof.
  unfold getArr, defined. destruct (arrays s !! a) as [l'|]; [|discriminate].
  intros H. injection H as <- <-. auto.
Qed.

Lemma sortInPlace_run (a : aref) (s : state) (refs : list loc)
    (contents : list bubble) :
  arrays s !! a = Some refs ->
  Forall2 (fun l b => heap s !! l = Some b) refs contents ->
  sortInPlace a s
  = Ret (map fst (sortBy (zip refs contents)))
        (set_arrays (<[a := map fst (sortBy (zip refs contents))]> (arrays s))
                    s).
Proof.
  intros Ha Hc. unfold sortInPlace.
  rewrite (bind_Ret _ _ _ _ _ (getArr_Ret _ _ _ Ha)).
  rewrite (bind_Ret _ _ _ _ _ (mapEach_getB_Ret _ _ _ Hc)).
  reflexivity.
Qed.

Lemma sortInPlace_inv (a : aref) (s s' : state) (sorted : list loc) :
  sortInPlace a s = Ret sorted s' ->
  exists refs contents,
    arrays s !! a = Some refs /\
    Forall2 (fun l b => heap s !! l = Some b) refs contents /\
    sorted = map fst (sortBy (zip refs contents)) /\
    s' = set_arrays (<[a := sorted]> (arrays s)) s.
Proof.
  intros H. unfold sortInPlace in H.
  apply bind_inv in H as (refs & s1 & H1 & H).
  apply getArr_inv in H1 as [-> Hrefs].
  apply bind_inv in H as (contents & s2 & H2 & H).
  apply mapEach_getB_inv in H2 as [-> Hcont].
  apply bind_inv in H as (u & s3 & H3 & H).
  injection H3 as _ <-. injection H as <- <-.
  now exists refs, contents.
Qed.

Lemma placeBubblesBody_arrays (resize : M unit) (a0 : aref) :
  (forall s x s' raw,
     rawPositions s = Some raw -> resize s = Ret x s' -> frame raw s s') ->
  forall s r s',
    placeBubblesBody resize a0 s = Ret r s' ->
    exists refs contents,
      arrays s !! a0 = Some refs /\
      Forall2 (fun l b => heap s !! l = Some b) refs contents /\
      arrays s' !! a0 = Some (map fst (sortBy (zip refs contents))) /\
      frame a0 s s'.
Proof.
  intros Hresize s r s' H. unfold placeBubblesBody in H.
  apply bind_inv in H as (sorted & s3 & H3 & H).
  apply sortInPlace_inv in H3 as (refs & contents & Hrefs & Hcont & Es & E3).
  exists refs, contents. split; [assumption|]. split; [assumption|].
  rewrite <- Es. clear Es. subst s3.
  set (s3 := set_arrays (<[a0 := sorted]> (arrays s)) s) in *.
  unfold placeSorted in H.
  assert (Hlt : (a0 < length (arrays s))%nat)
    by (eapply lookup_lt_Some; eassumption).
  assert (Hs3 : arrays s3 !! a0 = Some sorted)
    by (cbn; now apply list_lookup_insert_eq).
  assert (Hlen3 : length (arrays s3) = length (arrays s))
    by (cbn; apply length_insert).
  assert (Hf3 : frame a0 s s3).
  { split; [lia|]. intros a Hne _. cbn. now apply list_lookup_insert_ne. }
  destruct sorted as [|e0 [|e1 rest]].
  - injection H as _ <-. auto.
  - apply bind_inv in H as (b0 & s4 & H4 & H).
    apply getB_inv in H4 as [-> _]. injection H as _ <-. auto.
  - apply bind_inv in H as (b0 & s4 & H4 & H).
    pose proof (keeps_getB _ _ _ _ H4) as K4.
    apply bind_inv in H as (l0 & s5 & H5 & H).
    pose proof (keeps_newB _ _ _ _ H5) as K5.
    apply bind_inv in H as (b1 & s6 & H6 & H).
    pose proof (keeps_getB _ _ _ _ H6) as K6.
    apply bind_inv in H as (l1 & s7 & H7 & H).
    pose proof (keeps_newB _ _ _ _ H7) as K7.
    apply bind_inv in H as (c & s8 & H8 & H).
    pose proof (keeps_foldEach placeStep rest _ keeps_placeStep _ _ _ H8) as K8.
    apply bind_inv in H as (u1 & s9 & H9 & H). injection H9 as _ <-.
    apply bind_inv in H as (raw & s10 & H10 & H). injection H10 as <- <-.
    apply bind_inv in H as (u2 & s11 & H11 & H). injection H11 as _ <-.
    apply bind_inv in H as (u3 & s12 & H12 & H).
    apply bind_inv in H as (raw' & s13 & H13 & H).
    pose proof (keeps_defined _ _ _ _ H13) as K13.
    injection H as _ <-.
    assert (K : arrays s8 = arrays s3) by congruence.
    apply Hresize with (raw := length (arrays s8)) in H12; [|reflexivity].
    destruct H12 as [Hlen12 Hsame12]. cbn in Hlen12, Hsame12.
    rewrite length_app in Hlen12. cbn in Hlen12.
    assert (Hl8 : length (arrays s8) = length (arrays s)) by congruence.
    assert (Hkeep : forall a, (a < length (arrays s))%nat ->
                      arrays s12 !! a = arrays s3 !! a).
    { intros a Ha. rewrite Hsame12.
      - rewrite lookup_app_l by lia. now rewrite K.
      - lia.
      - rewrite length_app. lia. }
    unfold frame. rewrite K13. split.
    + now rewrite Hkeep.
    + split; [lia|].
      intros a Hne Ha. rewrite Hkeep by assumption. now apply Hf3.
Qed.

Lemma placeBubbles_frame (fuel : nat) :
  forall a0 s r s', placeBubbles fuel a0 s = Ret r s' -> frame a0 s s'.
Proof.
  induction fuel as [|fuel IH]; intros a0 s r s' H; [discriminate|].
  cbn [placeBubbles] in H.
  apply placeBubblesBody_arrays in H as (_ & _ & _ & _ & _ & Hf).
  - exact Hf.
  - intros s0 x s0' raw Hraw Hr.
    eapply resizeRadiusBody_frame; [exact IH|exact Hraw|exact Hr].
Qed.

Lemma placeBubbles_sorts (fuel : nat) (a0 : aref) (s s' : state)
    (r : returned) (refs : list loc) (contents : list bubble) :
  arrays s !! a0 = Some refs ->
  Forall2 (fun l b => heap s !! l = Some b) refs contents ->
  placeBubbles fuel a0 s = Ret r s' ->
  arrays s' !! a0 = Some (map fst (sortBy (zip refs contents))).
Proof.
  intros Hrefs Hcont H. destruct fuel as [|fuel]; [discriminate|].
  cbn [placeBubbles] in H.
  apply placeBubblesBody_arrays in H
    as (refs' & contents' & Hrefs' & Hcont' & Hsorted & _).
  - assert (refs' = refs) as -> by congruence.
    assert (contents' = contents) as ->.
    { clear -Hcont Hcont'. revert contents' Hcont'.
      induction Hcont as [|l b refs contents Hl _ IH]; intros contents' H'.
      - now apply Forall2_nil_inv_l in H'.
      - apply Forall2_cons_inv_l in H' as (b' & cs' & Hl' & H' & ->).
        f_equal; [congruence|]. now apply IH. }
    exact Hsorted.
  - intros s0 x s0' raw Hraw Hr.
    eapply resizeRadiusBody_frame;
      [apply placeBubbles_frame|exact Hraw|exact Hr].
Qed.

(** ** The sort *)

Lemma insertBy_perm (x : loc * bubble) (l : list (loc * bubble)) :
  insertBy x l ≡ₚ x :: l.
Proof.
  induction l as [|y l IH]; cbn [insertBy]; [reflexivity|].
  destruct (Num.gtb _ _); [|reflexivity].
  rewrite IH. apply Permutation_swap.
Qed.

Lemma sortBy_perm (l : list (loc * bubble)) : sortBy l ≡ₚ l.
Proof.
  induction l as [|x l IH]; [reflexivity|].
  unfold sortBy. cbn [foldr]. fold (sortBy l).
  rewrite insertBy_perm. now rewrite IH.
Qed.

Lemma ltb_sub_pos (a b : num) :
  Num.ltb a b = true -> Num.gtb (b - a)%num (Fin 0) = true.
Proof.
  destruct a as [| | |x], b as [| | |y]; cbn;
    try discriminate; try reflexivity.
  intros H. apply Rltb_iff in H. apply Rltb_true. lra.
Qed.

Lemma sub_pos_not_ltb (a b : num) :
  Num.gtb (b - a)%num (Fin 0) = true -> Num.ltb b a = false.
Proof.
  destruct a as [| | |x], b as [| | |y]; cbn;
    try discriminate; try reflexivity.
  intros H. apply Rltb_iff in H. apply Rltb_false. lra.
Qed.

Lemma insertBy_sorted (x : loc * bubble) (l : list (loc * bubble)) :
  Sorted notBelow l -> Sorted notBelow (insertBy x l).
Proof.
  induction 1 as [|y l Hs IH Hhd]; cbn [insertBy].
  - repeat constructor.
  - destruct (Num.gtb (compareFn (snd x) (snd y)) (Fin 0)) eqn:E.
    + constructor; [assumption|].
      assert (Hyx : notBelow y x) by (apply sub_pos_not_ltb; exact E).
      destruct l as [|z l]; cbn [insertBy]; [now constructor|].
      destruct (Num.gtb (compareFn (snd x) (snd z)) (Fin 0));
        constructor; [|assumption]. now inversion Hhd.
    + constructor; [now constructor|]. constructor.
      unfold notBelow. destruct (Num.ltb (sortKey x) (sortKey y)) eqn:E'; [|reflexivity].
      apply ltb_sub_pos in E'. unfold compareFn in E. unfold sortKey in E'.
      congruence.
Qed.

Lemma sortBy_sorted (l : list (loc * bubble)) : Sorted notBelow (sortBy l).
Proof.
  induction l as [|x l IH]; [constructor|].
  unfold sortBy. cbn [foldr]. now apply insertBy_sorted.
Qed.

Lemma fst_zip_refs (refs : list loc) (ps : list bubble) (s : state) :
  Forall2 (fun l p => heap s !! l = Some p) refs ps ->
  map fst (zip refs ps) = refs.
Proof.
  intros H. apply Forall2_length in H.
  change (map fst (zip refs ps)) with (fst <$> zip refs ps).
  apply fst_zip. lia.
Qed.

Lemma Forall2_alterAll (g : bubble -> bubble) (all refs : list loc)
    (ps : list bubble) (h : list bubble) :
  NoDup all -> (forall l, l ∈ refs -> l ∈ all) ->
  Forall2 (fun l p => h !! l = Some p) refs ps ->
  Forall2 (fun l p => alterAll g all h !! l = Some (g p)) refs ps.
Proof.
  intros Hnd Hin H. induction H as [|l p refs ps Hl _ IH]; constructor.
  - rewrite alterAll_lookup_in; [now rewrite Hl|assumption|].
    apply Hin. now left.
  - apply IH. intros l' Hl'. apply Hin. now right.
Qed.

Lemma radiusOf_small (area : bool) (lo hi : num) (v : val) :
  nullOrZero v = false -> Num.ltb (toNumber v) lo = true ->
  radiusOf area lo hi v = VNum (lo - Fin 1)%num.
Proof. intros H1 H2. unfold radiusOf. now rewrite H1, H2. Qed.

Lemma radiusOf_NaN_min (area : bool) (hi : num) (v : R) :
  v <> 0 -> radiusOf area NaN hi (VNum (Fin v)) = VNum NaN.
Proof.
  intros Hv. unfold radiusOf. rewrite nullOrZero_Fin by assumption.
  cbn [toNumber Num.ltb Num.sub Num.gtb].
  destruct area; reflexivity.
Qed.

Lemma radiusOf_NegInf_min (area : bool) (hi : num) (v : R) :
  v <> 0 -> radiusOf area NegInf hi (VNum (Fin v)) = VNum NaN.
Proof.
  intros Hv. unfold radiusOf. rewrite nullOrZero_Fin by assumption.
  cbn [toNumber Num.ltb].
  destruct hi as [| | |h], area; cbn; try reflexivity;
    (destruct (Num.geb _ _); [destruct (Rltb _ _)|]; reflexivity).
Qed.

(** Two different values with the same radius, whatever the sizes. *)
Lemma radiusOf_not_injective (area : bool) (lo hi : num) :
  exists v1 v2 : R,
    v1 <> v2 /\ v1 <> 0 /\ v2 <> 0 /\
    radiusOf area lo hi (VNum (Fin v1)) = radiusOf area lo hi (VNum (Fin v2)).
Proof.
  destruct lo as [| | |lo].
  - exists 1, 2. repeat split; try lra. now rewrite !radiusOf_NaN_min by lra.
  - exists 1, 2. repeat split; try lra. now rewrite !radiusOf_NegInf_min by lra.
  - exists 1, 2. repeat split; try lra.
    rewrite !radiusOf_small; try reflexivity; apply nullOrZero_Fin; lra.
  - assert (H : exists v1 v2 : R,
               v1 <> v2 /\ v1 <> 0 /\ v2 <> 0 /\ v1 < lo /\ v2 < lo).
    { destruct (Req_dec_T lo 1) as [->|H1].
      - exists (-1), (-2). repeat split; lra.
      - destruct (Req_dec_T lo 2) as [->|H2].
        + exists 1, (-1). repeat split; lra.
        + exists (lo - 1), (lo - 2). repeat split; lra. }
    destruct H as (v1 & v2 & Hne & H1 & H2 & L1 & L2).
    exists v1, v2. repeat split; try assumption.
    rewrite !radiusOf_small; try reflexivity;
      try (now apply nullOrZero_Fin); cbn; now apply Rltb_true.
Qed.


(** ** The loop body, and the degenerate populations *)

Lemma chooseBranch_Append (c : cursor) (cand first : bubble) (s : state)
    (before : nat) :
  stage c = S before ->
  ringAt (bubblePos c) (stage c) 0 s = Ret first s ->
  checkOverlap cand first = false ->
  (stage c <= 1)%nat \/
  (exists prev, bubblePos c !! before = Some prev /\
                prev !! (k c + 1)%nat = None) \/
  (exists pivot, ringAt (bubblePos c) before (k c + 1) s = Ret pivot s /\
                 checkOverlap cand pivot = false) ->
  chooseBranch c cand s = Ret Append s.
Proof.
  intros Hst Hf Hov H. unfold chooseBranch.
  rewrite (bind_Ret _ _ _ _ _ Hf), Hov.
  destruct (Nat.ltb_spec 1 (stage c)) as [Hs|Hs]; cbn [negb]; [|reflexivity].
  replace (stage c - 1)%nat with before by lia.
  destruct H as [H|[(prev & Hp & Hn)|(pivot & Hp & Hn)]].
  - lia.
  - now rewrite Hp, Hn.
  - apply ringAt_inv in Hp as (_ & prev & l & Hp & Hl & Hh).
    rewrite Hp, Hl. rewrite (bind_Ret _ _ _ _ _ (getB_Ret _ _ _ Hh)).
    now rewrite Hn.
Qed.

Lemma chooseBranch_NextPivot (c : cursor) (cand first pivot : bubble)
    (s : state) (before : nat) :
  stage c = S before ->
  ringAt (bubblePos c) (stage c) 0 s = Ret first s ->
  checkOverlap cand first = false ->
  (1 < stage c)%nat ->
  ringAt (bubblePos c) before (k c + 1) s = Ret pivot s ->
  checkOverlap cand pivot = true ->
  chooseBranch c cand s = Ret NextPivot s.
Proof.
  intros Hst Hf Hov Hs Hp Hn. unfold chooseBranch.
  rewrite (bind_Ret _ _ _ _ _ Hf), Hov.
  destruct (Nat.ltb_spec 1 (stage c)) as [_|]; [|lia]. cbn [negb].
  replace (stage c - 1)%nat with before by lia.
  apply ringAt_inv in Hp as (_ & prev & l & Hp & Hl & Hh).
  rewrite Hp, Hl. rewrite (bind_Ret _ _ _ _ _ (getB_Ret _ _ _ Hh)).
  now rewrite Hn.
Qed.


Lemma sortBy_nil : sortBy [] = [].
Proof. reflexivity. Qed.

Lemma placeBubbles_empty (fuel : nat) (a : aref) (s : state) :
  arrays s !! a = Some [] ->
  placeBubbles (S fuel) a s
  = Ret (Scalars []) (set_arrays (<[a := []]> (arrays s)) s).
Proof.
  intros Ha. cbn [placeBubbles]. unfold placeBubblesBody.
  assert (Hc : Forall2 (fun l b => heap s !! l = Some b) [] [])
    by constructor.
  rewrite (bind_Ret _ _ _ _ _ (sortInPlace_run _ _ _ _ Ha Hc)).
  reflexivity.
Qed.

Lemma placeBubbles_single (fuel : nat) (a : aref) (s : state) (e : loc)
    (b : bubble) :
  arrays s !! a = Some [e] ->
  heap s !! e = Some b ->
  placeBubbles (S fuel) a s
  = Ret (Scalars [zero; zero; slot0 b; slot1 b; slot2 b])
        (set_arrays (<[a := [e]]> (arrays s)) s).
Proof.
  intros Ha He. cbn [placeBubbles]. unfold placeBubblesBody.
  assert (Hc : Forall2 (fun l b => heap s !! l = Some b) [e] [b])
    by (repeat constructor; assumption).
  rewrite (bind_Ret _ _ _ _ _ (sortInPlace_run _ _ _ _ Ha Hc)).
  cbn [zip zip_with sortBy foldr insertBy map fst placeSorted].
  unfold bind at 1. unfold getB, defined. cbn [heap set_arrays].
  rewrite He. reflexivity.
Qed.

(** ** positionBubble without trigonometry *)

(** The sine and cosine of [finalAngle], without trigonometry: the unit
    vector from the origin to the last bubble, turned by the angle whose
    cosine is [cosAlfa].  It holds unless the last bubble lies exactly to
    the left of the origin, at the same height. *)
Lemma finalAngle_turn (lx ly rl ox oy ro rn : R) :
  let d := distanceR lx ly ox oy in
  let q := cosAlfa lx ly rl ox oy ro rn in
  let a := finalAngleR lx ly rl ox oy ro rn in
  (lx <> ox \/ ly <> oy) -> -1 <= q <= 1 ->
  (ly - oy <> 0 \/ 0 <= lx - ox) ->
  sin a = (lx - ox) / d * q - (ly - oy) / d * sqrt (1 - q * q) /\
  cos a = - ((ly - oy) / d * q + (lx - ox) / d * sqrt (1 - q * q)).
Proof.
  intros d q a Hd Hq Hside.
  pose proof (distanceR_pos lx ly ox oy Hd) as Hpos. fold d in Hpos.
  pose proof (distanceR_sqr lx ly ox oy) as Hsq. fold d in Hsq.
  pose proof (abs_le_distanceR lx ly ox oy) as Habs. fold d in Habs.
  set (dx := lx - ox) in *. set (dy := ly - oy) in *.
  set (u := Rabs dx / d).
  assert (Hu : 0 <= u <= 1).
  { unfold u. split.
    - apply Rmult_le_pos; [apply Rabs_pos|]. left. now apply Rinv_0_lt_compat.
    - apply (Rmult_le_reg_r d); [assumption|].
      unfold Rdiv. rewrite Rmult_assoc, Rinv_l by lra. lra. }
  assert (Hsb : sin (asin u) = u) by (apply sin_asin; lra).
  assert (Hcb : cos (asin u) = Rabs dy / d).
  { rewrite cos_asin by lra. apply sqrt_of_square.
    - apply Rmult_le_pos; [apply Rabs_pos|]. left. now apply Rinv_0_lt_compat.
    - unfold u, Rsqr. 
      assert (Rabs dx * Rabs dx = dx * dx).
      { rewrite <- Rabs_mult. apply Rabs_pos_eq. nra. }
      assert (Rabs dy * Rabs dy = dy * dy).
      { rewrite <- Rabs_mult. apply Rabs_pos_eq. nra. }
      field_simplify; [|lra|lra]. 
      apply (Rmult_eq_reg_r (d ^ 2)); [|nra].
      unfold Rdiv. rewrite !Rmult_assoc, Rinv_l by nra. nra. }
  assert (Hca : cos (acos q) = q) by (apply cos_acos; lra).
  assert (Hsa : sin (acos q) = sqrt (1 - q * q)) by (apply sin_acos; lra).
  set (s := sqrt (1 - q * q)) in *.
  unfold a, finalAngleR. fold d. fold q. fold dx. fold dy. fold u.
  set (al := acos q) in *. set (be := asin u) in *.
  destruct (Rlt_dec dy 0) as [Hy|Hy].
  - rewrite (Rltb_true dy 0) by assumption.
    assert (Ady : Rabs dy = - dy) by (apply Rabs_left; lra).
    destruct (Rlt_dec 0 dx) as [Hx|Hx].
    + rewrite Rltb_true by nra.
      assert (Adx : Rabs dx = dx) by (apply Rabs_pos_eq; lra).
      replace (0 + al + be * 1) with (al + be) by ring.
      rewrite sin_plus, cos_plus, Hsb, Hcb, Hca, Hsa.
      unfold u. rewrite Adx, Ady. split; field; lra.
    + rewrite Rltb_false by nra.
      assert (Adx : Rabs dx = - dx) by
        (destruct (Req_dec_T dx 0) as [->|]; [rewrite Rabs_R0; lra | apply Rabs_left; lra]).
      replace (0 + al + be * -1) with (al - be) by ring.
      rewrite sin_minus, cos_minus, Hsb, Hcb, Hca, Hsa.
      unfold u. rewrite Adx, Ady. split; field; lra.
  - rewrite (Rltb_false dy 0) by lra.
    assert (Ady : Rabs dy = dy) by (apply Rabs_pos_eq; lra).
    destruct (Rlt_dec (dx * dy) 0) as [Hx|Hx].
    + rewrite Rltb_true by assumption.
      assert (Adx : Rabs dx = - dx) by (apply Rabs_left; nra).
      replace (PI + al + be * 1) with (al + be + PI) by ring.
      rewrite neg_sin, neg_cos.
      rewrite sin_plus, cos_plus, Hsb, Hcb, Hca, Hsa.
      unfold u. rewrite Adx, Ady. split; field; lra.
    + rewrite Rltb_false by lra.
      assert (Adx : Rabs dx = dx).
      { apply Rabs_pos_eq. destruct Hside as [Hne|Hge]; [|assumption]. nra. }
      replace (PI + al + be * -1) with (al - be + PI) by ring.
      rewrite neg_sin, neg_cos.
      rewrite sin_minus, cos_minus, Hsb, Hcb, Hca, Hsa.
      unfold u. rewrite Adx, Ady. split; field; lra.
Qed.

Lemma positionBubble_closed (lx ly rl ox oy ro rn d q s X Y : R)
    (l3 l4 o3 o4 n0 n1 n3 n4 : val) :
  0 < d ->
  d * d = (lx - ox) * (lx - ox) + (ly - oy) * (ly - oy) ->
  rn + ro <> 0 ->
  q * (2 * (rn + ro) * d)
  = d * d + (rn + ro) * (rn + ro) - (rn + rl) * (rn + rl) ->
  0 <= s -> s * s = 1 - q * q ->
  (ly - oy <> 0 \/ 0 <= lx - ox) ->
  X * d = ox * d + (ro + rn) * ((lx - ox) * q - (ly - oy) * s) ->
  Y * d = oy * d + (ro + rn) * ((ly - oy) * q + (lx - ox) * s) ->
  positionBubble
    (Bubble (VNum (Fin lx)) (VNum (Fin ly)) (VNum (Fin rl)) l3 l4)
    (Bubble (VNum (Fin ox)) (VNum (Fin oy)) (VNum (Fin ro)) o3 o4)
    (Bubble n0 n1 (VNum (Fin rn)) n3 n4)
  = Bubble (VNum (Fin X)) (VNum (Fin Y)) (VNum (Fin rn)) n3 n4.
Proof.
  intros Hd Hdd Hr Hq Hs Hss Hside HX HY.
  assert (Ed : distanceR lx ly ox oy = d).
  { unfold distanceR. apply sqrt_of_square; lra. }
  assert (Eq : cosAlfa lx ly rl ox oy ro rn = q).
  { unfold cosAlfa. rewrite Ed.
    apply (Rmult_eq_reg_r (2 * (rn + ro) * d)).
    - unfold Rdiv. rewrite Rmult_assoc, Rinv_l; [lra|].
      apply Rmult_integral_contrapositive_currified; [|lra].
      apply Rmult_integral_contrapositive_currified; lra.
    - apply Rmult_integral_contrapositive_currified; [|lra].
      apply Rmult_integral_contrapositive_currified; lra. }
  assert (Hq1 : -1 <= q <= 1) by (split; nra).
  assert (Hne : lx <> ox \/ ly <> oy).
  { destruct (Req_dec_T lx ox) as [->|]; [|now left].
    right. intros ->. nra. }
  rewrite positionBubble_finite by (try assumption; rewrite Eq; assumption).
  destruct (finalAngle_turn lx ly rl ox oy ro rn Hne) as [Hsin Hcos];
    [rewrite Eq; assumption | assumption |].
  rewrite Hsin, Hcos, Ed, Eq.
  rewrite (sqrt_of_square (1 - q * q) s) by lra.
  do 2 f_equal.
  - f_equal. f_equal. apply (Rmult_eq_reg_r d); [|lra]. rewrite HX. field. lra.
  - f_equal. f_equal. apply (Rmult_eq_reg_r d); [|lra]. rewrite HY. field. lra.
Qed.

(** ** The chart of nine points: sizes *)

Lemma accumulate_nine :
  accumulateAllPoints nineChart = Ret 0%nat (set_arrays [[0;1;2;3;4;5;6;7;8]%nat]
     (set_heap nineValues nineChart)).
Proof. reflexivity. Qed.

Lemma radius_30 : radiusOf true (Fin 4) (Fin 30) (VNum (Fin 30)) = VNum (Fin 15).
Proof.
  rewrite radiusOf_above by lra. unfold posR. rewrite Rltb_true by lra.
  replace ((30 - 4) / (30 - 4)) with 1 by lra. rewrite sqrt_1.
  replace (4 + 1 * (30 - 4)) with (IZR 30) by lra.
  rewrite Zceil_IZR. do 2 f_equal. lra.
Qed.

Lemma radius_4 : radiusOf true (Fin 4) (Fin 30) (VNum (Fin 4)) = VNum (Fin 2).
Proof.
  rewrite radiusOf_above by lra. unfold posR. rewrite Rltb_true by lra.
  replace ((4 - 4) / (30 - 4)) with 0 by lra. rewrite sqrt_0.
  replace (4 + 0 * (30 - 4)) with (IZR 4) by lra.
  rewrite Zceil_IZR. do 2 f_equal. lra.
Qed.

Lemma getRadius_nine :
  getRadius (set_allDataPoints 0%nat
               (set_arrays [[0; 1; 2; 3; 4; 5; 6; 7; 8]%nat]
                  (set_heap nineValues nineChart)))
  = Ret tt nineSized.
Proof.
  set (s := set_allDataPoints _ _).
  rewrite (getRadius_run s 0%nat [0;1;2;3;4;5;6;7;8]%nat nineValues).
  - unfold radiusIn.
    cbn [map slot2 nineValues point plotWidth plotHeight s set_allDataPoints
         set_arrays set_heap nineChart chartOf sizeByWidth negb minPointSize
         maxPointSize extreme isPercent].
    rewrite radius_30, radius_4.
    unfold alterAll.
    cbn [foldl heap s set_allDataPoints set_arrays set_heap nineValues alter
         list_alter].
    cbn [slot2 point setSlot2 slot0 slot1 slot3 slot4].
    rewrite !radius_30, !radius_4. reflexivity.
  - reflexivity.
  - reflexivity.
  - exact (NoDup_seq 0 9).
  - repeat constructor.
Qed.

(** ** The chart of nine points: positions *)

Lemma sqrt_between (a lo hi : R) :
  0 <= lo -> lo * lo < a -> a < hi * hi -> 0 <= hi -> lo < sqrt a < hi.
Proof.
  intros Hlo Hl Hh Hhi.
  assert (Ha : 0 <= a) by nra.
  pose proof (sqrt_pos a) as Hp. pose proof (sqrt_sqrt a Ha) as Hs.
  split; nra.
Qed.

Lemma sqrt3_sqr : sqrt 3 * sqrt 3 = 3.
Proof. apply sqrt_sqrt. lra. Qed.

Lemma sqrt3_bounds : 1.732 < sqrt 3 < 1.7321.
Proof. apply sqrt_between; lra. Qed.

Lemma place_2 :
  positionBubble (placed 1 0 (-30) 15) (placed 0 0 0 15) (point 2 15)
  = placed 2 (15 * sqrt 3) (-15) 15.
Proof.
  pose proof sqrt3_sqr. pose proof sqrt3_bounds.
  apply (positionBubble_closed _ _ _ _ _ _ _ 30 (1 / 2) (sqrt 3 / 2));
    try (right; lra); try (left; lra); try nra.
Qed.

Lemma place_3 :
  positionBubble (placed 2 (15 * sqrt 3) (-15) 15) (placed 0 0 0 15) (point 3 15)
  = placed 3 (15 * sqrt 3) 15 15.
Proof.
  pose proof sqrt3_sqr. pose proof sqrt3_bounds.
  apply (positionBubble_closed _ _ _ _ _ _ _ 30 (1 / 2) (sqrt 3 / 2));
    try (right; lra); try (left; lra); try nra.
Qed.

Lemma place_4 :
  positionBubble (placed 3 (15 * sqrt 3) 15 15) (placed 0 0 0 15) (point 4 15)
  = placed 4 0 30 15.
Proof.
  pose proof sqrt3_sqr. pose proof sqrt3_bounds.
  apply (positionBubble_closed _ _ _ _ _ _ _ 30 (1 / 2) (sqrt 3 / 2));
    try (right; lra); try (left; lra); try nra.
Qed.

Lemma place_5 :
  positionBubble (placed 4 0 30 15) (placed 0 0 0 15) (point 5 15)
  = placed 5 (- (15 * sqrt 3)) 15 15.
Proof.
  pose proof sqrt3_sqr. pose proof sqrt3_bounds.
  apply (positionBubble_closed _ _ _ _ _ _ _ 30 (1 / 2) (sqrt 3 / 2));
    try (right; lra); try (left; lra); try nra.
Qed.

Lemma place_6 :
  positionBubble (placed 5 (- (15 * sqrt 3)) 15 15) (placed 0 0 0 15) (point 6 15)
  = placed 6 (- (15 * sqrt 3)) (-15) 15.
Proof.
  pose proof sqrt3_sqr. pose proof sqrt3_bounds.
  apply (positionBubble_closed _ _ _ _ _ _ _ 30 (1 / 2) (sqrt 3 / 2));
    try (right; lra); try (left; lra); try nra.
Qed.

Lemma place_7 :
  positionBubble (placed 6 (- (15 * sqrt 3)) (-15) 15) (placed 0 0 0 15) (point 7 2)
  = placed 7 (4 - 15 / 2 * sqrt 3) (- (15 / 2) - 4 * sqrt 3) 2.
Proof.
  pose proof sqrt3_sqr. pose proof sqrt3_bounds.
  apply (positionBubble_closed _ _ _ _ _ _ _ 30 (15 / 17) (8 / 17));
    try (right; lra); try (left; lra); try nra.
Qed.

Lemma c7_bounds :
  -8.99075 < 4 - 15 / 2 * sqrt 3 < -8.99 /\
  -14.4284 < - (15 / 2) - 4 * sqrt 3 < -14.428.
Proof. pose proof sqrt3_bounds. lra. Qed.

Lemma sc_facts : 0 <= sc /\ sc * sc = 1 - 281 / 289 * (281 / 289) /\ 0.2336 < sc < 0.2337.
Proof.
  unfold sc. split; [apply sqrt_pos|]. split; [apply sqrt_sqrt; lra|].
  apply sqrt_between; lra.
Qed.

Lemma place_8_candidate :
  positionBubble (placed 7 (4 - 15 / 2 * sqrt 3) (- (15 / 2) - 4 * sqrt 3) 2)
                 (placed 0 0 0 15) (point 8 2)
  = placed 8 xc yc 2.
Proof.
  pose proof sqrt3_sqr. pose proof sqrt3_bounds.
  destruct sc_facts as (Hs0 & Hs2 & Hsb).
  apply (positionBubble_closed _ _ _ _ _ _ _ 17 (281 / 289) sc);
    try assumption; try (left; lra); unfold xc, yc; try nra.
Qed.

Lemma candidate_bounds : -6 < xc < -5 /\ -17 < yc < -16.
Proof.
  destruct sc_facts as (Hs0 & Hs2 & Hsb). destruct c7_bounds as [Hx Hy].
  unfold xc, yc.
  set (a := 4 - 15 / 2 * sqrt 3) in *. set (b := - (15 / 2) - 4 * sqrt 3) in *.
  split; split; nra.
Qed.

Lemma d8_facts :
  0 < d8 /\ d8 * d8 = 739 - 240 * sqrt 3 /\ 17.98 < d8 < 17.982.
Proof.
  pose proof sqrt3_bounds.
  assert (Hb : 17.98 < d8 < 17.982) by (unfold d8; apply sqrt_between; lra).
  split; [lra|]. split; [|assumption].
  unfold d8. apply sqrt_sqrt. lra.
Qed.

Lemma q8_facts : q8 * (34 * d8) = d8 * d8 + 273 /\ 0.975 < q8 < 0.976.
Proof.
  destruct d8_facts as (Hd0 & Hd2 & Hdb). pose proof sqrt3_bounds.
  assert (E : q8 * (34 * d8) = d8 * d8 + 273).
  { unfold q8. field. lra. }
  split; [assumption|]. split; nra.
Qed.

Lemma s8_facts : 0 <= s8 /\ s8 * s8 = 1 - q8 * q8 /\ 0.2177 < s8 < 0.2223.
Proof.
  destruct q8_facts as (_ & Hqb).
  unfold s8. split; [apply sqrt_pos|]. split; [apply sqrt_sqrt; nra|].
  apply sqrt_between; nra.
Qed.

Lemma place_8 :
  positionBubble (placed 7 (4 - 15 / 2 * sqrt 3) (- (15 / 2) - 4 * sqrt 3) 2)
                 (placed 1 0 (-30) 15) (point 8 2)
  = placed 8 x8 y8 2.
Proof.
  pose proof sqrt3_sqr. pose proof sqrt3_bounds.
  destruct d8_facts as (Hd0 & Hd2 & Hdb).
  destruct q8_facts as (Hq & Hqb).
  destruct s8_facts as (Hs0 & Hs2 & Hsb).
  apply (positionBubble_closed _ _ _ _ _ _ _ d8 q8 s8);
    try assumption; try (left; lra); try nra.
  - unfold x8. field. lra.
  - unfold y8. field. lra.
Qed.

Lemma div_between (a d lo hi : R) :
  0 < d -> lo * d < a -> a < hi * d -> lo < a / d < hi.
Proof.
  intros Hd Hl Hh.
  assert (E : a / d * d = a) by (field; lra).
  split; nra.
Qed.

Lemma x8_y8_bounds : -12 < x8 < -11 /\ -18 < y8 < -17.
Proof.
  pose proof sqrt3_bounds as H3.
  destruct d8_facts as (Hd0 & Hd2 & Hdb).
  destruct q8_facts as (Hq & Hqb).
  destruct s8_facts as (Hs0 & Hs2 & Hsb).
  assert (Hu : -0.5001 < (4 - 15 / 2 * sqrt 3) / d8 < -0.4999)
    by (apply div_between; lra).
  assert (Hv : 0.8659 < (45 / 2 - 4 * sqrt 3) / d8 < 0.8661)
    by (apply div_between; lra).
  unfold x8, y8.
  set (u := (4 - 15 / 2 * sqrt 3) / d8) in *.
  set (v := (45 / 2 - 4 * sqrt 3) / d8) in *.
  split; split; nra.
Qed.

Lemma checkOverlap_placed (i j : nat) (x1 y1 r1 x2 y2 r2 : R) :
  checkOverlap (placed i x1 y1 r1) (placed j x2 y2 r2)
  = Rltb (sqrt ((x1 - x2) * (x1 - x2) + (y1 - y2) * (y1 - y2))
          - Rabs (r1 + r2)) (- 0.001).
Proof.
  unfold checkOverlap, placed. num_cbn.
  rewrite sqrt_Fin by apply sum_sqr_nonneg. reflexivity.
Qed.

Lemma placed_apart (i j : nat) (x1 y1 r1 x2 y2 r2 : R) :
  0.001 <= r1 + r2 ->
  (r1 + r2 - 0.001) * (r1 + r2 - 0.001)
  <= (x1 - x2) * (x1 - x2) + (y1 - y2) * (y1 - y2) ->
  checkOverlap (placed i x1 y1 r1) (placed j x2 y2 r2) = false.
Proof.
  intros Hr H. rewrite checkOverlap_placed. apply Rltb_false.
  rewrite Rabs_pos_eq by lra.
  assert (r1 + r2 - 0.001
          <= sqrt ((x1 - x2) * (x1 - x2) + (y1 - y2) * (y1 - y2))).
  { rewrite <- (sqrt_square (r1 + r2 - 0.001)) by lra.
    apply sqrt_le_1; [nra | apply sum_sqr_nonneg | assumption]. }
  lra.
Qed.

Lemma placed_overlap (i j : nat) (x1 y1 r1 x2 y2 r2 : R) :
  0.001 <= r1 + r2 ->
  (x1 - x2) * (x1 - x2) + (y1 - y2) * (y1 - y2)
  < (r1 + r2 - 0.001) * (r1 + r2 - 0.001) ->
  checkOverlap (placed i x1 y1 r1) (placed j x2 y2 r2) = true.
Proof.
  intros Hr H. rewrite checkOverlap_placed. apply Rltb_true.
  rewrite Rabs_pos_eq by lra.
  assert (sqrt ((x1 - x2) * (x1 - x2) + (y1 - y2) * (y1 - y2))
          < r1 + r2 - 0.001).
  { rewrite <- (sqrt_square (r1 + r2 - 0.001)) by lra.
    apply sqrt_lt_1; [apply sum_sqr_nonneg | nra | assumption]. }
  lra.
Qed.

Lemma apart_2 :
  checkOverlap (placed 2 (15 * sqrt 3) (-15) 15) (placed 1 0 (-30) 15) = false.
Proof. pose proof sqrt3_sqr. apply placed_apart; nra. Qed.

Lemma apart_3 :
  checkOverlap (placed 3 (15 * sqrt 3) 15 15) (placed 1 0 (-30) 15) = false.
Proof. pose proof sqrt3_sqr. apply placed_apart; nra. Qed.

Lemma apart_4 :
  checkOverlap (placed 4 0 30 15) (placed 1 0 (-30) 15) = false.
Proof. apply placed_apart; nra. Qed.

Lemma apart_5 :
  checkOverlap (placed 5 (- (15 * sqrt 3)) 15 15) (placed 1 0 (-30) 15) = false.
Proof. pose proof sqrt3_sqr. apply placed_apart; nra. Qed.

Lemma apart_6 :
  checkOverlap (placed 6 (- (15 * sqrt 3)) (-15) 15) (placed 1 0 (-30) 15)
  = false.
Proof. pose proof sqrt3_sqr. apply placed_apart; nra. Qed.

Lemma apart_7 :
  checkOverlap (placed 7 (4 - 15 / 2 * sqrt 3) (- (15 / 2) - 4 * sqrt 3) 2)
               (placed 1 0 (-30) 15) = false.
Proof.
  pose proof sqrt3_sqr. pose proof sqrt3_bounds. apply placed_apart; nra.
Qed.

Lemma candidate_overlaps :
  checkOverlap (placed 8 xc yc 2) (placed 1 0 (-30) 15) = true.
Proof.
  destruct candidate_bounds as [Hx Hy]. apply placed_overlap; nra.
Qed.

Lemma bubble_8_overlaps_6 :
  checkOverlap (placed 8 x8 y8 2) (placed 6 (- (15 * sqrt 3)) (-15) 15) = true.
Proof.
  destruct x8_y8_bounds as [Hx Hy]. pose proof sqrt3_bounds.
  apply placed_overlap; nra.
Qed.

(** ** The chart of nine points: the run of placeBubbles *)

Lemma setSlot2_same (b : bubble) : setSlot2 b (slot2 b) = b.
Proof. now destruct b. Qed.

Lemma store_same (e : loc) (entry : bubble) (s : state) :
  heap s !! e = Some entry ->
  orOne (slot2 entry) = slot2 entry ->
  set_heap (<[e := setSlot2 entry (orOne (slot2 entry))]> (heap s)) s = s.
Proof.
  intros He Hr. rewrite Hr, setSlot2_same, list_insert_id by assumption.
  apply set_heap_id.
Qed.

Lemma orOne_Fin (r : R) : r <> 0 -> orOne (VNum (Fin r)) = VNum (Fin r).
Proof. intros H. unfold orOne, Num.truthy. now rewrite Reqb_false. Qed.

Lemma chooseBranch_first_ring (c : cursor) (cand first : bubble) (s : state) :
  stage c = 1%nat ->
  ringAt (bubblePos c) (stage c) 0 s = Ret first s ->
  checkOverlap cand first = false ->
  chooseBranch c cand s = Ret Append s.
Proof.
  intros Hs Hf Hov. unfold chooseBranch.
  rewrite (bind_Ret _ _ _ _ _ Hf), Hov, Hs. reflexivity.
Qed.

Lemma placeStep_Append_same (e : loc) (c : cursor) (s : state)
    (entry last origin : bubble) (before : nat) (ring : list loc) :
  heap s !! e = Some entry ->
  orOne (slot2 entry) = slot2 entry ->
  stage c = S before ->
  bubblePos c !! stage c = Some ring ->
  ringAt (bubblePos c) (stage c) (j c) s = Ret last s ->
  ringAt (bubblePos c) before (k c) s = Ret origin s ->
  chooseBranch c (positionBubble last origin entry) s = Ret Append s ->
  placeStep e c s
  = Ret (Cursor (<[stage c := ring ++ [length (heap s)]]> (bubblePos c))
                (stage c) (j c + 1) (k c))
        (set_heap (heap s ++ [positionBubble last origin entry]) s).
Proof.
  intros He Hr Hst Hring Hlast Horigin Hbr.
  pose proof (store_same e entry s He Hr) as Hs.
  pose proof (placeStep_Append e c s entry last origin before) as H.
  cbv zeta in H. rewrite Hs in H. rewrite Hr, setSlot2_same in H.
  now apply H.
Qed.

Lemma placeStep_NewRing_same (e : loc) (c : cursor) (s : state)
    (entry last origin first : bubble) (before : nat) :
  heap s !! e = Some entry ->
  orOne (slot2 entry) = slot2 entry ->
  stage c = S before ->
  ringAt (bubblePos c) (stage c) (j c) s = Ret last s ->
  ringAt (bubblePos c) before (k c) s = Ret origin s ->
  ringAt (bubblePos c) (stage c) 0 s = Ret first s ->
  length (bubblePos c) = S (stage c) ->
  checkOverlap (positionBubble last origin entry) first = true ->
  placeStep e c s
  = Ret (Cursor (bubblePos c ++ [[length (heap s)]]) (stage c + 1) 0 0)
        (set_heap (heap s ++ [positionBubble last first entry]) s).
Proof.
  intros He Hr Hst Hlast Horigin Hfirst Hlen Hov.
  pose proof (store_same e entry s He Hr) as Hs.
  pose proof (placeStep_NewRing e c s entry last origin before) as H.
  cbv zeta in H. rewrite Hs in H. rewrite Hr, setSlot2_same in H.
  now apply H.
Qed.

Ltac first_ring_step e n entry last place apart :=
  rewrite (placeStep_Append_same e (ringCursor n) (packed n) entry last
             (placed 0 0 0 15) 0 (seq 10 (S n)));
  [ rewrite place; reflexivity
  | reflexivity
  | apply orOne_Fin; lra
  | reflexivity
  | reflexivity
  | reflexivity
  | reflexivity
  | apply (chooseBranch_first_ring _ _ (placed 1 0 (-30) 15));
    [ reflexivity | reflexivity | rewrite place; exact apart ] ].

Lemma step_2 :
  placeStep 2 (ringCursor 0) (packed 0) = Ret (ringCursor 1) (packed 1).
Proof.
  first_ring_step 2%nat 0%nat (point 2 15) (placed 1 0 (-30) 15) place_2 apart_2.
Qed.

Lemma step_3 :
  placeStep 3 (ringCursor 1) (packed 1) = Ret (ringCursor 2) (packed 2).
Proof.
  first_ring_step 3%nat 1%nat (point 3 15) (placed 2 (15 * sqrt 3) (-15) 15)
                  place_3 apart_3.
Qed.

Lemma step_4 :
  placeStep 4 (ringCursor 2) (packed 2) = Ret (ringCursor 3) (packed 3).
Proof.
  first_ring_step 4%nat 2%nat (point 4 15) (placed 3 (15 * sqrt 3) 15 15)
                  place_4 apart_4.
Qed.

Lemma step_5 :
  placeStep 5 (ringCursor 3) (packed 3) = Ret (ringCursor 4) (packed 4).
Proof.
  first_ring_step 5%nat 3%nat (point 5 15) (placed 4 0 30 15) place_5 apart_5.
Qed.

Lemma step_6 :
  placeStep 6 (ringCursor 4) (packed 4) = Ret (ringCursor 5) (packed 5).
Proof.
  first_ring_step 6%nat 4%nat (point 6 15) (placed 5 (- (15 * sqrt 3)) 15 15)
                  place_6 apart_6.
Qed.

Lemma step_7 :
  placeStep 7 (ringCursor 5) (packed 5) = Ret (ringCursor 6) (packed 6).
Proof.
  first_ring_step 7%nat 5%nat (point 7 2) (placed 6 (- (15 * sqrt 3)) (-15) 15)
                  place_7 apart_7.
Qed.

Lemma step_8 :
  placeStep 8 (ringCursor 6) (packed 6)
  = Ret (Cursor [[9%nat]; seq 10 7; [17%nat]] 2 0 0) (packed 7).
Proof.
  rewrite (placeStep_NewRing_same 8 (ringCursor 6) (packed 6) (point 8 2)
             (placed 7 (4 - 15 / 2 * sqrt 3) (- (15 / 2) - 4 * sqrt 3) 2)
             (placed 0 0 0 15) (placed 1 0 (-30) 15) 0).
  - rewrite place_8. reflexivity.
  - reflexivity.
  - apply orOne_Fin; lra.
  - reflexivity.
  - reflexivity.
  - reflexivity.
  - reflexivity.
  - reflexivity.
  - rewrite place_8_candidate. exact candidate_overlaps.
Qed.

Lemma loop_nine :
  foldEach placeStep [2; 3; 4; 5; 6; 7; 8]%nat (ringCursor 0) (packed 0)
  = Ret (Cursor [[9%nat]; seq 10 7; [17%nat]] 2 0 0) (packed 7).
Proof.
  cbn [foldEach].
  rewrite (bind_Ret _ _ _ _ _ step_2).
  rewrite (bind_Ret _ _ _ _ _ step_3).
  rewrite (bind_Ret _ _ _ _ _ step_4).
  rewrite (bind_Ret _ _ _ _ _ step_5).
  rewrite (bind_Ret _ _ _ _ _ step_6).
  rewrite (bind_Ret _ _ _ _ _ step_7).
  rewrite (bind_Ret _ _ _ _ _ step_8).
  reflexivity.
Qed.

Lemma sortBy_descending (l : list (loc * bubble)) :
  Sorted (fun x y => Num.gtb (compareFn (snd x) (snd y)) (Fin 0) = false) l ->
  sortBy l = l.
Proof.
  induction 1 as [|x l Hs IH Hhd]; [reflexivity|].
  unfold sortBy. cbn [foldr]. fold (sortBy l). rewrite IH.
  destruct Hhd as [|y l' Hxy]; [reflexivity|].
  cbn [insertBy]. now rewrite Hxy.
Qed.

Lemma nine_sorted :
  sortBy (zip [0; 1; 2; 3; 4; 5; 6; 7; 8]%nat ninePoints)
  = zip [0; 1; 2; 3; 4; 5; 6; 7; 8]%nat ninePoints.
Proof.
  apply sortBy_descending.
  repeat (apply Sorted_cons;
          [|first [apply HdRel_nil
                  |apply HdRel_cons; unfold compareFn; cbn;
                   apply Rltb_false; lra]]).
  apply Sorted_nil.
Qed.

Lemma nine_extent :
  exists x0 x1 : R,
    boundingBox nineBubbles = Box (Fin x0) (Fin x1) (Fin (-45)) (Fin 45) /\
    30 <= x1 - x0 <= 100.
Proof.
  pose proof sqrt3_bounds as H3.
  destruct x8_y8_bounds as [Hx8 Hy8].
  destruct (boundingBox_tight nineBubbles
              [(0, 0, 15); (0, -30, 15); (15 * sqrt 3, -15, 15);
               (15 * sqrt 3, 15, 15); (0, 30, 15);
               (- (15 * sqrt 3), 15, 15); (- (15 * sqrt 3), -15, 15);
               (4 - 15 / 2 * sqrt 3, - (15 / 2) - 4 * sqrt 3, 2);
               (x8, y8, 2)])
    as (x0 & x1 & y0 & y1 & Hb & Hall & E0 & E1 & E2 & E3).
  { discriminate. }
  { repeat constructor. }
  repeat match goal with
         | H : Forall _ (_ :: _) |- _ => apply Forall_cons in H as [? H]
         end.
  clear Hall.
  assert (Hx0 : -50 <= x0).
  { repeat (apply Exists_cons in E0 as [E0|E0]; [lra|]).
    now apply Exists_nil in E0. }
  assert (Hx1 : x1 <= 50).
  { repeat (apply Exists_cons in E1 as [E1|E1]; [lra|]).
    now apply Exists_nil in E1. }
  assert (Hy0 : -45 <= y0).
  { repeat (apply Exists_cons in E2 as [E2|E2]; [lra|]).
    now apply Exists_nil in E2. }
  assert (Hy1 : y1 <= 45).
  { repeat (apply Exists_cons in E3 as [E3|E3]; [lra|]).
    now apply Exists_nil in E3. }
  exists x0, x1. split; [|lra].
  rewrite Hb. do 2 f_equal; lra.
Qed.


Lemma placeBubblesBody_seeds (resize : M unit) (a : aref) (s : state)
    (refs : list loc) (contents : list bubble) (e0 e1 : loc)
    (rest : list loc) (b0 b1 : bubble) :
  arrays s !! a = Some refs ->
  Forall2 (fun l b => heap s !! l = Some b) refs contents ->
  map fst (sortBy (zip refs contents)) = e0 :: e1 :: rest ->
  heap s !! e0 = Some b0 ->
  heap s !! e1 = Some b1 ->
  placeBubblesBody resize a s
  = (c <- foldEach placeStep rest
            (Cursor [[length (heap s)]; [S (length (heap s))]] 1 0 0) ;;
     modify (set_stages (bubblePos c)) ;;;
     raw <- newArr (concat (bubblePos c)) ;;
     modify (set_rawPositions raw) ;;;
     resize ;;;
     raw' <- defined rawPositions ;;
     ret (Positions raw'))
      (set_heap
         (heap s
          ++ [Bubble zero zero (slot2 b0) (slot3 b0) (slot4 b0);
              Bubble zero
                     (VNum (Fin 0 - toNumber (slot2 b1)
                            - toNumber (slot2 b0))%num)
                     (slot2 b1) (slot3 b1) (slot4 b1)])
         (set_arrays (<[a := e0 :: e1 :: rest]> (arrays s)) s)).
Proof.
  intros Ha Hc Hsorted H0 H1. unfold placeBubblesBody.
  rewrite (bind_Ret _ _ _ _ _ (sortInPlace_run _ _ _ _ Ha Hc)).
  rewrite Hsorted. cbn [placeSorted].
  set (s1 := set_arrays _ s).
  assert (H0' : heap s1 !! e0 = Some b0) by exact H0.
  rewrite (bind_Ret _ _ _ _ _ (getB_Ret _ _ _ H0')).
  unfold bind at 1. cbn [newB].
  set (s2 := set_heap _ s1).
  assert (H1' : heap s2 !! e1 = Some b1).
  { unfold s2. cbn [heap set_heap]. rewrite lookup_app_l; [exact H1|].
    eapply lookup_lt_Some. exact H1. }
  rewrite (bind_Ret _ _ _ _ _ (getB_Ret _ _ _ H1')).
  unfold bind at 1. cbn [newB].
  unfold s2. cbn [heap set_heap]. rewrite length_app. cbn [length].
  replace (length (heap s1) + 1)%nat with (S (length (heap s1))) by lia.
  rewrite <- app_assoc. reflexivity.
Qed.

Lemma resize_nine :
  exists dx dy : num,
    forall repack : aref -> M returned,
      resizeRadiusBody repack nineBefore = Ret tt (set_diff dx dy nineBefore).
Proof.
  destruct nine_extent as (x0 & x1 & Hb & Hw).
  eexists _, _. intros repack.
  rewrite (resizeRadiusBody_run repack nineBefore 1%nat (seq 9 9) nineBubbles);
    [|reflexivity|reflexivity|unfold nineBubbles; repeat constructor].
  assert (E : needsResize (smallerDimension nineBefore (boundingBox nineBubbles))
              = false).
  { rewrite Hb. unfold smallerDimension, spaceRatio.
    cbn [fst snd minX maxX minY maxY].
    change (plotWidth nineBefore) with (Fin 100).
    change (plotHeight nineBefore) with (Fin 90).
    change (plotLeft nineBefore) with (Fin 0).
    change (plotTop nineBefore) with (Fin 0).
    num_cbn. rewrite !div_Fin by lra. rewrite min_Fin.
    replace ((90 - 0) / (45 - -45)) with 1 by lra.
    rewrite Rmin_right.
    - unfold needsResize. num_cbn. apply Rltb_false.
      replace (1 - 1) with 0 by lra. rewrite Rabs_R0. lra.
    - apply (Rmult_le_reg_r (x1 - x0)); [lra|].
      unfold Rdiv. rewrite Rmult_assoc, Rinv_l by lra. lra. }
  rewrite E. reflexivity.
Qed.

Lemma pack_nine (fuel : nat) :
  exists dx dy : num,
    placeBubbles (S fuel) 0 nineSized
    = Ret (Positions 1) (set_diff dx dy nineBefore).
Proof.
  destruct resize_nine as (dx & dy & Hresize). exists dx, dy.
  cbn [placeBubbles].
  rewrite (placeBubblesBody_seeds _ 0%nat nineSized (seq 0 9) ninePoints
             0%nat 1%nat (seq 2 7) (point 0 15) (point 1 15)).
  2:{ reflexivity. }
  2:{ unfold ninePoints. repeat constructor. }
  2:{ change (seq 0 9) with [0; 1; 2; 3; 4; 5; 6; 7; 8]%nat.
      rewrite nine_sorted. reflexivity. }
  2:{ reflexivity. }
  2:{ reflexivity. }
  match goal with |- bind _ _ ?st = _ => replace st with (packed 0) end.
  2:{ unfold packed. cbn [slot2 slot3 slot4 point toNumber Num.sub].
      replace (0 - 15 - 15) with (-30) by lra. reflexivity. }
  change (Cursor [[length (heap nineSized)]; [S (length (heap nineSized))]] 1 0 0)
    with (ringCursor 0).
  change (seq 2 7) with [2; 3; 4; 5; 6; 7; 8]%nat.
  rewrite (bind_Ret _ _ _ _ _ loop_nine).
  unfold bind at 1. cbn [modify].
  unfold bind at 1. cbn [newArr].
  unfold bind at 1. cbn [modify].
  match goal with |- bind _ _ ?st = _ => change st with nineBefore end.
  rewrite (bind_Ret _ _ _ _ _ (Hresize _)).
  reflexivity.
Qed.

(** ** The chart of two points *)

Lemma getRadius_two :
  getRadius (set_allDataPoints 0%nat
               (set_arrays [[0; 1]%nat]
                  (set_heap [point 0 4; point 1 30] twoChart)))
  = Ret tt twoSized.
Proof.
  set (s := set_allDataPoints _ _).
  rewrite (getRadius_run s 0%nat [0; 1]%nat [point 0 4; point 1 30]).
  - unfold radiusIn.
    cbn [map slot2 point plotWidth plotHeight s set_allDataPoints
         set_arrays set_heap twoChart chartOf sizeByWidth negb minPointSize
         maxPointSize extreme isPercent].
    rewrite radius_30, radius_4.
    unfold alterAll.
    cbn [foldl heap s set_allDataPoints set_arrays set_heap alter list_alter].
    cbn [slot2 point setSlot2 slot0 slot1 slot3 slot4].
    rewrite !radius_30, !radius_4. reflexivity.
  - reflexivity.
  - reflexivity.
  - exact (NoDup_seq 0 2).
  - repeat constructor.
Qed.

Lemma two_sorted :
  sortBy (zip [0; 1]%nat [point 0 2; point 1 15])
  = [(1%nat, point 1 15); (0%nat, point 0 2)].
Proof.
  cbn [zip zip_with sortBy foldr insertBy snd compareFn point slot2 toNumber
       Num.sub Num.gtb Num.ltb].
  rewrite Rltb_true by lra. reflexivity.
Qed.

Lemma two_extent :
  boundingBox twoBubbles = Box (Fin (-15)) (Fin 15) (Fin (-19)) (Fin 15).
Proof.
  unfold boundingBox, twoBubbles. cbn [fold_left].
  rewrite (growBox_first 0 0 15) by reflexivity.
  rewrite (growBox_Fin _ _ _ _ 0 (-17) 2) by reflexivity.
  rewrite Rmin_left, Rmax_left, Rmin_right, Rmax_left by lra.
  do 4 f_equal; lra.
Qed.

Lemma two_ratio :
  Num.min ((plotWidth twoBefore - plotLeft twoBefore)
           / (maxX (boundingBox twoBubbles) - minX (boundingBox twoBubbles)))%num
          ((plotHeight twoBefore - plotTop twoBefore)
           / (maxY (boundingBox twoBubbles) - minY (boundingBox twoBubbles)))%num
  = Fin 1.
Proof.
  rewrite two_extent. cbn [minX maxX minY maxY].
  change (plotWidth twoBefore) with (Fin 100).
  change (plotHeight twoBefore) with (Fin 34).
  change (plotLeft twoBefore) with (Fin 0).
  change (plotTop twoBefore) with (Fin 0).
  num_cbn. rewrite !div_Fin by lra. rewrite min_Fin.
  rewrite Rmin_right by lra. f_equal. lra.
Qed.

Lemma accept_one : Num.gtb (Num.abs (Fin 1 - Fin 1)%num) (Fin 1e-10) = false.
Proof.
  num_cbn. apply Rltb_false.
  replace (1 - 1) with 0 by lra. rewrite Rabs_R0. lra.
Qed.

Lemma resize_two :
  exists dx dy : num,
    forall repack : aref -> M returned,
      resizeRadiusBody repack twoBefore = Ret tt (set_diff dx dy twoBefore).
Proof.
  eexists _, _. intros repack.
  rewrite (resizeRadiusBody_run repack twoBefore 1%nat [2; 3]%nat twoBubbles);
    [|reflexivity|reflexivity|unfold twoBubbles; repeat constructor].
  unfold smallerDimension, spaceRatio, needsResize. cbn [fst snd].
  rewrite two_ratio, accept_one. reflexivity.
Qed.

Lemma pack_two (fuel : nat) :
  exists dx dy : num,
    placeBubbles (S fuel) 0 twoSized
    = Ret (Positions 1) (set_diff dx dy twoBefore).
Proof.
  destruct resize_two as (dx & dy & Hresize). exists dx, dy.
  cbn [placeBubbles].
  rewrite (placeBubblesBody_seeds _ 0%nat twoSized [0; 1]%nat
             [point 0 2; point 1 15] 1%nat 0%nat [] (point 1 15) (point 0 2)).
  2:{ reflexivity. }
  2:{ repeat constructor. }
  2:{ rewrite two_sorted. reflexivity. }
  2:{ reflexivity. }
  2:{ reflexivity. }
  cbn [foldEach]. unfold bind at 1. cbn [ret].
  unfold bind at 1. cbn [modify].
  unfold bind at 1. cbn [newArr].
  unfold bind at 1. cbn [modify].
  match goal with |- bind _ _ ?st = _ => replace st with twoBefore end.
  2:{ unfold twoBefore, twoBubbles, placed.
      cbn [slot2 slot3 slot4 point toNumber Num.sub].
      replace (0 - 2 - 15) with (-17) by lra. reflexivity. }
  rewrite (bind_Ret _ _ _ _ _ (Hresize _)).
  reflexivity.
Qed.

(** ** Whole runs *)

(** C1. The layout of [nineChart] is final after one packing pass
    ([resizeRadius] finds the scale factor equal to 1 and sets the centring
    offsets), and in it the bubbles of points 8 and 6, at positions 8 and 6
    of [rawPositions], overlap according to [checkOverlap]: the no-overlap
    property fails on this input. *)
Theorem nine_bubbles_overlap (fuel : nat) :
  exists (s' : state) (positions : list loc) (l6 l8 : loc) (b6 b8 : bubble),
    layout (S fuel) nineChart = Ret (Positions 1) s' /\
    rawPositions s' = Some 1%nat /\
    is_Some (diffX s') /\ is_Some (diffY s') /\
    arrays s' !! 1%nat = Some positions /\
    positions !! 6%nat = Some l6 /\ positions !! 8%nat = Some l8 /\
    heap s' !! l6 = Some b6 /\ heap s' !! l8 = Some b8 /\
    checkOverlap b8 b6 = true.
Proof.
  destruct (pack_nine fuel) as (dx & dy & Hpack).
  exists (set_diff dx dy nineBefore), (seq 9 9), 15%nat, 17%nat,
         (placed 6 (- (15 * sqrt 3)) (-15) 15), (placed 8 x8 y8 2).
  split.
  { unfold layout. rewrite (bind_Ret _ _ _ _ _ accumulate_nine).
    unfold bind at 1. cbn [modify].
    rewrite (bind_Ret _ _ _ _ _ getRadius_nine).
    exact Hpack. }
  repeat split; try reflexivity; try (eexists; reflexivity).
  exact bubble_8_overlaps_6.
Qed.

Lemma radius_10 :
  radiusOf true (Fin 5) (Fin 50) (VNum (Fin 10)) = VNum (Fin 10).
Proof.
  rewrite radiusOf_above by lra. unfold posR. rewrite Rltb_true by lra.
  rewrite (sqrt_of_square ((10 - 5) / (50 - 5)) (1 / 3)) by lra.
  replace (5 + 1 / 3 * (50 - 5)) with (IZR 20) by lra.
  rewrite Zceil_IZR. do 2 f_equal. lra.
Qed.

(** C4. On an empty population [placeBubbles] returns an empty array.  On
    the population of the single point of [oneChart] (value 10, radius 10)
    it returns the five scalars [0, 0, null, null, 10], which are slots 0,
    1 and 2 of the entry after two zeros: not an array that holds one
    bubble [[0, 0, 10, seriesIndex, pointIndex]], the format of the
    positions and the way the first bubble of a larger population is
    built. *)
Theorem degenerate_populations (fuel : nat) :
  (exists s', layout (S fuel) emptyChart = Ret (Scalars []) s') /\
  (exists s',
     layout (S fuel) oneChart
     = Ret (Scalars [zero; zero; VNull; VNull; VNum (Fin 10)]) s').
Proof.
  split.
  - eexists. unfold layout.
    assert (A : accumulateAllPoints emptyChart
                = Ret 0%nat (set_arrays [[]] emptyChart)) by reflexivity.
    rewrite (bind_Ret _ _ _ _ _ A).
    unfold bind at 1. cbn [modify].
    set (s := set_allDataPoints _ _).
    assert (Hc : Forall2 (fun l p => heap s !! l = Some p) [] [])
      by constructor.
    rewrite (bind_Ret _ _ _ _ _
               (getRadius_run s 0%nat [] [] eq_refl eq_refl (NoDup_seq 0 0)
                  Hc)).
    unfold bind at 1. unfold defined at 1.
    cbn [allDataPoints set_radii set_heap set_extremes s set_allDataPoints].
    rewrite placeBubbles_empty by reflexivity. reflexivity.
  - eexists. unfold layout.
    assert (A : accumulateAllPoints oneChart
                = Ret 0%nat (set_arrays [[0%nat]]
                               (set_heap [point 0 10] oneChart)))
      by reflexivity.
    rewrite (bind_Ret _ _ _ _ _ A).
    unfold bind at 1. cbn [modify].
    set (s := set_allDataPoints _ _).
    assert (Hc : Forall2 (fun l p => heap s !! l = Some p) [0%nat] [point 0 10])
      by (repeat constructor).
    rewrite (bind_Ret _ _ _ _ _
               (getRadius_run s 0%nat [0%nat] [point 0 10] eq_refl eq_refl
                  (NoDup_seq 0 1) Hc)).
    unfold bind at 1. unfold defined at 1.
    cbn [allDataPoints set_radii set_heap set_extremes s set_allDataPoints].
    rewrite (placeBubbles_single _ _ _ 0%nat
               (setSlot2 (point 0 10) (radiusIn s (VNum (Fin 10)))));
      [|reflexivity|reflexivity].
    unfold radiusIn.
    cbn [plotWidth plotHeight s set_allDataPoints set_arrays set_heap oneChart
         chartOf sizeByWidth negb minPointSize maxPointSize extreme isPercent
         setSlot2 point slot0 slot1 slot2].
    rewrite radius_10. reflexivity.
Qed.

(** ** The general theorems at the examples *)


Lemma pivot_candidate :
  positionBubble (placed 4 0 (-5) 2) (placed 1 0 0 3) (point 5 1)
  = placed 5 2.4 (-3.2) 1.
Proof.
  unfold placed, point.
  apply (positionBubble_closed 0 (-5) 2 0 0 3 1 5 0.8 0.6); lra.
Qed.


Lemma radiusOf_no_division_by_zero_witness :
  (exists r : R,
     radiusOf true (Fin 10) (Fin 10) (VNum (Fin 20)) = VNum (Fin r)) /\
  radiusOf true (Fin 10) (Fin 10) (VNum (Fin 20))
  = VNum (Fin (IZR (Zceil (10 + sqrt 0.5 * (10 - 10))) / 2)).
Proof.
  destruct (radiusOf_no_division_by_zero true 10 10 20) as [H1 H2].
  - lra.
  - split; [exact H1|]. apply H2; lra.
Defined.

(** * Further properties of the code *)

(** ** checkOverlap: symmetry, and NaN *)

Lemma num_add_comm (a b : num) : (a + b)%num = (b + a)%num.
Proof.
  destruct a, b; cbn; try reflexivity. f_equal. apply Rplus_comm.
Qed.

Lemma num_sqr_sub_sym (a b : num) :
  ((a - b) * (a - b))%num = ((b - a) * (b - a))%num.
Proof.
  destruct a, b; cbn; try reflexivity. f_equal. ring.
Qed.

(** X1. [checkOverlap] does not depend on the order of its two arguments,
    whatever the arrays hold. *)
Theorem checkOverlap_symmetric (bubble1 bubble2 : bubble) :
  checkOverlap bubble1 bubble2 = checkOverlap bubble2 bubble1.
Proof.
  unfold checkOverlap. cbv zeta.
  rewrite (num_sqr_sub_sym (toNumber (slot0 bubble1))).
  rewrite (num_sqr_sub_sym (toNumber (slot1 bubble1))).
  rewrite (num_add_comm (toNumber (slot2 bubble1))).
  reflexivity.
Qed.

Lemma num_sub_NaN_l a : (NaN - a)%num = NaN. Proof. reflexivity. Qed.
Lemma num_sub_NaN_r a : (a - NaN)%num = NaN. Proof. now destruct a. Qed.
Lemma num_add_NaN_l a : (NaN + a)%num = NaN. Proof. reflexivity. Qed.
Lemma num_add_NaN_r a : (a + NaN)%num = NaN. Proof. now destruct a. Qed.
Lemma num_mul_NaN_l a : (NaN * a)%num = NaN. Proof. reflexivity. Qed.
Lemma num_mul_NaN_r a : (a * NaN)%num = NaN. Proof. now destruct a. Qed.

Lemma checkOverlap_NaN_l (b1 b2 : bubble) :
  holdsNaN b1 -> checkOverlap b1 b2 = false.
Proof.
  intros [H|[H|H]]; unfold checkOverlap; cbv zeta; rewrite H;
    rewrite ?num_sub_NaN_l, ?num_add_NaN_l, ?num_mul_NaN_l, ?num_add_NaN_r;
    cbn [Num.sqrt Num.abs]; rewrite ?num_sub_NaN_l, ?num_sub_NaN_r; reflexivity.
Qed.

Lemma checkOverlap_NaN_r (b1 b2 : bubble) :
  holdsNaN b2 -> checkOverlap b1 b2 = false.
Proof.
  intros [H|[H|H]]; unfold checkOverlap; cbv zeta; rewrite H;
    rewrite ?num_sub_NaN_r, ?num_add_NaN_r, ?num_mul_NaN_l, ?num_add_NaN_l;
    cbn [Num.sqrt Num.abs]; rewrite ?num_sub_NaN_l, ?num_sub_NaN_r;
    reflexivity.
Qed.

(** X2. When a coordinate or the radius of one of the two circles is NaN,
    [checkOverlap] is false: a bubble whose position could not be computed
    overlaps nothing. *)
Theorem checkOverlap_NaN (bubble1 bubble2 : bubble) :
  holdsNaN bubble1 \/ holdsNaN bubble2 ->
  checkOverlap bubble1 bubble2 = false.
Proof.
  intros [H|H].
  - now apply checkOverlap_NaN_l.
  - now apply checkOverlap_NaN_r.
Qed.

Lemma checkOverlap_NaN_witness :
  checkOverlap (Bubble (VNum NaN) (VNum (Fin 0)) (VNum (Fin 5)) VNull VNull)
               (Bubble (VNum (Fin 0)) (VNum (Fin 0)) (VNum (Fin 5)) VNull VNull)
  = false.
Proof.
  apply checkOverlap_NaN. left. left. reflexivity.
Defined.

(** ** positionBubble: coinciding centres, and a level line *)

(** X5. When the last bubble and the new origin have the same centre,
    both coordinates of the returned bubble are NaN, whatever the three
    finite radii: the distance is 0, and the quotient given to [Math.acos]
    is a division by zero. *)
Theorem positionBubble_coincident (x y rl ro rn : R)
    (l3 l4 o3 o4 n0 n1 n3 n4 : val) :
  let lastBubble := Bubble (VNum (Fin x)) (VNum (Fin y)) (VNum (Fin rl)) l3 l4 in
  let newOrigin := Bubble (VNum (Fin x)) (VNum (Fin y)) (VNum (Fin ro)) o3 o4 in
  let nextBubble := Bubble n0 n1 (VNum (Fin rn)) n3 n4 in
  positionBubble lastBubble newOrigin nextBubble
  = Bubble (VNum NaN) (VNum NaN) (VNum (Fin rn)) n3 n4.
Proof.
  intros lastBubble newOrigin nextBubble.
  unfold lastBubble, newOrigin, nextBubble, positionBubble. num_cbn.
  rewrite sqrt_Fin by apply sum_sqr_nonneg.
  replace ((x - x) * (x - x) + (y - y) * (y - y)) with 0 by ring.
  rewrite sqrt_0. num_cbn.
  assert (E : forall a : R, (Fin a / Fin (2 * (rn + ro) * 0))%num = Num.signed_inf a).
  { intros a. unfold Num.div. rewrite Reqb_true by ring. reflexivity. }
  rewrite E.
  assert (A : forall a : R, Num.acos (Num.signed_inf a) = NaN).
  { intros a. unfold Num.signed_inf.
    destruct (Reqb a 0); [reflexivity|]. now destruct (Rltb 0 a). }
  rewrite A. 
  destruct (Rltb (y - y) 0); reflexivity.
Qed.

(** X6. When the last bubble and the new origin are at the same height,
    [positionBubble] does not tell on which side of the new origin the last
    bubble is: it returns the same bubble for the last bubble and for its
    mirror image on the other side of the new origin (the product that
    decides the sign of [beta] is 0 on both sides). *)
Theorem positionBubble_level (lx ly rl ox oy ro rn : R)
    (l3 l4 l3' l4' o3 o4 n0 n1 n3 n4 : val) :
  ly = oy ->
  positionBubble
    (Bubble (VNum (Fin lx)) (VNum (Fin ly)) (VNum (Fin rl)) l3 l4)
    (Bubble (VNum (Fin ox)) (VNum (Fin oy)) (VNum (Fin ro)) o3 o4)
    (Bubble n0 n1 (VNum (Fin rn)) n3 n4)
  = positionBubble
      (Bubble (VNum (Fin (2 * ox - lx))) (VNum (Fin ly)) (VNum (Fin rl))
              l3' l4')
      (Bubble (VNum (Fin ox)) (VNum (Fin oy)) (VNum (Fin ro)) o3 o4)
      (Bubble n0 n1 (VNum (Fin rn)) n3 n4).
Proof.
  intros ->. unfold positionBubble. num_cbn.
  replace ((2 * ox - lx - ox) * (2 * ox - lx - ox))
    with ((lx - ox) * (lx - ox)) by ring.
  replace (Rabs (2 * ox - lx - ox)) with (Rabs (lx - ox)).
  2:{ replace (2 * ox - lx - ox) with (- (lx - ox)) by ring.
      now rewrite Rabs_Ropp. }
  replace ((2 * ox - lx - ox) * (oy - oy)) with ((lx - ox) * (oy - oy))
    by ring.
  reflexivity.
Qed.

Lemma positionBubble_level_witness :
  positionBubble
    (Bubble (VNum (Fin (-5))) (VNum (Fin 0)) (VNum (Fin 2)) VNull VNull)
    (Bubble (VNum (Fin 0)) (VNum (Fin 0)) (VNum (Fin 3)) VNull VNull)
    (Bubble VNull VNull (VNum (Fin 1)) VNull VNull)
  = positionBubble
      (Bubble (VNum (Fin (2 * 0 - -5))) (VNum (Fin 0)) (VNum (Fin 2))
              VNull VNull)
      (Bubble (VNum (Fin 0)) (VNum (Fin 0)) (VNum (Fin 3)) VNull VNull)
      (Bubble VNull VNull (VNum (Fin 1)) VNull VNull).
Proof. now apply positionBubble_level. Defined.

(** ** getRadius: sizing by area and by width, and small sizes *)

Lemma sqrt_ge_self (p : R) : 0 <= p <= 1 -> p <= sqrt p.
Proof.
  intros [H0 H1].
  pose proof (sqrt_pos p) as Hs. pose proof (sqrt_sqrt p H0) as Hss.
  destruct (Rle_dec p (sqrt p)); [assumption|]. nra.
Qed.

(** X8. For finite [minSize <= maxSize] and a finite non-zero value
    between them, sizing by area (every [sizeBy] but ['width']) never gives
    a smaller radius than sizing by width. *)
Theorem radiusOf_area_not_smaller (lo hi v : R) :
  lo <= hi -> v <> 0 -> lo <= v <= hi ->
  radiusLe (radiusOf false (Fin lo) (Fin hi) (VNum (Fin v)))
           (radiusOf true (Fin lo) (Fin hi) (VNum (Fin v))).
Proof.
  intros Hr Hv [H1 H2].
  rewrite !radiusOf_above by lra.
  eexists _, _. split; [reflexivity|]. split; [reflexivity|].
  apply Rmult_le_compat_r; [lra|].
  apply IZR_le, Zceil_le.
  destruct (Req_dec_T lo hi) as [->|Hne]; [lra|].
  pose proof (posR_bounds false lo hi v) as Hb.
  assert (Hle : posR false lo hi v <= posR true lo hi v).
  { unfold posR in *. rewrite Rltb_true in * by lra.
    apply sqrt_ge_self. apply Hb; lra. }
  nra.
Qed.

Lemma radiusOf_area_not_smaller_witness :
  radiusLe (radiusOf false (Fin 10) (Fin 100) (VNum (Fin 20)))
           (radiusOf true (Fin 10) (Fin 100) (VNum (Fin 20))).
Proof. apply radiusOf_area_not_smaller; lra. Defined.

Lemma Zceil_ge (x : R) : x <= IZR (Zceil x).
Proof. pose proof (Zceil_bound x). lra. Qed.

(** X9. When [minSize] is at most 2, the radius [minSize - 1] given to the
    values below [minSize] is not above any radius given to a value at or
    above [minSize]: for finite [minSize <= maxSize] the radius is monotone
    in the value over all finite non-zero values. *)
Theorem radiusOf_monotone_small_min (area : bool) (lo hi v1 v2 : R) :
  lo <= 2 -> lo <= hi -> v1 <> 0 -> v2 <> 0 -> v1 < v2 ->
  radiusLe (radiusOf area (Fin lo) (Fin hi) (VNum (Fin v1)))
           (radiusOf area (Fin lo) (Fin hi) (VNum (Fin v2))).
Proof.
  intros H2 Hr Hv1 Hv2 Hlt.
  destruct (Rlt_dec v2 lo) as [Hb|Hb].
  { rewrite !radiusOf_below by lra. exists (lo - 1), (lo - 1).
    repeat split. lra. }
  destruct (Rlt_dec v1 lo) as [Hb1|Hb1].
  - rewrite radiusOf_below by lra. rewrite radiusOf_above by lra.
    eexists _, _. split; [reflexivity|]. split; [reflexivity|].
    set (x := lo + posR area lo hi v2 * (hi - lo)).
    assert (Hx : lo <= x).
    { unfold x. destruct (Req_dec_T lo hi) as [->|Hne]; [lra|].
      assert (0 <= posR area lo hi v2).
      { unfold posR. rewrite Rltb_true by lra.
        assert (0 <= (v2 - lo) / (hi - lo)) by (apply quotient_nonneg; lra).
        destruct area; [apply sqrt_pos | assumption]. }
      nra. }
    pose proof (Zceil_ge x). lra.
  - rewrite !radiusOf_above by lra.
    eexists _, _. split; [reflexivity|]. split; [reflexivity|].
    apply Rmult_le_compat_r; [lra|].
    apply IZR_le, Zceil_le.
    destruct (Req_dec_T lo hi) as [->|Hne]; [lra|].
    pose proof (posR_mono area lo hi v1 v2). nra.
Qed.

Lemma radiusOf_monotone_small_min_witness :
  radiusLe (radiusOf true (Fin 2) (Fin 100) (VNum (Fin 1)))
           (radiusOf true (Fin 2) (Fin 100) (VNum (Fin 2))).
Proof. apply radiusOf_monotone_small_min; lra. Defined.

(** X11. For finite non-zero [minSize < maxSize], the value [minSize] gets
    the radius [ceil(minSize) / 2] and the value [maxSize] the radius
    [ceil(maxSize) / 2], with either way of sizing. *)
Theorem radiusOf_endpoints (area : bool) (lo hi : R) :
  lo < hi -> lo <> 0 -> hi <> 0 ->
  radiusOf area (Fin lo) (Fin hi) (VNum (Fin lo))
  = VNum (Fin (IZR (Zceil lo) / 2)) /\
  radiusOf area (Fin lo) (Fin hi) (VNum (Fin hi))
  = VNum (Fin (IZR (Zceil hi) / 2)).
Proof.
  intros Hr Hlo Hhi. rewrite !radiusOf_above by lra.
  unfold posR. rewrite Rltb_true by lra.
  replace ((lo - lo) / (hi - lo)) with 0 by (field; lra).
  replace ((hi - lo) / (hi - lo)) with 1 by (field; lra).
  destruct area; rewrite ?sqrt_0, ?sqrt_1;
    replace (lo + 0 * (hi - lo)) with lo by ring;
    replace (lo + 1 * (hi - lo)) with hi by ring; split; reflexivity.
Qed.

Lemma radiusOf_endpoints_witness :
  radiusOf true (Fin 10) (Fin 100) (VNum (Fin 10))
  = VNum (Fin (IZR (Zceil 10) / 2)) /\
  radiusOf true (Fin 10) (Fin 100) (VNum (Fin 100))
  = VNum (Fin (IZR (Zceil 100) / 2)).
Proof. apply radiusOf_endpoints; lra. Defined.

(** ** accumulateAllPoints *)

Lemma mapEach_newB (bs : list bubble) (s : state) :
  mapEach newB bs s
  = Ret (seq (length (heap s)) (length bs)) (set_heap (heap s ++ bs) s).
Proof.
  revert s. induction bs as [|b bs IH]; intros s.
  - cbn. unfold ret. now rewrite app_nil_r, set_heap_id.
  - cbn [mapEach]. unfold bind at 1. unfold newB at 1.
    rewrite (bind_Ret _ _ _ _ _ (IH _)).
    cbn [heap set_heap]. unfold ret. rewrite length_app. cbn [length].
    replace (length (heap s) + 1)%nat with (S (length (heap s))) by lia.
    rewrite <- app_assoc. reflexivity.
Qed.

Lemma accumulateAllPoints_run (s : state) :
  accumulateAllPoints s
  = Ret (length (arrays s))
        (set_arrays
           (arrays s
            ++ [seq (length (heap s))
                    (length (visiblePoints (chart_series s)))])
           (set_heap (heap s ++ visiblePoints (chart_series s)) s)).
Proof.
  unfold accumulateAllPoints. unfold bind at 1. unfold gets at 1.
  fold (visiblePoints (chart_series s)).
  rewrite (bind_Ret _ _ _ _ _ (mapEach_newB _ _)).
  reflexivity.
Qed.

Lemma lookup_fresh (h bs : list bubble) :
  Forall2 (fun l p => (h ++ bs) !! l = Some p) (seq (length h) (length bs)) bs.
Proof.
  apply Forall2_same_length_lookup. split.
  - now rewrite length_seq.
  - intros i l p Hl Hp. apply lookup_seq in Hl as [-> _].
    now rewrite lookup_app_r, Nat.add_comm, Nat.add_sub by lia.
Qed.

(** X12. [accumulateAllPoints] always returns, with a new array of arrays:
    its entries are new five-slot arrays, pairwise distinct, and every
    array that existed before is left as it was. *)
Theorem accumulateAllPoints_fresh (s : state) :
  exists (refs : list loc) (s' : state),
    accumulateAllPoints s = Ret (length (arrays s)) s' /\
    arrays s' = arrays s ++ [refs] /\
    NoDup refs /\
    (forall l, l ∈ refs ->
       (length (heap s) <= l)%nat /\ is_Some (heap s' !! l)) /\
    (forall l b, heap s !! l = Some b -> heap s' !! l = Some b).
Proof.
  eexists _, _. split; [apply accumulateAllPoints_run|].
  cbn [arrays heap set_arrays set_heap].
  split; [reflexivity|]. split; [apply NoDup_seq|]. split.
  - intros l Hl. apply elem_of_seq in Hl. split; [lia|].
    apply lookup_lt_is_Some. rewrite length_app. lia.
  - intros l b Hl. now apply lookup_app_l_Some.
Qed.

Lemma elem_of_pointsOf (series : seriesData) (p : bubble) :
  p ∈ pointsOf series <->
  exists (j : nat) (y : val),
    processedYData series !! j = Some y /\
    p = Bubble VNull VNull y (VNum (index series)) (VNum (Fin (INR j))).
Proof.
  unfold pointsOf. rewrite elem_of_lookup_imap.
  split; intros (j & y & H1 & H2); exists j, y; auto.
Qed.

Lemma elem_of_visiblePoints (all : list seriesData) (p : bubble) :
  p ∈ visiblePoints all <->
  exists (series : seriesData) (j : nat) (y : val),
    series ∈ all /\ visible series = true /\
    processedYData series !! j = Some y /\
    p = Bubble VNull VNull y (VNum (index series)) (VNum (Fin (INR j))).
Proof.
  unfold visiblePoints. induction all as [|series all IH]; cbn [map concat].
  - split; [intros H; now apply elem_of_nil in H|].
    intros (series & _ & _ & H & _). now apply elem_of_nil in H.
  - rewrite elem_of_app, IH. split.
    + intros [Hp|(series' & j & y & Hs & H)].
      * destruct (visible series) eqn:E; [|now apply elem_of_nil in Hp].
        apply elem_of_pointsOf in Hp as (j & y & Hy & ->).
        exists series, j, y. repeat split; try assumption. now left.
      * exists series', j, y. split; [now right | assumption].
    + intros (series' & j & y & Hs & Hv & Hy & ->).
      apply elem_of_cons in Hs as [->|Hs].
      * left. rewrite Hv. apply elem_of_pointsOf. now exists j, y.
      * right. now exists series', j, y.
Qed.

Lemma length_visiblePoints (all : list seriesData) :
  length (visiblePoints all)
  = list_sum (map (fun series =>
                     if visible series then length (processedYData series)
                     else 0%nat) all).
Proof.
  unfold visiblePoints. rewrite length_concat, map_map. f_equal.
  apply map_ext. intros series.
  destruct (visible series); [|reflexivity].
  unfold pointsOf. apply length_imap.
Qed.

(** X13. The array that [accumulateAllPoints] returns has as many entries
    as the visible series have points, and its entries are exactly the
    arrays [[null, null, processedYData[j], series.index, j]] for the
    points [j] of the visible series: a hidden series contributes
    nothing. *)
Theorem accumulateAllPoints_entries (s : state) :
  exists (refs : list loc) (entries : list bubble) (s' : state),
    accumulateAllPoints s = Ret (length (arrays s)) s' /\
    arrays s' !! length (arrays s) = Some refs /\
    Forall2 (fun l p => heap s' !! l = Some p) refs entries /\
    length entries
    = list_sum (map (fun series =>
                       if visible series then length (processedYData series)
                       else 0%nat) (chart_series s)) /\
    forall p : bubble,
      p ∈ entries <->
      exists (series : seriesData) (j : nat) (y : val),
        series ∈ chart_series s /\ visible series = true /\
        processedYData series !! j = Some y /\
        p = Bubble VNull VNull y (VNum (index series)) (VNum (Fin (INR j))).
Proof.
  exists (seq (length (heap s)) (length (visiblePoints (chart_series s)))),
         (visiblePoints (chart_series s)).
  eexists. split; [apply accumulateAllPoints_run|].
  cbn [arrays heap set_arrays set_heap].
  split; [now rewrite lookup_app_r, Nat.sub_diag by lia|].
  split; [apply lookup_fresh|].
  split; [apply length_visiblePoints|].
  apply elem_of_visiblePoints.
Qed.

(** ** placeBubbles: the loop keeps its indices in range *)

Lemma orOne_idem (v : val) : orOne (orOne v) = orOne v.
Proof.
  destruct v as [|n]; cbn.
  - rewrite Reqb_false by lra. reflexivity.
  - destruct (Num.truthy n) eqn:E; cbn.
    + now rewrite E.
    + rewrite Reqb_false by lra. reflexivity.
Qed.

Lemma ringAt_ok (bp : list (list loc)) (i n : nat) (ring : list loc)
    (s : state) :
  bp !! i = Some ring -> (n < length ring)%nat ->
  Forall (Forall (fun l : nat => (l < length (heap s))%nat)) bp ->
  exists b, ringAt bp i n s = Ret b s.
Proof.
  intros Hr Hn Hv.
  destruct (lookup_lt_is_Some_2 ring n Hn) as [l Hl].
  assert (Hlt : (l < length (heap s))%nat).
  { pose proof (Forall_lookup_1 _ _ _ _ Hv Hr) as Hring.
    exact (Forall_lookup_1 _ _ _ _ Hring Hl). }
  destruct (lookup_lt_is_Some_2 (heap s) l Hlt) as [b Hb].
  exists b. eapply ringAt_Ret; eassumption.
Qed.

Lemma chooseBranch_ok (c : cursor) (cand : bubble) (s : state) :
  cursorOk c (length (heap s)) ->
  (exists first,
     ringAt (bubblePos c) (stage c) 0 s = Ret first s /\
     checkOverlap cand first = true) \/
  (chooseBranch c cand s = Ret NextPivot s /\
   exists pivot, ringAt (bubblePos c) (stage c - 1) (k c + 1) s
                 = Ret pivot s) \/
  chooseBranch c cand s = Ret Append s.
Proof.
  intros (Hst & Hlen & Hv & (ring & Hring & Hj) & (prev & Hprev & Hk)).
  destruct (ringAt_ok _ _ 0 ring s Hring ltac:(lia) Hv) as [first Hfirst].
  unfold chooseBranch. rewrite (bind_Ret _ _ _ _ _ Hfirst).
  destruct (checkOverlap cand first) eqn:Eov.
  { left. now exists first. }
  right.
  destruct (negb (1 <? stage c)%nat); [now right|].
  rewrite Hprev.
  destruct (prev !! (k c + 1)%nat) as [l|] eqn:El; [|now right].
  destruct (ringAt_ok _ _ (k c + 1)%nat prev s Hprev
              (lookup_lt_Some _ _ _ El) Hv) as [pivot Hpivot].
  pose proof Hpivot as Hp2.
  apply ringAt_inv in Hp2 as (_ & ring' & l' & Hr' & Hl' & Hh).
  assert (ring' = prev) as -> by congruence.
  assert (l' = l) as -> by congruence.
  rewrite (bind_Ret _ _ _ _ _ (getB_Ret _ _ _ Hh)).
  destruct (checkOverlap cand pivot).
  - left. split; [reflexivity|]. now exists pivot.
  - now right.
Qed.

Lemma Forall_valid_mono (bp : list (list loc)) (n m : nat) :
  (n <= m)%nat ->
  Forall (Forall (fun l : nat => (l < n)%nat)) bp ->
  Forall (Forall (fun l : nat => (l < m)%nat)) bp.
Proof.
  intros Hle H. eapply Forall_impl; [exact H|]. intros ring Hr. cbn.
  eapply Forall_impl; [exact Hr|]. intros l Hl. cbn in *. lia.
Qed.

Lemma concat_snoc (bp : list (list loc)) (ring : list loc) :
  concat (bp ++ [ring]) = concat bp ++ ring.
Proof. rewrite concat_app. cbn. now rewrite app_nil_r. Qed.

Lemma concat_insert_last (bp : list (list loc)) (i : nat)
    (ring : list loc) (l : loc) :
  length bp = S i -> bp !! i = Some ring ->
  concat (<[i := ring ++ [l]]> bp) = concat bp ++ [l].
Proof.
  intros Hlen Hring.
  destruct bp as [|x init _] using rev_ind.
  - discriminate.
  - rewrite length_app in Hlen. cbn in Hlen.
    assert (Hi : i = length init) by lia. subst i.
    rewrite lookup_app_r, Nat.sub_diag in Hring by lia. injection Hring as ->.
    replace (length init) with (length init + 0)%nat at 1 by lia.
    rewrite insert_app_r. cbn [insert list_insert].
    rewrite !concat_snoc. now rewrite app_assoc.
Qed.

Lemma bubbleFor_position (lastBubble newOrigin entry : bubble) :
  bubbleFor entry (positionBubble lastBubble newOrigin (orOneRadius entry)).
Proof. repeat split. Qed.

Lemma placeStep_ok (e : loc) (c : cursor) (s : state) (entry : bubble) :
  cursorOk c (length (heap s)) -> heap s !! e = Some entry ->
  exists c' p,
    placeStep e c s
    = Ret c' (set_heap (<[e := orOneRadius entry]> (heap s) ++ [p]) s) /\
    cursorOk c' (S (length (heap s))) /\
    concat (bubblePos c') = concat (bubblePos c) ++ [length (heap s)] /\
    bubbleFor entry p.
Proof.
  intros Hok Hentry.
  set (s1 := set_heap (<[e := orOneRadius entry]> (heap s)) s).
  assert (Hlen1 : length (heap s1) = length (heap s))
    by (cbn; apply length_insert).
  assert (Hok1 : cursorOk c (length (heap s1))) by now rewrite Hlen1.
  pose proof Hok1 as (Hst & Hlen & Hv & (ring & Hring & Hj) & (prev & Hprev & Hk)).
  destruct (stage c) as [|before] eqn:Hstage; [lia|].
  rewrite <- Hstage in *.
  assert (Hbefore : (stage c - 1)%nat = before) by lia.
  rewrite Hbefore in Hprev.
  destruct (ringAt_ok _ _ (j c) ring s1 Hring ltac:(lia) Hv) as [last Hlast].
  destruct (ringAt_ok _ _ (k c) prev s1 Hprev Hk Hv) as [origin Horigin].
  set (cand := positionBubble last origin (orOneRadius entry)).
  destruct (chooseBranch_ok c cand s1 Hok1)
    as [(first & Hfirst & Hov)|[(Hbr & pivot & Hpivot)|Hbr]].
  - eexists _, _. split.
    { exact (placeStep_NewRing e c s entry last origin before Hentry Hstage
               Hlast Horigin first Hfirst Hlen Hov). }
    unfold cursorOk. cbn [bubblePos stage j k heap set_heap].
    rewrite ?length_insert.
    split; [|split; [apply concat_snoc | apply bubbleFor_position]].
    repeat split.
    + lia.
    + rewrite length_app. cbn. lia.
    + apply Forall_app. split.
      * eapply Forall_valid_mono; [|exact Hv]. lia.
      * repeat constructor.
    + exists [length (heap s)]. split; [|reflexivity].
      rewrite lookup_app_r by lia.
      now replace (stage c + 1 - length (bubblePos c))%nat with 0%nat by lia.
    + exists ring. split; [|lia].
      replace (stage c + 1 - 1)%nat with (stage c) by lia.
      rewrite lookup_app_l by lia. assumption.
  - rewrite Hbefore in Hpivot. eexists _, _. split.
    { exact (placeStep_NextPivot e c s entry last origin before Hentry Hstage
               Hlast Horigin ring pivot Hring Hpivot Hbr). }
    unfold cursorOk. cbn [bubblePos stage j k heap set_heap].
    rewrite ?length_insert.
    split; [|split; [now apply concat_insert_last
                    | apply bubbleFor_position]].
    apply ringAt_inv in Hpivot as (_ & prev' & l & Hp' & Hl & _).
    assert (prev' = prev) as -> by congruence.
    repeat split.
    + lia.
    + lia.
    + apply Forall_insert.
      * eapply Forall_valid_mono; [|exact Hv]. lia.
      * apply Forall_app. split; [|repeat constructor].
        pose proof (Forall_lookup_1 _ _ _ _ Hv Hring) as Hr.
        eapply Forall_impl; [exact Hr|]. intros x Hx. cbn in *. lia.
    + exists (ring ++ [length (heap s)]). split.
      * apply list_lookup_insert_eq. lia.
      * rewrite length_app. cbn. lia.
    + exists prev. split.
      * rewrite list_lookup_insert_ne by lia. now rewrite Hbefore.
      * eapply lookup_lt_Some. eassumption.
  - eexists _, _. split.
    { exact (placeStep_Append e c s entry last origin before Hentry Hstage
               Hlast Horigin ring Hring Hbr). }
    unfold cursorOk. cbn [bubblePos stage j k heap set_heap].
    rewrite ?length_insert.
    split; [|split; [now apply concat_insert_last
                    | apply bubbleFor_position]].
    repeat split.
    + lia.
    + lia.
    + apply Forall_insert.
      * eapply Forall_valid_mono; [|exact Hv]. lia.
      * apply Forall_app. split; [|repeat constructor].
        pose proof (Forall_lookup_1 _ _ _ _ Hv Hring) as Hr.
        eapply Forall_impl; [exact Hr|]. intros x Hx. cbn in *. lia.
    + exists (ring ++ [length (heap s)]). split.
      * apply list_lookup_insert_eq. lia.
      * rewrite length_app. cbn. lia.
    + exists prev. split.
      * rewrite list_lookup_insert_ne by lia. now rewrite Hbefore.
      * assumption.
Qed.

Lemma alterAll_app_l (g : bubble -> bubble) (refs : list loc)
    (h t : list bubble) :
  Forall (fun l : nat => (l < length h)%nat) refs ->
  alterAll g refs (h ++ t) = alterAll g refs h ++ t.
Proof.
  revert h. induction refs as [|l refs IH]; intros h Hv; [reflexivity|].
  apply Forall_cons in Hv as [Hl Hv].
  rewrite !alterAll_cons, alter_app_l by assumption.
  apply IH. now rewrite length_alter.
Qed.

Lemma lookup_valid (refs : list loc) (entries : list bubble)
    (h : list bubble) :
  Forall2 (fun e b => h !! e = Some b) refs entries ->
  Forall (fun l : nat => (l < length h)%nat) refs.
Proof.
  induction 1 as [|e b refs entries He _ IH]; constructor; [|assumption].
  eapply lookup_lt_Some; eassumption.
Qed.

Lemma valid_lookup (refs : list loc) (h : list bubble) :
  Forall (fun l : nat => (l < length h)%nat) refs ->
  exists entries, Forall2 (fun e b => h !! e = Some b) refs entries.
Proof.
  induction 1 as [|e refs He _ (entries & IH)].
  - exists []. constructor.
  - destruct (lookup_lt_is_Some_2 h e He) as [b Hb].
    exists (b :: entries). now constructor.
Qed.

Lemma bubbleFor_orOneRadius (b b' p : bubble) :
  b' = b \/ b' = orOneRadius b -> bubbleFor b' p -> bubbleFor b p.
Proof.
  intros [->| ->]; [auto|].
  unfold bubbleFor, orOneRadius. cbn. now rewrite orOne_idem.
Qed.

Lemma entries_after_step (rest : list loc) (entries : list bubble)
    (h : list bubble) (e : loc) (entry p : bubble) :
  h !! e = Some entry ->
  Forall2 (fun e b => h !! e = Some b) rest entries ->
  exists entries',
    Forall2 (fun e' b => (<[e := orOneRadius entry]> h ++ [p]) !! e' = Some b)
            rest entries' /\
    Forall2 (fun b b' => b' = b \/ b' = orOneRadius b) entries entries'.
Proof.
  intros He. induction 1 as [|e' b rest entries Hb _ (entries' & IH1 & IH2)].
  - exists []. split; constructor.
  - assert (Hlt : (e' < length h)%nat) by (eapply lookup_lt_Some; eassumption).
    destruct (decide (e' = e)) as [->|Hne].
    + exists (orOneRadius entry :: entries'). split; constructor; auto.
      * rewrite lookup_app_l by (rewrite length_insert; lia).
        apply list_lookup_insert_eq. lia.
      * right. congruence.
    + exists (b :: entries'). split; constructor; auto.
      rewrite lookup_app_l by (rewrite length_insert; lia).
      now rewrite list_lookup_insert_ne by congruence.
Qed.

Lemma foldEach_placeStep_ok (rest : list loc) :
  forall (c : cursor) (s : state) (entries : list bubble),
    cursorOk c (length (heap s)) ->
    Forall2 (fun e b => heap s !! e = Some b) rest entries ->
    exists c' ps,
      foldEach placeStep rest c s
      = Ret c' (set_heap (alterAll orOneRadius rest (heap s) ++ ps) s) /\
      cursorOk c' (length (heap s) + length rest) /\
      concat (bubblePos c')
      = concat (bubblePos c) ++ seq (length (heap s)) (length rest) /\
      Forall2 bubbleFor entries ps.
Proof.
  induction rest as [|e rest IH]; intros c s entries Hok Hent.
  - apply Forall2_nil_inv_l in Hent as ->.
    exists c, []. cbn [foldEach alterAll foldl length seq].
    rewrite !app_nil_r, set_heap_id, Nat.add_0_r.
    split; [reflexivity|]. split; [assumption|].
    split; [reflexivity|constructor].
  - apply Forall2_cons_inv_l in Hent as (entry & entries0 & He & Hent & ->).
    destruct (placeStep_ok e c s entry Hok He) as (c1 & p & Hstep & Hok1 & Hcat & Hp).
    set (s1 := set_heap (<[e := orOneRadius entry]> (heap s) ++ [p]) s) in *.
    destruct (entries_after_step rest entries0 (heap s) e entry p He Hent)
      as (entries1 & Hent1 & Hrel).
    assert (Hlen1 : length (heap s1) = S (length (heap s))).
    { cbn. rewrite length_app, length_insert. cbn. lia. }
    destruct (IH c1 s1 entries1) as (c' & ps & Hloop & Hok' & Hcat' & Hps).
    { now rewrite Hlen1. }
    { exact Hent1. }
    exists c', (p :: ps). split; [|split; [|split]].
    + cbn [foldEach]. rewrite (bind_Ret _ _ _ _ _ Hstep). rewrite Hloop.
      f_equal. unfold s1. cbn [heap set_heap].
      rewrite alterAll_cons, <- (insert_as_alter orOneRadius e (heap s) entry He).
      rewrite alterAll_app_l.
      2:{ rewrite length_insert. eapply lookup_valid. eassumption. }
      rewrite <- app_assoc. reflexivity.
    + rewrite Hlen1 in Hok'. cbn [length].
      now replace (length (heap s) + S (length rest))%nat
        with (S (length (heap s)) + length rest)%nat by lia.
    + rewrite Hcat', Hcat, Hlen1, <- app_assoc.
      cbn [length seq app]. reflexivity.
    + constructor; [assumption|].
      eapply Forall2_trans; [|exact Hrel|exact Hps].
      intros x y z Hxy Hyz. exact (bubbleFor_orOneRadius x y z Hxy Hyz).
Qed.

(** ** placeBubbles: one pass, and whole runs *)

Lemma placeSorted_pass (rr : M unit) (e0 e1 : loc) (rest : list loc)
    (s : state) (b0 b1 : bubble) (entries : list bubble) :
  heap s !! e0 = Some b0 -> heap s !! e1 = Some b1 ->
  Forall2 (fun e b => heap s !! e = Some b) rest entries ->
  exists rings ps,
    placeSorted rr (e0 :: e1 :: rest) s
    = (rr ;;; raw' <- defined rawPositions ;; ret (Positions raw'))
        (set_rawPositions (length (arrays s))
           (set_arrays
              (arrays s ++ [seq (length (heap s)) (2 + length rest)])
              (set_stages rings
                 (set_heap (alterAll orOneRadius rest (heap s)
                            ++ seed0 b0 :: seed1 b0 b1 :: ps) s)))) /\
    Forall2 bubbleFor entries ps.
Proof.
  intros H0 H1 Hent.
  set (n := length (heap s)).
  set (s2 := set_heap ((heap s ++ [seed0 b0]) ++ [seed1 b0 b1]) s).
  assert (Hok : cursorOk (Cursor [[n]; [S n]] 1 0 0) (length (heap s2))).
  { unfold cursorOk, s2. cbn [heap set_heap stage j k bubblePos].
    rewrite !length_app. cbn [length]. fold n.
    split; [lia|]. split; [reflexivity|]. split.
    - repeat constructor; lia.
    - split; [exists [S n] | exists [n]]; split; try reflexivity. cbn. lia. }
  assert (Hent2 : Forall2 (fun e b => heap s2 !! e = Some b) rest entries).
  { eapply Forall2_impl; [exact Hent|]. intros e b Hb. cbn.
    rewrite <- app_assoc. now apply lookup_app_l_Some. }
  destruct (foldEach_placeStep_ok rest _ s2 entries Hok Hent2)
    as (c & ps & Hloop & _ & Hcat & Hps).
  exists (bubblePos c), ps. split; [|assumption].
  unfold placeSorted.
  rewrite (bind_Ret _ _ _ _ _ (getB_Ret _ _ _ H0)).
  unfold bind at 1. unfold newB at 1.
  assert (H1' : heap (set_heap (heap s ++ [seed0 b0]) s) !! e1 = Some b1)
    by (cbn; now apply lookup_app_l_Some).
  rewrite (bind_Ret _ _ _ _ _ (getB_Ret _ _ _ H1')).
  unfold bind at 1. unfold newB at 1.
  cbn [heap set_heap]. rewrite length_app. cbn [length]. fold n.
  replace (n + 1)%nat with (S n) by lia.
  change (set_heap ((heap s ++ [Bubble zero zero (slot2 b0) (slot3 b0) (slot4 b0)])
                    ++ [Bubble zero
                          (VNum (Fin 0 - toNumber (slot2 b1)
                                 - toNumber (slot2 b0))%num)
                          (slot2 b1) (slot3 b1) (slot4 b1)])
                   (set_heap (heap s ++ [Bubble zero zero (slot2 b0) (slot3 b0) (slot4 b0)]) s))
    with s2.
  rewrite (bind_Ret _ _ _ _ _ Hloop).
  unfold bind at 1. unfold modify at 1.
  unfold bind at 1. unfold newArr at 1.
  unfold bind at 1. unfold modify at 1.
  cbn [arrays heap set_heap set_stages set_arrays].
  rewrite Hcat. cbn [concat app].
  unfold s2. cbn [heap set_heap].
  rewrite alterAll_app_l.
  2:{ rewrite length_app. eapply Forall_impl; [eapply lookup_valid; exact Hent|].
      cbn. intros; lia. }
  rewrite alterAll_app_l by (eapply lookup_valid; exact Hent).
  rewrite !length_app. cbn [length]. fold n.
  replace (n + 1 + 1)%nat with (S (S n)) by lia.
  rewrite <- !app_assoc. cbn [app].
  reflexivity.
Qed.

Lemma Rltb_false_inv (x y : R) : Rltb x y = false -> y <= x.
Proof. unfold Rltb. destruct (Rlt_dec x y); [discriminate|lra]. Qed.


Lemma sorted_pairs_lookup (refs : list loc) (contents : list bubble)
    (h : list bubble) :
  Forall2 (fun l b => h !! l = Some b) refs contents ->
  Forall (fun x : loc * bubble => h !! fst x = Some (snd x))
         (sortBy (zip refs contents)).
Proof.
  intros H. rewrite (sortBy_perm (zip refs contents)).
  induction H; cbn; constructor; auto.
Qed.

Lemma sorted_pairs_snd (refs : list loc) (contents : list bubble)
    (h : list bubble) :
  Forall2 (fun l b => h !! l = Some b) refs contents ->
  map snd (sortBy (zip refs contents)) ≡ₚ contents.
Proof.
  intros H. apply Forall2_length in H.
  rewrite <- (snd_zip refs contents) at 2 by lia.
  change (map snd ?l) with (snd <$> l).
  apply fmap_Permutation, sortBy_perm.
Qed.

Lemma sorted_pairs_length (refs : list loc) (contents : list bubble)
    (h : list bubble) :
  Forall2 (fun l b => h !! l = Some b) refs contents ->
  length (sortBy (zip refs contents)) = length refs.
Proof.
  intros H. apply Forall2_length in H.
  rewrite (sortBy_perm (zip refs contents)), length_zip. lia.
Qed.

Lemma identity_bubbleFor (entries ps : list bubble) :
  Forall2 bubbleFor entries ps -> map identity ps = map identity entries.
Proof.
  induction 1 as [|b p entries ps (_ & H3 & H4) _ IH]; [reflexivity|].
  cbn [map]. unfold identity at 1 3. now rewrite H3, H4, IH.
Qed.

Lemma pairs_split (l : list (loc * bubble)) (h : list bubble) :
  Forall (fun x : loc * bubble => h !! fst x = Some (snd x)) l ->
  Forall2 (fun e b => h !! e = Some b) (map fst l) (map snd l).
Proof. induction 1; cbn; constructor; auto. Qed.

Lemma identity_setSlot2 (contents : list bubble) (g : bubble -> val) :
  map identity (map (fun p => setSlot2 p (g p)) contents)
  = map identity contents.
Proof. rewrite map_map. apply map_ext. reflexivity. Qed.

Lemma sorted_pairs_fst (refs : list loc) (contents : list bubble)
    (h : list bubble) :
  Forall2 (fun l b => h !! l = Some b) refs contents ->
  map fst (sortBy (zip refs contents)) ≡ₚ refs.
Proof.
  intros H. apply Forall2_length in H.
  rewrite <- (fst_zip refs contents) at 2 by lia.
  change (map fst ?l) with (fst <$> l).
  apply fmap_Permutation, sortBy_perm.
Qed.

Lemma orOneRadius_idem (b : bubble) :
  orOneRadius (orOneRadius b) = orOneRadius b.
Proof. unfold orOneRadius, setSlot2. cbn. now rewrite orOne_idem. Qed.

Lemma alterAll_lookup_idem (g : bubble -> bubble) (refs : list loc)
    (h : list bubble) (l : loc) :
  (forall b, g (g b) = g b) -> l ∈ refs ->
  alterAll g refs h !! l = g <$> h !! l.
Proof.
  intros Hg. revert h. induction refs as [|l' refs IH]; intros h Hin.
  - now apply elem_of_nil in Hin.
  - rewrite alterAll_cons.
    destruct (decide (l ∈ refs)) as [Hr|Hr].
    + rewrite IH by assumption.
      destruct (decide (l' = l)) as [->|Hne].
      * rewrite list_lookup_alter_eq. destruct (h !! l); cbn; [|reflexivity].
        now rewrite Hg.
      * now rewrite list_lookup_alter_ne.
    + apply elem_of_cons in Hin as [->|Hin]; [|contradiction].
      rewrite alterAll_lookup_notin by assumption.
      apply list_lookup_alter_eq.
Qed.

Lemma pass_entries (refs rest : list loc) (h news : list bubble)
    (l : loc) (b : bubble) :
  (forall e, e ∈ rest -> e ∈ refs) ->
  h !! l = Some b ->
  (l ∉ refs -> (alterAll orOneRadius rest h ++ news) !! l = Some b) /\
  (l ∈ refs ->
   (alterAll orOneRadius rest h ++ news) !! l = Some b \/
   (alterAll orOneRadius rest h ++ news) !! l = Some (orOneRadius b)).
Proof.
  intros Hsub Hl.
  assert (Hlt : (l < length (alterAll orOneRadius rest h))%nat).
  { rewrite alterAll_length. eapply lookup_lt_Some. eassumption. }
  rewrite lookup_app_l by assumption.
  destruct (decide (l ∈ rest)) as [Hr|Hr].
  - rewrite (alterAll_lookup_idem _ _ _ _ orOneRadius_idem Hr), Hl.
    split; [|now right]. intros Hn. destruct Hn. now apply Hsub.
  - rewrite alterAll_lookup_notin by assumption. split; auto.
Qed.

Lemma placeBubbles_outcome (fuel : nat) :
  forall (a : aref) (s : state) (refs : list loc) (contents : list bubble),
    arrays s !! a = Some refs ->
    Forall2 (fun l b => heap s !! l = Some b) refs contents ->
    match placeBubbles fuel a s with
    | TypeError => False
    | OutOfFuel => True
    | Ret r s' =>
        samePlot s s' /\ entriesKept refs s s' /\
        ((2 <= length refs)%nat -> finalLayout contents r s')
    end.
Proof.
  induction fuel as [|fuel IH]; intros a s refs contents Ha Hc; [exact I|].
  cbn [placeBubbles]. unfold placeBubblesBody.
  rewrite (bind_Ret _ _ _ _ _ (sortInPlace_run _ _ _ _ Ha Hc)).
  pose proof (sorted_pairs_lookup refs contents (heap s) Hc) as Hpairs.
  pose proof (sorted_pairs_snd refs contents (heap s) Hc) as Hperm.
  pose proof (sorted_pairs_length refs contents (heap s) Hc) as Hlen.
  pose proof (sorted_pairs_fst refs contents (heap s) Hc) as Hrefs.
  destruct (sortBy (zip refs contents)) as [|[e0 b0] [|[e1 b1] rest]].
  - cbn in Hlen. split; [repeat split|]. split; [|lia].
    intros l b Hl. cbn [heap set_arrays]. auto.
  - cbn in Hlen. cbn [map fst placeSorted].
    apply Forall_cons in Hpairs as [H0 _]. cbn [fst snd] in H0.
    set (s0 := set_arrays _ s).
    assert (H0' : heap s0 !! e0 = Some b0) by exact H0.
    rewrite (bind_Ret _ _ _ _ _ (getB_Ret _ _ _ H0')).
    split; [repeat split|]. split; [|lia].
    intros l b Hl. cbn [heap set_arrays s0]. auto.
  - apply Forall_cons in Hpairs as [H0 Hpairs].
    apply Forall_cons in Hpairs as [H1 Hpairs]. cbn [fst snd] in H0, H1.
    apply pairs_split in Hpairs.
    cbn [map fst snd] in *.
    set (s0 := set_arrays _ s).
    destruct (placeSorted_pass (resizeRadiusBody (placeBubbles fuel))
                e0 e1 (map fst rest) s0 b0 b1 (map snd rest) H0 H1 Hpairs)
      as (rings & ps & Hpass & Hps).
    rewrite Hpass. clear Hpass.
    set (n := length (heap s0)) in *.
    set (raw := length (arrays s0)) in *.
    set (positions := seq n (2 + length (map fst rest))) in *.
    set (contents1 := seed0 b0 :: seed1 b0 b1 :: ps).
    set (s1 := set_rawPositions raw _).
    assert (Hraw1 : rawPositions s1 = Some raw) by reflexivity.
    assert (Harr1 : arrays s1 !! raw = Some positions).
    { unfold s1. cbn [arrays set_rawPositions set_arrays].
      unfold raw. now rewrite lookup_app_r, Nat.sub_diag by lia. }
    assert (Hlenps : length ps = length (map fst rest)).
    { apply Forall2_length in Hps. rewrite <- Hps, !length_map. reflexivity. }
    assert (Hc1 : Forall2 (fun l p => heap s1 !! l = Some p) positions contents1).
    { unfold s1, positions, contents1.
      cbn [heap set_rawPositions set_arrays set_stages set_heap].
      replace n with (length (alterAll orOneRadius (map fst rest) (heap s0)))
        by apply alterAll_length.
      replace (2 + length (map fst rest))%nat
        with (length (seed0 b0 :: seed1 b0 b1 :: ps)) by (cbn; lia).
      apply lookup_fresh. }
    assert (Hnd : NoDup positions) by apply NoDup_seq.
    assert (Hid1 : map identity contents1 ≡ₚ map identity contents).
    { rewrite <- Hperm. unfold contents1. cbn [map].
      rewrite (identity_bubbleFor _ _ Hps). reflexivity. }
    assert (Hseed : seeded contents1).
    { exists (seed0 b0), (seed1 b0 b1), ps. repeat split. }
    assert (Hkept1 : entriesKept refs s s1).
    { intros l b Hl. unfold s1.
      cbn [heap set_rawPositions set_arrays set_stages set_heap s0].
      apply pass_entries; [|exact Hl].
      intros e He. rewrite <- Hrefs. now do 2 right. }
    unfold bind at 1.
    rewrite (resizeRadiusBody_run (placeBubbles fuel) s1 raw positions
               contents1 Hraw1 Harr1 Hc1).
    cbv zeta.
    destruct (needsResize (smallerDimension s1 (boundingBox contents1)))
      eqn:En.
    + rewrite (bind_Ret _ _ _ _ _
                 (mapEach_scaleRadius _ positions contents1 s1 Hnd Hc1)).
      set (scale := fun p : bubble => setSlot2 p _).
      set (s5 := set_heap _ s1).
      assert (Harr5 : arrays s5 !! raw = Some positions) by exact Harr1.
      assert (Hc5 : Forall2 (fun l p => heap s5 !! l = Some p) positions
                      (map scale contents1)).
      { unfold s5. cbn [heap set_heap].
        apply Forall2_fmap_r.
        apply (Forall2_alterAll scale positions positions contents1); auto. }
      specialize (IH raw s5 positions (map scale contents1) Harr5 Hc5).
      unfold bind at 1.
      destruct (placeBubbles fuel raw s5) as [r' s6| |]; [|exact IH|exact I].
      destruct IH as (Hplot & Hkept5 & Hfinal).
      destruct Hfinal
        as (raw' & finals & -> & (Hraw' & Hpos') & Hid' & Hacc & Hsd).
      { unfold positions. rewrite length_seq. lia. }
      cbn [ret]. unfold bind at 1. cbn [ret].
      unfold bind, defined. rewrite Hraw'. cbn [ret].
      split; [exact Hplot|]. split.
      { intros l b Hl.
        assert (Hn : l ∉ positions).
        { unfold positions. rewrite elem_of_seq.
          apply lookup_lt_Some in Hl. unfold n, s0. cbn [heap set_arrays].
          lia. }
        assert (H15 : heap s5 !! l = heap s1 !! l).
        { unfold s5. cbn [heap set_heap].
          now apply alterAll_lookup_notin. }
        destruct (Hkept1 l b Hl) as [Hout Hin]. split.
        - intros Hnr. apply (Hkept5 l b); [|exact Hn].
          rewrite H15. now apply Hout.
        - intros Hr. destruct (Hin Hr) as [E|E]; [left|right];
            (eapply Hkept5; [|exact Hn]); now rewrite H15. }
      intros _.
      exists raw', finals.
      split; [reflexivity|]. split; [split; [exact Hraw'|exact Hpos']|].
      split; [|split; [exact Hacc|exact Hsd]].
      rewrite Hid'. unfold scale. now rewrite identity_setSlot2.
    + unfold bind at 1. unfold modify at 1.
      unfold bind, defined.
      cbn [rawPositions set_diff]. rewrite Hraw1. cbn [ret].
      split; [repeat split|]. split; [exact Hkept1|]. intros _.
      exists raw, contents1.
      split; [reflexivity|].
      split; [split; [reflexivity|now exists positions]|].
      split; [exact Hid1|]. split; [|exact Hseed].
      unfold accepted. cbv zeta. split; [exact En|]. split; reflexivity.
Qed.

Lemma placeBubbles_final (fuel : nat) (a : aref) (s s' : state)
    (refs : list loc) (contents : list bubble) (r : returned) :
  arrays s !! a = Some refs ->
  Forall2 (fun l b => heap s !! l = Some b) refs contents ->
  (2 <= length refs)%nat ->
  placeBubbles fuel a s = Ret r s' ->
  samePlot s s' /\ finalLayout contents r s'.
Proof.
  intros Ha Hc Hlen Hrun.
  pose proof (placeBubbles_outcome fuel a s refs contents Ha Hc) as H.
  rewrite Hrun in H. destruct H as (Hplot & _ & Hfinal). auto.
Qed.

(** X14. On an array whose entries are five-slot arrays, [placeBubbles]
    never throws a TypeError, whatever the arrays hold and however often
    [resizeRadius] calls it again: every [bubblePos[stage][j]],
    [bubblePos[stage - 1][k]] and [chart.rawPositions] it reads is
    there. *)
Theorem placeBubbles_never_throws (fuel : nat) (a : aref) (s : state)
    (refs : list loc) :
  arrays s !! a = Some refs ->
  Forall (fun l => is_Some (heap s !! l)) refs ->
  placeBubbles fuel a s <> TypeError.
Proof.
  intros Ha Hv.
  destruct (valid_lookup refs (heap s)) as [contents Hc].
  { eapply Forall_impl; [exact Hv|]. intros l Hl. cbn in Hl.
    now apply lookup_lt_is_Some. }
  pose proof (placeBubbles_outcome fuel a s refs contents Ha Hc) as H.
  intros E. now rewrite E in H.
Qed.

Lemma placeBubbles_never_throws_witness :
  placeBubbles 1 0 twoSized <> TypeError.
Proof.
  apply (placeBubbles_never_throws 1 0%nat twoSized [0; 1]%nat).
  - reflexivity.
  - repeat constructor; eexists; reflexivity.
Defined.

(** X15. When [placeBubbles] returns on an array of two or more entries,
    it returns [chart.rawPositions], an array of pairwise distinct bubbles
    whose pairs of series index and point index are those of the entries,
    each as often as among the entries: no point is lost and none gets two
    bubbles, also after [resizeRadius] has called [placeBubbles] again. *)
Theorem placeBubbles_keeps_points (fuel : nat) (a : aref) (s s' : state)
    (refs : list loc) (contents : list bubble) (r : returned) :
  arrays s !! a = Some refs ->
  Forall2 (fun l b => heap s !! l = Some b) refs contents ->
  (2 <= length refs)%nat ->
  placeBubbles fuel a s = Ret r s' ->
  exists (raw : aref) (finals : list bubble),
    r = Positions raw /\ holdsPositions s' raw finals /\
    map identity finals ≡ₚ map identity contents.
Proof.
  intros Ha Hc Hlen Hrun.
  destruct (placeBubbles_final fuel a s s' refs contents r Ha Hc Hlen Hrun)
    as (_ & raw & finals & Hr & Hpos & Hid & _).
  now exists raw, finals.
Qed.

Lemma two_entries :
  Forall2 (fun l p => heap twoSized !! l = Some p)
          [0; 1]%nat [point 0 2; point 1 15].
Proof. repeat constructor. Qed.

Lemma placeBubbles_keeps_points_witness :
  exists (raw : aref) (finals : list bubble) (s' : state),
    placeBubbles 1 0 twoSized = Ret (Positions raw) s' /\
    holdsPositions s' raw finals /\
    map identity finals ≡ₚ map identity [point 0 2; point 1 15].
Proof.
  destruct (pack_two 0) as (dx & dy & Hpack).
  destruct (placeBubbles_keeps_points 1 0%nat twoSized _ [0; 1]%nat
              [point 0 2; point 1 15] _ eq_refl two_entries (le_n 2) Hpack)
    as (raw & finals & Hr & Hpos & Hid).
  exists raw, finals. eexists. rewrite <- Hr. eauto.
Defined.

(** X16. When [placeBubbles] returns on an array of two or more entries,
    the plot area is as it was and the layout in [chart.rawPositions] has
    been accepted by [resizeRadius]: the smaller of the two ratios between
    the usable plot size and the size of the bounding box of the final
    bubbles is not further than 1e-10 from 1 (when it is a finite number),
    and [chart.diffX] and [chart.diffY] are the centring offsets of that
    box. *)
Theorem placeBubbles_fits (fuel : nat) (a : aref) (s s' : state)
    (refs : list loc) (contents : list bubble) (r : returned) :
  arrays s !! a = Some refs ->
  Forall2 (fun l b => heap s !! l = Some b) refs contents ->
  (2 <= length refs)%nat ->
  placeBubbles fuel a s = Ret r s' ->
  exists (raw : aref) (finals : list bubble),
    r = Positions raw /\ holdsPositions s' raw finals /\
    samePlot s s' /\ accepted s' finals /\
    forall c : R,
      smallerDimension s' (boundingBox finals) = Fin c ->
      Rabs (c - 1) <= 1e-10.
Proof.
  intros Ha Hc Hlen Hrun.
  destruct (placeBubbles_final fuel a s s' refs contents r Ha Hc Hlen Hrun)
    as (Hplot & raw & finals & Hr & Hpos & _ & Hacc & _).
  exists raw, finals.
  split; [exact Hr|]. split; [exact Hpos|]. split; [exact Hplot|].
  split; [exact Hacc|].
  intros c Ec. destruct Hacc as (Hn & _). cbv zeta in Hn.
  rewrite Ec in Hn. unfold needsResize in Hn. cbn in Hn.
  apply Rltb_false_inv in Hn. exact Hn.
Qed.

Lemma placeBubbles_fits_witness :
  exists (raw : aref) (finals : list bubble) (s' : state),
    placeBubbles 1 0 twoSized = Ret (Positions raw) s' /\
    holdsPositions s' raw finals /\ samePlot twoSized s' /\
    accepted s' finals /\
    forall c : R,
      smallerDimension s' (boundingBox finals) = Fin c ->
      Rabs (c - 1) <= 1e-10.
Proof.
  destruct (pack_two 0) as (dx & dy & Hpack).
  destruct (placeBubbles_fits 1 0%nat twoSized _ [0; 1]%nat
              [point 0 2; point 1 15] _ eq_refl two_entries (le_n 2) Hpack)
    as (raw & finals & Hr & Hfits).
  exists raw, finals. eexists. rewrite <- Hr. eauto.
Defined.

(** X17. When [placeBubbles] returns on an array of two or more entries,
    the first bubble of [chart.rawPositions] is at (0, 0) and the second
    straight above it, at [(0, 0 - radius1 - radius0)], with the radii the
    two bubbles have in the final layout. *)
Theorem placeBubbles_seeds (fuel : nat) (a : aref) (s s' : state)
    (refs : list loc) (contents : list bubble) (r : returned) :
  arrays s !! a = Some refs ->
  Forall2 (fun l b => heap s !! l = Some b) refs contents ->
  (2 <= length refs)%nat ->
  placeBubbles fuel a s = Ret r s' ->
  exists (raw : aref) (finals : list bubble),
    r = Positions raw /\ holdsPositions s' raw finals /\ seeded finals.
Proof.
  intros Ha Hc Hlen Hrun.
  destruct (placeBubbles_final fuel a s s' refs contents r Ha Hc Hlen Hrun)
    as (_ & raw & finals & Hr & Hpos & _ & _ & Hsd).
  now exists raw, finals.
Qed.

Lemma placeBubbles_seeds_witness :
  exists (raw : aref) (finals : list bubble) (s' : state),
    placeBubbles 1 0 twoSized = Ret (Positions raw) s' /\
    holdsPositions s' raw finals /\ seeded finals.
Proof.
  destruct (pack_two 0) as (dx & dy & Hpack).
  destruct (placeBubbles_seeds 1 0%nat twoSized _ [0; 1]%nat
              [point 0 2; point 1 15] _ eq_refl two_entries (le_n 2) Hpack)
    as (raw & finals & Hr & Hpos & Hsd).
  exists raw, finals. eexists. rewrite <- Hr. eauto.
Defined.

(** X18. When [placeBubbles] returns, every five-slot array that existed
    before the call is as it was, except that an entry of the array it was
    given may have had a radius that counts as false (0, null, NaN)
    replaced by 1: the coordinates and the indices of the entries are never
    written, and no other array is touched, however often [resizeRadius]
    calls [placeBubbles] again. *)
Theorem placeBubbles_keeps_entries (fuel : nat) (a : aref) (s s' : state)
    (refs : list loc) (r : returned) :
  arrays s !! a = Some refs ->
  Forall (fun l => is_Some (heap s !! l)) refs ->
  placeBubbles fuel a s = Ret r s' ->
  entriesKept refs s s'.
Proof.
  intros Ha Hv Hrun.
  destruct (valid_lookup refs (heap s)) as [contents Hc].
  { eapply Forall_impl; [exact Hv|]. intros l Hl. cbn in Hl.
    now apply lookup_lt_is_Some. }
  pose proof (placeBubbles_outcome fuel a s refs contents Ha Hc) as H.
  rewrite Hrun in H. apply H.
Qed.

Lemma placeBubbles_keeps_entries_witness :
  exists s' : state,
    placeBubbles 1 0 twoSized = Ret (Positions 1) s' /\
    entriesKept [0; 1]%nat twoSized s'.
Proof.
  destruct (pack_two 0) as (dx & dy & Hpack).
  eexists. split; [exact Hpack|].
  apply (placeBubbles_keeps_entries 1 0%nat twoSized _ [0; 1]%nat
           (Positions 1)).
  - reflexivity.
  - repeat constructor; eexists; reflexivity.
  - exact Hpack.
Defined.

(** ** placeBubbles: two bubbles *)

Lemma pair_extent (x3 x4 y3 y4 : val) (rb rs : R) :
  0 < rs -> rs <= rb ->
  boundingBox
    [Bubble zero zero (VNum (Fin rb)) x3 x4;
     Bubble zero (VNum (Fin (0 - rs - rb))) (VNum (Fin rs)) y3 y4]
  = Box (Fin (- rb)) (Fin rb) (Fin (- rb - 2 * rs)) (Fin rb).
Proof.
  intros Hs Hb. unfold boundingBox. cbn [fold_left].
  rewrite (growBox_first 0 0 rb) by reflexivity.
  rewrite (growBox_Fin _ _ _ _ 0 (0 - rs - rb) rs) by reflexivity.
  rewrite Rmin_left, Rmax_left, Rmin_right, Rmax_left by lra.
  f_equal; f_equal; lra.
Qed.

Lemma pair_ratio (s : state) (W H L T rb rs : R) :
  plotWidth s = Fin W -> plotHeight s = Fin H ->
  plotLeft s = Fin L -> plotTop s = Fin T ->
  0 < rs -> rs <= rb ->
  smallerDimension s (Box (Fin (- rb)) (Fin rb) (Fin (- rb - 2 * rs)) (Fin rb))
  = Fin (pairRatio (W - L) (H - T) rb rs).
Proof.
  intros HW HH HL HT Hs Hb.
  unfold smallerDimension, spaceRatio. cbn [fst snd minX maxX minY maxY].
  rewrite HW, HH, HL, HT. num_cbn.
  rewrite !div_Fin by lra. rewrite min_Fin. unfold pairRatio.
  do 2 f_equal; f_equal; lra.
Qed.

Lemma pairRatio_pos (w h rb rs : R) :
  0 < w -> 0 < h -> 0 < rs -> rs <= rb -> 0 < pairRatio w h rb rs.
Proof.
  intros Hw Hh Hs Hb. unfold pairRatio.
  apply Rmin_glb_lt; apply Rdiv_lt_0_compat; lra.
Qed.

Lemma pairRatio_scaled (w h rb rs : R) :
  0 < w -> 0 < h -> 0 < rs -> rs <= rb ->
  let c := pairRatio w h rb rs in
  pairRatio w h (rb * c) (rs * c) = 1.
Proof.
  intros Hw Hh Hs Hb c.
  pose proof (pairRatio_pos w h rb rs Hw Hh Hs Hb) as Hc. fold c in Hc.
  unfold pairRatio.
  replace (w / (2 * (rb * c))) with (w / (2 * rb) / c)
    by (field; repeat split; lra).
  replace (h / (2 * (rb * c + rs * c))) with (h / (2 * (rb + rs)) / c).
  2:{ field. repeat split; nra. }
  set (A := w / (2 * rb)) in *. set (B := h / (2 * (rb + rs))) in *.
  assert (HA : 0 < A) by (apply Rdiv_lt_0_compat; lra).
  assert (HB : 0 < B) by (apply Rdiv_lt_0_compat; lra).
  unfold c, pairRatio. fold A B.
  destruct (Rle_dec A B) as [Hle|Hgt].
  - rewrite (Rmin_left A B) by assumption.
    replace (A / A) with 1 by (field; lra).
    apply Rmin_left.
    apply (Rmult_le_reg_r A); [assumption|].
    unfold Rdiv. rewrite Rmult_assoc, Rinv_l by lra. lra.
  - rewrite (Rmin_right A B) by lra.
    replace (B / B) with 1 by (field; lra).
    apply Rmin_right.
    apply (Rmult_le_reg_r B); [assumption|].
    unfold Rdiv. rewrite Rmult_assoc, Rinv_l by lra. lra.
Qed.

Lemma bubbleFor_nil (ps : list bubble) : Forall2 bubbleFor [] ps -> ps = [].
Proof. intros H. now apply Forall2_nil_inv_l in H. Qed.

Section Pair.

Variables (a : aref) (s : state) (refs : list loc) (contents : list bubble).
Variables (e0 e1 : loc) (b0 b1 : bubble) (rb rs W H L T : R).

Hypothesis Ha : arrays s !! a = Some refs.
Hypothesis Hc : Forall2 (fun l b => heap s !! l = Some b) refs contents.
Hypothesis Hsorted : sortBy (zip refs contents) = [(e0, b0); (e1, b1)].
Hypothesis Hrb : slot2 b0 = VNum (Fin rb).
Hypothesis Hrs : slot2 b1 = VNum (Fin rs).
Hypothesis Hs : 0 < rs.
Hypothesis Hb : rs <= rb.
Hypothesis HW : plotWidth s = Fin W.
Hypothesis HH : plotHeight s = Fin H.
Hypothesis HL : plotLeft s = Fin L.
Hypothesis HT : plotTop s = Fin T.

Let c := pairRatio (W - L) (H - T) rb rs.
Let p0 := Bubble zero zero (VNum (Fin rb)) (slot3 b0) (slot4 b0).
Let p1 :=
  Bubble zero (VNum (Fin (0 - rs - rb))) (VNum (Fin rs)) (slot3 b1) (slot4 b1).
Let n := length (heap s).
Let raw := length (arrays s).
Let s1 (rings : list (list loc)) :=
  set_rawPositions raw
    (set_arrays (<[a := [e0; e1]]> (arrays s) ++ [[n; S n]])
       (set_stages rings (set_heap (heap s ++ [p0; p1]) s))).

Lemma pair_pass (rr : M unit) :
  exists rings,
    placeBubblesBody rr a s
    = (rr ;;; raw' <- defined rawPositions ;; ret (Positions raw'))
        (s1 rings).
Proof.
  unfold placeBubblesBody.
  rewrite (bind_Ret _ _ _ _ _ (sortInPlace_run _ _ _ _ Ha Hc)).
  pose proof (sorted_pairs_lookup refs contents (heap s) Hc) as Hpairs.
  rewrite Hsorted in *. cbn [map fst].
  apply Forall_cons in Hpairs as [H0 Hpairs].
  apply Forall_cons in Hpairs as [H1 _]. cbn [fst snd] in H0, H1.
  set (s0 := set_arrays _ s).
  destruct (placeSorted_pass rr e0 e1 [] s0 b0 b1 [] H0 H1)
    as (rings & ps & Hpass & Hps); [constructor|].
  apply bubbleFor_nil in Hps. subst ps.
  exists rings.
  rewrite Hpass. f_equal. unfold s1, s0, seed0, seed1, p0, p1, n, raw.
  rewrite Hrb, Hrs. num_cbn.
  cbn [alterAll foldl heap arrays set_arrays length].
  rewrite length_insert. reflexivity.
Qed.

Lemma pair_contents (rings : list (list loc)) :
  Forall2 (fun l p => heap (s1 rings) !! l = Some p) [n; S n] [p0; p1].
Proof.
  unfold s1. cbn [heap set_rawPositions set_arrays set_stages set_heap].
  exact (lookup_fresh (heap s) [p0; p1]).
Qed.

Lemma pair_array (rings : list (list loc)) :
  arrays (s1 rings) !! raw = Some [n; S n].
Proof.
  unfold s1, raw. cbn [arrays set_rawPositions set_arrays].
  rewrite lookup_app_r by (rewrite length_insert; lia).
  now rewrite length_insert, Nat.sub_diag.
Qed.

Lemma pair_factor (rings : list (list loc)) :
  smallerDimension (s1 rings) (boundingBox [p0; p1]) = Fin c.
Proof.
  unfold p0, p1. rewrite pair_extent by assumption.
  now apply pair_ratio.
Qed.

Lemma pair_needsResize : needsResize (Fin c) = Rltb 1e-10 (Rabs (c - 1)).
Proof. reflexivity. Qed.

Lemma pair_accept (fuel : nat) :
  Rabs (c - 1) <= 1e-10 ->
  exists rings dx dy,
    placeBubbles (S fuel) a s
    = Ret (Positions raw) (set_diff dx dy (s1 rings)).
Proof.
  intros Hfit. cbn [placeBubbles].
  destruct (pair_pass (resizeRadiusBody (placeBubbles fuel))) as [rings Hpass].
  exists rings. eexists _, _. rewrite Hpass.
  unfold bind at 1.
  rewrite (resizeRadiusBody_run _ (s1 rings) raw [n; S n] [p0; p1]
             eq_refl (pair_array rings) (pair_contents rings)).
  cbv zeta. rewrite pair_factor, pair_needsResize.
  rewrite Rltb_false by assumption.
  unfold modify at 1. unfold bind, defined. cbn [rawPositions set_diff s1 set_rawPositions].
  reflexivity.
Qed.

Lemma pair_rescale (fuel : nat) :
  1e-10 < Rabs (c - 1) ->
  exists rings,
    placeBubbles (S fuel) a s
    = (placeBubbles fuel raw ;;; ret tt ;;;
       raw' <- defined rawPositions ;; ret (Positions raw'))
        (set_heap (heap s ++ [setSlot2 p0 (VNum (Fin (rb * c)));
                              setSlot2 p1 (VNum (Fin (rs * c)))])
                  (s1 rings)).
Proof.
  intros Hoff. cbn [placeBubbles].
  destruct (pair_pass (resizeRadiusBody (placeBubbles fuel))) as [rings Hpass].
  exists rings. rewrite Hpass.
  unfold bind at 1.
  rewrite (resizeRadiusBody_run _ (s1 rings) raw [n; S n] [p0; p1]
             eq_refl (pair_array rings) (pair_contents rings)).
  cbv zeta. rewrite pair_factor, pair_needsResize.
  rewrite Rltb_true by assumption.
  rewrite (bind_Ret _ _ _ _ _
             (mapEach_scaleRadius _ [n; S n] [p0; p1] (s1 rings)
                (NoDup_seq n 2) (pair_contents rings))).
  assert (E : alterAll (fun p => setSlot2 p (VNum (toNumber (slot2 p) * Fin c)%num))
                [n; S n] (heap (s1 rings))
              = heap s ++ [setSlot2 p0 (VNum (Fin (rb * c)));
                           setSlot2 p1 (VNum (Fin (rs * c)))]).
  { unfold s1. cbn [heap set_rawPositions set_arrays set_stages set_heap].
    unfold alterAll. cbn [foldl]. fold n.
    replace n with (length (heap s) + 0)%nat at 2 by (unfold n; lia).
    rewrite alter_app_r.
    replace (S n) with (length (heap s) + 1)%nat by (unfold n; lia).
    rewrite alter_app_r. reflexivity. }
  rewrite E.
  unfold bind. 
  destruct (placeBubbles fuel raw _); reflexivity.
Qed.

End Pair.

Lemma pair_sorted (l0 l1 : loc) (q0 q1 : bubble) (rb rs : R) :
  slot2 q0 = VNum (Fin rb) -> slot2 q1 = VNum (Fin rs) -> rs <= rb ->
  sortBy (zip [l0; l1] [q0; q1]) = [(l0, q0); (l1, q1)].
Proof.
  intros H0 H1 Hle.
  unfold sortBy. cbn [zip zip_with foldr insertBy].
  unfold compareFn. cbn [snd]. rewrite H0, H1. num_cbn. now rewrite Rltb_false by lra.
Qed.

Lemma pair_swapped (l0 l1 : loc) (q0 q1 : bubble) (r0 r1 : R) :
  slot2 q0 = VNum (Fin r0) -> slot2 q1 = VNum (Fin r1) -> r0 < r1 ->
  sortBy (zip [l0; l1] [q0; q1]) = [(l1, q1); (l0, q0)].
Proof.
  intros H0 H1 Hlt.
  unfold sortBy. cbn [zip zip_with foldr insertBy].
  unfold compareFn. cbn [snd]. rewrite H0, H1. num_cbn. now rewrite Rltb_true by lra.
Qed.

Lemma pair_converges (a : aref) (s : state) (refs : list loc)
    (contents : list bubble) (e0 e1 : loc) (b0 b1 : bubble)
    (rb rs W H L T : R) (fuel : nat) :
  arrays s !! a = Some refs ->
  Forall2 (fun l b => heap s !! l = Some b) refs contents ->
  sortBy (zip refs contents) = [(e0, b0); (e1, b1)] ->
  slot2 b0 = VNum (Fin rb) -> slot2 b1 = VNum (Fin rs) ->
  0 < rs -> rs <= rb ->
  plotWidth s = Fin W -> plotHeight s = Fin H ->
  plotLeft s = Fin L -> plotTop s = Fin T ->
  L < W -> T < H ->
  exists (raw : aref) (s' : state) (f0 f1 : bubble) (k : R),
    placeBubbles (S (S fuel)) a s = Ret (Positions raw) s' /\
    holdsPositions s' raw [f0; f1] /\ 0 < k /\
    slot2 f0 = VNum (Fin (rb * k)) /\ slot2 f1 = VNum (Fin (rs * k)).
Proof.
  intros Ha Hc Hsorted Hrb Hrs Hs Hb HW HH HL HT Hw Hh.
  set (c := pairRatio (W - L) (H - T) rb rs).
  assert (Hcpos : 0 < c) by (apply pairRatio_pos; lra).
  destruct (Rle_dec (Rabs (c - 1)) 1e-10) as [Hfit|Hoff].
  - destruct (pair_accept a s refs contents e0 e1 b0 b1 rb rs W H L T
                Ha Hc Hsorted Hrb Hrs Hs Hb HW HH HL HT (S fuel) Hfit)
      as (rings & dx & dy & Hrun).
    eexists _, _, _, _, 1. split; [exact Hrun|].
    split.
    { split; [reflexivity|].
      exists [length (heap s); S (length (heap s))].
      split.
      { cbn [arrays set_diff set_rawPositions set_arrays].
        rewrite lookup_app_r by (rewrite length_insert; lia).
        now rewrite length_insert, Nat.sub_diag. }
      split; [exact (NoDup_seq (length (heap s)) 2)|].
      cbn [heap set_diff set_rawPositions set_arrays set_stages set_heap].
      exact (lookup_fresh (heap s) [_; _]). }
    split; [lra|]. split; cbn [slot2]; f_equal; f_equal; lra.
  - destruct (pair_rescale a s refs contents e0 e1 b0 b1 rb rs W H L T
                Ha Hc Hsorted Hrb Hrs Hs Hb HW HH HL HT (S fuel))
      as (rings & Hrun); [fold c; lra|].
    fold c in Hrun.
    set (n := length (heap s)) in *. set (raw := length (arrays s)) in *.
    set (q0 := setSlot2 _ (VNum (Fin (rb * c)))) in *.
    set (q1 := setSlot2 _ (VNum (Fin (rs * c)))) in *.
    set (s5 := set_heap (heap s ++ [q0; q1]) _) in *.
    assert (Ha5 : arrays s5 !! raw = Some [n; S n]).
    { unfold s5, raw. cbn [arrays set_heap set_rawPositions set_arrays].
      rewrite lookup_app_r by (rewrite length_insert; lia).
      now rewrite length_insert, Nat.sub_diag. }
    assert (Hc5 : Forall2 (fun l b => heap s5 !! l = Some b) [n; S n] [q0; q1]).
    { unfold s5. cbn [heap set_heap]. exact (lookup_fresh (heap s) [q0; q1]). }
    assert (Hfit : Rabs (pairRatio (W - L) (H - T) (rb * c) (rs * c) - 1)
                   <= 1e-10).
    { unfold c. rewrite pairRatio_scaled by lra.
      replace (1 - 1) with 0 by lra. rewrite Rabs_R0. lra. }
    destruct (pair_accept raw s5 [n; S n] [q0; q1] n (S n) q0 q1
                (rb * c) (rs * c) W H L T Ha5 Hc5
                (pair_sorted n (S n) q0 q1 (rb * c) (rs * c) eq_refl eq_refl
                   ltac:(nra))
                eq_refl eq_refl ltac:(nra) ltac:(nra) HW HH HL HT fuel Hfit)
      as (rings2 & dx & dy & Hrun2).
    eexists _, _, _, _, c. split.
    { rewrite Hrun. rewrite (bind_Ret _ _ _ _ _ Hrun2).
      unfold bind at 1. cbn [ret]. unfold bind, defined.
      cbn [rawPositions set_diff set_rawPositions]. reflexivity. }
    split.
    { split; [reflexivity|].
      exists [length (heap s5); S (length (heap s5))].
      split.
      { cbn [arrays set_diff set_rawPositions set_arrays].
        rewrite lookup_app_r by (rewrite length_insert; lia).
        now rewrite length_insert, Nat.sub_diag. }
      split; [exact (NoDup_seq (length (heap s5)) 2)|].
      cbn [heap set_diff set_rawPositions set_arrays set_stages set_heap].
      exact (lookup_fresh (heap s5) [_; _]). }
    split; [lra|]. split; reflexivity.
Qed.

(** X19. For an array of two entries with finite positive radii, in a chart
    whose plot area has [plotLeft < plotWidth] and [plotTop < plotHeight],
    [placeBubbles] returns after at most two passes: it returns for every
    bound of two or more on the number of passes.  The two final bubbles
    have the two radii multiplied by one positive factor, the larger one
    first. *)
Theorem two_points_converge (fuel : nat) (a : aref) (s : state)
    (e0 e1 : loc) (b0 b1 : bubble) (r0 r1 W H L T : R) :
  arrays s !! a = Some [e0; e1] ->
  heap s !! e0 = Some b0 -> heap s !! e1 = Some b1 ->
  slot2 b0 = VNum (Fin r0) -> slot2 b1 = VNum (Fin r1) ->
  0 < r0 -> 0 < r1 ->
  plotWidth s = Fin W -> plotHeight s = Fin H ->
  plotLeft s = Fin L -> plotTop s = Fin T ->
  L < W -> T < H ->
  exists (raw : aref) (s' : state) (f0 f1 : bubble) (k : R),
    placeBubbles (S (S fuel)) a s = Ret (Positions raw) s' /\
    holdsPositions s' raw [f0; f1] /\ 0 < k /\
    slot2 f0 = VNum (Fin (Rmax r0 r1 * k)) /\
    slot2 f1 = VNum (Fin (Rmin r0 r1 * k)).
Proof.
  intros Ha H0 H1 Hr0 Hr1 Hp0 Hp1 HW HH HL HT Hw Hh.
  assert (Hc : Forall2 (fun l b => heap s !! l = Some b) [e0; e1] [b0; b1])
    by (repeat constructor; assumption).
  destruct (Rlt_dec r0 r1) as [Hlt|Hge].
  - rewrite Rmax_right, Rmin_left by lra.
    exact (pair_converges a s [e0; e1] [b0; b1] e1 e0 b1 b0 r1 r0 W H L T
             fuel Ha Hc (pair_swapped e0 e1 b0 b1 r0 r1 Hr0 Hr1 Hlt)
             Hr1 Hr0 Hp0 ltac:(lra) HW HH HL HT Hw Hh).
  - rewrite Rmax_left, Rmin_right by lra.
    exact (pair_converges a s [e0; e1] [b0; b1] e0 e1 b0 b1 r0 r1 W H L T
             fuel Ha Hc (pair_sorted e0 e1 b0 b1 r0 r1 Hr0 Hr1 ltac:(lra))
             Hr0 Hr1 Hp1 ltac:(lra) HW HH HL HT Hw Hh).
Qed.

Lemma two_points_converge_witness :
  exists (raw : aref) (s' : state) (f0 f1 : bubble) (k : R),
    placeBubbles 2 0 twoSized = Ret (Positions raw) s' /\
    holdsPositions s' raw [f0; f1] /\ 0 < k /\
    slot2 f0 = VNum (Fin (Rmax 2 15 * k)) /\
    slot2 f1 = VNum (Fin (Rmin 2 15 * k)).
Proof.
  apply (two_points_converge 0 0%nat twoSized 0%nat 1%nat
           (point 0 2) (point 1 15) 2 15 100 34 0 0);
    try reflexivity; lra.
Defined.

Lemma two_pass (rr : M unit) (a : aref) (s : state) (e0 e1 : loc)
    (b0 b1 : bubble) :
  arrays s !! a = Some [e0; e1] ->
  heap s !! e0 = Some b0 -> heap s !! e1 = Some b1 ->
  Num.gtb (compareFn b0 b1) (Fin 0) = false ->
  exists rings,
    placeBubblesBody rr a s
    = (rr ;;; raw' <- defined rawPositions ;; ret (Positions raw'))
        (set_rawPositions (length (arrays s))
           (set_arrays (<[a := [e0; e1]]> (arrays s)
                        ++ [[length (heap s); S (length (heap s))]])
              (set_stages rings
                 (set_heap (heap s ++ [seed0 b0; seed1 b0 b1]) s)))).
Proof.
  intros Ha H0 H1 Hcmp.
  assert (Hc : Forall2 (fun l b => heap s !! l = Some b) [e0; e1] [b0; b1])
    by (repeat constructor; assumption).
  unfold placeBubblesBody.
  rewrite (bind_Ret _ _ _ _ _ (sortInPlace_run _ _ _ _ Ha Hc)).
  assert (Hsorted : sortBy (zip [e0; e1] [b0; b1]) = [(e0, b0); (e1, b1)]).
  { unfold sortBy. cbn [zip zip_with foldr insertBy snd]. now rewrite Hcmp. }
  rewrite Hsorted. cbn [map fst].
  set (s0 := set_arrays _ s).
  destruct (placeSorted_pass rr e0 e1 [] s0 b0 b1 [] H0 H1)
    as (rings & ps & Hpass & Hps); [constructor|].
  apply bubbleFor_nil in Hps. subst ps.
  exists rings. rewrite Hpass. f_equal. unfold s0.
  cbn [alterAll foldl heap arrays set_arrays length].
  rewrite length_insert. reflexivity.
Qed.

Lemma zero_extent (p0 p1 : bubble) :
  circleOf p0 = Some (0, 0, 0) -> circleOf p1 = Some (0, 0 - 0 - 0, 0) ->
  exists x0 x1 y0 y1 : R,
    boundingBox [p0; p1] = Box (Fin x0) (Fin x1) (Fin y0) (Fin y1) /\
    x1 - x0 = 0 /\ y1 - y0 = 0.
Proof.
  intros H0 H1. unfold boundingBox. cbn [fold_left].
  rewrite (growBox_first 0 0 0) by assumption.
  rewrite (growBox_Fin _ _ _ _ 0 (0 - 0 - 0) 0) by assumption.
  eexists _, _, _, _. split; [reflexivity|].
  rewrite !Rmin_left, !Rmax_left by lra. lra.
Qed.

Lemma zero_factor (s : state) (x0 x1 y0 y1 W H L T : R) :
  plotWidth s = Fin W -> plotHeight s = Fin H ->
  plotLeft s = Fin L -> plotTop s = Fin T ->
  L < W -> T < H -> x1 - x0 = 0 -> y1 - y0 = 0 ->
  smallerDimension s (Box (Fin x0) (Fin x1) (Fin y0) (Fin y1)) = PosInf.
Proof.
  intros HW HH HL HT Hw Hh Hx Hy.
  unfold smallerDimension, spaceRatio. cbn [fst snd minX maxX minY maxY].
  rewrite HW, HH, HL, HT. num_cbn. unfold Num.div.
  rewrite !Reqb_true by assumption. unfold Num.signed_inf.
  rewrite !Reqb_false by lra. rewrite !Rltb_true by lra. reflexivity.
Qed.

Lemma NaN_extent (p0 p1 : bubble) :
  slot0 p0 = zero -> slot2 p0 = VNum NaN -> slot2 p1 = VNum NaN ->
  slot1 p0 = zero ->
  boundingBox [p0; p1] = Box NaN NaN NaN NaN.
Proof.
  intros H0 H2 H2' H1. unfold boundingBox. cbn [fold_left].
  unfold growBox. cbn [minX maxX minY maxY]. rewrite H0, H1, H2, H2'.
  reflexivity.
Qed.

(** X20. For an array of two entries whose radii are 0 or null, in a chart whose plot area
    has [plotLeft < plotWidth] and [plotTop < plotHeight], [placeBubbles]
    returns after two passes with nothing but NaN: the first bounding box
    is a point, the scale factor is infinite and the radii become
    [0 * Infinity]; in the second pass the scale factor is NaN, which
    [resizeRadius] accepts, and [diffX] and [diffY] are NaN. *)
Theorem two_zero_radii (fuel : nat) (a : aref) (s : state) (e0 e1 : loc)
    (b0 b1 : bubble) (W H L T : R) :
  arrays s !! a = Some [e0; e1] ->
  heap s !! e0 = Some b0 -> heap s !! e1 = Some b1 ->
  toNumber (slot2 b0) = Fin 0 -> toNumber (slot2 b1) = Fin 0 ->
  plotWidth s = Fin W -> plotHeight s = Fin H ->
  plotLeft s = Fin L -> plotTop s = Fin T ->
  L < W -> T < H ->
  exists (raw : aref) (s' : state) (f0 f1 : bubble),
    placeBubbles (S (S fuel)) a s = Ret (Positions raw) s' /\
    holdsPositions s' raw [f0; f1] /\
    slot2 f0 = VNum NaN /\ slot2 f1 = VNum NaN /\
    slot1 f1 = VNum NaN /\
    diffX s' = Some NaN /\ diffY s' = Some NaN.
Proof.
  intros Ha H0 H1 Hr0 Hr1 HW HH HL HT Hw Hh.
  (* the first pass *)
  change (placeBubbles (S (S fuel)) a s)
    with (placeBubblesBody (resizeRadiusBody (placeBubbles (S fuel))) a s).
  destruct (two_pass (resizeRadiusBody (placeBubbles (S fuel))) a s e0 e1
              b0 b1 Ha H0 H1) as (rings & Hpass).
  { unfold compareFn. rewrite Hr0, Hr1. num_cbn. apply Rltb_false. lra. }
  rewrite Hpass. clear Hpass.
  set (n := length (heap s)). set (raw := length (arrays s)).
  set (s1 := set_rawPositions raw _).
  assert (Hc1 : Forall2 (fun l p => heap s1 !! l = Some p) [n; S n]
                  [seed0 b0; seed1 b0 b1]).
  { unfold s1. cbn [heap set_rawPositions set_arrays set_stages set_heap].
    exact (lookup_fresh (heap s) [_; _]). }
  assert (Ha1 : arrays s1 !! raw = Some [n; S n]).
  { unfold s1, raw. cbn [arrays set_rawPositions set_arrays].
    rewrite lookup_app_r by (rewrite length_insert; lia).
    now rewrite length_insert, Nat.sub_diag. }
  unfold bind at 1.
  rewrite (resizeRadiusBody_run _ s1 raw [n; S n] [seed0 b0; seed1 b0 b1]
             eq_refl Ha1 Hc1).
  cbv zeta.
  destruct (zero_extent (seed0 b0) (seed1 b0 b1))
    as (x0 & x1 & y0 & y1 & Hbox & Hx & Hy).
  { unfold circleOf, seed0. cbn [slot0 slot1 slot2 toNumber zero].
    now rewrite Hr0. }
  { unfold circleOf, seed1. cbn [slot0 slot1 slot2 toNumber zero].
    rewrite Hr0, Hr1. reflexivity. }
  rewrite Hbox.
  rewrite (zero_factor s1 x0 x1 y0 y1 W H L T HW HH HL HT Hw Hh Hx Hy).
  change (needsResize PosInf) with true. cbv iota.
  rewrite (bind_Ret _ _ _ _ _
             (mapEach_scaleRadius _ [n; S n] _ s1 (NoDup_seq n 2) Hc1)).
  set (q0 := setSlot2 (seed0 b0) (VNum NaN)).
  set (q1 := setSlot2 (seed1 b0 b1) (VNum NaN)).
  assert (E : alterAll (fun p => setSlot2 p (VNum (toNumber (slot2 p) * PosInf)%num))
                [n; S n] (heap s1)
              = heap s ++ [q0; q1]).
  { unfold s1. cbn [heap set_rawPositions set_arrays set_stages set_heap].
    unfold alterAll. cbn [foldl]. fold n.
    replace n with (length (heap s) + 0)%nat at 2 by (unfold n; lia).
    rewrite alter_app_r.
    replace (S n) with (length (heap s) + 1)%nat by (unfold n; lia).
    rewrite alter_app_r. cbn [alter list_alter].
    unfold q0, q1, seed0, seed1, setSlot2. cbn [slot0 slot1 slot2 slot3 slot4].
    rewrite Hr0, Hr1. cbn [Num.mul Num.signed_inf].
    unfold Num.signed_inf. rewrite Reqb_true by reflexivity. reflexivity. }
  rewrite E. clear E.
  set (s5 := set_heap (heap s ++ [q0; q1]) s1).
  (* the second pass *)
  change (placeBubbles (S fuel) raw)
    with (placeBubblesBody (resizeRadiusBody (placeBubbles fuel)) raw).
  destruct (two_pass (resizeRadiusBody (placeBubbles fuel)) raw s5 n (S n)
              q0 q1) as (rings2 & Hpass2).
  { exact Ha1. }
  { unfold s5. cbn [heap set_heap]. unfold n.
    now rewrite lookup_app_r, Nat.sub_diag by lia. }
  { unfold s5. cbn [heap set_heap]. unfold n.
    rewrite lookup_app_r by lia.
    now replace (S (length (heap s)) - length (heap s))%nat with 1%nat by lia. }
  { reflexivity. }
  unfold bind at 1. rewrite Hpass2. clear Hpass2.
  set (n2 := length (heap s5)). set (raw2 := length (arrays s5)).
  set (s6 := set_rawPositions raw2 _).
  assert (Hc6 : Forall2 (fun l p => heap s6 !! l = Some p) [n2; S n2]
                  [seed0 q0; seed1 q0 q1]).
  { unfold s6. cbn [heap set_rawPositions set_arrays set_stages set_heap].
    exact (lookup_fresh (heap s5) [_; _]). }
  assert (Ha6 : arrays s6 !! raw2 = Some [n2; S n2]).
  { unfold s6, raw2. cbn [arrays set_rawPositions set_arrays].
    rewrite lookup_app_r by (rewrite length_insert; lia).
    now rewrite length_insert, Nat.sub_diag. }
  unfold bind at 1.
  rewrite (resizeRadiusBody_run _ s6 raw2 [n2; S n2] [seed0 q0; seed1 q0 q1]
             eq_refl Ha6 Hc6).
  cbv zeta.
  rewrite (NaN_extent (seed0 q0) (seed1 q0 q1)) by reflexivity.
  unfold smallerDimension, spaceRatio. cbn [fst snd minX maxX minY maxY].
  change (plotWidth s6) with (plotWidth s). change (plotHeight s6) with (plotHeight s).
  change (plotLeft s6) with (plotLeft s). change (plotTop s6) with (plotTop s).
  rewrite HW, HH, HL, HT. num_cbn. cbn [Num.div Num.min].
  rewrite !Reqb_false by lra. num_cbn.
  change (needsResize NaN) with false. cbv iota.
  unfold modify at 1. cbn [ret]. unfold bind at 1. unfold defined at 1.
  cbn [rawPositions set_diff s6 set_rawPositions ret].
  unfold bind at 1. cbn [ret]. unfold bind, defined.
  cbn [rawPositions set_diff s6 set_rawPositions ret].
  eexists _, _, _, _. split; [reflexivity|].
  split.
  { split; [reflexivity|]. exists [n2; S n2].
    split; [exact Ha6|]. split; [exact (NoDup_seq n2 2)|]. exact Hc6. }
  repeat split; reflexivity.
Qed.

Lemma two_zero_radii_witness :
  exists (raw : aref) (s' : state) (f0 f1 : bubble),
    placeBubbles 2 0 zeroSized = Ret (Positions raw) s' /\
    holdsPositions s' raw [f0; f1] /\
    slot2 f0 = VNum NaN /\ slot2 f1 = VNum NaN /\
    slot1 f1 = VNum NaN /\
    diffX s' = Some NaN /\ diffY s' = Some NaN.
Proof.
  apply (two_zero_radii 0 0%nat zeroSized 0%nat 1%nat
           (Bubble VNull VNull VNull zero zero)
           (Bubble VNull VNull zero zero (VNum (Fin 1))) 400 400 0 0);
    try reflexivity; lra.
Defined.

(** ** translate: the layout *)

(** The layout is a run of [placeBubbles] on the new array, whose entries
    hold the radii of the visible points. *)
Lemma layout_run (fuel : nat) (s : state) :
  exists s1 : state,
    layout fuel s = placeBubbles fuel (length (arrays s)) s1 /\
    samePlot s s1 /\
    arrays s1 !! length (arrays s)
    = Some (seq (length (heap s)) (length (visiblePoints (chart_series s)))) /\
    Forall2 (fun l p => heap s1 !! l = Some p)
      (seq (length (heap s)) (length (visiblePoints (chart_series s))))
      (map (fun p => setSlot2 p (radiusIn s (slot2 p)))
           (visiblePoints (chart_series s))).
Proof.
  set (pts := visiblePoints (chart_series s)).
  set (refs := seq (length (heap s)) (length pts)).
  set (a := length (arrays s)).
  unfold layout. rewrite (bind_Ret _ _ _ _ _ (accumulateAllPoints_run s)).
  fold pts refs a.
  unfold bind at 1. unfold modify at 1.
  set (sB := set_allDataPoints a _).
  assert (HaB : arrays sB !! a = Some refs).
  { unfold sB, a. cbn [arrays set_allDataPoints set_arrays set_heap].
    now rewrite lookup_app_r, Nat.sub_diag by lia. }
  assert (HcB : Forall2 (fun l p => heap sB !! l = Some p) refs pts).
  { unfold sB. cbn [heap set_allDataPoints set_arrays set_heap].
    apply lookup_fresh. }
  assert (Hnd : NoDup refs) by apply NoDup_seq.
  rewrite (bind_Ret _ _ _ _ _
             (getRadius_run sB a refs pts eq_refl HaB Hnd HcB)).
  unfold bind at 1. unfold defined at 1.
  cbn [allDataPoints set_radii set_heap set_extremes sB set_allDataPoints].
  eexists. split; [reflexivity|].
  split; [repeat split|]. split; [exact HaB|].
  cbn [heap set_radii set_heap].
  apply Forall2_fmap_r.
  apply (Forall2_alterAll _ refs refs pts _ Hnd); auto.
Qed.

(** X21. The first part of [translate], from [accumulateAllPoints] to the
    return of [placeBubbles], never throws a TypeError, whatever the series
    of the chart hold. *)
Theorem layout_never_throws (fuel : nat) (s : state) :
  layout fuel s <> TypeError.
Proof.
  destruct (layout_run fuel s) as (s1 & -> & _ & Ha & Hc).
  pose proof (placeBubbles_outcome fuel _ s1 _ _ Ha Hc) as H.
  intros E. now rewrite E in H.
Qed.

Lemma identity_radius (s : state) (pts : list bubble) :
  map identity (map (fun p => setSlot2 p (radiusIn s (slot2 p))) pts)
  = map identity pts.
Proof. rewrite map_map. apply map_ext. reflexivity. Qed.

(** X22. When the visible series have two or more points and the first part
    of [translate] returns, [chart.rawPositions] holds pairwise distinct
    bubbles whose pairs of series index and point index are exactly those
    of the points of the visible series, each once per point. *)
Theorem layout_one_bubble_per_point (fuel : nat) (s s' : state)
    (r : returned) :
  (2 <= length (visiblePoints (chart_series s)))%nat ->
  layout fuel s = Ret r s' ->
  exists (raw : aref) (finals : list bubble),
    r = Positions raw /\ holdsPositions s' raw finals /\
    map identity finals ≡ₚ map identity (visiblePoints (chart_series s)).
Proof.
  intros Hlen Hrun.
  destruct (layout_run fuel s) as (s1 & E & _ & Ha & Hc).
  rewrite E in Hrun.
  destruct (placeBubbles_final fuel _ s1 s' _ _ r Ha Hc) as
    (_ & raw & finals & Hr & Hpos & Hid & _).
  { now rewrite length_seq. }
  { exact Hrun. }
  exists raw, finals. split; [exact Hr|]. split; [exact Hpos|].
  now rewrite Hid, identity_radius.
Qed.

Lemma layout_two :
  exists dx dy : num,
    layout 1 twoChart = Ret (Positions 1) (set_diff dx dy twoBefore).
Proof.
  destruct (pack_two 0) as (dx & dy & Hpack). exists dx, dy.
  unfold layout.
  assert (A : accumulateAllPoints twoChart
              = Ret 0%nat (set_arrays [[0; 1]%nat]
                             (set_heap [point 0 4; point 1 30] twoChart)))
    by reflexivity.
  rewrite (bind_Ret _ _ _ _ _ A).
  unfold bind at 1. cbn [modify].
  rewrite (bind_Ret _ _ _ _ _ getRadius_two).
  exact Hpack.
Qed.

Lemma layout_one_bubble_per_point_witness :
  exists (raw : aref) (finals : list bubble) (s' : state),
    layout 1 twoChart = Ret (Positions raw) s' /\
    holdsPositions s' raw finals /\
    map identity finals
    ≡ₚ map identity (visiblePoints (chart_series twoChart)).
Proof.
  destruct layout_two as (dx & dy & Hrun).
  destruct (layout_one_bubble_per_point 1 twoChart _ _ (le_n 2) Hrun)
    as (raw & finals & Hr & Hpos & Hid).
  exists raw, finals. eexists. rewrite <- Hr. eauto.
Defined.

(** ** translate: the points *)

Lemma translateStep_own (index : num) (b : bubble) (data : list dataPoint)
    (s : state) (i : nat) :
  strictEq (slot3 b) index = true -> arrayIndex (slot4 b) = Some i ->
  (i < length data)%nat ->
  translateStep index b data s = Ret (<[i := movePoint s b]> data) s.
Proof.
  intros Ho Hi Hlt. unfold translateStep. rewrite Ho, Hi.
  destruct (lookup_lt_is_Some_2 data i Hlt) as [p Hp]. rewrite Hp.
  reflexivity.
Qed.

Lemma translateStep_other (index : num) (b : bubble) (data : list dataPoint)
    (s : state) :
  strictEq (slot3 b) index = false ->
  translateStep index b data s = Ret data s.
Proof. intros Ho. unfold translateStep. now rewrite Ho. Qed.

Lemma loop_moves (index : num) (s : state) (positions : list loc)
    (finals : list bubble) :
  Forall2 (fun l p => heap s !! l = Some p) positions finals ->
  forall (data : list dataPoint) (idxs : list nat),
    Forall2 (fun b i => arrayIndex (slot4 b) = Some i)
            (ownBubbles index finals) idxs ->
    NoDup idxs -> Forall (fun i => (i < length data)%nat) idxs ->
    exists data' : list dataPoint,
      foldEach (fun l data =>
                  position <- getB l ;; translateStep index position data)
               positions data s
      = Ret data' s /\
      length data' = length data /\
      Forall2 (fun b i => data' !! i = Some (movePoint s b))
              (ownBubbles index finals) idxs /\
      forall i, i ∉ idxs -> data' !! i = data !! i.
Proof.
  induction 1 as [|l b positions finals Hl _ IH]; intros data idxs Hidx Hnd Hlt.
  - cbn in Hidx. apply Forall2_nil_inv_l in Hidx as ->.
    exists data. cbn. repeat split; auto.
  - cbn [foldEach]. cbv beta. unfold bind at 1.
    rewrite (bind_Ret _ _ _ _ _ (getB_Ret _ _ _ Hl)).
    unfold ownBubbles in *. cbn [List.filter] in *.
    destruct (strictEq (slot3 b) index) eqn:Ho.
    + apply Forall2_cons_inv_l in Hidx as (i & idxs' & Hi & Hidx & ->).
      apply NoDup_cons in Hnd as [Hni Hnd].
      apply Forall_cons in Hlt as [Hi_lt Hlt].
      rewrite (translateStep_own index b data s i Ho Hi Hi_lt).
      destruct (IH (<[i := movePoint s b]> data) idxs' Hidx Hnd)
        as (data' & Hrun & Hlen & Hmoved & Hkept).
      { now rewrite length_insert. }
      exists data'. split; [exact Hrun|].
      rewrite length_insert in Hlen. split; [exact Hlen|]. split.
      * constructor; [|exact Hmoved].
        rewrite (Hkept i Hni). now apply list_lookup_insert_eq.
      * intros i' Hni'. rewrite not_elem_of_cons in Hni'.
        destruct Hni' as [Hne Hni'].
        rewrite (Hkept i' Hni'). now apply list_lookup_insert_ne.
    + rewrite (translateStep_other index b data s Ho).
      exact (IH data idxs Hidx Hnd Hlt).
Qed.

(** X23. When [chart.rawPositions] holds the bubbles [finals] and those of
    the series (the ones whose slot 3 is [index]) have point indices that
    are distinct indices of [data], the loop of [translate] returns and
    leaves the chart as it is;
    [data] keeps its length, the point of every such bubble has got
    [plotX], [plotY], the marker and [dlBox] from that bubble, and every
    other point is as it was. *)
Theorem translateLoop_moves (index : num) (raw : aref)
    (finals : list bubble) (data : list dataPoint) (s : state)
    (idxs : list nat) :
  holdsPositions s raw finals ->
  Forall2 (fun b i => arrayIndex (slot4 b) = Some i)
          (ownBubbles index finals) idxs ->
  NoDup idxs -> Forall (fun i => (i < length data)%nat) idxs ->
  exists data' : list dataPoint,
    translateLoop index (Positions raw) data s = Ret data' s /\
    length data' = length data /\
    Forall2 (fun b i => data' !! i = Some (movePoint s b))
            (ownBubbles index finals) idxs /\
    forall i, i ∉ idxs -> data' !! i = data !! i.
Proof.
  intros (_ & positions & Harr & _ & Hc) Hidx Hnd Hlt.
  unfold translateLoop. rewrite (bind_Ret _ _ _ _ _ (getArr_Ret _ _ _ Harr)).
  now apply (loop_moves index s positions finals).
Qed.

Lemma translateStep_outcome (index : num) (b : bubble)
    (data : list dataPoint) (s : state) :
  translateStep index b data s = TypeError \/
  exists data', translateStep index b data s = Ret data' s /\
                length data' = length data.
Proof.
  unfold translateStep.
  destruct (strictEq (slot3 b) index); [|right; now exists data].
  destruct (arrayIndex (slot4 b)) as [i|]; [|now left].
  destruct (data !! i); [|now left].
  right. eexists. split; [reflexivity|]. apply length_insert.
Qed.

Lemma translateStep_missing (index : num) (b : bubble)
    (data : list dataPoint) (s : state) :
  strictEq (slot3 b) index = true ->
  (forall i, arrayIndex (slot4 b) = Some i -> (length data <= i)%nat) ->
  translateStep index b data s = TypeError.
Proof.
  intros Ho Hmiss. unfold translateStep. rewrite Ho.
  destruct (arrayIndex (slot4 b)) as [i|]; [|reflexivity].
  specialize (Hmiss i eq_refl).
  now rewrite lookup_ge_None_2.
Qed.

Lemma loop_missing (index : num) (s : state) (b : bubble)
    (positions : list loc) (finals : list bubble) :
  Forall2 (fun l p => heap s !! l = Some p) positions finals ->
  b ∈ finals -> strictEq (slot3 b) index = true ->
  forall data : list dataPoint,
    (forall i, arrayIndex (slot4 b) = Some i -> (length data <= i)%nat) ->
    foldEach (fun l data =>
                position <- getB l ;; translateStep index position data)
             positions data s
    = TypeError.
Proof.
  intros Hc Hin Ho.
  induction Hc as [|l b' positions finals Hl _ IH]; intros data Hmiss.
  - now apply elem_of_nil in Hin.
  - cbn [foldEach]. cbv beta. unfold bind at 1.
    rewrite (bind_Ret _ _ _ _ _ (getB_Ret _ _ _ Hl)).
    apply elem_of_cons in Hin as [<-|Hin].
    + now rewrite translateStep_missing.
    + destruct (translateStep_outcome index b' data s)
        as [->|(data' & -> & Hlen)]; [reflexivity|].
      apply IH; [assumption|]. now rewrite Hlen.
Qed.

(** X24. When a bubble of the series has a point index that is no index of
    [data] (not a natural number, or not below the length), the loop of
    [translate] throws a TypeError. *)
Theorem translateLoop_missing_point (index : num) (raw : aref)
    (finals : list bubble) (data : list dataPoint) (s : state) (b : bubble) :
  holdsPositions s raw finals ->
  b ∈ finals -> strictEq (slot3 b) index = true ->
  (forall i, arrayIndex (slot4 b) = Some i -> (length data <= i)%nat) ->
  translateLoop index (Positions raw) data s = TypeError.
Proof.
  intros (_ & positions & Harr & _ & Hc) Hin Ho Hmiss.
  unfold translateLoop. rewrite (bind_Ret _ _ _ _ _ (getArr_Ret _ _ _ Harr)).
  now apply (loop_missing index s b positions finals).
Qed.

Lemma Zfloor_INR (j : nat) : Zfloor (INR j) = Z.of_nat j.
Proof.
  rewrite INR_IZR_INZ. apply Zfloor_eq. lra.
Qed.

Lemma arrayIndex_INR (j : nat) : arrayIndex (VNum (Fin (INR j))) = Some j.
Proof.
  unfold arrayIndex. rewrite Zfloor_INR.
  rewrite Reqb_true by (now rewrite INR_IZR_INZ).
  replace (0 <=? Z.of_nat j)%Z with true by (symmetry; apply Z.leb_le; lia).
  cbn [andb]. now rewrite Nat2Z.id.
Qed.

Lemma visiblePoints_null (all : list seriesData) (p : bubble) :
  p ∈ visiblePoints all -> slot0 p = VNull /\ slot1 p = VNull.
Proof.
  intros H. apply elem_of_visiblePoints in H
    as (series & j & y & _ & _ & _ & ->). auto.
Qed.

Lemma layout_single (fuel : nat) (s : state) (p : bubble) :
  visiblePoints (chart_series s) = [p] ->
  exists s1,
    layout (S fuel) s
    = Ret (Scalars [zero; zero; VNull; VNull; radiusIn s (slot2 p)]) s1.
Proof.
  intros Hp.
  destruct (layout_run (S fuel) s) as (s1 & E & _ & Ha & Hc).
  rewrite Hp in Ha, Hc. cbn [length seq map] in Ha, Hc.
  apply Forall2_cons_inv_l in Hc as (b & bs & Hb & _ & Eb).
  injection Eb as <- _.
  destruct (visiblePoints_null (chart_series s) p) as [H0 H1].
  { rewrite Hp. now left. }
  rewrite E, (placeBubbles_single fuel _ s1 _ _ Ha Hb).
  cbn [slot0 slot1 slot2 setSlot2]. rewrite H0, H1. eauto.
Qed.

(** X25. For a chart whose visible series hold exactly one point in all,
    [translate] throws a TypeError, provided the parent method terminates:
    [placeBubbles] returns the five scalars [[0, 0, null, null, radius]],
    and the loop reads [positions[2][3]], a property of [null]. *)
Theorem translate_single_point
    (scatterTranslate : list dataPoint -> M (list dataPoint))
    (fuel : nat) (index : num) (data : list dataPoint) (s : state)
    (p : bubble) :
  visiblePoints (chart_series s) = [p] ->
  (forall d s0, scatterTranslate d s0 <> OutOfFuel) ->
  translate scatterTranslate (S fuel) index data s = TypeError.
Proof.
  intros Hp Hparent. unfold translate.
  destruct (layout_single fuel s p Hp) as (s1 & Hlayout).
  rewrite (bind_Ret _ _ _ _ _ Hlayout).
  unfold bind at 1.
  destruct (scatterTranslate data s1) as [d' s2| |] eqn:E.
  - reflexivity.
  - reflexivity.
  - now apply Hparent in E.
Qed.

Lemma translate_single_point_witness :
  translate (fun d => ret d) 1 (Fin 0) [DataPoint None None None None]
            oneChart
  = TypeError.
Proof.
  apply (translate_single_point (fun d => ret d) 0 (Fin 0) _ oneChart
           (Bubble VNull VNull (VNum (Fin 10)) (VNum (Fin 0))
                   (VNum (Fin (INR 0))))).
  - reflexivity.
  - discriminate.
Defined.

(** X26. For an accepted layout with a finite bounding box in a finite plot
    area, the loop of [translate] gives the point of a finite bubble the
    position of the bubble relative to the centre of the bounding box,
    moved to [(plotWidth / 2, plotHeight / 2)]: [plotLeft] and [plotTop]
    cancel out.  [dlBox] is the square around the circle. *)
Theorem movePoint_centred (s : state) (finals : list bubble) (b : bubble)
    (x y r x0 x1 y0 y1 W H L T : R) :
  accepted s finals ->
  boundingBox finals = Box (Fin x0) (Fin x1) (Fin y0) (Fin y1) ->
  plotWidth s = Fin W -> plotHeight s = Fin H ->
  plotLeft s = Fin L -> plotTop s = Fin T ->
  circleOf b = Some (x, y, r) ->
  plotX (movePoint s b) = Some (Fin (x - (x0 + x1) / 2 + W / 2)) /\
  plotY (movePoint s b) = Some (Fin (y - (y0 + y1) / 2 + H / 2)) /\
  dlBox (movePoint s b)
  = Some (BoxProps (Fin (x - (x0 + x1) / 2 + W / 2 - r))
                   (Fin (y - (y0 + y1) / 2 + H / 2 - r))
                   (Fin (2 * r)) (Fin (2 * r))).
Proof.
  intros (_ & Hdx & Hdy) Hbox HW HH HL HT Hb.
  cbv zeta in Hdx, Hdy.
  rewrite Hbox, HW, HL in Hdx. rewrite Hbox, HH, HT in Hdy.
  cbn [minX maxX minY maxY] in Hdx, Hdy.
  rewrite !div_Fin in Hdx, Hdy by lra. revert Hdx Hdy. num_cbn.
  rewrite !div_Fin by lra. num_cbn. intros Hdx Hdy.
  apply circleOf_Some in Hb as (Hx & Hy & Hr).
  unfold movePoint. cbn [plotX plotY dlBox].
  rewrite Hx, Hy, Hr, HL, HT, Hdx, Hdy. cbn [numberOf]. num_cbn.
  repeat split; do 2 f_equal; try lra; f_equal; lra.
Qed.

Lemma twoAfter_positions : holdsPositions twoAfter 1 twoBubbles.
Proof.
  split; [reflexivity|]. exists [2; 3]%nat.
  split; [reflexivity|]. split; [exact (NoDup_seq 2 2)|].
  unfold twoBubbles. repeat constructor.
Qed.

Lemma twoAfter_accepted : accepted twoAfter twoBubbles.
Proof.
  unfold accepted. cbv zeta.
  change (smallerDimension twoAfter (boundingBox twoBubbles))
    with (Num.min ((plotWidth twoBefore - plotLeft twoBefore)
                   / (maxX (boundingBox twoBubbles)
                      - minX (boundingBox twoBubbles)))%num
                  ((plotHeight twoBefore - plotTop twoBefore)
                   / (maxY (boundingBox twoBubbles)
                      - minY (boundingBox twoBubbles)))%num).
  rewrite two_ratio. split; [exact accept_one|].
  rewrite two_extent. cbn [minX maxX minY maxY].
  change (plotWidth twoAfter) with (Fin 100).
  change (plotHeight twoAfter) with (Fin 34).
  change (plotLeft twoAfter) with (Fin 0).
  change (plotTop twoAfter) with (Fin 0).
  rewrite !div_Fin by lra. num_cbn. rewrite !div_Fin by lra. num_cbn.
  split; cbn [diffX diffY twoAfter set_diff]; do 2 f_equal; lra.
Qed.

Lemma two_own : ownBubbles (Fin 0) twoBubbles = twoBubbles.
Proof.
  unfold ownBubbles, twoBubbles, placed.
  cbn [List.filter strictEq slot3 Num.eqb].
  now rewrite !Reqb_true by reflexivity.
Qed.

Lemma translateLoop_moves_witness :
  exists data' : list dataPoint,
    translateLoop (Fin 0) (Positions 1) twoData twoAfter
    = Ret data' twoAfter /\
    length data' = length twoData /\
    Forall2 (fun b i => data' !! i = Some (movePoint twoAfter b))
            (ownBubbles (Fin 0) twoBubbles) [1; 0]%nat /\
    forall i, i ∉ [1; 0]%nat -> data' !! i = twoData !! i.
Proof.
  apply (translateLoop_moves (Fin 0) 1%nat twoBubbles twoData twoAfter
           [1; 0]%nat).
  - exact twoAfter_positions.
  - rewrite two_own. unfold twoBubbles, placed.
    repeat constructor; apply arrayIndex_INR.
  - apply NoDup_cons. split; [|apply NoDup_singleton].
    intros Hin. apply elem_of_cons in Hin as [Hin|Hin]; [lia|].
    now apply elem_of_nil in Hin.
  - repeat constructor; cbn; lia.
Defined.

Lemma translateLoop_missing_point_witness :
  translateLoop (Fin 0) (Positions 1) [DataPoint None None None None]
                twoAfter
  = TypeError.
Proof.
  apply (translateLoop_missing_point (Fin 0) 1%nat twoBubbles _ twoAfter
           (placed 1 0 0 15)).
  - exact twoAfter_positions.
  - unfold twoBubbles. now left.
  - cbn. now rewrite Reqb_true.
  - intros i Hi. unfold placed in Hi. cbn [slot4] in Hi.
    rewrite arrayIndex_INR in Hi. injection Hi as <-. cbn. lia.
Defined.

Lemma movePoint_centred_witness :
  plotX (movePoint twoAfter (placed 0 0 (-17) 2))
  = Some (Fin (0 - (-15 + 15) / 2 + 100 / 2)) /\
  plotY (movePoint twoAfter (placed 0 0 (-17) 2))
  = Some (Fin (-17 - (-19 + 15) / 2 + 34 / 2)) /\
  dlBox (movePoint twoAfter (placed 0 0 (-17) 2))
  = Some (BoxProps (Fin (0 - (-15 + 15) / 2 + 100 / 2 - 2))
                   (Fin (-17 - (-19 + 15) / 2 + 34 / 2 - 2))
                   (Fin (2 * 2)) (Fin (2 * 2))).
Proof.
  apply (movePoint_centred twoAfter twoBubbles (placed 0 0 (-17) 2)
           0 (-17) 2 (-15) 15 (-19) 15 100 34 0 0).
  - exact twoAfter_accepted.
  - exact two_extent.
  - reflexivity.
  - reflexivity.
  - reflexivity.
  - reflexivity.
  - reflexivity.
Defined.

(** ** translate: a whole series *)

Lemma filter_perm {A : Type} (f : A -> bool) (l l' : list A) :
  l ≡ₚ l' -> List.filter f l ≡ₚ List.filter f l'.
Proof.
  induction 1 as [|x l l' _ IH|x y l|l l' l'' _ IH1 _ IH2]; cbn.
  - reflexivity.
  - destruct (f x); [now constructor|assumption].
  - destruct (f x), (f y); try reflexivity. apply perm_swap.
  - now rewrite IH1.
Qed.

Lemma filter_map_comm {A B : Type} (g : A -> B) (f : B -> bool)
    (l : list A) :
  List.filter f (map g l) = map g (List.filter (fun x => f (g x)) l).
Proof.
  induction l as [|x l IH]; [reflexivity|]. cbn.
  destruct (f (g x)); cbn; now rewrite IH.
Qed.

Lemma filter_all {A : Type} (f : A -> bool) (l : list A) :
  Forall (fun x => f x = true) l -> List.filter f l = l.
Proof.
  induction 1 as [|x l Hx _ IH]; [reflexivity|]. cbn. now rewrite Hx, IH.
Qed.

Lemma filter_none {A : Type} (f : A -> bool) (l : list A) :
  Forall (fun x => f x = false) l -> List.filter f l = [].
Proof.
  induction 1 as [|x l Hx _ IH]; [reflexivity|]. cbn. now rewrite Hx, IH.
Qed.

Lemma map_imap {A B C : Type} (h : B -> C) (f : nat -> A -> B)
    (l : list A) :
  map h (imap f l) = imap (fun i x => h (f i x)) l.
Proof.
  revert f. induction l as [|x l IH]; intros f; [reflexivity|].
  cbn. f_equal. apply IH.
Qed.

Lemma identity_pointsOf (series : seriesData) :
  map identity (pointsOf series)
  = map (identityOf (index series)) (seq 0 (length (processedYData series))).
Proof.
  unfold pointsOf. rewrite map_imap.
  exact (imap_seq_0 (processedYData series) (identityOf (index series))).
Qed.

Lemma visiblePoints_app (l1 l2 : list seriesData) :
  visiblePoints (l1 ++ l2) = visiblePoints l1 ++ visiblePoints l2.
Proof. unfold visiblePoints. now rewrite map_app, concat_app. Qed.

Lemma visiblePoints_cons (series : seriesData) (l : list seriesData) :
  visible series = true ->
  visiblePoints (series :: l) = pointsOf series ++ visiblePoints l.
Proof. intros H. unfold visiblePoints. cbn. now rewrite H. Qed.

Lemma own_of_others (idx : num) (others : list seriesData) :
  (forall other, other ∈ others -> visible other = true ->
                 Num.eqb (index other) idx = false) ->
  ownBubbles idx (visiblePoints others) = [].
Proof.
  intros H. apply filter_none. apply Forall_forall. intros p Hp.
  apply elem_of_visiblePoints in Hp as (series & j & y & Hs & Hv & _ & ->).
  cbn. now apply H.
Qed.

Lemma own_of_series (series : seriesData) :
  Num.eqb (index series) (index series) = true ->
  ownBubbles (index series) (pointsOf series) = pointsOf series.
Proof.
  intros H. apply filter_all. apply Forall_forall. intros p Hp.
  apply elem_of_pointsOf in Hp as (j & y & _ & ->). exact H.
Qed.

Lemma own_identities (idx : num) (finals pts : list bubble) :
  map identity finals ≡ₚ map identity pts ->
  map identity (ownBubbles idx finals) ≡ₚ map identity (ownBubbles idx pts).
Proof.
  intros H. unfold ownBubbles.
  rewrite <- !(filter_map_comm identity (fun id => strictEq (fst id) idx)).
  now apply filter_perm.
Qed.

Lemma num_eqb_eq (a b : num) : Num.eqb a b = true -> a = b.
Proof.
  destruct a as [| | |x], b as [| | |y]; cbn; try discriminate; auto.
  unfold Reqb. destruct (Req_dec_T x y); [now subst|discriminate].
Qed.

Lemma strictEq_eq (v : val) (idx : num) :
  strictEq v idx = true -> v = VNum idx.
Proof.
  destruct v as [|n]; cbn; [discriminate|].
  intros H. now apply num_eqb_eq in H as ->.
Qed.

Lemma indexOr0_identityOf (idx : num) (l : list nat) :
  map (fun id : val * val => indexOr0 (snd id)) (map (identityOf idx) l) = l.
Proof.
  rewrite map_map. rewrite <- (map_id l) at 2. apply map_ext.
  intros j. unfold indexOr0, identityOf. cbn [snd].
  now rewrite arrayIndex_INR.
Qed.

Lemma own_series_identities (this : seriesData)
    (before after : list seriesData) (finals : list bubble) :
  map identity finals
  ≡ₚ map identity (visiblePoints (before ++ this :: after)) ->
  visible this = true ->
  Num.eqb (index this) (index this) = true ->
  (forall other, other ∈ before ++ after -> visible other = true ->
                 Num.eqb (index other) (index this) = false) ->
  map identity (ownBubbles (index this) finals)
  ≡ₚ map (identityOf (index this)) (seq 0 (length (processedYData this))).
Proof.
  intros Hid Hvis Hself Hothers.
  rewrite (own_identities _ _ _ Hid).
  rewrite visiblePoints_app, visiblePoints_cons by assumption.
  unfold ownBubbles. rewrite !List.filter_app.
  fold (ownBubbles (index this) (visiblePoints before)).
  fold (ownBubbles (index this) (visiblePoints after)).
  fold (ownBubbles (index this) (pointsOf this)).
  rewrite !own_of_others, own_of_series; try assumption.
  - cbn [app]. rewrite app_nil_r. now rewrite identity_pointsOf.
  - intros other Ho. apply Hothers. apply elem_of_app. now right.
  - intros other Ho. apply Hothers. apply elem_of_app. now left.
Qed.

Lemma own_indices (idx : num) (own : list bubble) (n : nat) :
  map identity own ≡ₚ map (identityOf idx) (seq 0 n) ->
  let idxs := map (fun b => indexOr0 (slot4 b)) own in
  idxs ≡ₚ seq 0 n /\
  Forall2 (fun b i => arrayIndex (slot4 b) = Some i) own idxs /\
  Forall (fun b => identity b = identityOf idx (indexOr0 (slot4 b))) own.
Proof.
  intros Hid idxs.
  assert (Hall : Forall (fun b => exists j, identity b = identityOf idx j) own).
  { apply Forall_forall. intros b Hb.
    assert (Hin : identity b ∈ map identity own).
    { change (map identity own) with (identity <$> own).
      now apply list_elem_of_fmap_2. }
    rewrite Hid in Hin.
    change (map ?f ?l) with (f <$> l) in Hin.
    apply list_elem_of_fmap_1 in Hin as (j & Hj & _). now exists j. }
  split; [|split].
  - unfold idxs.
    replace (map (fun b => indexOr0 (slot4 b)) own)
      with (map (fun id : val * val => indexOr0 (snd id)) (map identity own))
      by (rewrite map_map; reflexivity).
    rewrite Hid. now rewrite indexOr0_identityOf.
  - unfold idxs. clear Hid. induction Hall as [|b own (j & Hj) _ IH]; cbn.
    + constructor.
    + constructor; [|exact IH].
      unfold identity, identityOf in Hj. injection Hj as _ H4.
      unfold indexOr0. rewrite H4. now rewrite arrayIndex_INR.
  - eapply Forall_impl; [exact Hall|]. intros b (j & Hj). cbn.
    rewrite Hj. f_equal.
    unfold identity, identityOf in Hj. injection Hj as _ H4.
    unfold indexOr0. rewrite H4. now rewrite arrayIndex_INR.
Qed.

(** X27. For a visible series whose index is not NaN and that no other
    visible series of the chart has, in a chart with two or more visible
    points, when the parent method leaves the chart alone and [data] in
    length, and [data] has a point for every value of the series: whenever
    [translate] returns, [data] has the length it had, the layout in
    [chart.rawPositions] is an accepted one, and every point [j] of the
    series has got its position, marker and [dlBox] from a bubble of that
    layout that carries the index of the series and [j]. *)
Theorem translate_places_series
    (scatterTranslate : list dataPoint -> M (list dataPoint))
    (fuel : nat) (s s' : state) (this : seriesData)
    (before after : list seriesData) (data data' : list dataPoint) :
  chart_series s = before ++ this :: after ->
  visible this = true ->
  Num.eqb (index this) (index this) = true ->
  (forall other, other ∈ before ++ after -> visible other = true ->
                 Num.eqb (index other) (index this) = false) ->
  (2 <= length (visiblePoints (chart_series s)))%nat ->
  (length (processedYData this) <= length data)%nat ->
  (forall d s0, exists d',
      scatterTranslate d s0 = Ret d' s0 /\ length d' = length d) ->
  translate scatterTranslate fuel (index this) data s = Ret data' s' ->
  length data' = length data /\
  exists (raw : aref) (finals : list bubble),
    holdsPositions s' raw finals /\ accepted s' finals /\
    forall j : nat,
      (j < length (processedYData this))%nat ->
      exists b : bubble,
        b ∈ finals /\ identity b = identityOf (index this) j /\
        data' !! j = Some (movePoint s' b).
Proof.
  intros Hall Hvis Hself Hothers Hpts Hdata Hparent Hrun.
  unfold translate in Hrun.
  apply bind_inv in Hrun as (r & s1 & Hlayout & Hrun).
  apply bind_inv in Hrun as (d1 & s2 & Hp & Hloop).
  destruct (Hparent data s1) as (d1' & Hp' & Hlen1).
  rewrite Hp' in Hp. injection Hp as <- <-.
  destruct (layout_run fuel s) as (sz & E & _ & Ha & Hc).
  rewrite E in Hlayout.
  destruct (placeBubbles_final fuel _ sz s1 _ _ r Ha Hc) as
    (_ & raw & finals & -> & Hpos & Hid & Hacc & _).
  { now rewrite length_seq. }
  { exact Hlayout. }
  rewrite identity_radius, Hall in Hid.
  pose proof (own_series_identities this before after finals
                Hid Hvis Hself Hothers) as Hown.
  destruct (own_indices _ _ _ Hown) as (Hperm & Hidx & Hident).
  set (own := ownBubbles (index this) finals) in *.
  set (idxs := map (fun b => indexOr0 (slot4 b)) own) in *.
  pose proof Hpos as (_ & positions & Harr & _ & Hcs).
  destruct (loop_moves (index this) s1 positions finals Hcs d1' idxs Hidx)
    as (data'' & Hloop' & Hlen & Hmoved & _).
  { rewrite Hperm. apply NoDup_seq. }
  { apply Forall_forall. intros i Hi. rewrite Hperm in Hi.
    apply elem_of_seq in Hi. lia. }
  unfold translateLoop in Hloop.
  rewrite (bind_Ret _ _ _ _ _ (getArr_Ret _ _ _ Harr)) in Hloop.
  rewrite Hloop' in Hloop. injection Hloop as <- <-.
  split; [lia|].
  exists raw, finals. split; [exact Hpos|]. split; [exact Hacc|].
  intros j Hj.
  assert (Hin : j ∈ idxs).
  { rewrite Hperm. apply elem_of_seq. lia. }
  apply list_elem_of_lookup in Hin as (pos & Hposj).
  destruct (Forall2_lookup_r _ _ _ _ _ Hmoved Hposj) as (b & Hb & Hdata').
  exists b. split; [|split; [|exact Hdata']].
  - apply list_elem_of_lookup_2 in Hb. unfold own, ownBubbles in Hb.
    apply list_elem_of_In, filter_In in Hb as [Hb _].
    now apply list_elem_of_In.
  - pose proof (Forall_lookup_1 _ _ _ _ Hident Hb) as Hib. cbn in Hib.
    rewrite Hib. f_equal.
    unfold idxs, own in Hposj. unfold own in Hb.
    change (map ?f ?l) with (f <$> l) in Hposj.
    rewrite list_lookup_fmap, Hb in Hposj. now injection Hposj.
Qed.

Lemma translate_two :
  exists (data' : list dataPoint) (s' : state),
    translate (fun d => ret d) 1 (Fin 0) twoData twoChart = Ret data' s'.
Proof.
  destruct layout_two as (dx & dy & Hlayout).
  unfold translate. rewrite (bind_Ret _ _ _ _ _ Hlayout).
  unfold bind at 1. cbn [ret].
  set (s1 := set_diff dx dy twoBefore).
  assert (Hc : Forall2 (fun l p => heap s1 !! l = Some p) [2; 3]%nat
                 twoBubbles)
    by (unfold twoBubbles; repeat constructor).
  destruct (loop_moves (Fin 0) s1 [2; 3]%nat twoBubbles Hc twoData
              [1; 0]%nat) as (data' & Hloop & _).
  - rewrite two_own. unfold twoBubbles, placed.
    repeat constructor; apply arrayIndex_INR.
  - apply NoDup_cons. split; [|apply NoDup_singleton].
    intros Hin. apply elem_of_cons in Hin as [Hin|Hin]; [lia|].
    now apply elem_of_nil in Hin.
  - repeat constructor; cbn; lia.
  - exists data', s1. unfold translateLoop.
    assert (Ha : arrays s1 !! 1%nat = Some [2; 3]%nat) by reflexivity.
    now rewrite (bind_Ret _ _ _ _ _ (getArr_Ret _ _ _ Ha)).
Qed.

Lemma translate_places_series_witness :
  exists (data' : list dataPoint) (s' : state),
    translate (fun d => ret d) 1 (Fin 0) twoData twoChart = Ret data' s' /\
    length data' = length twoData /\
    exists (raw : aref) (finals : list bubble),
      holdsPositions s' raw finals /\ accepted s' finals /\
      forall j : nat,
        (j < 2)%nat ->
        exists b : bubble,
          b ∈ finals /\ identity b = identityOf (Fin 0) j /\
          data' !! j = Some (movePoint s' b).
Proof.
  destruct translate_two as (data' & s' & Hrun).
  exists data', s'. split; [exact Hrun|].
  apply (translate_places_series (fun d => ret d) 1 twoChart s'
           (SeriesData true [VNum (Fin 4); VNum (Fin 30)] (Fin 0)) [] []
           twoData data').
  - reflexivity.
  - reflexivity.
  - cbn. now rewrite Reqb_true.
  - intros other Ho. now apply elem_of_nil in Ho.
  - cbn. lia.
  - cbn. lia.
  - intros d s0. exists d. split; reflexivity.
  - exact Hrun.
Defined.
(** * Double precision *)

(** ** Powers of two *)

Lemma Rabs_le_inv (a b : R) : Rabs a <= b -> - b <= a <= b.
Proof. unfold Rabs. destruct (Rcase_abs a); lra. Qed.

Lemma two_pos (z : Z) : 0 < powerRZ 2 z.
Proof. apply powerRZ_lt. lra. Qed.

Lemma two_ge_1 (z : Z) : (0 <= z)%Z -> 1 <= powerRZ 2 z.
Proof.
  intros H. rewrite <- (Z2Nat.id z H). rewrite <- pow_powerRZ.
  apply pow_R1_Rle. lra.
Qed.

Lemma two_le (a b : Z) : (a <= b)%Z -> powerRZ 2 a <= powerRZ 2 b.
Proof.
  intros H. replace b with (a + (b - a))%Z by lia.
  rewrite powerRZ_add by lra.
  assert (Hd : (0 <= b - a)%Z) by lia.
  pose proof (two_pos a). pose proof (two_ge_1 (b - a) Hd). nra.
Qed.

Lemma two_succ (a : Z) : powerRZ 2 (a + 1) = 2 * powerRZ 2 a.
Proof.
  rewrite powerRZ_add by lra.
  change (powerRZ 2 1) with (2 * 1). lra.
Qed.

Lemma two_lt (a b : Z) : (a < b)%Z -> powerRZ 2 a < powerRZ 2 b.
Proof.
  intros H. assert (Hd : (a + 1 <= b)%Z) by lia.
  pose proof (two_le (a + 1) b Hd) as H1.
  rewrite two_succ in H1. pose proof (two_pos a). lra.
Qed.

Lemma two_lt_inv (a b : Z) : powerRZ 2 a < powerRZ 2 b -> (a < b)%Z.
Proof.
  intros H. destruct (Z.lt_ge_cases a b) as [|Hge]; [assumption|].
  pose proof (two_le b a Hge). lra.
Qed.

Lemma two_opp (a : Z) : powerRZ 2 (- a) * powerRZ 2 a = 1.
Proof. rewrite <- powerRZ_add by lra. now replace (- a + a)%Z with 0%Z by lia. Qed.

Lemma two_IZR (n : Z) : (0 <= n)%Z -> powerRZ 2 n = IZR (2 ^ n).
Proof.
  intros H. rewrite <- (Z2Nat.id n H) at 1.
  rewrite <- pow_powerRZ, pow_IZR. now rewrite Z2Nat.id.
Qed.

Lemma exp_two (z : Z) : exp (IZR z * ln 2) = powerRZ 2 z.
Proof. rewrite powerRZ_Rpower by lra. reflexivity. Qed.

Lemma ln2_pos : 0 < ln 2.
Proof. rewrite <- ln_1. apply ln_increasing; lra. Qed.

Lemma mag_spec (x : R) :
  x <> 0 ->
  powerRZ 2 (Double.mag x - 1) <= Rabs x < powerRZ 2 (Double.mag x).
Proof.
  intros Hx. unfold Double.mag.
  set (t := ln (Rabs x) / ln 2).
  pose proof (Zfloor_bound t) as [H1 H2].
  pose proof ln2_pos as Hl.
  assert (Ha : 0 < Rabs x) by now apply Rabs_pos_lt.
  assert (Et : t * ln 2 = ln (Rabs x)) by (unfold t; field; lra).
  replace (Zfloor t + 1 - 1)%Z with (Zfloor t) by lia.
  rewrite <- !exp_two, plus_IZR.
  rewrite <- (exp_ln (Rabs x) Ha) at 1 2. rewrite <- Et. split.
  - destruct H1 as [H1|H1].
    + left. apply exp_increasing. nra.
    + right. now rewrite H1.
  - apply exp_increasing. nra.
Qed.

Lemma mag_unique (x : R) (k : Z) :
  powerRZ 2 (k - 1) <= Rabs x < powerRZ 2 k -> Double.mag x = k.
Proof.
  intros [H1 H2].
  assert (Hx : x <> 0).
  { intros ->. rewrite Rabs_R0 in H1. pose proof (two_pos (k - 1)). lra. }
  pose proof (mag_spec x Hx) as [H3 H4].
  assert ((k - 1 < Double.mag x)%Z) by (apply two_lt_inv; lra).
  assert ((Double.mag x - 1 < k)%Z) by (apply two_lt_inv; lra).
  lia.
Qed.

Lemma nearestEven_error (t : R) : Rabs (IZR (Double.nearestEven t) - t) <= 1 / 2.
Proof.
  unfold Double.nearestEven. pose proof (Zfloor_bound t) as [H1 H2].
  destruct (Rltb (t - IZR (Zfloor t)) (1 / 2)) eqn:E1.
  { apply Rltb_iff in E1. apply Rabs_le. lra. }
  destruct (Rltb (1 / 2) (t - IZR (Zfloor t))) eqn:E2.
  { apply Rltb_iff in E2. rewrite plus_IZR. apply Rabs_le. lra. }
  assert (t - IZR (Zfloor t) = 1 / 2).
  { destruct (Rtotal_order (t - IZR (Zfloor t)) (1 / 2)) as [H|[H|H]];
      [apply Rltb_iff in H; congruence|assumption|
       apply Rltb_iff in H; congruence]. }
  destruct (Z.even (Zfloor t)); [|rewrite plus_IZR]; apply Rabs_le; lra.
Qed.

Lemma nearestEven_close (t : R) (z : Z) :
  Rabs (t - IZR z) < 1 / 2 -> Double.nearestEven t = z.
Proof.
  intros H. apply Rabs_def2 in H as [H1 H2].
  unfold Double.nearestEven.
  destruct (Rle_lt_dec (IZR z) t) as [Hle|Hlt].
  - rewrite (Zfloor_eq z) by lra. now rewrite Rltb_true by lra.
  - rewrite (Zfloor_eq (z - 1)) by (rewrite minus_IZR; lra).
    rewrite minus_IZR. rewrite Rltb_false by lra. rewrite Rltb_true by lra.
    lia.
Qed.

Lemma nearestEven_IZR (z : Z) : Double.nearestEven (IZR z) = z.
Proof. apply nearestEven_close. rewrite Rminus_diag, Rabs_R0. lra. Qed.

Lemma nearestEven_nonneg (t : R) : 0 <= t -> (0 <= Double.nearestEven t)%Z.
Proof.
  intros H. unfold Double.nearestEven.
  assert ((0 <= Zfloor t)%Z) by (apply Zfloor_lub; simpl; lra).
  repeat destruct (Rltb _ _); try destruct (Z.even _); lia.
Qed.

Lemma nearestEven_nonpos (t : R) : t <= 0 -> (Double.nearestEven t <= 0)%Z.
Proof.
  intros H. pose proof (nearestEven_error t) as He.
  apply Rabs_le_inv in He.
  assert (Hlt : IZR (Double.nearestEven t) < 1) by lra.
  apply lt_IZR in Hlt. lia.
Qed.


Lemma rnd_0 : Double.rnd 0 = 0.
Proof.
  unfold Double.rnd. rewrite Rmult_0_l.
  change 0 with (IZR 0) at 1. rewrite nearestEven_IZR. simpl. lra.
Qed.

Lemma rnd_error (x : R) : Rabs (Double.rnd x - x) <= u * Rabs x + eta.
Proof.
  destruct (Req_dec_T x 0) as [->|Hx].
  { rewrite rnd_0, Rminus_diag, Rabs_R0. unfold u, eta.
    pose proof (two_pos (-53)). pose proof (two_pos (-1075)). lra. }
  unfold Double.rnd. set (e := Double.exponent x).
  pose proof (nearestEven_error (x * powerRZ 2 (- e))) as He.
  set (n := Double.nearestEven _) in *.
  pose proof (two_pos e) as Hpe. pose proof (two_opp e) as Hopp.
  assert (Hb : Rabs (IZR n * powerRZ 2 e - x) <= powerRZ 2 e / 2).
  { replace (IZR n * powerRZ 2 e - x)
      with ((IZR n - x * powerRZ 2 (- e)) * powerRZ 2 e) by nra.
    rewrite Rabs_mult, (Rabs_pos_eq (powerRZ 2 e)) by lra. nra. }
  eapply Rle_trans; [exact Hb|].
  pose proof (mag_spec x Hx) as [Hm _].
  pose proof (Rabs_pos x) as Hax.
  unfold e, Double.exponent.
  destruct (Z.max_spec (Double.mag x - 53) (-1074)) as [[_ ->]|[_ ->]].
  - replace (-1074)%Z with (-1075 + 1)%Z by lia. rewrite two_succ.
    unfold u, eta. pose proof (two_pos (-53)). nra.
  - replace (Double.mag x - 53)%Z with (-53 + (Double.mag x - 1) + 1)%Z by lia.
    rewrite two_succ, powerRZ_add by lra. fold u.
    pose proof (two_pos (-1075)). unfold eta.
    assert (0 < u) by apply two_pos. nra.
Qed.

Lemma rnd_nonneg (x : R) : 0 <= x -> 0 <= Double.rnd x.
Proof.
  intros H. unfold Double.rnd.
  pose proof (two_pos (Double.exponent x)).
  pose proof (two_pos (- Double.exponent x)).
  apply Rmult_le_pos; [|lra].
  apply IZR_le, nearestEven_nonneg. nra.
Qed.

Lemma rnd_nonpos (x : R) : x <= 0 -> Double.rnd x <= 0.
Proof.
  intros H. unfold Double.rnd.
  pose proof (two_pos (Double.exponent x)).
  pose proof (two_pos (- Double.exponent x)).
  assert (Hn : IZR (Double.nearestEven (x * powerRZ 2 (- Double.exponent x))) <= 0).
  { apply IZR_le, nearestEven_nonpos. nra. }
  nra.
Qed.

(** A number that has a significand of at most 53 bits at an exponent that
    is not below -1074 is left as it is. *)
Lemma rnd_exact (m e : Z) :
  (Z.abs m < 2 ^ 53)%Z -> (-1074 <= e)%Z ->
  Double.rnd (IZR m * powerRZ 2 e) = IZR m * powerRZ 2 e.
Proof.
  intros Hm He. set (x := IZR m * powerRZ 2 e).
  destruct (Z.eq_dec m 0%Z) as [->|Hm0].
  { unfold x. rewrite Rmult_0_l. apply rnd_0. }
  assert (Hx : x <> 0).
  { unfold x. pose proof (two_pos e). apply Rmult_integral_contrapositive.
    split; [|lra]. now apply not_0_IZR. }
  pose proof (mag_spec x Hx) as [Hlo _].
  assert (Hax : Rabs x < powerRZ 2 (53 + e)).
  { unfold x. rewrite Rabs_mult, Rabs_Zabs, (Rabs_pos_eq (powerRZ 2 e))
      by (left; apply two_pos).
    rewrite powerRZ_add by lra. apply Rmult_lt_compat_r; [apply two_pos|].
    rewrite two_IZR by lia. now apply IZR_lt. }
  assert (Hmag : (Double.mag x - 1 < 53 + e)%Z) by (apply two_lt_inv; lra).
  assert (Hex : (Double.exponent x <= e)%Z) by (unfold Double.exponent; lia).
  unfold Double.rnd. set (e' := Double.exponent x) in *.
  assert (E : x * powerRZ 2 (- e') = IZR (m * 2 ^ (e - e'))).
  { unfold x. rewrite mult_IZR, Rmult_assoc, <- powerRZ_add by lra.
    f_equal. replace (e + - e')%Z with (e - e')%Z by lia.
    apply two_IZR. lia. }
  rewrite E, nearestEven_IZR, <- E.
  rewrite Rmult_assoc, two_opp. lra.
Qed.

Lemma rnd_IZR (m : Z) : (Z.abs m < 2 ^ 53)%Z -> Double.rnd (IZR m) = IZR m.
Proof.
  intros H. pose proof (rnd_exact m 0 H ltac:(lia)) as E.
  simpl in E. now rewrite Rmult_1_r in E.
Qed.

(** The double nearest to a number that is not half-way between two. *)
Lemma rnd_eval (x : R) (m e : Z) :
  (-1074 <= e)%Z ->
  powerRZ 2 (52 + e) <= Rabs x < powerRZ 2 (53 + e) ->
  Rabs (x - IZR m * powerRZ 2 e) < powerRZ 2 e / 2 ->
  Double.rnd x = IZR m * powerRZ 2 e.
Proof.
  intros He Hx Hm.
  assert (Hmag : Double.mag x = (53 + e)%Z).
  { apply mag_unique. now replace (53 + e - 1)%Z with (52 + e)%Z by lia. }
  unfold Double.rnd, Double.exponent. rewrite Hmag.
  replace (Z.max (53 + e - 53) (-1074)) with e by lia.
  f_equal. f_equal. apply nearestEven_close.
  pose proof (two_pos e) as Hpe. pose proof (two_opp e) as Hopp.
  replace (x * powerRZ 2 (- e) - IZR m)
    with ((x - IZR m * powerRZ 2 e) * powerRZ 2 (- e)).
  2:{ rewrite Rmult_minus_distr_r, Rmult_assoc.
      rewrite (Rmult_comm (powerRZ 2 e)), Hopp. ring. }
  pose proof (two_pos (- e)) as Hne.
  rewrite Rabs_mult, (Rabs_pos_eq (powerRZ 2 (- e))) by lra.
  apply Rmult_lt_reg_r with (powerRZ 2 e); [assumption|].
  rewrite Rmult_assoc, Hopp. lra.
Qed.

(** ** The Euclidean norm *)


Lemma norm_nonneg (x y : R) : 0 <= norm x y.
Proof. apply sqrt_pos. Qed.

Lemma norm_sqr (x y : R) : norm x y * norm x y = x * x + y * y.
Proof. apply sqrt_sqrt. nra. Qed.

Lemma sqrt_le_sqr (a z : R) : 0 <= z -> a <= z * z -> sqrt a <= z.
Proof.
  intros Hz H. destruct (Rle_lt_dec a 0) as [Ha|Ha].
  - now rewrite sqrt_neg_0.
  - rewrite <- (sqrt_square z Hz). apply sqrt_le_1_alt. lra.
Qed.

Lemma sqr_le_sqrt (a z : R) : 0 <= z -> z * z <= a -> z <= sqrt a.
Proof.
  intros Hz H. rewrite <- (sqrt_square z Hz). now apply sqrt_le_1_alt.
Qed.

Lemma norm_ge_l (x y : R) : Rabs x <= norm x y.
Proof.
  apply sqr_le_sqrt; [apply Rabs_pos|].
  unfold Rabs. destruct (Rcase_abs x); nra.
Qed.

Lemma norm_ge_r (x y : R) : Rabs y <= norm x y.
Proof.
  apply sqr_le_sqrt; [apply Rabs_pos|].
  unfold Rabs. destruct (Rcase_abs y); nra.
Qed.

Lemma norm_le_sum (x y : R) : norm x y <= Rabs x + Rabs y.
Proof.
  pose proof (Rabs_pos x). pose proof (Rabs_pos y).
  apply sqrt_le_sqr; [lra|].
  unfold Rabs. destruct (Rcase_abs x), (Rcase_abs y); nra.
Qed.

Lemma norm_triangle (x y e f : R) :
  norm (x + e) (y + f) <= norm x y + norm e f.
Proof.
  pose proof (norm_nonneg x y) as HP. pose proof (norm_nonneg e f) as HQ.
  pose proof (norm_sqr x y) as EP. pose proof (norm_sqr e f) as EQ.
  set (P := norm x y) in *. set (Q := norm e f) in *.
  apply sqrt_le_sqr; [lra|].
  assert (Hcs : x * e + y * f <= P * Q).
  { destruct (Rle_lt_dec (x * e + y * f) 0) as [Hn|Hp]; [nra|].
    assert (Hsq : (x * e + y * f) * (x * e + y * f) <= (P * Q) * (P * Q)).
    { replace (P * Q * (P * Q)) with ((P * P) * (Q * Q)) by ring.
      rewrite EP, EQ.
      pose proof (Rle_0_sqr (x * f - y * e)) as H0. unfold Rsqr in H0. lra. }
    assert (HW : 0 <= P * Q) by nra.
    set (A := x * e + y * f) in *. set (W := P * Q) in *.
    destruct (Rle_lt_dec A W) as [|Hlt]; [assumption|]. nra. }
  nra.
Qed.

Lemma norm_near (x y a b : R) :
  Rabs (norm a b - norm x y) <= Rabs (a - x) + Rabs (b - y).
Proof.
  pose proof (norm_triangle x y (a - x) (b - y)) as H1.
  replace (x + (a - x)) with a in H1 by ring.
  replace (y + (b - y)) with b in H1 by ring.
  pose proof (norm_triangle a b (x - a) (y - b)) as H2.
  replace (a + (x - a)) with x in H2 by ring.
  replace (b + (y - b)) with y in H2 by ring.
  pose proof (norm_le_sum (a - x) (b - y)) as H3.
  pose proof (norm_le_sum (x - a) (y - b)) as H4.
  rewrite (Rabs_minus_sym x a), (Rabs_minus_sym y b) in H4.
  apply Rabs_le. lra.
Qed.

(** ** The error of a computed distance

    [a] and [b] stand for the rounded differences, [pa] and [pb] for the
    rounded squares, [S] for their rounded sum and [d] for its rounded
    square root; [u] bounds the relative and [eta] the absolute error of
    one rounding, and [4 * eta <= sigma ^ 2]. *)
Lemma distance_error (u eta sigma dx dy a b pa pb S d : R) :
  0 <= u <= 1 / 100 -> 0 <= eta <= sigma -> sigma <= 1 ->
  4 * eta <= sigma * sigma ->
  Rabs (a - dx) <= u * Rabs dx + eta ->
  Rabs (b - dy) <= u * Rabs dy + eta ->
  0 <= pa -> Rabs (pa - a * a) <= u * Rabs (a * a) + eta ->
  0 <= pb -> Rabs (pb - b * b) <= u * Rabs (b * b) + eta ->
  0 <= S -> Rabs (S - (pa + pb)) <= u * Rabs (pa + pb) + eta ->
  Rabs (d - sqrt S) <= u * Rabs (sqrt S) + eta ->
  Rabs (d - norm dx dy) <= 5 * u * norm dx dy + 8 * sigma.
Proof.
  intros Hu He Hs1 Hs Ha Hb Hpa0 Hpa Hpb0 Hpb HS0 HS Hd.
  set (D := norm dx dy). set (V := norm a b).
  pose proof (norm_nonneg dx dy) as HD. fold D in HD.
  pose proof (norm_nonneg a b) as HV. fold V in HV.
  pose proof (norm_sqr a b) as EV. fold V in EV.
  (* the norm of the rounded differences *)
  assert (HVD : Rabs (V - D) <= 2 * u * D + 2 * eta).
  { pose proof (norm_near dx dy a b) as H. fold V D in H.
    pose proof (norm_ge_l dx dy) as Hl. pose proof (norm_ge_r dx dy) as Hr.
    fold D in Hl, Hr. pose proof (Rabs_pos dx). pose proof (Rabs_pos dy).
    nra. }
  apply Rabs_le_inv in HVD.
  (* the rounded sum of the rounded squares *)
  rewrite (Rabs_pos_eq (a * a)) in Hpa by nra.
  rewrite (Rabs_pos_eq (b * b)) in Hpb by nra.
  rewrite (Rabs_pos_eq (pa + pb)) in HS by lra.
  apply Rabs_le_inv in Hpa, Hpb, HS.
  assert (Hq0 : 0 <= a * a + b * b) by nra.
  rewrite <- EV in Hq0.
  assert (Hsum : (1 - u) * (V * V) - 2 * eta <= pa + pb
                 <= (1 + u) * (V * V) + 2 * eta) by (rewrite EV; lra).
  set (Q := V * V) in *.
  assert (Hue : 0 <= u * eta <= eta / 100) by nra.
  assert (HSu : S <= (1 + u) * (1 + u) * Q + 4 * eta).
  { assert (0 <= (1 + u) * ((1 + u) * Q + 2 * eta - (pa + pb)))
      by (apply Rmult_le_pos; lra).
    lra. }
  assert (HSl : (1 - u) * (1 - u) * Q - 4 * eta <= S).
  { assert (0 <= (1 - u) * (pa + pb - ((1 - u) * Q - 2 * eta)))
      by (apply Rmult_le_pos; lra).
    lra. }
  unfold Q in *. clear Q.
  (* its square root *)
  pose proof (sqrt_pos S) as Hr0.
  assert (Hru : sqrt S <= (1 + u) * V + sigma).
  { set (W := (1 + u) * V).
    assert (HW : 0 <= W) by (apply Rmult_le_pos; lra).
    assert (HWs : 0 <= W * sigma) by (apply Rmult_le_pos; lra).
    apply sqrt_le_sqr; [lra|].
    replace ((W + sigma) * (W + sigma))
      with ((1 + u) * (1 + u) * (V * V) + 2 * (W * sigma) + sigma * sigma)
      by (unfold W; ring).
    lra. }
  assert (Hrl : (1 - u) * V - sigma <= sqrt S).
  { destruct (Rle_lt_dec ((1 - u) * V) sigma) as [Hsm|Hbig]; [lra|].
    set (W := (1 - u) * V) in *.
    assert (HWs : sigma * sigma <= W * sigma)
      by (apply Rmult_le_compat_r; lra).
    apply sqr_le_sqrt; [lra|].
    replace ((W - sigma) * (W - sigma))
      with ((1 - u) * (1 - u) * (V * V) - 2 * (W * sigma) + sigma * sigma)
      by (unfold W; ring).
    lra. }
  rewrite (Rabs_pos_eq (sqrt S)) in Hd by assumption.
  apply Rabs_le_inv in Hd.
  (* all together *)
  assert (HuD : 0 <= u * D) by (apply Rmult_le_pos; lra).
  assert (HuuD : 0 <= u * (u * D) <= u * D / 100) by nra.
  assert (HuuuD : 0 <= u * (u * (u * D)) <= u * D / 10000) by nra.
  assert (Hus : 0 <= u * sigma <= sigma / 100) by nra.
  assert (Huue : 0 <= u * (u * eta) <= eta / 10000) by nra.
  assert (Hup : (1 + u) * sqrt S <= (1 + u) * ((1 + u) * V + sigma))
    by (apply Rmult_le_compat_l; lra).
  assert (Hup2 : (1 + u) * (1 + u) * V
                 <= (1 + u) * (1 + u) * ((1 + 2 * u) * D + 2 * eta)).
  { apply Rmult_le_compat_l; [|lra]. apply Rmult_le_pos; lra. }
  assert (Hlo : (1 - u) * ((1 - u) * V - sigma) <= (1 - u) * sqrt S)
    by (apply Rmult_le_compat_l; lra).
  assert (Hlo2 : (1 - u) * (1 - u) * ((1 - 2 * u) * D - 2 * eta)
                 <= (1 - u) * (1 - u) * V).
  { apply Rmult_le_compat_l; [|lra]. apply Rmult_le_pos; lra. }
  apply Rabs_le. split; lra.
Qed.

(** ** How small the errors are *)

Lemma two_mul (a b : Z) : powerRZ 2 a * powerRZ 2 b = powerRZ 2 (a + b).
Proof. now rewrite powerRZ_add by lra. Qed.

Lemma two_inv (k : Z) (c : R) :
  (k <= 0)%Z -> IZR (2 ^ (- k)) = c -> powerRZ 2 k = / c.
Proof.
  intros Hk <-. rewrite <- two_IZR by lia.
  pose proof (two_pos (- k)). pose proof (two_opp (- k)) as H1.
  replace (- - k)%Z with k in H1 by lia.
  apply Rmult_eq_reg_r with (powerRZ 2 (- k)); [|lra].
  rewrite Rinv_l by lra. assumption.
Qed.

(** How small the three error terms are. *)
Lemma small_facts :
  0 < u /\ 1048576 * u <= 1 /\ 0 < eta /\ eta <= sigma /\
  1048576 * sigma <= u /\ 4 * eta <= sigma * sigma /\ 1048576 * eta <= u.
Proof.
  unfold u, eta, sigma.
  assert (E20 : powerRZ 2 20 = 1048576) by (rewrite two_IZR by lia; reflexivity).
  assert (E2 : powerRZ 2 2 = 4) by (rewrite two_IZR by lia; reflexivity).
  rewrite <- E20, <- E2, !two_mul.
  change 1 with (powerRZ 2 0).
  repeat split; try apply two_pos; apply two_le; lia.
Qed.

Lemma u_tiny : 1048576 * (1048576 * u) <= 1.
Proof.
  unfold u.
  replace 1048576 with (powerRZ 2 20) by (rewrite two_IZR by lia; reflexivity).
  rewrite !two_mul. change 1 with (powerRZ 2 0). apply two_le. lia.
Qed.

Lemma rnd_bounds (x : R) :
  x - (u * Rabs x + eta) <= Double.rnd x <= x + (u * Rabs x + eta).
Proof. pose proof (rnd_error x) as H. apply Rabs_le_inv in H. lra. Qed.

Lemma rnd_size (x : R) : Rabs (Double.rnd x) <= 2 * Rabs x + 1.
Proof.
  pose proof (rnd_bounds x) as H. pose proof (Rabs_pos x) as Hx.
  destruct small_facts as (Hu & Hu1 & He & Hes & Hs & _).
  assert (u * Rabs x <= Rabs x) by nra.
  assert (eta <= 1) by lra.
  apply Rabs_le. unfold Rabs in *. destruct (Rcase_abs x); lra.
Qed.

Lemma round_finite (x : R) :
  Rabs x <= powerRZ 2 1022 -> Double.round x = Fin (Double.rnd x).
Proof.
  intros H. unfold Double.round. rewrite Rltb_true; [reflexivity|].
  pose proof (rnd_size x) as Hs.
  replace 1024%Z with (1022 + 1 + 1)%Z by lia. rewrite !two_succ.
  assert (1 <= powerRZ 2 1022) by (apply two_ge_1; lia). lra.
Qed.

(** Up to [2 ^ 500] squares stay far from overflow. *)
Lemma round_small (B c x : R) :
  1 <= B <= powerRZ 2 500 -> c <= 1048576 -> Rabs x <= c * (B * B) ->
  Double.round x = Fin (Double.rnd x).
Proof.
  intros [HB1 HB2] Hc Hx. apply round_finite.
  assert (E : powerRZ 2 1022 = 4194304 * (powerRZ 2 500 * powerRZ 2 500)).
  { replace 4194304 with (powerRZ 2 22) by (rewrite two_IZR by lia; reflexivity).
    rewrite !two_mul. reflexivity. }
  rewrite E. set (P := powerRZ 2 500) in *.
  assert (B * B <= P * P) by nra.
  assert (0 <= B * B) by nra.
  nra.
Qed.

(** ** checkOverlap in double precision *)

Lemma Rabs_le_sum (x y b c : R) : Rabs x <= b -> Rabs y <= c -> Rabs (x + y) <= b + c.
Proof. intros. pose proof (Rabs_triang x y). lra. Qed.

Lemma Rabs_le_diff (x y b c : R) : Rabs x <= b -> Rabs y <= c -> Rabs (x - y) <= b + c.
Proof.
  intros. pose proof (Rabs_triang x (- y)) as H1. rewrite Rabs_Ropp in H1.
  unfold Rminus. lra.
Qed.

(** What [checkOverlap] computes in double precision, for finite numbers
    that are far from overflow, and how far it is from the exact margin. *)
Lemma checkOverlap_rounded (B x1 y1 r1 x2 y2 r2 : R) (s1 p1 s2 p2 : val) :
  1 <= B <= powerRZ 2 500 ->
  Rabs x1 <= B -> Rabs y1 <= B -> Rabs x2 <= B -> Rabs y2 <= B ->
  0 <= r1 <= B -> 0 <= r2 <= B ->
  exists t : R,
    Double.checkOverlap
      (Bubble (VNum (Fin x1)) (VNum (Fin y1)) (VNum (Fin r1)) s1 p1)
      (Bubble (VNum (Fin x2)) (VNum (Fin y2)) (VNum (Fin r2)) s2 p2)
    = Rltb (Double.rnd t) (- Double.rnd 0.001) /\
    Rabs (t - (norm (x1 - x2) (y1 - y2) - (r1 + r2))) <= 23 * u * B.
Proof.
  intros HB Hx1 Hy1 Hx2 Hy2 Hr1 Hr2.
  destruct small_facts as (Hu & Hu1 & He & Hes & Hs & Hss & Heu).
  assert (HBB : B <= B * B) by nra.
  set (dx := x1 - x2). set (dy := y1 - y2).
  assert (Hdx : Rabs dx <= 2 * B) by (unfold dx; pose proof (Rabs_le_diff x1 x2 B B); lra).
  assert (Hdy : Rabs dy <= 2 * B) by (unfold dy; pose proof (Rabs_le_diff y1 y2 B B); lra).
  set (a := Double.rnd dx). set (b := Double.rnd dy).
  assert (Ha : Rabs a <= 5 * B) by (pose proof (rnd_size dx); unfold a; lra).
  assert (Hb : Rabs b <= 5 * B) by (pose proof (rnd_size dy); unfold b; lra).
  assert (Haa : Rabs (a * a) <= 25 * (B * B)).
  { rewrite Rabs_mult. pose proof (Rabs_pos a). nra. }
  assert (Hbb : Rabs (b * b) <= 25 * (B * B)).
  { rewrite Rabs_mult. pose proof (Rabs_pos b). nra. }
  set (pa := Double.rnd (a * a)). set (pb := Double.rnd (b * b)).
  assert (Hpa : Rabs pa <= 51 * (B * B)) by (pose proof (rnd_size (a * a)); unfold pa; nra).
  assert (Hpb : Rabs pb <= 51 * (B * B)) by (pose proof (rnd_size (b * b)); unfold pb; nra).
  assert (Hpa0 : 0 <= pa) by (apply rnd_nonneg; nra).
  assert (Hpb0 : 0 <= pb) by (apply rnd_nonneg; nra).
  assert (Hsum : Rabs (pa + pb) <= 102 * (B * B))
    by (pose proof (Rabs_le_sum pa pb _ _ Hpa Hpb); lra).
  set (S := Double.rnd (pa + pb)).
  assert (HS : Rabs S <= 205 * (B * B)) by (pose proof (rnd_size (pa + pb)); unfold S; nra).
  assert (HS0 : 0 <= S) by (apply rnd_nonneg; lra).
  assert (Hroot : Rabs (sqrt S) <= 15 * B).
  { rewrite Rabs_pos_eq by apply sqrt_pos. apply sqrt_le_sqr; [lra|].
    rewrite Rabs_pos_eq in HS by assumption. nra. }
  set (d := Double.rnd (sqrt S)).
  assert (Hd : Rabs d <= 31 * B) by (pose proof (rnd_size (sqrt S)); unfold d; lra).
  set (s := r1 + r2).
  assert (Hs0 : 0 <= s <= 2 * B) by (unfold s; lra).
  set (sh := Double.rnd s).
  assert (Hsh0 : 0 <= sh) by (apply rnd_nonneg; lra).
  assert (Hsh : Rabs sh <= 5 * B).
  { pose proof (rnd_size s). rewrite (Rabs_pos_eq s) in * by lra. unfold sh. lra. }
  exists (d - sh). split.
  - unfold Double.checkOverlap.
    cbn [slot0 slot1 slot2 toNumber].
    unfold Double.sub, Double.add, Double.mul, Double.sqrt, Double.thousandth.
    cbn [Num.sub Num.add Double.lift]. fold dx dy s.
    rewrite (round_small B 2 dx), (round_small B 2 dy), (round_small B 2 s)
      by (try rewrite (Rabs_pos_eq s) by lra; lra).
    fold a b sh. cbn [Num.mul Double.lift].
    rewrite (round_small B 25 (a * a)), (round_small B 25 (b * b)) by lra.
    fold pa pb. cbn [Num.add Double.lift].
    rewrite (round_small B 102 (pa + pb)) by lra. fold S.
    rewrite sqrt_Fin by assumption. cbn [Double.lift].
    rewrite (round_small B 15 (sqrt S)) by lra. fold d.
    cbn [Num.abs Num.sub Double.lift]. rewrite (Rabs_pos_eq sh) by assumption.
    rewrite (round_small B 36 (d - sh))
      by (try (pose proof (Rabs_le_diff d sh _ _ Hd Hsh)); lra).
    rewrite round_finite.
    + reflexivity.
    + rewrite Rabs_pos_eq by lra.
      assert (1 <= powerRZ 2 1022) by (apply two_ge_1; lia). lra.
  - pose proof (distance_error u eta sigma dx dy a b pa pb S d) as Hdist.
    assert (HD : Rabs (d - norm dx dy) <= 5 * u * norm dx dy + 8 * sigma).
    { apply Hdist; try lra; try assumption;
        try (apply rnd_error). }
    pose proof (rnd_error s) as Hse. fold sh in Hse.
    rewrite (Rabs_pos_eq s) in Hse by lra.
    pose proof (norm_le_sum dx dy) as Hn. pose proof (norm_nonneg dx dy) as Hn0.
    replace (d - sh - (norm dx dy - s)) with ((d - norm dx dy) - (sh - s)) by ring.
    pose proof (Rabs_le_diff _ _ _ _ HD Hse) as Hall.
    eapply Rle_trans; [exact Hall|].
    assert (u * norm dx dy <= u * (4 * B)) by (apply Rmult_le_compat_l; lra).
    assert (u * s <= u * (2 * B)) by (apply Rmult_le_compat_l; lra).
    assert (u <= u * B) by nra.
    lra.
Qed.

(** The two sides of the band around [-0.001] within which rounding
    decides what [checkOverlap] returns. *)
Lemma checkOverlap_band (B x1 y1 r1 x2 y2 r2 : R) (s1 p1 s2 p2 : val) :
  1 <= B <= powerRZ 2 500 ->
  Rabs x1 <= B -> Rabs y1 <= B -> Rabs x2 <= B -> Rabs y2 <= B ->
  0 <= r1 <= B -> 0 <= r2 <= B ->
  let c1 := Bubble (VNum (Fin x1)) (VNum (Fin y1)) (VNum (Fin r1)) s1 p1 in
  let c2 := Bubble (VNum (Fin x2)) (VNum (Fin y2)) (VNum (Fin r2)) s2 p2 in
  let margin := sqrt ((x1 - x2) ^ 2 + (y1 - y2) ^ 2) - (r1 + r2) in
  let tau := powerRZ 2 (-48) * B in
  (margin < - 0.001 - tau -> Double.checkOverlap c1 c2 = true) /\
  (- 0.001 + tau < margin -> Double.checkOverlap c1 c2 = false).
Proof.
  intros HB Hx1 Hy1 Hx2 Hy2 Hr1 Hr2 c1 c2 margin tau.
  destruct (checkOverlap_rounded B x1 y1 r1 x2 y2 r2 s1 p1 s2 p2
              HB Hx1 Hy1 Hx2 Hy2 Hr1 Hr2) as (t & E & Ht).
  fold c1 c2 in E. rewrite E. clear E.
  replace (norm (x1 - x2) (y1 - y2) - (r1 + r2)) with margin in Ht
    by (unfold margin, norm; do 2 f_equal; ring).
  apply Rabs_le_inv in Ht.
  destruct small_facts as (Hu & Hu1 & He & Hes & Hs & Hss & Heu).
  assert (Etau : tau = 32 * u * B).
  { unfold tau, u.
    replace 32 with (powerRZ 2 5) by (rewrite two_IZR by lia; reflexivity).
    rewrite two_mul. reflexivity. }
  assert (HuB : u <= u * B) by nra.
  pose proof (rnd_bounds t) as HT. pose proof (rnd_bounds 0.001) as Hc.
  rewrite (Rabs_pos_eq 0.001) in Hc by lra.
  assert (Huu : 0 <= u * u <= u / 1048576) by nra.
  assert (Htrue : margin < - 0.001 - tau ->
                  Rltb (Double.rnd t) (- Double.rnd 0.001) = true).
  { intros Hm. apply Rltb_true.
    assert (Hlt : t < - 0.001 - 9 * u) by lra.
    rewrite Rabs_left in HT by lra.
    assert (t * (1 - u) < (- 0.001 - 9 * u) * (1 - u))
      by (apply Rmult_lt_compat_r; lra).
    lra. }
  assert (Hfalse : - 0.001 + tau < margin ->
                   Rltb (Double.rnd t) (- Double.rnd 0.001) = false).
  { intros Hm. apply Rltb_false.
    assert (Hgt : - 0.001 + 9 * u < t) by lra.
    destruct (Rle_lt_dec 0 t) as [Hpos|Hneg].
    - pose proof (rnd_nonneg t Hpos). lra.
    - rewrite Rabs_left in HT by lra.
      assert ((- 0.001 + 9 * u) * (1 + u) < t * (1 + u))
        by (apply Rmult_lt_compat_r; lra).
      lra. }
  split; [exact Htrue|exact Hfalse].
Qed.

(** C7. For circles whose centre coordinates are at most [B] in size and
    whose radii lie in [[0, B]], with [1 <= B <= 2 ^ 500], [checkOverlap]
    as computed in double precision is true when the distance between the
    centres minus the sum of the radii, taken over the reals, is below
    [-0.001 - tau] and false when it is above [-0.001 + tau], where
    [tau = 2 ^ -48 * B]; in the band between the two, rounding decides.
    Two circles whose centre distance equals the sum of their radii are
    reported as not overlapping when [B <= 2 ^ 38]. *)
Theorem checkOverlap_tolerance (B x1 y1 r1 x2 y2 r2 : R) (s1 p1 s2 p2 : val) :
  1 <= B <= powerRZ 2 500 ->
  Rabs x1 <= B -> Rabs y1 <= B -> Rabs x2 <= B -> Rabs y2 <= B ->
  0 <= r1 <= B -> 0 <= r2 <= B ->
  let c1 := Bubble (VNum (Fin x1)) (VNum (Fin y1)) (VNum (Fin r1)) s1 p1 in
  let c2 := Bubble (VNum (Fin x2)) (VNum (Fin y2)) (VNum (Fin r2)) s2 p2 in
  let margin := sqrt ((x1 - x2) ^ 2 + (y1 - y2) ^ 2) - (r1 + r2) in
  let tau := powerRZ 2 (-48) * B in
  (margin < - 0.001 - tau -> Double.checkOverlap c1 c2 = true) /\
  (- 0.001 + tau < margin -> Double.checkOverlap c1 c2 = false) /\
  (B <= powerRZ 2 38 ->
   sqrt ((x1 - x2) ^ 2 + (y1 - y2) ^ 2) = r1 + r2 ->
   Double.checkOverlap c1 c2 = false).
Proof.
  intros HB Hx1 Hy1 Hx2 Hy2 Hr1 Hr2 c1 c2 margin tau.
  destruct (checkOverlap_band B x1 y1 r1 x2 y2 r2 s1 p1 s2 p2
              HB Hx1 Hy1 Hx2 Hy2 Hr1 Hr2) as [Htrue Hfalse].
  fold c1 c2 margin tau in Htrue, Hfalse.
  split; [exact Htrue|]. split; [exact Hfalse|].
  intros HB38 Htan. apply Hfalse.
  assert (tau <= powerRZ 2 (-10)).
  { unfold tau. replace (-10)%Z with (-48 + 38)%Z by lia.
    rewrite <- two_mul. apply Rmult_le_compat_l; [left; apply two_pos|lra]. }
  assert (1024 * powerRZ 2 (-10) = 1).
  { replace 1024 with (powerRZ 2 10) by (rewrite two_IZR by lia; reflexivity).
    rewrite two_mul. reflexivity. }
  unfold margin. rewrite Htan. lra.
Qed.

(** X30. Outside the band, rounding is immaterial: for circles whose
    centre coordinates are at most [B] in size and whose radii lie in
    [[0, B]], with [1 <= B <= 2 ^ 500], and whose exact margin is below
    [-0.001 - tau] or above [-0.001 + tau], where [tau = 2 ^ -48 * B],
    [checkOverlap] in double precision returns what [checkOverlap]
    without rounding returns. *)
Theorem checkOverlap_rounding_immaterial (B x1 y1 r1 x2 y2 r2 : R)
    (s1 p1 s2 p2 : val) :
  1 <= B <= powerRZ 2 500 ->
  Rabs x1 <= B -> Rabs y1 <= B -> Rabs x2 <= B -> Rabs y2 <= B ->
  0 <= r1 <= B -> 0 <= r2 <= B ->
  let c1 := Bubble (VNum (Fin x1)) (VNum (Fin y1)) (VNum (Fin r1)) s1 p1 in
  let c2 := Bubble (VNum (Fin x2)) (VNum (Fin y2)) (VNum (Fin r2)) s2 p2 in
  let margin := sqrt ((x1 - x2) ^ 2 + (y1 - y2) ^ 2) - (r1 + r2) in
  let tau := powerRZ 2 (-48) * B in
  margin < - 0.001 - tau \/ - 0.001 + tau < margin ->
  Double.checkOverlap c1 c2 = checkOverlap c1 c2.
Proof.
  intros HB Hx1 Hy1 Hx2 Hy2 Hr1 Hr2 c1 c2 margin tau Hout.
  destruct (checkOverlap_band B x1 y1 r1 x2 y2 r2 s1 p1 s2 p2
              HB Hx1 Hy1 Hx2 Hy2 Hr1 Hr2) as [Htrue Hfalse].
  fold c1 c2 margin tau in Htrue, Hfalse.
  assert (Htau : 0 <= tau).
  { unfold tau. pose proof (two_pos (-48)). nra. }
  assert (E : checkOverlap c1 c2 = Rltb margin (- 0.001)).
  { unfold checkOverlap, c1, c2.
    cbn [Num.sub Num.add Num.mul Num.neg Num.abs Num.ltb toNumber
         slot0 slot1 slot2].
    rewrite sqrt_Fin by apply sum_sqr_nonneg. cbn [Num.sub Num.ltb].
    rewrite Rabs_pos_eq by lra. unfold margin.
    replace ((x1 - x2) ^ 2 + (y1 - y2) ^ 2)
      with ((x1 - x2) * (x1 - x2) + (y1 - y2) * (y1 - y2)) by ring.
    reflexivity. }
  rewrite E. destruct Hout as [H|H].
  - rewrite (Htrue H). symmetry. apply Rltb_true. lra.
  - rewrite (Hfalse H). symmetry. apply Rltb_false. lra.
Qed.

(** ** Evaluating roundings *)

Lemma round_Z (n : Z) :
  (Z.abs n < 2 ^ 53)%Z -> Double.round (IZR n) = Fin (IZR n).
Proof.
  intros H. rewrite round_finite; [now rewrite rnd_IZR|].
  rewrite Rabs_Zabs. apply Rle_trans with (powerRZ 2 53).
  - rewrite two_IZR by lia. apply IZR_le. lia.
  - apply two_le. lia.
Qed.

(** The double nearest to a large integer. *)
Lemma round_eval_Z (n m e : Z) :
  (0 <= e <= 900)%Z ->
  (2 ^ (52 + e) <= Z.abs n < 2 ^ (53 + e))%Z ->
  (2 * Z.abs (n - m * 2 ^ e) < 2 ^ e)%Z ->
  Double.round (IZR n) = Fin (IZR (m * 2 ^ e)).
Proof.
  intros He [Hlo Hhi] Hm.
  rewrite round_finite.
  - f_equal. rewrite mult_IZR, <- two_IZR by lia.
    apply rnd_eval; [lia| |].
    + rewrite Rabs_Zabs, !two_IZR by lia. split; [apply IZR_le|apply IZR_lt]; lia.
    + rewrite two_IZR by lia. rewrite <- mult_IZR, <- minus_IZR, Rabs_Zabs.
      apply IZR_lt in Hm. rewrite mult_IZR in Hm. lra.
  - rewrite Rabs_Zabs. apply Rle_trans with (powerRZ 2 (53 + e)).
    + rewrite two_IZR by lia. apply IZR_le. lia.
    + apply two_le. lia.
Qed.

Lemma nearestEven_tie (z : Z) :
  Z.even z = true -> Double.nearestEven (IZR z + 1 / 2) = z.
Proof.
  intros H. unfold Double.nearestEven.
  rewrite (Zfloor_eq z) by lra.
  rewrite !Rltb_false by lra. now rewrite H.
Qed.

(** The double nearest to a large integer half-way between two doubles. *)
Lemma round_tie_Z (n m e : Z) :
  (0 <= e <= 900)%Z ->
  (2 ^ (52 + e) <= Z.abs n < 2 ^ (53 + e))%Z ->
  (2 * (n - m * 2 ^ e) = 2 ^ e)%Z -> Z.even m = true ->
  Double.round (IZR n) = Fin (IZR (m * 2 ^ e)).
Proof.
  intros He [Hlo Hhi] Hm Hev.
  assert (Hmag : Double.mag (IZR n) = (53 + e)%Z).
  { apply mag_unique. replace (53 + e - 1)%Z with (52 + e)%Z by lia.
    rewrite Rabs_Zabs, !two_IZR by lia.
    split; [apply IZR_le|apply IZR_lt]; lia. }
  rewrite round_finite.
  - f_equal. unfold Double.rnd, Double.exponent. rewrite Hmag.
    replace (Z.max (53 + e - 53) (-1074)) with e by lia.
    rewrite mult_IZR, <- two_IZR by lia. f_equal.
    replace (IZR n * powerRZ 2 (- e)) with (IZR m + 1 / 2).
    { now rewrite nearestEven_tie. }
    pose proof (two_pos e) as Hpe. pose proof (two_opp e) as Hopp.
    apply Rmult_eq_reg_r with (powerRZ 2 e); [|lra].
    rewrite Rmult_assoc, Hopp.
    apply (f_equal IZR) in Hm.
    rewrite mult_IZR, minus_IZR, mult_IZR, <- !two_IZR in Hm by lia. lra.
  - rewrite Rabs_Zabs. apply Rle_trans with (powerRZ 2 (53 + e)).
    + rewrite two_IZR by lia. apply IZR_le. lia.
    + apply two_le. lia.
Qed.

(** ** Rounding a multiple of a power of two *)

Lemma dyadic_size (n k d : Z) (lo hi : Z) :
  (0 <= d)%Z -> (lo <= Z.abs n < hi)%Z ->
  IZR lo * powerRZ 2 k <= Rabs (IZR n * powerRZ 2 k) < IZR hi * powerRZ 2 k.
Proof.
  intros Hd [H1 H2]. pose proof (two_pos k) as Hk.
  rewrite Rabs_mult, Rabs_Zabs, (Rabs_pos_eq (powerRZ 2 k)) by lra.
  apply IZR_le in H1. apply IZR_lt in H2. split; nra.
Qed.

Lemma dyadic_fits (x : R) (n k e : Z) :
  x = IZR n * powerRZ 2 k -> (k <= e <= 900)%Z ->
  (Z.abs n < 2 ^ (53 + (e - k)))%Z ->
  Rabs x <= powerRZ 2 1022.
Proof.
  intros -> He Hn. pose proof (two_pos k) as Hk.
  rewrite Rabs_mult, Rabs_Zabs, (Rabs_pos_eq (powerRZ 2 k)) by lra.
  apply IZR_lt in Hn. rewrite <- two_IZR in Hn by lia.
  apply Rle_trans with (powerRZ 2 (53 + (e - k)) * powerRZ 2 k); [nra|].
  rewrite two_mul. apply two_le. lia.
Qed.

Lemma dyadic_mag (x : R) (n k e : Z) :
  x = IZR n * powerRZ 2 k -> (k <= e)%Z ->
  (2 ^ (52 + (e - k)) <= Z.abs n < 2 ^ (53 + (e - k)))%Z ->
  powerRZ 2 (52 + e) <= Rabs x < powerRZ 2 (53 + e).
Proof.
  intros -> He Hn.
  pose proof (dyadic_size n k (e - k) _ _ ltac:(lia) Hn) as H.
  rewrite <- !two_IZR, !two_mul in H by lia.
  replace (52 + (e - k) + k)%Z with (52 + e)%Z in H by lia.
  replace (53 + (e - k) + k)%Z with (53 + e)%Z in H by lia.
  exact H.
Qed.

Lemma round_dyadic_near (x : R) (n k m e : Z) :
  x = IZR n * powerRZ 2 k -> (-1074 <= e <= 900)%Z -> (k <= e)%Z ->
  (2 ^ (52 + (e - k)) <= Z.abs n < 2 ^ (53 + (e - k)))%Z ->
  (2 * Z.abs (n - m * 2 ^ (e - k)) < 2 ^ (e - k))%Z ->
  Double.round x = Fin (IZR m * powerRZ 2 e).
Proof.
  intros Ex He Hk Hn Hm.
  rewrite round_finite by (apply (dyadic_fits x n k e); (assumption || lia)).
  f_equal. apply rnd_eval; [lia|now apply (dyadic_mag x n k e)|].
  subst x. pose proof (two_pos k) as Hpk.
  replace (powerRZ 2 e) with (powerRZ 2 (e - k) * powerRZ 2 k)
    by (rewrite two_mul; f_equal; lia).
  rewrite (two_IZR (e - k)) by lia.
  replace (IZR n * powerRZ 2 k - IZR m * (IZR (2 ^ (e - k)) * powerRZ 2 k))
    with (IZR (n - m * 2 ^ (e - k)) * powerRZ 2 k)
    by (rewrite minus_IZR, mult_IZR; ring).
  rewrite Rabs_mult, Rabs_Zabs, (Rabs_pos_eq (powerRZ 2 k)) by lra.
  apply IZR_lt in Hm. rewrite mult_IZR in Hm. nra.
Qed.

Lemma round_dyadic_tie (x : R) (n k m e : Z) :
  x = IZR n * powerRZ 2 k -> (-1074 <= e <= 900)%Z -> (k <= e)%Z ->
  (2 ^ (52 + (e - k)) <= Z.abs n < 2 ^ (53 + (e - k)))%Z ->
  (2 * (n - m * 2 ^ (e - k)) = 2 ^ (e - k))%Z -> Z.even m = true ->
  Double.round x = Fin (IZR m * powerRZ 2 e).
Proof.
  intros Ex He Hk Hn Hm Hev.
  rewrite round_finite by (apply (dyadic_fits x n k e); (assumption || lia)).
  f_equal.
  assert (Hmag : Double.mag x = (53 + e)%Z).
  { apply mag_unique. replace (53 + e - 1)%Z with (52 + e)%Z by lia.
    now apply (dyadic_mag x n k e). }
  unfold Double.rnd, Double.exponent. rewrite Hmag.
  replace (Z.max (53 + e - 53) (-1074)) with e by lia.
  f_equal. f_equal.
  replace (x * powerRZ 2 (- e)) with (IZR m + 1 / 2).
  { now apply nearestEven_tie. }
  subst x. pose proof (two_pos e) as Hpe. pose proof (two_opp e) as Hopp.
  apply Rmult_eq_reg_r with (powerRZ 2 e); [|lra].
  rewrite !Rmult_assoc, Hopp.
  replace (powerRZ 2 e) with (powerRZ 2 (e - k) * powerRZ 2 k)
    by (rewrite two_mul; f_equal; lia).
  apply (f_equal IZR) in Hm.
  rewrite mult_IZR, minus_IZR, mult_IZR, <- !two_IZR in Hm by lia.
  pose proof (two_pos k). nra.
Qed.

Lemma round_dyadic_exact (x : R) (n k : Z) :
  x = IZR n * powerRZ 2 k -> (-1074 <= k <= 900)%Z ->
  (Z.abs n < 2 ^ 53)%Z -> Double.round x = Fin x.
Proof.
  intros Ex Hk Hn.
  rewrite round_finite.
  - f_equal. rewrite Ex. apply rnd_exact; lia.
  - apply (dyadic_fits x n k k); try (assumption || lia).
    now replace (53 + (k - k))%Z with 53%Z by lia.
Qed.

Lemma double_0_001_above : 0.001 < double_0_001 < 0.001 + 1 / 10 ^ 19.
Proof.
  unfold double_0_001.
  rewrite (two_inv (-62) 4611686018427387904) by (lia || reflexivity).
  lra.
Qed.

Lemma thousandth_double : Double.thousandth = Fin double_0_001.
Proof.
  unfold Double.thousandth.
  assert (E : powerRZ 2 (-62) = / 4611686018427387904)
    by (apply two_inv; lia || reflexivity).
  rewrite round_finite.
  2:{ rewrite Rabs_pos_eq by lra.
      assert (1 <= powerRZ 2 1022) by (apply two_ge_1; lia). lra. }
  f_equal. apply rnd_eval; [lia| |].
  - rewrite Rabs_pos_eq by lra.
    replace (52 + -62)%Z with (-10)%Z by lia.
    replace (53 + -62)%Z with (-9)%Z by lia.
    rewrite (two_inv (-10) 1024), (two_inv (-9) 512) by (lia || reflexivity).
    lra.
  - rewrite E. apply Rabs_def1; lra.
Qed.

(** Where [checkOverlap] and the comparison of the exact margin with
    [-0.001] part.  Two circles that touch, with centres about [1.3e13]
    apart: the rounded square root falls [2 ^ -9] short of the sum of the
    radii, and they are reported as overlapping.  A circle of radius
    [double_0_001] around a point: the constant [0.001] of the program is
    the double nearest to it, which is above it, so that the margin
    [- double_0_001] is below [-0.001] and is not reported. *)
Lemma checkOverlap_rounding_decides :
  (let c1 := Bubble (VNum (Fin 0)) (VNum (Fin 0))
                    (VNum (Fin 6456665444530)) VNull VNull in
   let c2 := Bubble (VNum (Fin 12049165431261)) (VNum (Fin 4644537335460))
                    (VNum (Fin 6456665444531)) VNull VNull in
   sqrt ((0 - 12049165431261) ^ 2 + (0 - 4644537335460) ^ 2)
   = 6456665444530 + 6456665444531 /\
   Double.checkOverlap c1 c2 = true) /\
  (let c1 := Bubble (VNum (Fin 0)) (VNum (Fin 0)) (VNum (Fin double_0_001))
                    VNull VNull in
   let c2 := Bubble (VNum (Fin 0)) (VNum (Fin 0)) (VNum (Fin 0))
                    VNull VNull in
   sqrt ((0 - 0) ^ 2 + (0 - 0) ^ 2) - (double_0_001 + 0) < - 0.001 /\
   Double.checkOverlap c1 c2 = false).
Proof.
  split; cycle 1.
  { cbv zeta.
    pose proof double_0_001_above as Hd.
    split.
    { replace ((0 - 0) ^ 2 + (0 - 0) ^ 2) with 0 by ring. rewrite sqrt_0. lra. }
    unfold Double.checkOverlap.
    cbn [slot0 slot1 slot2 toNumber].
    rewrite thousandth_double.
    unfold Double.sub, Double.add, Double.mul, Double.sqrt.
    cbn [Num.sub Num.add Double.lift].
    replace (0 - 0) with (IZR 0) by lra.
    rewrite !round_Z by lia.
    cbn [Num.mul Double.lift]. rewrite <- mult_IZR. rewrite round_Z by (cbn; lia).
    cbn [Num.add Double.lift]. rewrite <- plus_IZR. rewrite round_Z by (cbn; lia).
    change (0 * 0 + 0 * 0)%Z with 0%Z.
    rewrite sqrt_Fin by lra. rewrite sqrt_0. cbn [Double.lift].
    rewrite (round_Z 0) by lia.
    rewrite (round_dyadic_exact (double_0_001 + 0) 4611686018427388 (-62))
      by (unfold double_0_001; lia || lra).
    cbn [Num.abs Num.sub Double.lift].
    rewrite Rabs_pos_eq by lra.
    rewrite (round_dyadic_exact _ (-4611686018427388) (-62))
      by (unfold double_0_001; lia || lra).
    cbn [Num.neg Num.ltb]. apply Rltb_false. lra. }
  cbv zeta. split.
  { apply sqrt_lem_1; lra. }
  unfold Double.checkOverlap.
  cbn [slot0 slot1 slot2 toNumber].
  unfold Double.sub, Double.add, Double.mul, Double.sqrt, Double.thousandth.
  cbn [Num.sub Num.add Double.lift].
  replace (0 - 12049165431261) with (IZR (-12049165431261)) by lra.
  replace (0 - 4644537335460) with (IZR (-4644537335460)) by lra.
  replace (6456665444530 + 6456665444531) with (IZR 12913330889061) by lra.
  rewrite !round_Z by lia.
  cbn [Num.mul Num.abs Double.lift]. rewrite <- !mult_IZR.
  rewrite (round_eval_Z _ 8450727187440211 34) by lia.
  rewrite (round_eval_Z _ 5022559096217592 32) by lia.
  cbn [Num.add Double.lift]. rewrite <- plus_IZR.
  rewrite (round_tie_Z _ 4853183480747304 35) by (lia || reflexivity).
  set (S := (4853183480747304 * 2 ^ 35)%Z).
  assert (HS : IZR S = 166754114650376930561359872) by reflexivity.
  rewrite sqrt_Fin by (rewrite HS; lra). cbn [Double.lift].
  assert (Hroot : 6611625415199231 - 1 / 2 < sqrt (IZR S) * 512
                  < 6611625415199231 + 1 / 2).
  { assert (H : (6611625415199231 - 1 / 2) / 512 < sqrt (IZR S)
                < (6611625415199231 + 1 / 2) / 512).
    { apply sqrt_between; rewrite ?HS; lra. }
    lra. }
  assert (E9 : powerRZ 2 (-9) = / 512).
  { apply Rmult_eq_reg_l with 512; [|lra].
    replace 512 with (powerRZ 2 9) at 1 by (rewrite two_IZR by lia; reflexivity).
    rewrite two_mul. simpl. lra. }
  assert (Ed : Double.round (sqrt (IZR S))
               = Fin (IZR 6611625415199231 * powerRZ 2 (-9))).
  { rewrite round_finite.
    - f_equal. apply rnd_eval; [lia| |].
      + rewrite Rabs_pos_eq by apply sqrt_pos.
        replace (52 + -9)%Z with 43%Z by lia.
        replace (53 + -9)%Z with 44%Z by lia.
        rewrite !two_IZR by lia.
        assert (IZR (2 ^ 43) = 8796093022208) by reflexivity.
        assert (IZR (2 ^ 44) = 17592186044416) by reflexivity.
        lra.
      + rewrite E9. apply Rabs_def1; lra.
    - rewrite Rabs_pos_eq by apply sqrt_pos.
      assert (1 <= powerRZ 2 1022) by (apply two_ge_1; lia).
      apply Rle_trans with (powerRZ 2 44); [|apply two_le; lia].
      rewrite two_IZR by lia.
      assert (IZR (2 ^ 44) = 17592186044416) by reflexivity. lra. }
  rewrite Ed. rewrite Rabs_pos_eq by lra.
  cbn [Num.sub Double.lift].
  replace (IZR 6611625415199231 * powerRZ 2 (-9) - 12913330889061)
    with (IZR (-1) * powerRZ 2 (-9)) by (rewrite E9; lra).
  assert (Hbig : 1 <= powerRZ 2 1022) by (apply two_ge_1; lia).
  rewrite round_finite by (rewrite E9; apply Rabs_le; lra).
  rewrite rnd_exact by lia.
  rewrite round_finite.
  2:{ rewrite Rabs_pos_eq by lra.
      assert (1 <= powerRZ 2 1022) by (apply two_ge_1; lia). lra. }
  cbn [Num.neg Num.ltb]. apply Rltb_true.
  pose proof (rnd_bounds 0.001) as Hc. rewrite (Rabs_pos_eq 0.001) in Hc by lra.
  destruct small_facts as (Hu & Hu1 & He & Hes & Hs & Hss & Heu).
  rewrite E9. lra.
Qed.

(** ** positionBubble in double precision *)

Lemma add_NaN_l (b : num) : Double.add NaN b = NaN.
Proof. reflexivity. Qed.

Lemma add_NaN_r (a : num) : Double.add a NaN = NaN.
Proof. now destruct a. Qed.

Lemma sub_NaN_r (a : num) : Double.sub a NaN = NaN.
Proof. now destruct a. Qed.

Lemma mul_NaN_l (b : num) : Double.mul NaN b = NaN.
Proof. reflexivity. Qed.

Lemma mul_NaN_r (a : num) : Double.mul a NaN = NaN.
Proof. now destruct a. Qed.

(** A sum, difference or product of numbers of moderate size is finite. *)
Lemma round_moderate (x c : R) :
  Rabs x <= c -> c <= 1048576 ->
  Double.round x = Fin (Double.rnd x) /\ Rabs (Double.rnd x) <= c + 1.
Proof.
  intros Hx Hc. pose proof (Rabs_pos x) as H0.
  destruct small_facts as (Hu & Hu1 & He & Hes & Hs & Hss & Heu).
  split.
  - assert (H1 : 1 <= 1 <= powerRZ 2 500).
    { split; [lra|]. apply two_ge_1. lia. }
    apply (round_small 1 1048576 x H1); lra.
  - pose proof (rnd_error x) as H. pose proof u_tiny as Ht.
    assert (Hux : u * Rabs x <= u * 1048576) by (apply Rmult_le_compat_l; lra).
    replace (Double.rnd x) with (x + (Double.rnd x - x)) by ring.
    pose proof (Rabs_triang x (Double.rnd x - x)). lra.
Qed.

Lemma acos_cases (m : Double.mathLibrary) (a : num) :
  Double.conforming m ->
  Double.Math_acos m a = NaN \/
  exists y : R, Double.Math_acos m a = Fin y /\ Rabs y <= 5.
Proof.
  intros C. destruct a as [| | |x]; try (left; apply C; discriminate).
  destruct (Rlt_dec x (-1)) as [H1|H1].
  { left. apply C. intros x' [= <-]. now left. }
  destruct (Rlt_dec 1 x) as [H2|H2].
  { left. apply C. intros x' [= <-]. now right. }
  right. apply C. lra.
Qed.

Lemma asin_cases (m : Double.mathLibrary) (a : num) :
  Double.conforming m ->
  Double.Math_asin m a = NaN \/
  exists y : R, Double.Math_asin m a = Fin y /\ Rabs y <= 3.
Proof.
  intros C. destruct a as [| | |x]; try (left; apply C; discriminate).
  destruct (Rlt_dec x (-1)) as [H1|H1].
  { left. apply C. intros x' [= <-]. now left. }
  destruct (Rlt_dec 1 x) as [H2|H2].
  { left. apply C. intros x' [= <-]. now right. }
  right. apply C. lra.
Qed.

Lemma PI_double : exists p : R, Double.PI = Fin p /\ Rabs p <= 5.
Proof.
  pose proof PI_4. pose proof PI_RGT_0.
  destruct (round_moderate PI 4) as [E Hb];
    [rewrite Rabs_pos_eq by lra; lra|lra|].
  exists (Double.rnd PI). split; [exact E|lra].
Qed.

Section Angle.

Variable m : Double.mathLibrary.
Variables lastBubble newOrigin nextBubble : bubble.
Hypothesis C : Double.conforming m.

Let alfa := Double.Math_acos m (Double.cosAlfa lastBubble newOrigin nextBubble).
Let beta := Double.Math_asin m (Double.sinBeta lastBubble newOrigin).

(** The angle is NaN as soon as one of the two angles it is the sum of
    is. *)
Lemma finalAngle_NaN :
  alfa = NaN \/ beta = NaN ->
  Double.finalAngle m lastBubble newOrigin nextBubble = NaN.
Proof.
  unfold Double.finalAngle. fold alfa beta. intros [-> | ->].
  - now rewrite add_NaN_r, add_NaN_l.
  - now rewrite mul_NaN_l, add_NaN_r.
Qed.

Lemma finalAngle_Fin (a b : R) :
  alfa = Fin a -> Rabs a <= 5 -> beta = Fin b -> Rabs b <= 3 ->
  exists t : R,
    Double.finalAngle m lastBubble newOrigin nextBubble = Fin t /\
    Rabs t <= 16.
Proof.
  intros Ea Ha Eb Hb. unfold Double.finalAngle. fold alfa beta.
  rewrite Ea, Eb.
  destruct PI_double as (p & Ep & Hp).
  assert (Hg : exists g : R,
             (if Num.ltb
                   (Double.sub (toNumber (slot1 lastBubble))
                               (toNumber (slot1 newOrigin))) (Fin 0)
              then Fin 0 else Double.PI) = Fin g /\ Rabs g <= 5).
  { destruct (Num.ltb _ _).
    - exists 0. rewrite Rabs_R0. split; [reflexivity|lra].
    - now exists p. }
  destruct Hg as (g & -> & Hg).
  assert (Hd : exists d : R,
             (if Num.ltb
                   (Double.mul
                      (Double.sub (toNumber (slot0 lastBubble))
                                  (toNumber (slot0 newOrigin)))
                      (Double.sub (toNumber (slot1 lastBubble))
                                  (toNumber (slot1 newOrigin)))) (Fin 0)
              then Fin 1 else Fin (- 1)) = Fin d /\ Rabs d = 1).
  { destruct (Num.ltb _ _).
    - exists 1. now rewrite Rabs_R1.
    - exists (- 1). split; [reflexivity|].
      unfold Rabs. destruct (Rcase_abs (- 1)); lra. }
  destruct Hd as (d & -> & Hd).
  unfold Double.add, Double.mul. cbn [Num.add Num.mul Double.lift].
  destruct (round_moderate (g + a) 10) as [E1 H1];
    [pose proof (Rabs_triang g a); lra|lra|].
  destruct (round_moderate (b * d) 3) as [E2 H2];
    [rewrite Rabs_mult, Hd; lra|lra|].
  rewrite E1, E2. cbn [Num.add Double.lift].
  destruct (round_moderate (Double.rnd (g + a) + Double.rnd (b * d)) 15)
    as [E3 H3]; [eapply Rle_trans; [apply Rabs_triang|]; lra|lra|].
  rewrite E3. eexists. split; [reflexivity|lra].
Qed.

Lemma finalAngle_cases :
  Double.finalAngle m lastBubble newOrigin nextBubble = NaN \/
  exists t : R,
    Double.finalAngle m lastBubble newOrigin nextBubble = Fin t /\
    Rabs t <= 16.
Proof.
  destruct (acos_cases m (Double.cosAlfa lastBubble newOrigin nextBubble) C)
    as [Ha|(a & Ea & Ha)].
  { left. apply finalAngle_NaN. now left. }
  destruct (asin_cases m (Double.sinBeta lastBubble newOrigin) C)
    as [Hb|(b & Eb & Hb)].
  { left. apply finalAngle_NaN. now right. }
  right. now apply (finalAngle_Fin a b).
Qed.

Lemma positionBubble_NaN :
  Double.finalAngle m lastBubble newOrigin nextBubble = NaN ->
  nowhere (Double.positionBubble m lastBubble newOrigin nextBubble).
Proof.
  intros E. unfold nowhere, Double.positionBubble. cbn [slot0 slot1].
  rewrite E, (Double.cos_NaN m C), (Double.sin_NaN m C).
  now rewrite !mul_NaN_r, add_NaN_r, sub_NaN_r.
Qed.

End Angle.

(** The error of one coordinate: [Rh] is the rounded sum of the radii, [v]
    the sine or cosine as the library returns it, [A] their rounded
    product. *)
Lemma product_error (B R Rh w v A : R) :
  1 <= B -> 0 <= R <= 2 * B ->
  Rabs (Rh - R) <= u * Rabs R + eta ->
  Rabs w <= 1 -> Rabs (v - w) <= 2 * u ->
  Rabs (A - Rh * v) <= u * Rabs (Rh * v) + eta ->
  Rabs (Rh * v) <= 3 * B /\ Rabs A <= 3 * B /\
  Rabs (A - R * w) <= 11 * u * B + 3 * eta.
Proof.
  intros HB HR HRh Hw Hv HA.
  destruct small_facts as (Hu & Hu1 & He & Hes & Hs & Hss & Heu).
  rewrite (Rabs_pos_eq R) in HRh by lra.
  assert (HuR : u * R <= 2 * (u * B)) by nra.
  assert (HuB : 0 <= u * B) by nra.
  assert (HuB1 : 1048576 * (u * B) <= B) by nra.
  assert (Hv2 : Rabs v <= 2).
  { replace v with (w + (v - w)) by ring.
    eapply Rle_trans; [apply Rabs_triang|]. lra. }
  assert (H1 : Rabs (Rh * v - R * w) <= 8 * (u * B) + 2 * eta).
  { replace (Rh * v - R * w) with ((Rh - R) * v + R * (v - w)) by ring.
    eapply Rle_trans; [apply Rabs_triang|].
    rewrite !Rabs_mult, (Rabs_pos_eq R) by lra.
    pose proof (Rabs_pos (Rh - R)). pose proof (Rabs_pos v).
    pose proof (Rabs_pos (v - w)).
    assert (Rabs (Rh - R) * Rabs v <= (u * R + eta) * 2) by nra.
    assert (R * Rabs (v - w) <= R * (2 * u)) by nra.
    nra. }
  assert (H2 : Rabs (R * w) <= 2 * B).
  { rewrite Rabs_mult, (Rabs_pos_eq R) by lra. pose proof (Rabs_pos w). nra. }
  assert (H3 : Rabs (Rh * v) <= 3 * B).
  { replace (Rh * v) with (R * w + (Rh * v - R * w)) by ring.
    eapply Rle_trans; [apply Rabs_triang|]. lra. }
  assert (H4 : Rabs (A - Rh * v) <= 3 * (u * B) + eta).
  { assert (u * Rabs (Rh * v) <= u * (3 * B))
      by (apply Rmult_le_compat_l; lra).
    lra. }
  assert (H5 : Rabs (A - R * w) <= 11 * u * B + 3 * eta).
  { replace (A - R * w) with ((A - Rh * v) + (Rh * v - R * w)) by ring.
    eapply Rle_trans; [apply Rabs_triang|]. lra. }
  split; [exact H3|]. split; [|exact H5].
  replace A with (R * w + (A - R * w)) by ring.
  eapply Rle_trans; [apply Rabs_triang|]. lra.
Qed.

Lemma norm_circle (R t : R) : 0 <= R -> norm (R * sin t) (- (R * cos t)) = R.
Proof.
  intros HR. unfold norm. apply sqrt_lem_1; [|assumption|].
  - nra.
  - pose proof (sin2_cos2 t) as H. unfold Rsqr in H.
    replace (R * sin t * (R * sin t) + - (R * cos t) * - (R * cos t))
      with (R * R * (sin t * sin t + cos t * cos t)) by ring.
    rewrite H. ring.
Qed.

Section Near.

Variable m : Double.mathLibrary.
Variables lastBubble newOrigin nextBubble : bubble.
Hypothesis C : Double.conforming m.
Variables B ox oy ro rn t : R.
Hypothesis HB : 1 <= B <= powerRZ 2 500.
Hypothesis Hox : toNumber (slot0 newOrigin) = Fin ox.
Hypothesis Hoy : toNumber (slot1 newOrigin) = Fin oy.
Hypothesis Hro : toNumber (slot2 newOrigin) = Fin ro.
Hypothesis Hrn : toNumber (slot2 nextBubble) = Fin rn.
Hypothesis Bx : Rabs ox <= B.
Hypothesis By : Rabs oy <= B.
Hypothesis Bo : Rabs ro <= B.
Hypothesis Bn : Rabs rn <= B.
Hypothesis Hsum : 0 <= ro + rn.
Hypothesis Hangle :
  Double.finalAngle m lastBubble newOrigin nextBubble = Fin t.
Hypothesis Ht : Rabs t <= 16.

Lemma positionBubble_near :
  tangentWithin (powerRZ 2 (-48) * B) newOrigin nextBubble
    (Double.positionBubble m lastBubble newOrigin nextBubble).
Proof.
  destruct small_facts as (Hu & Hu1 & He & Hes & Hs & Hss & Heu).
  destruct HB as [HB1 HB2].
  assert (HBB : B <= B * B) by nra.
  assert (HuB : 0 <= u * B) by nra.
  assert (HuB1 : 1048576 * (u * B) <= B) by nra.
  destruct (Double.sin_near m C t Ht) as (sv & Es & Hs').
  destruct (Double.cos_near m C t Ht) as (cv & Ec & Hc').
  assert (E52 : powerRZ 2 (-52) = 2 * u).
  { unfold u. replace (-52)%Z with (-53 + 1)%Z by lia. apply two_succ. }
  rewrite E52 in Hs', Hc'.
  set (R := ro + rn) in *.
  assert (HR : 0 <= R <= 2 * B).
  { split; [assumption|]. unfold R.
    apply Rabs_le_inv in Bo, Bn. lra. }
  set (Rh := Double.rnd R).
  pose proof (rnd_error R) as HRh. fold Rh in HRh.
  set (A := Double.rnd (Rh * sv)). set (A' := Double.rnd (Rh * cv)).
  pose proof (SIN_bound t) as Hsb. pose proof (COS_bound t) as Hcb.
  destruct (product_error B R Rh (sin t) sv A) as (HA1 & HA2 & HA3);
    [lra|lra|assumption|apply Rabs_le; lra|assumption|apply rnd_error|].
  destruct (product_error B R Rh (cos t) cv A') as (HA1' & HA2' & HA3');
    [lra|lra|assumption|apply Rabs_le; lra|assumption|apply rnd_error|].
  set (px := Double.rnd (ox + A)). set (py := Double.rnd (oy - A')).
  assert (Hsx : Rabs (ox + A) <= 4 * B)
    by (eapply Rle_trans; [apply Rabs_triang|]; lra).
  assert (Hsy : Rabs (oy - A') <= 4 * B)
    by (pose proof (Rabs_le_diff oy A' _ _ By HA2'); lra).
  assert (Hub : u <= u * B) by nra.
  assert (Epos : Double.positionBubble m lastBubble newOrigin nextBubble
                 = Bubble (VNum (Fin px)) (VNum (Fin py)) (slot2 nextBubble)
                          (slot3 nextBubble) (slot4 nextBubble)).
  { unfold Double.positionBubble. rewrite Hangle, Es, Ec, Hox, Hoy, Hro, Hrn.
    unfold Double.add, Double.sub, Double.mul.
    cbn [Num.add Double.lift]. fold R.
    rewrite (round_small B 2 R)
      by (try split; try rewrite (Rabs_pos_eq R); lra).
    fold Rh. cbn [Num.mul Double.lift].
    rewrite (round_small B 3 (Rh * sv)), (round_small B 3 (Rh * cv))
      by (try split; lra).
    fold A A'. cbn [Num.add Num.sub Double.lift].
    rewrite (round_small B 4 (ox + A)), (round_small B 4 (oy - A'))
      by (try split; lra).
    reflexivity. }
  rewrite Epos. unfold tangentWithin.
  exists px, py, ox, oy, ro, rn. cbn [slot0 slot1].
  repeat (split; [first [reflexivity|assumption]|]).
  fold R.
  replace ((px - ox) ^ 2 + (py - oy) ^ 2)
    with ((px - ox) * (px - ox) + (py - oy) * (py - oy)) by ring.
  change (sqrt ((px - ox) * (px - ox) + (py - oy) * (py - oy)))
    with (norm (px - ox) (py - oy)).
  replace (norm (px - ox) (py - oy) - R)
    with (norm (px - ox) (py - oy) - norm (R * sin t) (- (R * cos t)))
    by (rewrite (norm_circle R t) by lra; reflexivity).
  eapply Rle_trans; [apply norm_near|].
  pose proof (rnd_error (ox + A)) as Hpx. fold px in Hpx.
  pose proof (rnd_error (oy - A')) as Hpy. fold py in Hpy.
  assert (H1 : Rabs (px - ox - R * sin t) <= 16 * (u * B)).
  { replace (px - ox - R * sin t)
      with ((px - (ox + A)) + (A - R * sin t)) by ring.
    eapply Rle_trans; [apply Rabs_triang|].
    assert (u * Rabs (ox + A) <= u * (4 * B))
      by (apply Rmult_le_compat_l; lra).
    lra. }
  assert (H2 : Rabs (py - oy - - (R * cos t)) <= 16 * (u * B)).
  { replace (py - oy - - (R * cos t))
      with ((py - (oy - A')) - (A' - R * cos t)) by ring.
    assert (u * Rabs (oy - A') <= u * (4 * B))
      by (apply Rmult_le_compat_l; lra).
    pose proof (Rabs_le_diff _ _ _ _ Hpy HA3'). lra. }
  replace (powerRZ 2 (-48) * B) with (32 * (u * B)); [lra|].
  unfold u.
  replace 32 with (powerRZ 2 5) by (rewrite two_IZR by lia; reflexivity).
  rewrite <- Rmult_assoc, two_mul. reflexivity.
Qed.

End Near.

Lemma in_unit_outside (x : R) : x < -1 \/ 1 < x -> Num.in_unit x = false.
Proof.
  intros [H|H]; unfold Num.in_unit.
  - now rewrite Rltb_true.
  - rewrite (Rltb_true 1 x) by assumption. apply andb_false_r.
Qed.

Lemma correctlyRounded_conforming : Double.conforming Double.correctlyRounded.
Proof.
  destruct small_facts as (Hu & Hu1 & He & Hes & Hs & Hss & Heu).
  pose proof PI_4 as Hpi. pose proof PI_RGT_0 as Hpi0.
  assert (E52 : powerRZ 2 (-52) = 2 * u).
  { unfold u. replace (-52)%Z with (-53 + 1)%Z by lia. apply two_succ. }
  constructor; cbn [Double.correctlyRounded Double.Math_acos Double.Math_asin
                    Double.Math_cos Double.Math_sin].
  - intros [| | |x] H; try reflexivity.
    cbn [Num.acos]. now rewrite in_unit_outside by (now apply H).
  - intros x Hx. cbn [Num.acos]. rewrite in_unit_true by assumption.
    cbn [Double.lift].
    pose proof (acos_bound x) as Hb.
    destruct (round_moderate (acos x) 4) as [E Hr];
      [apply Rabs_le; lra|lra|].
    rewrite E. eexists. split; [reflexivity|lra].
  - intros [| | |x] H; try reflexivity.
    cbn [Num.asin]. now rewrite in_unit_outside by (now apply H).
  - intros x Hx. cbn [Num.asin]. rewrite in_unit_true by assumption.
    cbn [Double.lift].
    pose proof (asin_bound x) as Hb.
    destruct (round_moderate (asin x) 2) as [E Hr];
      [apply Rabs_le; lra|lra|].
    rewrite E. eexists. split; [reflexivity|lra].
  - reflexivity.
  - reflexivity.
  - intros x _. cbn [Num.cos Double.lift].
    pose proof (COS_bound x) as Hb.
    destruct (round_moderate (cos x) 1) as [E _]; [apply Rabs_le; lra|lra|].
    rewrite E. eexists. split; [reflexivity|].
    pose proof (rnd_error (cos x)) as Hr.
    assert (Rabs (cos x) <= 1) by (apply Rabs_le; lra).
    assert (u * Rabs (cos x) <= u) by nra.
    lra.
  - intros x _. cbn [Num.sin Double.lift].
    pose proof (SIN_bound x) as Hb.
    destruct (round_moderate (sin x) 1) as [E _]; [apply Rabs_le; lra|lra|].
    rewrite E. eexists. split; [reflexivity|].
    pose proof (rnd_error (sin x)) as Hr.
    assert (Rabs (sin x) <= 1) by (apply Rabs_le; lra).
    assert (u * Rabs (sin x) <= u) by nra.
    lra.
Qed.

(** A wider tolerance is met as well. *)
Lemma tangentWithin_mono (tol tol' : R) (origin next result : bubble) :
  tol <= tol' -> tangentWithin tol origin next result ->
  tangentWithin tol' origin next result.
Proof.
  intros H (x & y & ox & oy & ro & rn & H1 & H2 & H3 & H4 & H5 & H6 & H7).
  exists x, y, ox, oy, ro, rn. repeat (split; [assumption|]). lra.
Qed.

(** Up to [2 ^ 28] the tolerance [2 ^ -48 * B] is below a millionth. *)
Lemma millionth_above (B : R) :
  0 <= B <= powerRZ 2 28 -> powerRZ 2 (-48) * B <= 1 / 1000000.
Proof.
  intros [H0 H1]. pose proof (two_pos (-48)).
  apply Rle_trans with (powerRZ 2 (-48) * powerRZ 2 28); [nra|].
  rewrite two_mul. replace (-48 + 28)%Z with (-20)%Z by lia.
  rewrite (two_inv (-20) 1048576) by (lia || reflexivity). lra.
Qed.


Lemma round_int (x : R) (n : Z) :
  x = IZR n -> (Z.abs n < 2 ^ 53)%Z -> Double.round x = Fin x.
Proof. intros -> H. now apply round_Z. Qed.

(** The quotient handed to [Math.acos] for the last bubble at (0, -100),
    the new origin at (0, 0) and three radii 1: every operation is exact,
    and the quotient is 25. *)
Lemma quotient_25 :
  Double.cosAlfa
    (Bubble (VNum (Fin 0)) (VNum (Fin (-100))) (VNum (Fin 1)) VNull VNull)
    (Bubble (VNum (Fin 0)) (VNum (Fin 0)) (VNum (Fin 1)) VNull VNull)
    (Bubble VNull VNull (VNum (Fin 1)) VNull VNull)
  = Fin 25.
Proof.
  unfold Double.cosAlfa, Double.distance, Double.pow2.
  cbn [slot0 slot1 slot2 toNumber].
  unfold Double.sub, Double.add, Double.mul, Double.div, Double.sqrt.
  cbn [Num.sub Num.add Double.lift].
  rewrite (round_int (0 - 0) 0), (round_int (-100 - 0) (-100)),
    (round_int (1 + 1) 2) by (lra || lia).
  cbn [Num.mul Double.lift].
  rewrite (round_int ((0 - 0) * (0 - 0)) 0),
    (round_int ((-100 - 0) * (-100 - 0)) 10000),
    (round_int ((1 + 1) * (1 + 1)) 4),
    (round_int (2 * (1 + 1)) 4) by (lra || lia).
  cbn [Num.add Double.lift].
  rewrite (round_int ((0 - 0) * (0 - 0) + (-100 - 0) * (-100 - 0)) 10000)
    by (lra || lia).
  assert (D : sqrt ((0 - 0) * (0 - 0) + (-100 - 0) * (-100 - 0)) = 100)
    by (apply sqrt_lem_1; lra).
  rewrite sqrt_Fin by lra. rewrite D. cbn [Double.lift].
  rewrite (round_int 100 100) by (lra || lia).
  cbn [Num.mul Double.lift].
  rewrite (round_int (100 * 100) 10000),
    (round_int (2 * (1 + 1) * 100) 400) by (lra || lia).
  cbn [Num.add Double.lift].
  rewrite (round_int (100 * 100 + (1 + 1) * (1 + 1)) 10004) by (lra || lia).
  cbn [Num.sub Double.lift].
  rewrite (round_int (100 * 100 + (1 + 1) * (1 + 1) - (1 + 1) * (1 + 1)) 10000)
    by (lra || lia).
  rewrite div_Fin by lra. cbn [Double.lift].
  rewrite (round_int _ 25) by (lra || lia).
  f_equal. lra.
Qed.

Lemma double_43_6_near : Rabs (double_43_6 - 43.6) < 1 / 10 ^ 14.
Proof.
  unfold double_43_6. rewrite (two_inv (-47) 140737488355328) by (lia || reflexivity).
  apply Rabs_def1; lra.
Qed.

Lemma double_19_7_near : Rabs (double_19_7 - 19.7) < 1 / 10 ^ 14.
Proof.
  unfold double_19_7. rewrite (two_inv (-48) 281474976710656) by (lia || reflexivity).
  apply Rabs_def1; lra.
Qed.

Section Degenerate.

Let lastBubble : bubble :=
  Bubble (VNum (Fin 0)) (VNum (Fin (-89))) (VNum (Fin double_43_6)) VNull VNull.
Let newOrigin : bubble :=
  Bubble (VNum (Fin 0)) (VNum (Fin 0)) (VNum (Fin 6)) VNull VNull.
Let nextBubble : bubble :=
  Bubble VNull VNull (VNum (Fin double_19_7)) VNull VNull.

Let s1 : R := IZR 7233906901463859 * powerRZ 2 (-48).
Let s2 : R := IZR 8908683012892262 * powerRZ 2 (-47).
Let p1 : R := IZR 5809731480238162 * powerRZ 2 (-43).
Let p2 : R := IZR 8811244292438752 * powerRZ 2 (-41).
Let a1 : R := IZR 4717724019321733 * powerRZ 2 (-39).
Let a2 : R := IZR 5029825892424090 * powerRZ 2 (-40).
Let m1 : R := IZR 7233906901463859 * powerRZ 2 (-47).
Let den : R := IZR 5029825892424089 * powerRZ 2 (-40).

Lemma degenerate_distance :
  Double.distance lastBubble newOrigin = Fin 89.
Proof.
  unfold Double.distance, Double.pow2, lastBubble, newOrigin.
  cbn [slot0 slot1 slot2 toNumber].
  unfold Double.sub, Double.add, Double.mul, Double.sqrt.
  cbn [Num.sub Double.lift].
  rewrite (round_int (0 - 0) 0), (round_int (-89 - 0) (-89)) by (lra || lia).
  cbn [Num.mul Double.lift].
  rewrite (round_int ((0 - 0) * (0 - 0)) 0),
    (round_int ((-89 - 0) * (-89 - 0)) 7921) by (lra || lia).
  cbn [Num.add Double.lift].
  rewrite (round_int ((0 - 0) * (0 - 0) + (-89 - 0) * (-89 - 0)) 7921)
    by (lra || lia).
  assert (D : sqrt ((0 - 0) * (0 - 0) + (-89 - 0) * (-89 - 0)) = 89)
    by (apply sqrt_lem_1; lra).
  rewrite sqrt_Fin by lra. rewrite D. cbn [Double.lift].
  now rewrite (round_int 89 89) by (lra || lia).
Qed.

Lemma degenerate_s1 : Double.add (Fin double_19_7) (Fin 6) = Fin s1.
Proof.
  unfold Double.add. cbn [Num.add Double.lift].
  rewrite (round_dyadic_exact _ 7233906901463859 (-48)); try lia.
  - f_equal. unfold double_19_7, s1.
    rewrite (two_inv (-48) 281474976710656) by (lia || reflexivity). lra.
  - unfold double_19_7.
    rewrite (two_inv (-48) 281474976710656) by (lia || reflexivity). lra.
Qed.

Lemma degenerate_s2 : Double.add (Fin double_19_7) (Fin double_43_6) = Fin s2.
Proof.
  unfold Double.add. cbn [Num.add Double.lift].
  apply (round_dyadic_tie _ 17817366025784525 (-48)); try lia; try reflexivity.
  unfold double_19_7, double_43_6.
  rewrite (two_inv (-48) 281474976710656), (two_inv (-47) 140737488355328)
    by (lia || reflexivity).
  lra.
Qed.

Lemma degenerate_p1 : Double.mul (Fin s1) (Fin s1) = Fin p1.
Proof.
  unfold Double.mul. cbn [Num.mul Double.lift].
  apply (round_dyadic_near _ 52329409059046449443597083171881 (-96));
    try lia.
  unfold s1. replace (-96)%Z with (-48 + -48)%Z by lia.
  rewrite <- two_mul.
  replace 52329409059046449443597083171881
    with (IZR 7233906901463859 * IZR 7233906901463859)
    by (rewrite <- mult_IZR; reflexivity).
  ring.
Qed.

Lemma degenerate_p2 : Double.mul (Fin s2) (Fin s2) = Fin p2.
Proof.
  unfold Double.mul. cbn [Num.mul Double.lift].
  apply (round_dyadic_near _ 79364633024195150788102419476644 (-94));
    try lia.
  unfold s2. replace (-94)%Z with (-47 + -47)%Z by lia.
  rewrite <- two_mul.
  replace 79364633024195150788102419476644
    with (IZR 8908683012892262 * IZR 8908683012892262)
    by (rewrite <- mult_IZR; reflexivity).
  ring.
Qed.

Lemma degenerate_a1 : Double.add (Fin 7921) (Fin p1) = Fin a1.
Proof.
  unfold Double.add. cbn [Num.add Double.lift].
  apply (round_dyadic_near _ 75483584309147730 (-43)); try lia.
  unfold p1. rewrite (two_inv (-43) 8796093022208) by (lia || reflexivity). lra.
Qed.

Lemma degenerate_a2 : Double.sub (Fin a1) (Fin p2) = Fin a2.
Proof.
  unfold Double.sub. cbn [Num.sub Double.lift].
  apply (round_dyadic_near _ 10059651784848180 (-41)); try lia.
  unfold a1, p2.
  rewrite (two_inv (-39) 549755813888), (two_inv (-41) 2199023255552)
    by (lia || reflexivity).
  lra.
Qed.

Lemma degenerate_m1 : Double.mul (Fin 2) (Fin s1) = Fin m1.
Proof.
  unfold Double.mul. cbn [Num.mul Double.lift].
  apply (round_dyadic_near _ 14467813802927718 (-48)); try lia.
  unfold s1. lra.
Qed.

Lemma degenerate_den : Double.mul (Fin m1) (Fin 89) = Fin den.
Proof.
  unfold Double.mul. cbn [Num.mul Double.lift].
  apply (round_dyadic_near _ 643817714230283451 (-47)); try lia.
  unfold m1. lra.
Qed.

Lemma degenerate_q :
  Double.div (Fin a2) (Fin den) = Fin (1 + powerRZ 2 (-52)).
Proof.
  assert (E40 : powerRZ 2 (-40) = / 1099511627776)
    by (apply (two_inv (-40)); (lia || reflexivity)).
  assert (E52 : powerRZ 2 (-52) = / 4503599627370496)
    by (apply (two_inv (-52)); (lia || reflexivity)).
  assert (Hden : den <> 0) by (unfold den; rewrite E40; lra).
  unfold Double.div. rewrite div_Fin by assumption. cbn [Double.lift].
  set (y := / 5029825892424089).
  assert (Hy : y * 5029825892424089 = 1) by (apply Rinv_l; lra).
  assert (Eq : a2 / den = 1 + y).
  { unfold a2, den, y. rewrite E40. field. }
  rewrite Eq.
  assert (Hb : 1 / 9007199254740992 < y < 3 / 9007199254740992) by lra.
  rewrite round_finite.
  - f_equal.
    replace (1 + powerRZ 2 (-52)) with (IZR 4503599627370497 * powerRZ 2 (-52))
      by (rewrite E52; lra).
    apply rnd_eval; [lia| |].
    + rewrite Rabs_pos_eq by lra.
      change (powerRZ 2 (52 + -52)) with 1.
      change (powerRZ 2 (53 + -52)) with (2 * 1). lra.
    + rewrite E52. apply Rabs_def1; lra.
  - rewrite Rabs_pos_eq by lra.
    assert (1 <= powerRZ 2 1021) by (apply two_ge_1; lia).
    replace 1022%Z with (1021 + 1)%Z by lia. rewrite two_succ. lra.
Qed.

Lemma degenerate_quotient :
  Double.cosAlfa lastBubble newOrigin nextBubble = Fin (1 + powerRZ 2 (-52)).
Proof.
  unfold Double.cosAlfa. rewrite degenerate_distance.
  unfold lastBubble, newOrigin, nextBubble, Double.pow2.
  cbn [slot0 slot1 slot2 toNumber].
  rewrite degenerate_s1, degenerate_s2, degenerate_p1, degenerate_p2.
  replace (Double.mul (Fin 89) (Fin 89)) with (Fin 7921).
  2:{ unfold Double.mul. cbn [Num.mul Double.lift].
      rewrite (round_int (89 * 89) 7921) by (lra || lia). f_equal. lra. }
  rewrite degenerate_a1, degenerate_a2, degenerate_m1, degenerate_den.
  apply degenerate_q.
Qed.

Lemma degenerate_exact :
  cosAlfa 0 (-89) double_43_6 0 0 6 double_19_7 = 1.
Proof.
  unfold cosAlfa.
  assert (D : distanceR 0 (-89) 0 0 = 89).
  { unfold distanceR. apply sqrt_lem_1; lra. }
  rewrite D. unfold double_43_6, double_19_7.
  rewrite (two_inv (-48) 281474976710656), (two_inv (-47) 140737488355328)
    by (lia || reflexivity).
  field.
Qed.

Lemma degenerate_nowhere (m : Double.mathLibrary) :
  Double.conforming m ->
  nowhere (Double.positionBubble m lastBubble newOrigin nextBubble).
Proof.
  intros C. apply positionBubble_NaN; [assumption|].
  apply finalAngle_NaN. left. apply C.
  rewrite degenerate_quotient. intros q [= <-]. right.
  pose proof (two_pos (-52)). lra.
Qed.

End Degenerate.

(** A number of at most 60 in size added to [2 ^ 60] is lost. *)
Lemma absorbed (A : R) :
  Rabs A <= 60 -> Double.round (IZR (2 ^ 60) + A) = Fin (IZR (2 ^ 60)).
Proof.
  intros HA. apply Rabs_le_inv in HA.
  assert (E : IZR (2 ^ 60) = 1152921504606846976) by reflexivity.
  rewrite round_finite.
  2:{ rewrite Rabs_pos_eq by lra.
      apply Rle_trans with (powerRZ 2 61); [|apply two_le; lia].
      rewrite two_IZR by lia.
      assert (IZR (2 ^ 61) = 2305843009213693952) by reflexivity. lra. }
  f_equal. destruct (Rle_lt_dec 0 A) as [Hp|Hn].
  - replace (IZR (2 ^ 60)) with (IZR (2 ^ 52) * powerRZ 2 8) at 2
      by (rewrite two_IZR, <- mult_IZR by lia; reflexivity).
    apply rnd_eval; [lia| |].
    + rewrite Rabs_pos_eq by lra. rewrite !two_IZR by lia.
      assert (IZR (2 ^ (52 + 8)) = 1152921504606846976) by reflexivity.
      assert (IZR (2 ^ (53 + 8)) = 2305843009213693952) by reflexivity.
      lra.
    + rewrite two_IZR, <- mult_IZR by lia.
      replace (IZR (2 ^ 52 * 2 ^ 8)) with (IZR (2 ^ 60)) by reflexivity.
      assert (IZR (2 ^ 8) = 256) by reflexivity.
      apply Rabs_def1; lra.
  - replace (IZR (2 ^ 60)) with (IZR (2 ^ 53) * powerRZ 2 7) at 2
      by (rewrite two_IZR, <- mult_IZR by lia; reflexivity).
    apply rnd_eval; [lia| |].
    + rewrite Rabs_pos_eq by lra. rewrite !two_IZR by lia.
      assert (IZR (2 ^ (52 + 7)) = 576460752303423488) by reflexivity.
      assert (IZR (2 ^ (53 + 7)) = 1152921504606846976) by reflexivity.
      lra.
    + rewrite two_IZR, <- mult_IZR by lia.
      replace (IZR (2 ^ 53 * 2 ^ 7)) with (IZR (2 ^ 60)) by reflexivity.
      assert (IZR (2 ^ 7) = 128) by reflexivity.
      apply Rabs_def1; lra.
Qed.

(** With the new origin at [(2 ^ 60, 2 ^ 60)] the sum of the radii, 4, is
    below half the distance between neighbouring doubles: the bubble is put
    on the centre of the origin, or nowhere. *)
Lemma far_origin (m : Double.mathLibrary) :
  Double.conforming m ->
  let lastBubble :=
    Bubble (VNum (Fin 1152921504606846976)) (VNum (Fin 0)) (VNum (Fin 2))
           VNull VNull in
  let newOrigin :=
    Bubble (VNum (Fin 1152921504606846976))
           (VNum (Fin 1152921504606846976)) (VNum (Fin 3)) VNull VNull in
  let nextBubble := Bubble VNull VNull (VNum (Fin 1)) VNull VNull in
  ~ tangentWithin (1 / 1000000) newOrigin nextBubble
      (Double.positionBubble m lastBubble newOrigin nextBubble).
Proof.
  intros C lastBubble newOrigin nextBubble T.
  destruct (finalAngle_cases m lastBubble newOrigin nextBubble C)
    as [E|(t & E & Ht)].
  { destruct (positionBubble_NaN m lastBubble newOrigin nextBubble C E)
      as [N _].
    destruct T as (x & y & _ & _ & _ & _ & Hx & _). congruence. }
  destruct (Double.sin_near m C t Ht) as (sv & Es & Hs).
  destruct (Double.cos_near m C t Ht) as (cv & Ec & Hc).
  pose proof (SIN_bound t) as Hsb. pose proof (COS_bound t) as Hcb.
  assert (H52 : powerRZ 2 (-52) <= 1).
  { change 1 with (powerRZ 2 0). apply two_le. lia. }
  apply Rabs_le_inv in Hs, Hc.
  assert (E60 : IZR (2 ^ 60) = 1152921504606846976) by reflexivity.
  assert (Epos : Double.positionBubble m lastBubble newOrigin nextBubble
                 = Bubble (VNum (Fin 1152921504606846976))
                          (VNum (Fin 1152921504606846976))
                          (VNum (Fin 1)) VNull VNull).
  { unfold Double.positionBubble. rewrite E, Es, Ec.
    unfold lastBubble, newOrigin, nextBubble.
    cbn [slot0 slot1 slot2 slot3 slot4 toNumber].
    unfold Double.add, Double.sub, Double.mul.
    cbn [Num.add Double.lift].
    rewrite (round_int (3 + 1) 4) by (lra || lia).
    cbn [Num.mul Double.lift].
    destruct (round_moderate ((3 + 1) * sv) 8) as [E1 H1];
      [apply Rabs_le; lra|lra|].
    destruct (round_moderate ((3 + 1) * cv) 8) as [E2 H2];
      [apply Rabs_le; lra|lra|].
    rewrite E1, E2. cbn [Num.add Num.sub Double.lift].
    rewrite <- E60.
    replace (IZR (2 ^ 60) - Double.rnd ((3 + 1) * cv))
      with (IZR (2 ^ 60) + - Double.rnd ((3 + 1) * cv)) by ring.
    rewrite !absorbed by (rewrite ?Rabs_Ropp; lra).
    reflexivity. }
  rewrite Epos in T.
  destruct T as (x & y & ox & oy & ro & rn & Hx & Hy & Hox & Hoy & Hro & Hrn
                 & Hd).
  cbn [slot0 slot1 slot2 toNumber newOrigin nextBubble] in *.
  injection Hx as <-. injection Hy as <-. injection Hox as <-.
  injection Hoy as <-. injection Hro as <-. injection Hrn as <-.
  replace ((1152921504606846976 - 1152921504606846976) ^ 2
           + (1152921504606846976 - 1152921504606846976) ^ 2)
    with 0 in Hd by ring.
  rewrite sqrt_0 in Hd. apply Rabs_le_inv in Hd. lra.
Qed.


(** ** The theorems at examples *)

Lemma four_fits : 1 <= 4 <= powerRZ 2 500.
Proof.
  split; [lra|].
  replace 4 with (powerRZ 2 2) by (rewrite two_IZR by lia; reflexivity).
  apply two_le. lia.
Qed.

Lemma nine_small : 0 <= 9 <= powerRZ 2 28.
Proof.
  split; [lra|].
  apply Rle_trans with (powerRZ 2 4); [|apply two_le; lia].
  rewrite two_IZR by lia. assert (IZR (2 ^ 4) = 16) by reflexivity. lra.
Qed.

Lemma nine_fits : 1 <= 9 <= powerRZ 2 500.
Proof.
  split; [lra|].
  apply Rle_trans with (powerRZ 2 4); [|apply two_le; lia].
  rewrite two_IZR by lia. assert (IZR (2 ^ 4) = 16) by reflexivity. lra.
Qed.

Lemma four_small : 4 <= powerRZ 2 38.
Proof.
  replace 4 with (powerRZ 2 2) by (rewrite two_IZR by lia; reflexivity).
  apply two_le. lia.
Qed.

Lemma checkOverlap_tolerance_witness :
  Double.checkOverlap
    (Bubble (VNum (Fin 0)) (VNum (Fin 0)) (VNum (Fin 3)) VNull VNull)
    (Bubble (VNum (Fin 4)) (VNum (Fin 0)) (VNum (Fin 1)) VNull VNull)
  = false.
Proof.
  assert (A0 : Rabs 0 <= 4) by (rewrite Rabs_R0; lra).
  assert (A4 : Rabs 4 <= 4) by (rewrite Rabs_pos_eq; lra).
  destruct (checkOverlap_tolerance 4 0 0 3 4 0 1 VNull VNull VNull VNull
              four_fits A0 A0 A4 A0) as (_ & _ & H); [lra|lra|].
  apply H; [exact four_small|].
  apply sqrt_lem_1; lra.
Defined.

Lemma checkOverlap_rounding_immaterial_witness :
  Double.checkOverlap
    (Bubble (VNum (Fin 0)) (VNum (Fin 0)) (VNum (Fin 3)) VNull VNull)
    (Bubble (VNum (Fin 9)) (VNum (Fin 0)) (VNum (Fin 1)) VNull VNull)
  = checkOverlap
      (Bubble (VNum (Fin 0)) (VNum (Fin 0)) (VNum (Fin 3)) VNull VNull)
      (Bubble (VNum (Fin 9)) (VNum (Fin 0)) (VNum (Fin 1)) VNull VNull).
Proof.
  assert (A0 : Rabs 0 <= 9) by (rewrite Rabs_R0; lra).
  assert (A9 : Rabs 9 <= 9) by (rewrite Rabs_pos_eq; lra).
  apply (checkOverlap_rounding_immaterial 9 0 0 3 9 0 1 VNull VNull VNull
           VNull nine_fits A0 A0 A9 A0); [lra|lra|].
  right.
  assert (D : sqrt ((0 - 9) ^ 2 + (0 - 0) ^ 2) = 9) by (apply sqrt_lem_1; lra).
  rewrite D. pose proof (millionth_above 9 nine_small). lra.
Defined.

(** The quotient and the ratio for the last bubble at (0, -5) with radius
    2, the new origin at (0, 0) with radius 3 and the next radius 1. *)
Lemma quotient_inside :
  exists q : R,
    Double.cosAlfa
      (Bubble (VNum (Fin 0)) (VNum (Fin (-5))) (VNum (Fin 2)) VNull VNull)
      (Bubble (VNum (Fin 0)) (VNum (Fin 0)) (VNum (Fin 3)) VNull VNull)
      (Bubble VNull VNull (VNum (Fin 1)) VNull VNull)
    = Fin q /\ -1 <= q <= 1.
Proof.
  unfold Double.cosAlfa, Double.distance, Double.pow2.
  cbn [slot0 slot1 slot2 toNumber].
  unfold Double.sub, Double.add, Double.mul, Double.div, Double.sqrt.
  cbn [Num.sub Num.add Double.lift].
  rewrite (round_int (0 - 0) 0), (round_int (-5 - 0) (-5)),
    (round_int (1 + 3) 4), (round_int (1 + 2) 3) by (lra || lia).
  cbn [Num.mul Double.lift].
  rewrite (round_int ((0 - 0) * (0 - 0)) 0),
    (round_int ((-5 - 0) * (-5 - 0)) 25),
    (round_int ((1 + 3) * (1 + 3)) 16),
    (round_int ((1 + 2) * (1 + 2)) 9),
    (round_int (2 * (1 + 3)) 8) by (lra || lia).
  cbn [Num.add Double.lift].
  rewrite (round_int ((0 - 0) * (0 - 0) + (-5 - 0) * (-5 - 0)) 25)
    by (lra || lia).
  assert (D : sqrt ((0 - 0) * (0 - 0) + (-5 - 0) * (-5 - 0)) = 5)
    by (apply sqrt_lem_1; lra).
  rewrite sqrt_Fin by lra. rewrite D. cbn [Double.lift].
  rewrite (round_int 5 5) by (lra || lia).
  cbn [Num.mul Double.lift].
  rewrite (round_int (5 * 5) 25), (round_int (2 * (1 + 3) * 5) 40)
    by (lra || lia).
  cbn [Num.add Double.lift].
  rewrite (round_int (5 * 5 + (1 + 3) * (1 + 3)) 41) by (lra || lia).
  cbn [Num.sub Double.lift].
  rewrite (round_int (5 * 5 + (1 + 3) * (1 + 3) - (1 + 2) * (1 + 2)) 32)
    by (lra || lia).
  rewrite div_Fin by lra. cbn [Double.lift].
  set (x := (5 * 5 + (1 + 3) * (1 + 3) - (1 + 2) * (1 + 2)) / (2 * (1 + 3) * 5)).
  assert (Hx : x = 0.8) by (unfold x; lra).
  destruct (round_moderate x 1) as [E _]; [rewrite Hx, Rabs_pos_eq; lra|lra|].
  rewrite E. eexists. split; [reflexivity|].
  pose proof (rnd_bounds x) as Hb. rewrite Hx in *.
  rewrite (Rabs_pos_eq 0.8) in Hb by lra.
  destruct small_facts as (Hu & Hu1 & He & Hes & Hs & Hss & Heu). lra.
Qed.

Lemma ratio_inside :
  exists a : R,
    Double.sinBeta
      (Bubble (VNum (Fin 0)) (VNum (Fin (-5))) (VNum (Fin 2)) VNull VNull)
      (Bubble (VNum (Fin 0)) (VNum (Fin 0)) (VNum (Fin 3)) VNull VNull)
    = Fin a /\ -1 <= a <= 1.
Proof.
  unfold Double.sinBeta, Double.distance, Double.pow2.
  cbn [slot0 slot1 slot2 toNumber].
  unfold Double.sub, Double.add, Double.mul, Double.div, Double.sqrt.
  cbn [Num.sub Num.add Double.lift].
  rewrite (round_int (0 - 0) 0), (round_int (-5 - 0) (-5)) by (lra || lia).
  cbn [Num.mul Num.abs Double.lift].
  rewrite (round_int ((0 - 0) * (0 - 0)) 0),
    (round_int ((-5 - 0) * (-5 - 0)) 25) by (lra || lia).
  cbn [Num.add Double.lift].
  rewrite (round_int ((0 - 0) * (0 - 0) + (-5 - 0) * (-5 - 0)) 25)
    by (lra || lia).
  assert (D : sqrt ((0 - 0) * (0 - 0) + (-5 - 0) * (-5 - 0)) = 5)
    by (apply sqrt_lem_1; lra).
  rewrite sqrt_Fin by lra. rewrite D. cbn [Double.lift].
  rewrite (round_int 5 5) by (lra || lia).
  rewrite div_Fin by lra. cbn [Double.lift].
  rewrite (round_int _ 0)
    by (try lia; replace (0 - 0) with 0 by lra; rewrite Rabs_R0; lra).
  eexists. split; [reflexivity|].
  replace (0 - 0) with 0 by lra. rewrite Rabs_R0. lra.
Qed.


